(** * Ziggy self-play training core and the backgammon rules engine

    A shallow embedding of the parts of the repository that the specification
    makes claims about:

    - [Ziggy]: trajectory valuation ([TdLambdaReturns]), luck evaluation
      ([EvaluateLuck]), the action selection step of [PlayGame], the cache
      handling of the [learner] / [AlphaZero] wiring, the evaluation schedule
      ([EvalResults::Next]) and the states [learner] samples (ziggy.cc);
    - [Backgammon]: board, dice, legal move generation and action encoding
      (backgammon.h, backgammon.cc).

    C++ [double] values are modelled by exact rationals ([Q], compared with
    [==]); C++ [int] values by [Z], on the assumption that no signed overflow
    occurs (it is undefined behaviour in the source). *)

From Stdlib Require Import ZArith QArith Qabs Qminmax Lqa Lia List Bool Ascii String.
From stdpp Require Import base list gmap.
Import ListNotations.

Local Open Scope Z_scope.

(* ===================================================================== *)
(** * Fatal errors                                                        *)
(* ===================================================================== *)

(** [SpielFatalError] and a failed [SPIEL_CHECK_*] abort the process with a
    message; a computation that may do so returns a [result]. *)
Inductive result (A : Type) : Type :=
  | Returns (a : A)
  | FatalError (msg : string).
Arguments Returns {A} a.
Arguments FatalError {A} msg.

Definition bind {A B : Type} (r : result A) (f : A -> result B) : result B :=
  match r with
  | Returns a => f a
  | FatalError msg => FatalError msg
  end.

Notation "x <- e ;; k" := (bind e (fun x => k))
  (at level 100, e at next level, right associativity).

(* ===================================================================== *)
(** * Helpers of spiel_utils.h                                            *)
(* ===================================================================== *)

Module SpielUtils.

(** [FloatingPointDefaultThresholdRatio()] and [Near(a, b)] are declared in
    open_spiel/spiel_utils.h, a header of the repository that is not among the
    sources at hand. The functions that call [Near] below take it as a
    parameter; this definition is the comparison open_spiel ships,
    [a == b || |a - b| <= max(|a|, |b|) * 1e-5], and is used only to evaluate
    them at concrete inputs. *)
Definition FloatingPointDefaultThresholdRatio : Q := 1 # 100000.

Definition Near (a b : Q) : bool :=
  Qeq_bool a b
  || Qle_bool (Qabs (a - b))
       (Qmax (Qabs a) (Qabs b) * FloatingPointDefaultThresholdRatio).

End SpielUtils.

(* ===================================================================== *)
(** * Trajectory valuation, luck, self-play (ziggy.cc)                    *)
(* ===================================================================== *)

Module Ziggy.

(** [struct Trajectory::State]. *)
Record Trajectory_State := mkTrajState {
  observation : list Q;
  current_player : Z;
  action : Z;
  value : Q;        (* value after applying action *)
  accum_luck : Q    (* always for player 0 *)
}.

(** [struct Trajectory]. *)
Record Trajectory := mkTrajectory {
  states : list Trajectory_State;
  returns : list Q
}.

(** Reading a vector outside its bounds is undefined in the source; the model
    reads this state there. No theorem below relies on it. *)
Definition no_state : Trajectory_State := mkTrajState [] 0 0 0%Q 0%Q.

(** [trajectory.states[i]]. *)
Definition states_at (trajectory : Trajectory) (i : Z) : Trajectory_State :=
  nth (Z.to_nat i) (states trajectory) no_state.

(** [trajectory.states.back()]. *)
Definition states_back (trajectory : Trajectory) : Trajectory_State :=
  List.last (states trajectory) no_state.

(** [state.value * (state.current_player == 0 ? 1 : -1)]. *)
Definition value0 (st : Trajectory_State) : Q :=
  (value st * (if current_player st =? 0 then 1 else -1))%Q.

(** [std::max(-1.0, std::min(1.0, x))]. *)
Definition clip (x : Q) : Q := Qmax (-1) (Qmin 1 x).

Section TdLambda.

(** [Near] is declared in spiel_utils.h, which is not among the sources at
    hand: it is a parameter of the embedding. *)
Variable Near : Q -> Q -> bool.

(** The [for] loop of [TdLambdaReturns]: [rest] holds [states[i ..]]. *)
Fixpoint td_loop (rest : list Trajectory_State) (i : Z)
    (state_idx td_n_steps : Z) (accum_luck0 td_lambda lambda_inv : Q)
    (outcome retval lambda_pow : Q) : Q :=
  match rest with
  | [] => (retval + lambda_pow * outcome)%Q
  | i_state :: rest' =>
      let value := (value0 i_state - (accum_luck i_state - accum_luck0))%Q in
      if (0 <? td_n_steps) && (i =? state_idx + td_n_steps)
      then (retval + lambda_pow * value)%Q
      else td_loop rest' (i + 1) state_idx td_n_steps accum_luck0 td_lambda
             lambda_inv outcome
             (retval + lambda_inv * lambda_pow * value)%Q
             (lambda_pow * td_lambda)%Q
  end.

Definition TdLambdaReturns (trajectory : Trajectory) (state_idx : Z)
    (td_lambda : Q) (td_n_steps : Z) : Q :=
  let s_state := states_at trajectory state_idx in
  let accum_luck0 := accum_luck s_state in
  let outcome :=
    (nth 0 (returns trajectory) 0
     - (accum_luck (states_back trajectory) - accum_luck0))%Q in
  let outcome := clip outcome in
  if Qle_bool 1 td_lambda || Near td_lambda 1 then
    if td_n_steps <=? 0 then outcome
    else
      let idx := state_idx + td_n_steps in
      if idx >=? Z.of_nat (length (states trajectory)) then outcome
      else
        let n_state := states_at trajectory idx in
        (value0 n_state - (accum_luck n_state - accum_luck0))%Q
  else
    let retval := value0 s_state in
    if Qle_bool td_lambda 0 || Near td_lambda 0 then retval
    else
      let lambda_inv := (1 - td_lambda)%Q in
      let lambda_pow := td_lambda in
      let retval := (retval * lambda_inv)%Q in
      td_loop (drop (Z.to_nat (state_idx + 1)) (states trajectory))
        (state_idx + 1) state_idx td_n_steps accum_luck0 td_lambda lambda_inv
        outcome retval lambda_pow.

End TdLambda.

(** ** The closed form of the specification (section 4.7) *)

(** [lambda ^ k]. *)
Fixpoint qpow (q : Q) (k : nat) : Q :=
  match k with
  | O => 1%Q
  | S k' => (qpow q k' * q)%Q
  end.

(** [v_i]: the recorded value seen from player 0. *)
Definition spec_v (t : Trajectory) (i : nat) : Q :=
  value0 (nth i (states t) no_state).

(** [L_i = accum_luck_i - accum_luck_s]. *)
Definition spec_L (t : Trajectory) (s i : nat) : Q :=
  (accum_luck (nth i (states t) no_state)
   - accum_luck (nth s (states t) no_state))%Q.

(** [B]: the clipped terminal bootstrap. *)
Definition spec_B (t : Trajectory) (s : nat) : Q :=
  clip (nth 0 (returns t) 0
        - (accum_luck (states_back t)
           - accum_luck (nth s (states t) no_state)))%Q.

(** [sum_{k = from .. from+cnt-1} lambda^k * (v_{s+k} - L_{s+k})]. *)
Definition spec_sum (t : Trajectory) (s : nat) (lambda : Q)
    (from cnt : nat) : Q :=
  fold_right Qplus 0%Q
    (map (fun k => (qpow lambda k * (spec_v t (s + k) - spec_L t s (s + k)))%Q)
         (seq from cnt)).

(** The n-step cutoff is reached when [n > 0] and index [s + n] exists. *)
Definition spec_cutoff (t : Trajectory) (s n : nat) : bool :=
  (0 <? n)%nat && (s + n <? length (states t))%nat.

(** The lambda-mixture of the specification, for [0 < lambda < 1]. *)
Definition spec_mixture (t : Trajectory) (s : nat) (lambda : Q) (n : nat) : Q :=
  if spec_cutoff t s n then
    (spec_v t s * (1 - lambda)
     + (1 - lambda) * spec_sum t s lambda 1 (n - 1)
     + qpow lambda n * (spec_v t (s + n) - spec_L t s (s + n)))%Q
  else
    let m := (length (states t) - 1 - s)%nat in
    (spec_v t s * (1 - lambda)
     + (1 - lambda) * spec_sum t s lambda 1 m
     + qpow lambda (m + 1) * spec_B t s)%Q.

(** ** [EvaluateLuck] *)

Section Luck.

(** The game state is opaque to ziggy.cc: it is used through [Clone] followed
    by [ApplyAction], [ChanceOutcomes], [IsChanceNode], and the evaluator's
    [Evaluate], whose component 0 is the value for player 0. *)
Variable GameState : Type.
Variable IsChanceNode : GameState -> bool.
Variable ChanceOutcomes : GameState -> list (Z * Q).
Variable ApplyAction : GameState -> Z -> GameState.
Variable Evaluate : GameState -> list Q.

(** The body of the [for] loop over [state.ChanceOutcomes()], threading
    [avg_value], [action_value] and [found]. *)
Fixpoint luck_loop (state : GameState) (action : Z) (outcomes : list (Z * Q))
    (avg_value action_value : Q) (found : bool) : result (Q * Q * bool) :=
  match outcomes with
  | [] => Returns (avg_value, action_value, found)
  | (temp_action, temp_prob) :: rest =>
      let temp_state := ApplyAction state temp_action in
      let temp_value := nth 0 (Evaluate temp_state) 0%Q in
      if temp_action =? action then
        if found then FatalError "SPIEL_CHECK_FALSE(found)"
        else luck_loop state action rest
               (avg_value + temp_prob * temp_value)%Q temp_value true
      else luck_loop state action rest
             (avg_value + temp_prob * temp_value)%Q action_value found
  end.

Definition EvaluateLuck (state : GameState) (action : Z) : result Q :=
  if negb (IsChanceNode state)
  then FatalError "SPIEL_CHECK_TRUE(state.IsChanceNode())"
  else
    match luck_loop state action (ChanceOutcomes state) 0 0 false with
    | FatalError msg => FatalError msg
    | Returns (avg_value, action_value, found) =>
        if found then Returns (action_value - avg_value)%Q
        else FatalError "SPIEL_CHECK_TRUE(found)"
    end.

(** [V(s . a)]: the evaluator's player-0 value of the state after [a]. *)
Definition value_after (state : GameState) (a : Z) : Q :=
  nth 0 (Evaluate (ApplyAction state a)) 0%Q.

(** [sum_i p_i * V(s . a_i)]. *)
Definition expected_value (state : GameState) (outcomes : list (Z * Q)) : Q :=
  fold_right (fun ap acc => (snd ap * value_after state (fst ap) + acc)%Q) 0%Q
    outcomes.

End Luck.

(** ** The decision branch of [PlayGame] *)

(** [SearchNode] of mcts.h, with the fields [PlayGame] reads. *)
#[local] Unset Elimination Schemes.
Inductive SearchNode : Type :=
  mkSearchNode (node_action : Z) (node_player : Z) (explore_count : Z)
               (node_outcome : list Q) (node_eval : Q)
               (children : list SearchNode).
#[local] Set Elimination Schemes.

Definition node_action (n : SearchNode) : Z :=
  match n with mkSearchNode a _ _ _ _ _ => a end.
Definition node_player (n : SearchNode) : Z :=
  match n with mkSearchNode _ p _ _ _ _ => p end.
Definition explore_count (n : SearchNode) : Z :=
  match n with mkSearchNode _ _ c _ _ _ => c end.
Definition node_outcome (n : SearchNode) : list Q :=
  match n with mkSearchNode _ _ _ o _ _ => o end.
Definition node_eval (n : SearchNode) : Q :=
  match n with mkSearchNode _ _ _ _ e _ => e end.
Definition children (n : SearchNode) : list SearchNode :=
  match n with mkSearchNode _ _ _ _ _ c => c end.

(** Modelled from the spec: [SearchNode::BestChild] is defined in mcts.cc,
    which is not among the sources at hand; the specification describes it as
    the max-visits child. The first child with the largest visit count is
    taken (the root itself when it has no child). *)
Definition BestChild_spec (root : SearchNode) : SearchNode :=
  fold_left (fun best c => if explore_count best <? explore_count c then c else best)
    (tl (children root)) (hd root (children root)).

(** An [int] converted to [size_t] (64 bits), as the comparison
    [history.size() >= temperature_drop] does. *)
Definition size_t_of_int (x : Z) : Z := x mod 2 ^ 64.

Section PlayGame.

Variable BestChild : SearchNode -> SearchNode.

(** The choice of [action_node]: [history_size] is [history.size()].
    [temperature] is a parameter of [PlayGame] that its body never reads. *)
Definition select_action_node (root : SearchNode) (history_size : Z)
    (temperature : Q) (temperature_drop : Z) : result SearchNode :=
  if history_size >=? size_t_of_int temperature_drop
  then Returns (BestChild root)
  else FatalError "Need SampleFromChildren to use temp drop.".

(** The decision branch up to the state pushed on the trajectory. *)
Definition PlayGame_decision (player : Z) (root : SearchNode)
    (observation : list Q) (history_size : Z) (temperature : Q)
    (temperature_drop : Z) (accum_luck : Q)
    : result (SearchNode * Trajectory_State) :=
  match select_action_node root history_size temperature temperature_drop with
  | FatalError msg => FatalError msg
  | Returns action_node =>
      if negb (node_player action_node =? player)
      then FatalError "SPIEL_CHECK_TRUE(action_node->player == player)"
      else
        let action_value :=
          match node_outcome action_node with
          | [] => node_eval action_node
          | _ => nth (Z.to_nat player) (node_outcome action_node) 0%Q
          end in
        Returns (action_node,
                 mkTrajState observation player (node_action action_node)
                   action_value accum_luck)
  end.

End PlayGame.

(** ** The inference cache in [learner] and [AlphaZero] *)

(** Observations as the bytes the cache hashes; model outputs as values. *)
Definition Observation : Type := list Z.

(** Modelled from the spec: [VPNetEvaluator] (v_evaluator.cc) is not among the
    sources at hand. Per the specification its cache is keyed by the
    observation bytes and short-circuits identical requests; [ClearCache]
    empties it and [CacheInfo().size] is its number of entries. Batching and
    the capacity bound (LRU eviction) are left out. *)
Record VPNetEvaluator := mkEvaluator {
  cache : gmap Observation Q
}.

Definition CacheInfo_size (ev : VPNetEvaluator) : Z :=
  Z.of_nat (size (cache ev)).

Definition ClearCache (ev : VPNetEvaluator) : VPNetEvaluator :=
  mkEvaluator ∅.

(** [Evaluate]: a hit returns the cached value; a miss runs the network with
    the weights the devices currently hold and caches the result. *)
Definition Evaluate (net : Observation -> Q) (ev : VPNetEvaluator)
    (obs : Observation) : Q * VPNetEvaluator :=
  match cache ev !! obs with
  | Some v => (v, ev)
  | None => (net obs, mkEvaluator (<[obs := net obs]> (cache ev)))
  end.

(** The objects [AlphaZero] creates: two evaluators, [eval] and [inf_eval],
    each with a cache of its own, and the network the devices hold. *)
Record Pipeline := mkPipeline {
  eval : VPNetEvaluator;       (* passed to [learner] *)
  inf_eval : VPNetEvaluator;   (* passed to every [actor] and [evaluator] *)
  network : Observation -> Q
}.

(** The end of one [learner] step: the devices hold the newly trained weights
    and the learner's evaluator, [eval], is cleared when it is not empty. *)
Definition learner_step (trained : Observation -> Q) (p : Pipeline) : Pipeline :=
  let cache_info_size := CacheInfo_size (eval p) in
  mkPipeline
    (if 0 <? cache_info_size then ClearCache (eval p) else eval p)
    (inf_eval p)
    trained.

(** An [Evaluate] call from an actor or evaluator thread: they hold
    [inf_eval]. *)
Definition actor_evaluate (p : Pipeline) (obs : Observation) : Q * Pipeline :=
  let '(v, ev) := Evaluate (network p) (inf_eval p) obs in
  (v, mkPipeline (eval p) ev (network p)).

(** ** The evaluation schedule ([class EvalResults]) *)

(** [results_] holds one [CircularBuffer<double>] (circular_buffer.h, a header
    that is not among the sources at hand) for each difficulty; [EvalCount]
    and [Next] read only its size, which is what the model keeps of it. *)
Record EvalResults := mkEvalResults {
  results_size : Z;   (* results_.size() *)
  eval_num_ : Z
}.

(** The constructor: [count] buffers are put in [results_]. *)
Definition EvalResults_new (count : Z) : EvalResults :=
  mkEvalResults (Z.max 0 count) 0.

(** [Next]: which evaluation to do next, (difficulty, player0). The remainder
    is taken in [size_t]; with no buffer the source divides by zero. *)
Definition Next (r : EvalResults) : (Z * bool) * EvalResults :=
  let next := size_t_of_int (eval_num_ r) mod (results_size r * 2) in
  ((Z.quot next 2, negb (Z.rem next 2 =? 0)),
   mkEvalResults (results_size r) (eval_num_ r + 1)).

(** [k] calls of [Next] in a row, with what they return. *)
Fixpoint Next_calls (k : nat) (r : EvalResults)
    : list (Z * bool) * EvalResults :=
  match k with
  | O => ([], r)
  | S k' =>
      let '(out, r') := Next r in
      let '(outs, r'') := Next_calls k' r' in
      (out :: outs, r'')
  end.

(** ** The states [learner] samples for its statistics *)

Definition stage_count : Z := 7.

(** A [double] converted to [int]: the fraction is dropped. *)
Definition truncate (x : Q) : Z := Z.quot (Qnum x) (Zpos (Qden x)).

(** [int index = (trajectory->states.size() - 1) * static_cast<double>(stage)
    / (stage_count - 1)]; the subtraction is done in [size_t]. *)
Definition stage_index (states_size stage : Z) : Z :=
  truncate (inject_Z (size_t_of_int (states_size - 1)) * inject_Z stage
            / inject_Z (stage_count - 1))%Q.

End Ziggy.

(* ===================================================================== *)
(** * The backgammon rules engine (backgammon.h, backgammon.cc)           *)
(* ===================================================================== *)

Module Backgammon.

(** ** Constants (backgammon.h) *)

Definition kNumPlayers : Z := 2.
Definition kNumChanceOutcomes : Z := 21.
Definition kNumPoints : Z := 24.
Definition kNumDice : Z := 2.
Definition kNumDiceOutcomes : Z := 6.
Definition kXPlayerId : Z := 0.
Definition kOPlayerId : Z := 1.
Definition kPassPos : Z := -1.
Definition kNumCheckersPerPlayer : Z := 15.
Definition kBarPos : Z := 100.
Definition kScorePos : Z := 101.
Definition kNumMovesPerCheckerSequence : Z := 4.
Definition kNumSingleCheckerActions : Z := (kNumPoints + 1) * kNumDiceOutcomes.

Fixpoint ipow (a : Z) (b : nat) : Z :=
  match b with
  | O => 1
  | S b' => a * ipow a b'
  end.

Definition kNumCheckerActions : Z :=
  ipow (kNumSingleCheckerActions + 1) (Z.to_nat kNumMovesPerCheckerSequence).
Definition kEndTurnAction : Z := kNumCheckerActions + 1.
Definition kRollAction : Z := kNumCheckerActions + 2.
Definition kDoubleAction : Z := kNumCheckerActions + 3.
Definition kTakeAction : Z := kNumCheckerActions + 4.
Definition kDropAction : Z := kNumCheckerActions + 5.
Definition kNumDistinctActions : Z := kNumCheckerActions + 5.

(** The player ids of spiel_utils.h ([enum PlayerId]), a header that is not
    among the sources at hand. *)
Definition kChancePlayerId : Z := -1.
Definition kTerminalPlayerId : Z := -4.

Inductive ScoringType := kWinLossScoring | kEnableGammons | kFullScoring.

Inductive LegalLevel :=
  kNoDice | kLowDie | kHighDie | kTwoDice | kThreeDice | kFourDice.

(** [struct CheckerMove]; a pass is [(pos, num, hit) = (-1, -1, false)]. *)
Record CheckerMove := mkCheckerMove {
  pos : Z;   (* 0-23 for the points, or kBarPos *)
  num : Z;   (* 1-6 *)
  hit : bool
}.

(** [CheckerMove::operator<]. *)
Definition CheckerMove_lt (lhs rhs : CheckerMove) : bool :=
  pos lhs * 6 + (num lhs - 1) <? pos rhs * 6 + num rhs - 1.

Record TurnHistoryInfo := mkTurnHistoryInfo {
  thi_player : Z;
  thi_prev_player : Z;
  thi_dice : list Z;
  thi_remaining_dice : list Z;
  thi_action : Z;
  thi_double_turn : bool;
  thi_first_move_hit : bool;
  thi_second_move_hit : bool
}.

(** The data members of [BackgammonState]. The game object is used only for
    [NumCheckersPerPlayer], which depends on [hyper_backgammon_] alone, a
    flag the game hands to each state it creates. *)
Record BackgammonState := mkState {
  scoring_type_ : ScoringType;
  hyper_backgammon_ : bool;
  cur_player_ : Z;
  prev_player_ : Z;
  turns_ : Z;
  x_turns_ : Z;
  o_turns_ : Z;
  double_turn_ : bool;
  dice_ : list Z;
  remaining_dice_ : list Z;
  bar_ : list Z;
  scores_ : list Z;
  board_ : list (list Z);
  turn_history_info_ : list TurnHistoryInfo
}.

Definition set_cur_player (st : BackgammonState) (v : Z) : BackgammonState :=
  mkState (scoring_type_ st) (hyper_backgammon_ st) v (prev_player_ st)
    (turns_ st) (x_turns_ st) (o_turns_ st) (double_turn_ st) (dice_ st)
    (remaining_dice_ st) (bar_ st) (scores_ st) (board_ st)
    (turn_history_info_ st).

Definition set_prev_player (st : BackgammonState) (v : Z) : BackgammonState :=
  mkState (scoring_type_ st) (hyper_backgammon_ st) (cur_player_ st) v
    (turns_ st) (x_turns_ st) (o_turns_ st) (double_turn_ st) (dice_ st)
    (remaining_dice_ st) (bar_ st) (scores_ st) (board_ st)
    (turn_history_info_ st).

Definition set_turns (st : BackgammonState) (t x o : Z) : BackgammonState :=
  mkState (scoring_type_ st) (hyper_backgammon_ st) (cur_player_ st)
    (prev_player_ st) t x o (double_turn_ st) (dice_ st)
    (remaining_dice_ st) (bar_ st) (scores_ st) (board_ st)
    (turn_history_info_ st).

Definition set_dice (st : BackgammonState) (v : list Z) : BackgammonState :=
  mkState (scoring_type_ st) (hyper_backgammon_ st) (cur_player_ st)
    (prev_player_ st) (turns_ st) (x_turns_ st) (o_turns_ st)
    (double_turn_ st) v (remaining_dice_ st) (bar_ st) (scores_ st)
    (board_ st) (turn_history_info_ st).

Definition set_remaining_dice (st : BackgammonState) (v : list Z)
    : BackgammonState :=
  mkState (scoring_type_ st) (hyper_backgammon_ st) (cur_player_ st)
    (prev_player_ st) (turns_ st) (x_turns_ st) (o_turns_ st)
    (double_turn_ st) (dice_ st) v (bar_ st) (scores_ st) (board_ st)
    (turn_history_info_ st).

Definition set_bar (st : BackgammonState) (v : list Z) : BackgammonState :=
  mkState (scoring_type_ st) (hyper_backgammon_ st) (cur_player_ st)
    (prev_player_ st) (turns_ st) (x_turns_ st) (o_turns_ st)
    (double_turn_ st) (dice_ st) (remaining_dice_ st) v (scores_ st)
    (board_ st) (turn_history_info_ st).

Definition set_scores (st : BackgammonState) (v : list Z) : BackgammonState :=
  mkState (scoring_type_ st) (hyper_backgammon_ st) (cur_player_ st)
    (prev_player_ st) (turns_ st) (x_turns_ st) (o_turns_ st)
    (double_turn_ st) (dice_ st) (remaining_dice_ st) (bar_ st) v
    (board_ st) (turn_history_info_ st).

Definition set_board (st : BackgammonState) (v : list (list Z))
    : BackgammonState :=
  mkState (scoring_type_ st) (hyper_backgammon_ st) (cur_player_ st)
    (prev_player_ st) (turns_ st) (x_turns_ st) (o_turns_ st)
    (double_turn_ st) (dice_ st) (remaining_dice_ st) (bar_ st) (scores_ st)
    v (turn_history_info_ st).

Definition push_turn_history (st : BackgammonState) (h : TurnHistoryInfo)
    : BackgammonState :=
  mkState (scoring_type_ st) (hyper_backgammon_ st) (cur_player_ st)
    (prev_player_ st) (turns_ st) (x_turns_ st) (o_turns_ st)
    (double_turn_ st) (dice_ st) (remaining_dice_ st) (bar_ st) (scores_ st)
    (board_ st) (turn_history_info_ st ++ [h]).

(** ** Vectors *)

(** [v[i]] and [v[i] = x] on a [std::vector<int>]. An index outside the
    vector is undefined behaviour in the source; the model reads 0 and writes
    nothing there. *)
Definition at_ (v : list Z) (i : Z) : Z :=
  if i <? 0 then 0 else nth (Z.to_nat i) v 0.

Definition put (v : list Z) (i x : Z) : list Z :=
  if i <? 0 then v else <[Z.to_nat i := x]> v.

(** [b[p]], [b[p][i]] and [b[p][i] = x] on the board. *)
Definition row (b : list (list Z)) (p : Z) : list Z :=
  if p <? 0 then [] else nth (Z.to_nat p) b [].

Definition at2 (b : list (list Z)) (p i : Z) : Z := at_ (row b p) i.

Definition put2 (b : list (list Z)) (p i x : Z) : list (list Z) :=
  if p <? 0 then b else <[Z.to_nat p := put (row b p) i x]> b.

(** The integers [lo, lo+1, ..., lo+n-1]. *)
Definition zrange (lo : Z) (n : nat) : list Z :=
  map (fun k => lo + Z.of_nat k) (seq 0 n).

(** ** [std::set] *)

(** A [std::set] as the list of its elements in order; [set_insert] keeps the
    element already present when an equivalent one is inserted. *)
Fixpoint set_insert {A : Type} (lt : A -> A -> bool) (x : A) (s : list A)
    : list A :=
  match s with
  | [] => [x]
  | y :: s' =>
      if lt x y then x :: y :: s'
      else if lt y x then y :: set_insert lt x s'
      else y :: s'
  end.

(** ** Simple queries *)

Definition Opponent (player : Z) : Z := 1 - player.

Definition NumCheckersPerPlayer (hyper_backgammon : bool) : Z :=
  if hyper_backgammon then 3 else kNumCheckersPerPlayer.

Definition IsTerminal (st : BackgammonState) : bool :=
  (at_ (scores_ st) kXPlayerId =? NumCheckersPerPlayer (hyper_backgammon_ st))
  || (at_ (scores_ st) kOPlayerId =? NumCheckersPerPlayer (hyper_backgammon_ st)).

Definition CurrentPlayer (st : BackgammonState) : Z :=
  if IsTerminal st then kTerminalPlayerId else cur_player_ st.

(** [State::IsChanceNode] of spiel.h: [CurrentPlayer() == kChancePlayerId]. *)
Definition IsChanceNode (st : BackgammonState) : bool :=
  CurrentPlayer st =? kChancePlayerId.

Definition IsGammoned (st : BackgammonState) (player : Z) : bool :=
  if hyper_backgammon_ st then false
  else at_ (scores_ st) player =? 0.

Definition IsBackgammoned (st : BackgammonState) (player : Z) : bool :=
  if hyper_backgammon_ st then false
  else if 0 <? at_ (scores_ st) player then false
  else if 0 <? at_ (bar_ st) player then true
  else
    let scan_start := if player =? kXPlayerId then 0 else 18 in
    existsb (fun i => 0 <? at2 (board_ st) player i) (zrange scan_start 6).

Definition Returns_ (st : BackgammonState) : list Q :=
  let decide_winner :=
    if at_ (scores_ st) kXPlayerId =? 15 then Some (kXPlayerId, kOPlayerId)
    else if at_ (scores_ st) kOPlayerId =? 15 then Some (kOPlayerId, kXPlayerId)
    else None in
  match decide_winner with
  | None => [0%Q; 0%Q]
  | Some (winner, loser) =>
      let util_mag : Z :=
        match scoring_type_ st with
        | kWinLossScoring => 1
        | kEnableGammons => if IsGammoned st loser then 2 else 1
        | kFullScoring =>
            if IsBackgammoned st loser then 3
            else if IsGammoned st loser then 2 else 1
        end in
      let returns := [0%Q; 0%Q] in
      let returns := <[Z.to_nat winner := inject_Z util_mag]> returns in
      <[Z.to_nat loser := inject_Z (- util_mag)]> returns
  end.

Definition CountTotalCheckers (st : BackgammonState) (player : Z) : result Z :=
  let points := map (fun i => at2 (board_ st) player i) (zrange 0 24) in
  if existsb (fun c => c <? 0) points
  then FatalError "SPIEL_CHECK_GE(board_[player][i], 0)"
  else
    let total := fold_left Z.add points 0 in
    if at_ (bar_ st) player <? 0
    then FatalError "SPIEL_CHECK_GE(bar_[player], 0)"
    else
      let total := total + at_ (bar_ st) player in
      if at_ (scores_ st) player <? 0
      then FatalError "SPIEL_CHECK_GE(scores_[player], 0)"
      else Returns (total + at_ (scores_ st) player).

(** ** Positions *)

Definition PositionFromBar (player spaces : Z) : result Z :=
  if player =? kXPlayerId then Returns (-1 + spaces)
  else if player =? kOPlayerId then Returns (24 - spaces)
  else FatalError "Invalid player".

Definition PositionFrom (player from spaces : Z) : result Z :=
  if from =? kBarPos then PositionFromBar player spaces
  else if player =? kXPlayerId then
    let new_pos := from + spaces in
    Returns (if 23 <? new_pos then kScorePos else new_pos)
  else if player =? kOPlayerId then
    let new_pos := from - spaces in
    Returns (if new_pos <? 0 then kScorePos else new_pos)
  else FatalError "Invalid player".

Definition NumOppCheckers (st : BackgammonState) (player to : Z) : Z :=
  at2 (board_ st) (Opponent player) to.

Definition AllInHome (st : BackgammonState) (player : Z) : result bool :=
  if 0 <? at_ (bar_ st) player then Returns false
  else if player <? 0 then FatalError "SPIEL_CHECK_GE(player, 0)"
  else if 1 <? player then FatalError "SPIEL_CHECK_LE(player, 1)"
  else
    let scan_start := if player =? kXPlayerId then 0 else 6 in
    Returns (negb (existsb (fun i => 0 <? at2 (board_ st) player i)
                     (zrange scan_start 18))).

Definition FurthestCheckerInHome (st : BackgammonState) (player : Z) : Z :=
  let scan :=
    if player =? kXPlayerId then zrange 18 6
    else map (fun k => 5 - k) (zrange 0 6) in
  match find (fun i => 0 <? at2 (board_ st) player i) scan with
  | Some i => i
  | None => -1
  end.

(** ** Where a move ends, and whether it hits *)

(** [board(player, pos)]: the count on the bar or on a point. *)
Definition board (st : BackgammonState) (player pos : Z) : result Z :=
  if pos =? kBarPos then Returns (at_ (bar_ st) player)
  else if pos <? 0 then FatalError "SPIEL_CHECK_GE(pos, 0)"
  else if kNumPoints <=? pos then FatalError "SPIEL_CHECK_LT(pos, kNumPoints)"
  else Returns (at2 (board_ st) player pos).

Definition IsHit (st : BackgammonState) (player from_pos num : Z)
    : result bool :=
  if negb (from_pos =? kPassPos) then
    to <- PositionFrom player from_pos num ;;
    if negb (to =? kScorePos) then
      count <- board st (Opponent player) to ;;
      Returns (count =? 1)
    else Returns false
  else Returns false.

(** Whether an absolute position is off the board. *)
Definition IsOff (player pos : Z) : bool :=
  ((player =? kXPlayerId) && (23 <? pos))
  || ((player =? kOPlayerId) && (pos <? 0)).

Definition GetToPos (player from_pos pips : Z) : result Z :=
  if player =? kXPlayerId then
    Returns ((if from_pos =? kBarPos then -1 else from_pos) + pips)
  else if player =? kOPlayerId then
    Returns ((if from_pos =? kBarPos then 24 else from_pos) - pips)
  else FatalError "Player unrecognized.".

(** ** Applying and undoing one checker move *)

Definition ApplyCheckerMove (st : BackgammonState) (move : CheckerMove)
    : result (BackgammonState * bool) :=
  if pos move <? 0 then Returns (st, false)
  else
    let player := cur_player_ st in
    (* First, remove the checker. *)
    r <- (if pos move =? kBarPos then
            next_pos <- PositionFromBar player (num move) ;;
            Returns (set_bar st (put (bar_ st) player (at_ (bar_ st) player - 1)),
                     next_pos)
          else
            next_pos <- PositionFrom player (pos move) (num move) ;;
            Returns (set_board st (put2 (board_ st) player (pos move)
                                     (at2 (board_ st) player (pos move) - 1)),
                     next_pos)) ;;
    let '(st, next_pos) := r in
    let st := set_remaining_dice st
                (put (remaining_dice_ st) (num move - 1)
                   (at_ (remaining_dice_ st) (num move - 1) - 1)) in
    (* Now add the checker (or score). *)
    let st :=
      if next_pos =? kScorePos
      then set_scores st (put (scores_ st) player (at_ (scores_ st) player + 1))
      else set_board st (put2 (board_ st) player next_pos
                           (at2 (board_ st) player next_pos + 1)) in
    (* If there was a hit, remove the opponent's piece and add it to the bar. *)
    if hit move
       || (negb (next_pos =? kScorePos)
           && (at2 (board_ st) (Opponent player) next_pos =? 1))
    then
      let st := set_board st (put2 (board_ st) (Opponent player) next_pos
                                (at2 (board_ st) (Opponent player) next_pos - 1)) in
      let st := set_bar st (put (bar_ st) (Opponent player)
                              (at_ (bar_ st) (Opponent player) + 1)) in
      Returns (st, true)
    else Returns (st, false).

Definition UndoCheckerMove (st : BackgammonState) (move : CheckerMove)
    : result BackgammonState :=
  if pos move <? 0 then Returns st
  else
    let player := cur_player_ st in
    (* First, figure out the next position. *)
    next_pos <- (if pos move =? kBarPos
                 then PositionFromBar player (num move)
                 else PositionFrom player (pos move) (num move)) ;;
    (* If there was a hit, take it back out of the opponent's bar. *)
    let st :=
      if hit move then
        let st := set_bar st (put (bar_ st) (Opponent player)
                                (at_ (bar_ st) (Opponent player) - 1)) in
        set_board st (put2 (board_ st) (Opponent player) next_pos
                        (at2 (board_ st) (Opponent player) next_pos + 1))
      else st in
    (* Remove the moved checker or decrement the score. *)
    let st :=
      if next_pos =? kScorePos
      then set_scores st (put (scores_ st) player (at_ (scores_ st) player - 1))
      else set_board st (put2 (board_ st) player next_pos
                           (at2 (board_ st) player next_pos - 1)) in
    let st := set_remaining_dice st
                (put (remaining_dice_ st) (num move - 1)
                   (at_ (remaining_dice_ st) (num move - 1) + 1)) in
    (* Finally, return the checker to its original position. *)
    Returns
      (if pos move =? kBarPos
       then set_bar st (put (bar_ st) player (at_ (bar_ st) player + 1))
       else set_board st (put2 (board_ st) player (pos move)
                            (at2 (board_ st) player (pos move) + 1))).

(** ** Candidate moves for one die *)

(** The loop of [SingleCheckerMoves] over the points [i]. *)
Fixpoint SingleCheckerMoves_loop (st : BackgammonState) (player die : Z)
    (bFirstOnly all_in_home : bool) (points : list Z)
    (moves : list CheckerMove) : result (list CheckerMove) :=
  match points with
  | [] => Returns moves
  | i :: rest =>
      if 0 <? at2 (board_ st) player i then
        to <- PositionFrom player i die ;;
        if (to =? kScorePos) && all_in_home then
          (* Check whether a bear off move is legal. *)
          if ((player =? kXPlayerId) && (i + die =? 24))
             || ((player =? kOPlayerId) && (i - die =? -1))
          then
            let moves := set_insert CheckerMove_lt (mkCheckerMove i die false) moves in
            if bFirstOnly then Returns moves
            else SingleCheckerMoves_loop st player die bFirstOnly all_in_home rest moves
          else if i =? FurthestCheckerInHome st player then
            let moves := set_insert CheckerMove_lt (mkCheckerMove i die false) moves in
            if bFirstOnly then Returns moves
            else SingleCheckerMoves_loop st player die bFirstOnly all_in_home rest moves
          else SingleCheckerMoves_loop st player die bFirstOnly all_in_home rest moves
        else if negb (to =? kScorePos) && (NumOppCheckers st player to <=? 1) then
          (* Regular move. *)
          let is_hit := NumOppCheckers st player to =? 1 in
          let moves := set_insert CheckerMove_lt (mkCheckerMove i die is_hit) moves in
          if bFirstOnly then Returns moves
          else SingleCheckerMoves_loop st player die bFirstOnly all_in_home rest moves
        else SingleCheckerMoves_loop st player die bFirstOnly all_in_home rest moves
      else SingleCheckerMoves_loop st player die bFirstOnly all_in_home rest moves
  end.

Definition SingleCheckerMoves (st : BackgammonState) (die : Z)
    (bFirstOnly : bool) : result (list CheckerMove) :=
  let player := cur_player_ st in
  if 0 <? at_ (bar_ st) player then
    (* If there are any checkers on the bar, must move them out first. *)
    to <- PositionFromBar player die ;;
    if NumOppCheckers st player to <=? 1 then
      let is_hit := NumOppCheckers st player to =? 1 in
      Returns (set_insert CheckerMove_lt (mkCheckerMove kBarPos die is_hit) [])
    else Returns []
  else
    all_in_home <- AllInHome st player ;;
    SingleCheckerMoves_loop st player die bFirstOnly all_in_home
      (zrange 0 (Z.to_nat kNumPoints)) [].

(** ** The legal level *)

(** The loop of [NumMaxPlayableDies] over [moves_here]: [child] is the
    recursive call on the dice left, [rest_size] is [dice_to_play.size()]
    after the pop, [state] is the clone the search moves on. *)
Fixpoint NumMaxPlayableDies_loop
    (child : BackgammonState -> result (Z * BackgammonState)) (rest_size : Z)
    (moves : list CheckerMove) (state : BackgammonState) (child_max : Z)
    : result (Z * BackgammonState) :=
  match moves with
  | [] => Returns (1 + child_max, state)
  | move :: moves' =>
      applied <- ApplyCheckerMove state move ;;
      child_val <- child (fst applied) ;;
      state <- UndoCheckerMove (snd child_val) move ;;
      if fst child_val =? rest_size
      then Returns (1 + fst child_val, state)
      else NumMaxPlayableDies_loop child rest_size moves' state
             (Z.max child_max (fst child_val))
  end.

(** [NumMaxPlayableDies(state, dice_to_play)], with the dice in the order they
    are popped from the back of [dice_to_play]; [state] is the clone the
    search moves on, returned as the search leaves it. *)
Fixpoint NumMaxPlayableDies_popped (dice_popped : list Z)
    (state : BackgammonState) : result (Z * BackgammonState) :=
  match dice_popped with
  | [] => Returns (0, state)
  | die :: dice_to_play =>
      moves_here <- SingleCheckerMoves state die false ;;
      NumMaxPlayableDies_loop (NumMaxPlayableDies_popped dice_to_play)
        (Z.of_nat (length dice_to_play)) moves_here state (-1)
  end.

Definition NumMaxPlayableDies (state : BackgammonState)
    (dice_to_play : list Z) : result (Z * BackgammonState) :=
  NumMaxPlayableDies_popped (rev dice_to_play) state.

Definition DetermineLegalLevel (st : BackgammonState) : result LegalLevel :=
  match dice_ st with
  | [] => FatalError "DetermineLegalLevel called with empty dice."
  | _ =>
      let hi_die := Z.max (at_ (dice_ st) 0) (at_ (dice_ st) 1) in
      let lo_die := Z.min (at_ (dice_ st) 0) (at_ (dice_ st) 1) in
      let state := st in
      used <-
        (if hi_die =? lo_die then
           r <- NumMaxPlayableDies state [hi_die; hi_die; hi_die; hi_die] ;;
           Returns (fst r, true)
         else
           r <- NumMaxPlayableDies state [lo_die; hi_die] ;;
           let num_dice_used := fst r in
           (* the helper pops dice from the back: the high die was tried first *)
           let hi_die_used := 0 <? num_dice_used in
           if num_dice_used <? 2 then
             (* swap dice and try again *)
             r' <- NumMaxPlayableDies (snd r) [hi_die; lo_die] ;;
             Returns (Z.max num_dice_used (fst r'), hi_die_used)
           else Returns (num_dice_used, hi_die_used)) ;;
      let '(num_dice_used, hi_die_used) := used in
      Returns
        (if num_dice_used =? 1 then (if hi_die_used then kHighDie else kLowDie)
         else if num_dice_used =? 2 then kTwoDice
         else if num_dice_used =? 3 then kThreeDice
         else if num_dice_used =? 4 then kFourDice
         else kNoDice)
  end.

(** The number of dice each level obliges the player to play. *)
Definition LegalLevel_dice (level : LegalLevel) : nat :=
  match level with
  | kNoDice => 0
  | kLowDie | kHighDie => 1
  | kTwoDice => 2
  | kThreeDice => 3
  | kFourDice => 4
  end.

Definition InitRemainingDice (st : BackgammonState) : result BackgammonState :=
  match dice_ st with
  | [] => Returns st
  | _ =>
      let hi_die := Z.max (at_ (dice_ st) 0) (at_ (dice_ st) 1) in
      let lo_die := Z.min (at_ (dice_ st) 0) (at_ (dice_ st) 1) in
      let st := set_remaining_dice st (replicate (Z.to_nat kNumDiceOutcomes) 0) in
      level <- DetermineLegalLevel st ;;
      let incr (v : list Z) (i : Z) := put v i (at_ v i + 1) in
      let rd := remaining_dice_ st in
      Returns
        (match level with
         | kLowDie => set_remaining_dice st (incr rd (lo_die - 1))
         | kHighDie => set_remaining_dice st (incr rd (hi_die - 1))
         | kTwoDice =>
             set_remaining_dice st (incr (incr rd (lo_die - 1)) (hi_die - 1))
         | kThreeDice => set_remaining_dice st (put rd (hi_die - 1) 3)
         | kFourDice => set_remaining_dice st (put rd (hi_die - 1) 4)
         | kNoDice => st
         end)
  end.

Definition kChanceOutcomeValues : list (list Z) :=
  [ [1; 2]; [1; 3]; [1; 4]; [1; 5]; [1; 6]; [2; 3]; [2; 4];
    [2; 5]; [2; 6]; [3; 4]; [3; 5]; [3; 6]; [4; 5]; [4; 6];
    [5; 6]; [1; 1]; [2; 2]; [3; 3]; [4; 4]; [5; 5]; [6; 6] ].

Definition RollDice (st : BackgammonState) (action : Z) : result BackgammonState :=
  let st := set_dice st (dice_ st ++ [at2 kChanceOutcomeValues (action - 1) 0]) in
  let st := set_dice st (dice_ st ++ [at2 kChanceOutcomeValues (action - 1) 1]) in
  InitRemainingDice st.

(** ** Single-move candidates that keep the legal level *)

(** The inner loop of [LegalSingleCheckerMoves]: each candidate is tried on
    the clone [state] and kept when the other die can be played after it. *)
Fixpoint LegalSingleCheckerMoves_verify (state : BackgammonState)
    (other_die : Z) (moves_here moves : list CheckerMove)
    : result (BackgammonState * list CheckerMove) :=
  match moves_here with
  | [] => Returns (state, moves)
  | move :: rest =>
      applied <- ApplyCheckerMove state move ;;
      others <- SingleCheckerMoves (fst applied) other_die true ;;
      let moves :=
        match others with
        | [] => moves
        | _ => set_insert CheckerMove_lt move moves
        end in
      state <- UndoCheckerMove (fst applied) move ;;
      LegalSingleCheckerMoves_verify state other_die rest moves
  end.

(** The outer loop of [LegalSingleCheckerMoves] over [dice_]. *)
Fixpoint LegalSingleCheckerMoves_dice (this state : BackgammonState)
    (dice : list Z) (moves : list CheckerMove) : result (list CheckerMove) :=
  match dice with
  | [] => Returns moves
  | die :: rest =>
      if 0 <? at_ (remaining_dice_ this) (die - 1) then
        moves_here <- SingleCheckerMoves this die false ;;
        (* For each candidate move, verify the other die can be played. *)
        let other_die :=
          if die =? at_ (dice_ this) 0 then at_ (dice_ this) 1
          else at_ (dice_ this) 0 in
        r <- LegalSingleCheckerMoves_verify state other_die moves_here moves ;;
        LegalSingleCheckerMoves_dice this (fst r) rest (snd r)
      else LegalSingleCheckerMoves_dice this state rest moves
  end.

Definition LegalSingleCheckerMoves (st : BackgammonState)
    : result (list CheckerMove) :=
  let bNeedsVerification :=
    negb (at_ (dice_ st) 0 =? at_ (dice_ st) 1)
    && (0 <? at_ (remaining_dice_ st) (at_ (dice_ st) 0 - 1))
    && (0 <? at_ (remaining_dice_ st) (at_ (dice_ st) 1 - 1)) in
  if negb bNeedsVerification then
    match find (fun die => 0 <? at_ (remaining_dice_ st) (die - 1)) (dice_ st) with
    | Some die => SingleCheckerMoves st die false
    | None => Returns []
    end
  else LegalSingleCheckerMoves_dice st st (dice_ st) [].

(** ** Move sequences *)

(** [char] arithmetic: the value is reduced to 8 bits. *)
Definition char_of_int (z : Z) : ascii := ascii_of_N (Z.to_N (z mod 256)).

Definition PositionId (st : BackgammonState) : string :=
  let point (i : Z) : ascii :=
    if 0 <? at2 (board_ st) kXPlayerId i
    then char_of_int (65 + at2 (board_ st) kXPlayerId i - 1)      (* 'A' + n - 1 *)
    else if 0 <? at2 (board_ st) kOPlayerId i
    then char_of_int (97 + at2 (board_ st) kOPlayerId i - 1)      (* 'a' + n - 1 *)
    else char_of_int 45 in                                        (* '-' *)
  string_of_list_ascii
    (map point (zrange 0 24)
     ++ [ char_of_int (65 + at_ (bar_ st) kXPlayerId);
          char_of_int (97 + at_ (bar_ st) kOPlayerId) ]).

(** [class CheckerMoveSequence]. *)
Record CheckerMoveSequence := mkCheckerMoveSequence {
  moves_ : list CheckerMove;   (* sequence of moves *)
  state_ : BackgammonState;    (* resulting state after applying moves *)
  id_ : string                 (* a unique id of the resulting position *)
}.

(** [CheckerMoveSequence::operator<]: the ids compared as strings. *)
Definition CheckerMoveSequence_lt (lhs rhs : CheckerMoveSequence) : bool :=
  String.ltb (id_ lhs) (id_ rhs).

Definition CheckerMoveSequence_new (state : BackgammonState)
    : CheckerMoveSequence :=
  mkCheckerMoveSequence [] state EmptyString.

Definition AddMove (seq : CheckerMoveSequence) (move : CheckerMove)
    : result CheckerMoveSequence :=
  applied <- ApplyCheckerMove (state_ seq) move ;;
  Returns (mkCheckerMoveSequence (moves_ seq ++ [move]) (fst applied)
             (PositionId (fst applied))).

(** [for (move : moves) { new_seq(seq); new_seq.AddMove(move);
    seqs.insert(new_seq); }] *)
Fixpoint insert_extensions (seq : CheckerMoveSequence)
    (moves : list CheckerMove) (seqs : list CheckerMoveSequence)
    : result (list CheckerMoveSequence) :=
  match moves with
  | [] => Returns seqs
  | move :: rest =>
      new_seq <- AddMove seq move ;;
      insert_extensions seq rest (set_insert CheckerMoveSequence_lt new_seq seqs)
  end.

(** One pass of the loop over [seqs], filling [new_seqs]. *)
Fixpoint extend_sequences (seqs new_seqs : list CheckerMoveSequence)
    : result (list CheckerMoveSequence) :=
  match seqs with
  | [] => Returns new_seqs
  | seq :: rest =>
      moves <- LegalSingleCheckerMoves (state_ seq) ;;
      new_seqs <- insert_extensions seq moves new_seqs ;;
      extend_sequences rest new_seqs
  end.

(** The loop [for (i = 1; i < kNumMovesPerCheckerSequence; i++)], with the
    number of passes left. *)
Fixpoint LegalCheckerMoveSequences_passes (passes : nat)
    (seqs : list CheckerMoveSequence) : result (list CheckerMoveSequence) :=
  match passes with
  | O => Returns seqs
  | S passes' =>
      new_seqs <- extend_sequences seqs [] ;;
      match new_seqs with
      | [] => Returns seqs
      | _ => LegalCheckerMoveSequences_passes passes' new_seqs
      end
  end.

Definition LegalCheckerMoveSequences (st : BackgammonState)
    : result (list CheckerMoveSequence) :=
  moves <- LegalSingleCheckerMoves st ;;
  seqs <- insert_extensions (CheckerMoveSequence_new st) moves [] ;;
  match seqs with
  | [] => Returns seqs
  | _ =>
      LegalCheckerMoveSequences_passes
        (Z.to_nat (kNumMovesPerCheckerSequence - 1)) seqs
  end.

(** ** Actions *)

Section Actions.

(** [open_spiel::kPlayerCentricObs] is a compile-time flag of spiel.h, a
    header that is not among the sources at hand. *)
Variable kPlayerCentricObs : bool.

Definition EncodedBarMove : Z := 24.

Definition SingleCheckerMoveToSpielMove (st : BackgammonState)
    (move : CheckerMove) : result Z :=
  if pos move <? 0 then FatalError "SPIEL_CHECK_GE(move.pos, 0)"
  else if num move <? 1 then FatalError "SPIEL_CHECK_GE(move.num, 1)"
  else if 6 <? num move then FatalError "SPIEL_CHECK_LE(move.num, 6)"
  else
    let p :=
      if pos move =? kBarPos then EncodedBarMove
      else if kPlayerCentricObs && negb (CurrentPlayer st =? 0)
      then 23 - pos move
      else pos move in
    let action := p * kNumDiceOutcomes + num move in
    if action <=? 0 then FatalError "SPIEL_CHECK_GT(action, 0)"
    else if kNumSingleCheckerActions <? action
    then FatalError "SPIEL_CHECK_LE(action, kNumSingleCheckerActions)"
    else Returns action.

Fixpoint CheckerMovesToSpielMove_loop (st : BackgammonState)
    (moves : list CheckerMove) (action : Z) : result Z :=
  match moves with
  | [] => Returns action
  | move :: rest =>
      single <- SingleCheckerMoveToSpielMove st move ;;
      CheckerMovesToSpielMove_loop st rest
        (action * (kNumSingleCheckerActions + 1) + single)
  end.

Definition CheckerMovesToSpielMove (st : BackgammonState)
    (moves : list CheckerMove) : result Z :=
  CheckerMovesToSpielMove_loop st moves 0.

Definition SpielMoveToSingleCheckerMove (st : BackgammonState) (action : Z)
    : result CheckerMove :=
  if action <=? 0 then FatalError "SPIEL_CHECK_GT(action, 0)"
  else if kNumSingleCheckerActions <? action
  then FatalError "SPIEL_CHECK_LE(action, kNumSingleCheckerActions)"
  else
    let action := action - 1 in
    let p := action / kNumDiceOutcomes in
    let p :=
      if p =? EncodedBarMove then kBarPos
      else if kPlayerCentricObs && negb (CurrentPlayer st =? 0)
      then 23 - p   (* invert *)
      else p in
    let n := action mod kNumDiceOutcomes + 1 in
    Returns (mkCheckerMove p n false).

(** The [while (action > 0)] loop of [SpielMoveToCheckerMoves]. Each pass
    divides [action] by 151, so [fuel] passes are enough once
    [action < 2 ^ fuel]; with no fuel left the loop is cut short. *)
Fixpoint SpielMoveToCheckerMoves_loop (fuel : nat) (st : BackgammonState)
    (action : Z) (moves : list CheckerMove) : result (list CheckerMove) :=
  match fuel with
  | O => Returns moves
  | S fuel' =>
      if 0 <? action then
        let temp_action := action mod (kNumSingleCheckerActions + 1) in
        move <- SpielMoveToSingleCheckerMove st temp_action ;;
        SpielMoveToCheckerMoves_loop fuel' st
          (action / (kNumSingleCheckerActions + 1)) (move :: moves)
      else Returns moves
  end.

Definition SpielMoveToCheckerMoves (st : BackgammonState) (action : Z)
    : result (list CheckerMove) :=
  if action <=? 0 then FatalError "SPIEL_CHECK_GT(action, 0)"
  else if kNumCheckerActions <? action
  then FatalError "SPIEL_CHECK_LE(action, kNumCheckerActions)"
  else
    moves <- SpielMoveToCheckerMoves_loop (S (Z.to_nat (Z.log2 action))) st
               action [] ;;
    if kNumMovesPerCheckerSequence <? Z.of_nat (length moves)
    then FatalError "SPIEL_CHECK_LE(moves.size(), kNumMovesPerCheckerSequence)"
    else Returns moves.

(** ** Chance outcomes *)

Definition kChanceOutcomes : list (Z * Q) :=
  map (fun a => (a, 1 # 18)) (zrange 1 15) ++ map (fun a => (a, 1 # 36)) (zrange 16 6).

Definition kFirstRollChanceOutcomes : list (Z * Q) :=
  map (fun a => (a, 1 # 30)) (zrange 1 30).

Definition ChanceOutcomes (st : BackgammonState) : result (list (Z * Q)) :=
  if negb (IsChanceNode st) then FatalError "SPIEL_CHECK_TRUE(IsChanceNode())"
  else Returns (if turns_ st =? -1 then kFirstRollChanceOutcomes
                else kChanceOutcomes).

(** ** Legal actions *)

(** [std::sort] on the actions. *)
Fixpoint insert_sorted (a : Z) (l : list Z) : list Z :=
  match l with
  | [] => [a]
  | b :: l' => if a <=? b then a :: b :: l' else b :: insert_sorted a l'
  end.

Definition sort_actions (l : list Z) : list Z := fold_right insert_sorted [] l.

(** The loop of [LegalActions] over the sequences. *)
Fixpoint encode_sequences (st : BackgammonState)
    (seqs : list CheckerMoveSequence) (legal_actions : list Z)
    : result (list Z) :=
  match seqs with
  | [] => Returns legal_actions
  | seq :: rest =>
      action <- CheckerMovesToSpielMove st (moves_ seq) ;;
      encode_sequences st rest
        (if 0 <? action then legal_actions ++ [action] else legal_actions)
  end.

(** The loop of [LegalActions] over single moves
    ([kNumMovesPerCheckerSequence == 1]). *)
Fixpoint encode_moves (st : BackgammonState) (moves : list CheckerMove)
    (legal_actions : list Z) : result (list Z) :=
  match moves with
  | [] => Returns legal_actions
  | move :: rest =>
      action <- SingleCheckerMoveToSpielMove st move ;;
      encode_moves st rest (legal_actions ++ [action])
  end.

Definition LegalActions (st : BackgammonState) : result (list Z) :=
  if IsChanceNode st then
    outcomes <- ChanceOutcomes st ;;      (* LegalChanceOutcomes() *)
    Returns (map fst outcomes)
  else if IsTerminal st then Returns []
  else
    match dice_ st with
    | [] => Returns [kRollAction]
    | _ =>
        x <- CountTotalCheckers st kXPlayerId ;;
        if negb (x =? NumCheckersPerPlayer (hyper_backgammon_ st))
        then FatalError "SPIEL_CHECK_EQ(CountTotalCheckers(kXPlayerId), ...)"
        else
          o <- CountTotalCheckers st kOPlayerId ;;
          if negb (o =? NumCheckersPerPlayer (hyper_backgammon_ st))
          then FatalError "SPIEL_CHECK_EQ(CountTotalCheckers(kOPlayerId), ...)"
          else
            (* Checker play *)
            legal_actions <-
              (if kNumMovesPerCheckerSequence =? 1 then
                 moves <- LegalSingleCheckerMoves st ;;
                 match moves with
                 | [] => Returns [kEndTurnAction]
                 | _ => encode_moves st moves []
                 end
               else
                 seqs <- LegalCheckerMoveSequences st ;;
                 match seqs with
                 | [] => Returns [kEndTurnAction]
                 | _ => encode_sequences st seqs []
                 end) ;;
            Returns (sort_actions legal_actions)
    end.

(** ** Applying an action *)

Fixpoint apply_checker_moves (st : BackgammonState) (moves : list CheckerMove)
    (move_hit : bool) : result (BackgammonState * bool) :=
  match moves with
  | [] => Returns (st, move_hit)
  | move :: rest =>
      applied <- ApplyCheckerMove st move ;;
      apply_checker_moves (fst applied) rest (move_hit || snd applied)
  end.

Definition DoApplyAction (st : BackgammonState) (action : Z)
    : result BackgammonState :=
  if action <=? 0 then FatalError "SPIEL_CHECK_GT(action, 0)"
  else if kNumDistinctActions <? action
  then FatalError "SPIEL_CHECK_LE(action, kNumDistinctActions)"
  else if IsChanceNode st then
    let st := push_turn_history st
                (mkTurnHistoryInfo kChancePlayerId (prev_player_ st) (dice_ st)
                   (remaining_dice_ st) action (double_turn_ st) false false) in
    if turns_ st =? -1 then
      match dice_ st with
      | _ :: _ => FatalError "SPIEL_CHECK_TRUE(dice_.empty())"
      | [] =>
          let '(st, action) :=
            if action <=? 15
            then (set_prev_player (set_cur_player st kXPlayerId) kXPlayerId, action)
            else (set_prev_player (set_cur_player st kOPlayerId) kOPlayerId,
                  action - 15) in
          st <- RollDice st action ;;
          Returns (set_turns st 0 (x_turns_ st) (o_turns_ st))
      end
    else
      (* Normal chance node. *)
      match dice_ st with
      | _ :: _ => FatalError "SPIEL_CHECK_TRUE(dice_.empty())"
      | [] =>
          (* the player who chose to roll is now the current player *)
          let st := set_cur_player st (prev_player_ st) in
          RollDice st action
      end
  else
    match dice_ st with
    | [] =>
        (* cur_player just chose to roll *)
        if negb (action =? kRollAction)
        then FatalError "SPIEL_CHECK_EQ(action, kRollAction)"
        else
          let st := set_prev_player st (cur_player_ st) in
          Returns (set_cur_player st kChancePlayerId)
    | _ =>
        if action =? kEndTurnAction then
          let st :=
            set_turns st (turns_ st + 1)
              (if cur_player_ st =? kXPlayerId then x_turns_ st + 1 else x_turns_ st)
              (if cur_player_ st =? kXPlayerId then o_turns_ st
               else if cur_player_ st =? kOPlayerId then o_turns_ st + 1
               else o_turns_ st) in
          let st := set_cur_player st (Opponent (cur_player_ st)) in
          Returns (set_dice st [])
        else
          moves <- SpielMoveToCheckerMoves st action ;;
          r <- apply_checker_moves st moves false ;;
          let '(st, move_hit) := r in
          let st := push_turn_history st
                      (mkTurnHistoryInfo (cur_player_ st) (prev_player_ st)
                         (dice_ st) (remaining_dice_ st) action
                         (double_turn_ st) move_hit false) in
          Returns (set_prev_player st (cur_player_ st))
    end.

End Actions.

(** ** The initial state *)

(** [SetupInitialBoard]; [idx] is the random draw [500 * Uniform(0, 1)]
    truncated to an [int]. *)
Definition SetupInitialBoard (st : BackgammonState) (idx : Z) : BackgammonState :=
  if hyper_backgammon_ st then
    let b := board_ st in
    let b := put2 b kXPlayerId 2 1 in
    let b := put2 b kXPlayerId 1 1 in
    let b := put2 b kXPlayerId 0 1 in
    let b := put2 b kOPlayerId 21 1 in
    let b := put2 b kOPlayerId 22 1 in
    let b := put2 b kOPlayerId 23 1 in
    set_board st b
  else if idx <? 24 then
    let b := board_ st in
    let b := put2 b kOPlayerId (23 - idx) 15 in
    let b := put2 b kXPlayerId idx 15 in
    set_board st b
  else if idx <? 25 then
    set_bar st (put (put (bar_ st) 1 15) 0 15)
  else
    let b := board_ st in
    let b := put2 b kXPlayerId 0 2 in
    let b := put2 b kXPlayerId 11 5 in
    let b := put2 b kXPlayerId 16 3 in
    let b := put2 b kXPlayerId 18 5 in
    let b := put2 b kOPlayerId 23 2 in
    let b := put2 b kOPlayerId 12 5 in
    let b := put2 b kOPlayerId 7 3 in
    let b := put2 b kOPlayerId 5 5 in
    set_board st b.

(** The constructor of [BackgammonState]. *)
Definition NewInitialState (scoring_type : ScoringType)
    (hyper_backgammon : bool) (idx : Z) : BackgammonState :=
  SetupInitialBoard
    (mkState scoring_type hyper_backgammon kChancePlayerId kChancePlayerId
       (-1) 0 0 false [] [] [0; 0] [0; 0]
       [replicate (Z.to_nat kNumPoints) 0; replicate (Z.to_nat kNumPoints) 0]
       [])
    idx.

End Backgammon.

(* ===================================================================== *)
(** * Facts about trajectory valuation                                    *)
(* ===================================================================== *)

Module ZiggyFacts.
Import Ziggy.


Lemma drop_nth_cons {A} (l : list A) (i : nat) (d : A) :
  (i < length l)%nat -> drop i l = nth i l d :: drop (S i) l.
Proof.
  revert i. induction l as [|x l IH]; intros i Hi; simpl in *; [lia|].
  destruct i as [|i]; simpl; [reflexivity|].
  apply IH. lia.
Qed.

Lemma spec_sum_cons t s lambda from cnt :
  (spec_sum t s lambda from (S cnt) ==
   qpow lambda from * (spec_v t (s + from) - spec_L t s (s + from))
   + spec_sum t s lambda (S from) cnt)%Q.
Proof. unfold spec_sum. simpl. reflexivity. Qed.

Section Loop.
Variables (t : Trajectory) (s : nat) (td_n_steps : Z) (lambda : Q).

Let run (j : nat) (retval p : Q) : Q :=
  td_loop (drop (s + j) (states t)) (Z.of_nat s + Z.of_nat j) (Z.of_nat s)
    td_n_steps (accum_luck (nth s (states t) no_state)) lambda (1 - lambda)
    (spec_B t s) retval p.

(** The loop run to the end of the trajectory. *)
Lemma td_loop_terminal (cnt j : nat) (retval p : Q) :
  (td_n_steps <= 0 \/ Z.of_nat (length (states t)) <= Z.of_nat s + td_n_steps) ->
  (s + j + cnt = length (states t))%nat ->
  (p == qpow lambda j)%Q ->
  (run j retval p ==
   retval + (1 - lambda) * spec_sum t s lambda j cnt
   + qpow lambda (j + cnt) * spec_B t s)%Q.
Proof.
  intros Hn. revert j retval p.
  induction cnt as [|cnt IH]; intros j retval p Hlen Hp; unfold run.
  - rewrite drop_ge by lia. simpl. unfold spec_sum. simpl.
    replace (j + 0)%nat with j by lia. rewrite Hp. ring.
  - rewrite (drop_nth_cons _ _ no_state) by lia. simpl.
    replace ((0 <? td_n_steps) && (Z.of_nat s + Z.of_nat j =? Z.of_nat s + td_n_steps))
      with false by (symmetry; apply andb_false_iff; lia).
    specialize (IH (S j) (retval + (1 - lambda) * p *
       (value0 (nth (s + j) (states t) no_state)
        - (accum_luck (nth (s + j) (states t) no_state)
           - accum_luck (nth s (states t) no_state))))%Q (p * lambda)%Q).
    unfold run in IH.
    replace (s + S j)%nat with (S (s + j)) in IH by lia.
    replace (Z.of_nat s + Z.of_nat (S j)) with (Z.of_nat s + Z.of_nat j + 1) in IH by lia.
    rewrite IH; [| lia | simpl; rewrite Hp; reflexivity].
    rewrite spec_sum_cons.
    replace (S j + cnt)%nat with (j + S cnt)%nat by lia.
    unfold spec_v, spec_L. rewrite Hp. ring.
Qed.

(** The loop cut at step [n = td_n_steps]. *)
Lemma td_loop_cutoff (cnt j n : nat) (retval p : Q) :
  td_n_steps = Z.of_nat n -> (0 < n)%nat ->
  (s + n < length (states t))%nat ->
  (j + cnt = n)%nat ->
  (p == qpow lambda j)%Q ->
  (run j retval p ==
   retval + (1 - lambda) * spec_sum t s lambda j cnt
   + qpow lambda n * (spec_v t (s + n) - spec_L t s (s + n)))%Q.
Proof.
  intros Hn Hpos Hin. revert j retval p.
  induction cnt as [|cnt IH]; intros j retval p Hj Hp; unfold run.
  - rewrite (drop_nth_cons _ _ no_state) by lia. simpl.
    replace ((0 <? td_n_steps) && (Z.of_nat s + Z.of_nat j =? Z.of_nat s + td_n_steps))
      with true by (symmetry; apply andb_true_iff; lia).
    unfold spec_sum. simpl. replace n with j by lia.
    unfold spec_v, spec_L. rewrite Hp. ring.
  - rewrite (drop_nth_cons _ _ no_state) by lia. simpl.
    replace ((0 <? td_n_steps) && (Z.of_nat s + Z.of_nat j =? Z.of_nat s + td_n_steps))
      with false by (symmetry; apply andb_false_iff; lia).
    specialize (IH (S j) (retval + (1 - lambda) * p *
       (value0 (nth (s + j) (states t) no_state)
        - (accum_luck (nth (s + j) (states t) no_state)
           - accum_luck (nth s (states t) no_state))))%Q (p * lambda)%Q).
    unfold run in IH.
    replace (s + S j)%nat with (S (s + j)) in IH by lia.
    replace (Z.of_nat s + Z.of_nat (S j)) with (Z.of_nat s + Z.of_nat j + 1) in IH by lia.
    rewrite IH; [| lia | simpl; rewrite Hp; reflexivity].
    rewrite spec_sum_cons.
    unfold spec_v, spec_L. rewrite Hp. ring.
Qed.

End Loop.

Lemma Qle_bool_false (a b : Q) : (b < a)%Q -> Qle_bool a b = false.
Proof.
  intros H. destruct (Qle_bool a b) eqn:E; [|reflexivity].
  apply Qle_bool_iff in E. lra.
Qed.

Lemma Qle_bool_true (a b : Q) : (a <= b)%Q -> Qle_bool a b = true.
Proof. intros H. now apply Qle_bool_iff. Qed.

Lemma states_at_of_nat t (i : nat) : states_at t (Z.of_nat i) = nth i (states t) no_state.
Proof. unfold states_at. now rewrite Nat2Z.id. Qed.

(** The three regimes of [TdLambdaReturns], for any [Near]. *)
Lemma TdLambdaReturns_mixture Near t (s n : nat) (lambda : Q) :
  (s < length (states t))%nat ->
  (0 < lambda)%Q -> (lambda < 1)%Q ->
  Near lambda 1%Q = false -> Near lambda 0%Q = false ->
  (TdLambdaReturns Near t (Z.of_nat s) lambda (Z.of_nat n)
   == spec_mixture t s lambda n)%Q.
Proof.
  intros Hs H0 H1 N1 N0. unfold TdLambdaReturns.
  rewrite (Qle_bool_false 1 lambda), N1 by assumption.
  rewrite (Qle_bool_false lambda 0), N0 by assumption. simpl orb. cbv iota.
  rewrite states_at_of_nat.
  replace (Z.to_nat (Z.of_nat s + 1)) with (s + 1)%nat by lia.
  replace (Z.of_nat s + 1) with (Z.of_nat s + Z.of_nat 1) by lia.
  unfold spec_mixture, spec_cutoff.
  destruct ((0 <? n)%nat && (s + n <? length (states t))%nat) eqn:C.
  - apply andb_true_iff in C. destruct C as [C1 C2].
    apply Nat.ltb_lt in C1, C2.
    rewrite (td_loop_cutoff t s (Z.of_nat n) lambda (n - 1) 1 n);
      [ unfold spec_v; ring | reflexivity | lia | lia | lia | simpl; ring ].
  - apply andb_false_iff in C.
    rewrite (td_loop_terminal t s (Z.of_nat n) lambda (length (states t) - 1 - s) 1).
    + replace (1 + (length (states t) - 1 - s))%nat
        with (length (states t) - 1 - s + 1)%nat by lia.
      unfold spec_v. ring.
    + destruct C as [C|C]; [apply Nat.ltb_ge in C | apply Nat.ltb_ge in C]; lia.
    + lia.
    + simpl; ring.
Qed.

Lemma TdLambdaReturns_lambda_one Near t (s n : nat) (lambda : Q) :
  (1 <= lambda)%Q \/ Near lambda 1%Q = true ->
  TdLambdaReturns Near t (Z.of_nat s) lambda (Z.of_nat n)
  = if (n =? 0)%nat || (length (states t) <=? s + n)%nat
    then spec_B t s
    else (spec_v t (s + n) - spec_L t s (s + n))%Q.
Proof.
  intros H. unfold TdLambdaReturns.
  replace (Qle_bool 1 lambda || Near lambda 1%Q) with true.
  2:{ symmetry. apply orb_true_iff.
      destruct H as [H|H]; [left; now apply Qle_bool_true | now right]. }
  rewrite !states_at_of_nat.
  destruct n as [|n].
  - reflexivity.
  - replace (Z.of_nat (S n) <=? 0) with false by (symmetry; apply Z.leb_gt; lia).
    simpl orb.
    destruct (length (states t) <=? s + S n)%nat eqn:E.
    + apply Nat.leb_le in E.
      replace (Z.of_nat s + Z.of_nat (S n) >=? Z.of_nat (length (states t)))
        with true by (symmetry; apply Z.geb_le; lia).
      reflexivity.
    + apply Nat.leb_gt in E.
      replace (Z.of_nat s + Z.of_nat (S n) >=? Z.of_nat (length (states t)))
        with false.
      2:{ symmetry. rewrite Z.geb_leb. apply Z.leb_gt. lia. }
      replace (Z.of_nat s + Z.of_nat (S n)) with (Z.of_nat (s + S n)) by lia.
      rewrite states_at_of_nat. reflexivity.
Qed.

Lemma TdLambdaReturns_lambda_zero Near t (s : nat) (n : Z) (lambda : Q) :
  (lambda < 1)%Q -> Near lambda 1%Q = false ->
  (lambda <= 0)%Q \/ Near lambda 0%Q = true ->
  TdLambdaReturns Near t (Z.of_nat s) lambda n = spec_v t s.
Proof.
  intros H1 N1 H. unfold TdLambdaReturns.
  rewrite (Qle_bool_false 1 lambda), N1 by assumption. simpl orb. cbv iota.
  replace (Qle_bool lambda 0 || Near lambda 0%Q) with true.
  2:{ symmetry. apply orb_true_iff.
      destruct H as [H|H]; [left; now apply Qle_bool_true | now right]. }
  now rewrite states_at_of_nat.
Qed.




(** ** Claims about [TdLambdaReturns] *)

(** C1 (as amended): for a state index [s] of the trajectory and
    [td_n_steps = n >= 0], [TdLambdaReturns] is
    - the lambda-mixture [spec_mixture] of the specification when
      [0 < lambda < 1] and [lambda] is [Near] neither 1.0 nor 0.0;
    - the clipped bootstrap [B] (when [n = 0] or [s + n] is past the end) or
      the n-step value [v_{s+n} - L_{s+n}] when [lambda >= 1] or
      [Near(lambda, 1.0)];
    - [v_s] when [lambda <= 0] or [Near(lambda, 0.0)], provided the previous
      case does not apply. *)
Theorem TdLambdaReturns_closed_form Near t (s n : nat) (lambda : Q) :
  (s < length (states t))%nat ->
  ((0 < lambda)%Q -> (lambda < 1)%Q ->
   Near lambda 1%Q = false -> Near lambda 0%Q = false ->
   (TdLambdaReturns Near t (Z.of_nat s) lambda (Z.of_nat n)
    == spec_mixture t s lambda n)%Q)
  /\ ((1 <= lambda)%Q \/ Near lambda 1%Q = true ->
      TdLambdaReturns Near t (Z.of_nat s) lambda (Z.of_nat n)
      = if (n =? 0)%nat || (length (states t) <=? s + n)%nat
        then spec_B t s
        else (spec_v t (s + n) - spec_L t s (s + n))%Q)
  /\ ((lambda < 1)%Q -> Near lambda 1%Q = false ->
      (lambda <= 0)%Q \/ Near lambda 0%Q = true ->
      TdLambdaReturns Near t (Z.of_nat s) lambda (Z.of_nat n) = spec_v t s).
Proof.
  intros Hs. repeat split.
  - intros. now apply TdLambdaReturns_mixture.
  - intros. now apply TdLambdaReturns_lambda_one.
  - intros. now apply TdLambdaReturns_lambda_zero.
Qed.

(** Scenario S3 of the specification: [v = [0.2, 0.4, -0.1]],
    [accum_luck = [0, 0.1, 0.1]], player-0 return [+1]. *)
Definition trajectory_S3 : Trajectory :=
  mkTrajectory
    [ mkTrajState [] 0 0 (2 # 10) 0;
      mkTrajState [] 1 0 (- (4 # 10)) (1 # 10);
      mkTrajState [] 0 0 (- (1 # 10)) (1 # 10) ]
    [ 1%Q; (-1)%Q ].

Lemma TdLambdaReturns_closed_form_witness :
  (TdLambdaReturns SpielUtils.Near trajectory_S3 0 (1 # 2) 0
   == (2 # 10) * (1 # 2)
      + (1 # 2) * ((1 # 2) * ((4 # 10) - (1 # 10) - 0)
                   + (1 # 4) * (- (1 # 10) - (1 # 10) - 0))
      + (1 # 8) * (9 # 10))%Q.
Proof.
  assert (Hs : (0 < length (states trajectory_S3))%nat) by (simpl; lia).
  rewrite (proj1 (TdLambdaReturns_closed_form SpielUtils.Near trajectory_S3
                    0 0 (1 # 2) Hs)).
  - vm_compute. reflexivity.
  - reflexivity.
  - reflexivity.
  - reflexivity.
  - reflexivity.
Defined.

(** C1 fails as stated: [lambda = 0.999999] lies strictly between 0 and 1,
    yet [Near(lambda, 1.0)] holds and the function returns the bootstrap [B],
    not the mixture. *)
Definition trajectory_near_one : Trajectory :=
  mkTrajectory
    [ mkTrajState [] 0 0 0 0; mkTrajState [] 0 0 (1 # 2) 0 ]
    [ 1%Q; (-1)%Q ].

Lemma TdLambdaReturns_near_one_counterexample :
  (0 < 999999 # 1000000)%Q /\ (999999 # 1000000 < 1)%Q
  /\ (TdLambdaReturns SpielUtils.Near trajectory_near_one 0 (999999 # 1000000) 0
      == 1)%Q
  /\ ~ (TdLambdaReturns SpielUtils.Near trajectory_near_one 0 (999999 # 1000000) 0
        == spec_mixture trajectory_near_one 0 (999999 # 1000000) 0)%Q.
Proof.
  repeat split; try reflexivity.
  vm_compute. discriminate.
Qed.





(** ** [EvaluateLuck] *)

Section LuckFacts.
Variable GameState : Type.
Variable IsChanceNode : GameState -> bool.
Variable ChanceOutcomes : GameState -> list (Z * Q).
Variable ApplyAction : GameState -> Z -> GameState.
Variable Evaluate : GameState -> list Q.

Let V := value_after GameState ApplyAction Evaluate.
Let E := expected_value GameState ApplyAction Evaluate.
Let loop := luck_loop GameState ApplyAction Evaluate.

(** Once the chosen action has been met, it must not occur again. *)
Lemma luck_loop_found state action outcomes avg av :
  ~ In action (map fst outcomes) ->
  exists avg', loop state action outcomes avg av true = Returns (avg', av, true)
               /\ (avg' == avg + E state outcomes)%Q.
Proof.
  revert avg. induction outcomes as [|[a p] rest IH]; intros avg Hnot; simpl.
  - exists avg. split; [reflexivity|]. unfold E. simpl. ring.
  - simpl in Hnot.
    destruct (a =? action) eqn:Ea; [apply Z.eqb_eq in Ea; tauto|].
    destruct (IH (avg + p * nth 0 (Evaluate (ApplyAction state a)) 0)%Q)
      as (avg' & H1 & H2); [tauto|].
    exists avg'. split; [exact H1|]. rewrite H2.
    unfold E, expected_value, value_after. simpl. ring.
Qed.

Lemma luck_loop_not_found state action outcomes avg av :
  List.NoDup (map fst outcomes) -> In action (map fst outcomes) ->
  exists avg', loop state action outcomes avg av false
               = Returns (avg', V state action, true)
               /\ (avg' == avg + E state outcomes)%Q.
Proof.
  revert avg. induction outcomes as [|[a p] rest IH]; intros avg Hnd Hin; simpl.
  - destruct Hin.
  - simpl in Hnd, Hin. apply NoDup_cons_iff in Hnd. destruct Hnd as [Hna Hnd].
    destruct (a =? action) eqn:Ea.
    + apply Z.eqb_eq in Ea. subst a.
      destruct (luck_loop_found state action rest
                  (avg + p * nth 0 (Evaluate (ApplyAction state action)) 0)%Q
                  (nth 0 (Evaluate (ApplyAction state action)) 0%Q) Hna)
        as (avg' & H1 & H2).
      exists avg'. split; [exact H1|]. rewrite H2.
      unfold E, expected_value, value_after. simpl. ring.
    + apply Z.eqb_neq in Ea.
      destruct (IH (avg + p * nth 0 (Evaluate (ApplyAction state a)) 0)%Q)
        as (avg' & H1 & H2); [assumption | tauto |].
      exists avg'. split; [exact H1|]. rewrite H2.
      unfold E, expected_value, value_after. simpl. ring.
Qed.

(** C6: at a chance state whose outcomes list each action once, for a chosen
    action [a] among them, [EvaluateLuck] returns
    [V(s . a) - sum_i p_i * V(s . a_i)]. *)
Theorem EvaluateLuck_spec (state : GameState) (a : Z) :
  IsChanceNode state = true ->
  List.NoDup (map fst (ChanceOutcomes state)) ->
  In a (map fst (ChanceOutcomes state)) ->
  exists luck,
    EvaluateLuck GameState IsChanceNode ChanceOutcomes ApplyAction Evaluate
      state a = Returns luck
    /\ (luck == value_after GameState ApplyAction Evaluate state a
               - expected_value GameState ApplyAction Evaluate state
                   (ChanceOutcomes state))%Q.
Proof.
  intros Hc Hnd Hin. unfold EvaluateLuck. rewrite Hc. simpl negb. cbv iota.
  destruct (luck_loop_not_found state a (ChanceOutcomes state) 0 0 Hnd Hin)
    as (avg' & H1 & H2).
  unfold loop in H1. rewrite H1.
  eexists. split; [reflexivity|]. rewrite H2. unfold V, E. ring.
Qed.

End LuckFacts.

(** Scenario S4: outcomes [(1, 0.5), (2, 0.5)] with [V = +0.4] after action 1
    and [V = -0.4] after action 2; action 1 is chosen. The state is the
    history of actions. *)
Definition S4_outcomes (h : list Z) : list (Z * Q) := [ (1, 1 # 2); (2, 1 # 2) ].
Definition S4_apply (h : list Z) (a : Z) : list Z := h ++ [a].
Definition S4_evaluate (h : list Z) : list Q :=
  match List.last h 0 with
  | 1 => [ 4 # 10; - (4 # 10) ]%Q
  | _ => [ - (4 # 10); 4 # 10 ]%Q
  end.

Lemma EvaluateLuck_spec_witness :
  exists luck,
    EvaluateLuck (list Z) (fun _ => true) S4_outcomes S4_apply S4_evaluate [] 1
    = Returns luck
    /\ (luck == 4 # 10)%Q.
Proof.
  destruct (EvaluateLuck_spec (list Z) (fun _ => true) S4_outcomes S4_apply
              S4_evaluate [] 1) as (luck & H1 & H2).
  - reflexivity.
  - simpl. repeat constructor; simpl; intuition lia.
  - simpl. lia.
  - exists luck. split; [exact H1|]. rewrite H2. vm_compute. reflexivity.
Defined.

(** ** Action selection in [PlayGame] *)

Lemma size_t_of_int_small (x : Z) : 0 <= x < 2 ^ 64 -> size_t_of_int x = x.
Proof. intros H. unfold size_t_of_int. now apply Z.mod_small. Qed.

(** C7 (as amended): with [0 <= temperature_drop], at or after
    [temperature_drop] moves [PlayGame] takes [BestChild] of the root; before
    that it stops with a fatal error, whatever the temperature: sampling from
    the children is not implemented. *)
Theorem select_action_node_spec BestChild root (history_size : Z)
    (temperature : Q) (temperature_drop : Z) :
  0 <= history_size < 2 ^ 64 -> 0 <= temperature_drop < 2 ^ 64 ->
  select_action_node BestChild root history_size temperature temperature_drop
  = if temperature_drop <=? history_size
    then Returns (BestChild root)
    else FatalError "Need SampleFromChildren to use temp drop.".
Proof.
  intros Hh Ht. unfold select_action_node.
  rewrite size_t_of_int_small by assumption.
  rewrite Z.geb_leb. reflexivity.
Qed.

Definition two_child_root : SearchNode :=
  mkSearchNode 0 0 10 [] 0
    [ mkSearchNode 7 0 3 [] (1 # 10) []; mkSearchNode 8 0 7 [] (2 # 10) [] ].

Lemma select_action_node_spec_witness :
  select_action_node BestChild_spec two_child_root 4 1 4
  = Returns (mkSearchNode 8 0 7 [] (2 # 10) []).
Proof.
  rewrite (select_action_node_spec BestChild_spec two_child_root 4 1 4).
  - reflexivity.
  - lia.
  - lia.
Defined.

(** C7 fails as stated: before [temperature_drop] moves nothing is sampled;
    the first decision of a game with [temperature_drop = 10] is a fatal
    error. *)
Lemma select_action_node_counterexample :
  select_action_node BestChild_spec two_child_root 0 1 10
  = FatalError "Need SampleFromChildren to use temp drop."
  /\ PlayGame_decision BestChild_spec 0 two_child_root [] 0 1 10 0
     = FatalError "Need SampleFromChildren to use temp drop.".
Proof. split; reflexivity. Qed.

(** ** The inference cache across a learner step *)

(** The learner step never touches the evaluator of the actors. *)
Lemma learner_step_inf_eval trained p :
  inf_eval (learner_step trained p) = inf_eval p.
Proof. reflexivity. Qed.

(** The pipeline after an actor has evaluated the observation [[1; 2; 3]]
    with a network that values everything at [1/4]. *)
Definition pipeline_before_step : Pipeline :=
  snd (actor_evaluate
         (mkPipeline (mkEvaluator ∅) (mkEvaluator ∅) (fun _ => 1 # 4))
         [1; 2; 3]).

(** C3 fails on the code: after a learner step that installs a network
    valuing everything at [3/4], an actor's [Evaluate] of the same observation
    still returns the [1/4] cached before the step. *)
Theorem learner_step_keeps_stale_value :
  fst (actor_evaluate (learner_step (fun _ => 3 # 4) pipeline_before_step)
         [1; 2; 3]) = (1 # 4)%Q
  /\ network (learner_step (fun _ => 3 # 4) pipeline_before_step) [1; 2; 3]
     = (3 # 4)%Q.
Proof. split; vm_compute; reflexivity. Qed.


(** ** When [EvaluateLuck] aborts *)

Section LuckChecks.
Variable GameState : Type.
Variable IsChanceNode : GameState -> bool.
Variable ChanceOutcomes : GameState -> list (Z * Q).
Variable ApplyAction : GameState -> Z -> GameState.
Variable Evaluate : GameState -> list Q.

(** How often [action] is listed among the outcomes. *)
Definition listed (action : Z) (outcomes : list (Z * Q)) : nat :=
  count_occ Z.eq_dec (map fst outcomes) action.

(** The loop passes its two checks on [found] when the action is met at most
    once, counting the time it was met before. *)
Lemma luck_loop_checks state action outcomes :
  forall avg av (found : bool),
    let n := (listed action outcomes + (if found then 1 else 0))%nat in
    match luck_loop GameState ApplyAction Evaluate state action outcomes
            avg av found with
    | Returns (_, _, f) => (n <= 1)%nat /\ f = (n =? 1)%nat
    | FatalError _ => (2 <= n)%nat
    end.
Proof.
  unfold listed.
  induction outcomes as [|[a p] rest IH]; intros avg av found; cbv zeta.
  - simpl. destruct found; simpl; split; (lia || reflexivity).
  - cbn [luck_loop map fst count_occ].
    destruct (Z.eq_dec a action) as [E | E].
    + subst a. rewrite Z.eqb_refl. destruct found.
      * lia.
      * specialize (IH (avg + p * nth 0 (Evaluate (ApplyAction state action)) 0)%Q
                      (nth 0 (Evaluate (ApplyAction state action)) 0%Q) true).
        cbv zeta in IH.
        destruct (luck_loop _ _ _ _ _ _ _ _ _) as [[[? ?] f] | msg].
        -- destruct IH as [H1 H2]. split; [lia|].
           rewrite H2. f_equal. lia.
        -- lia.
    + replace (a =? action) with false by (symmetry; now apply Z.eqb_neq).
      apply IH.
Qed.

(** X22: [EvaluateLuck] returns a value exactly when the state is a chance
    node and the action is listed once among its outcomes; at any other
    state, for an action that is not an outcome, or for one listed twice,
    it aborts. *)
Theorem EvaluateLuck_returns_iff (state : GameState) (action : Z) :
  (exists luck,
     EvaluateLuck GameState IsChanceNode ChanceOutcomes ApplyAction Evaluate
       state action = Returns luck)
  <-> IsChanceNode state = true
      /\ listed action (ChanceOutcomes state) = 1%nat.
Proof.
  unfold EvaluateLuck.
  destruct (IsChanceNode state); cbn [negb].
  - pose proof (luck_loop_checks state action (ChanceOutcomes state) 0 0 false)
      as H. cbv zeta in H. rewrite Nat.add_0_r in H.
    destruct (luck_loop _ _ _ _ _ _ _ _ _) as [[[avg av] f] | msg].
    + destruct H as [H1 H2]. destruct f.
      * symmetry in H2. apply Nat.eqb_eq in H2.
        split; [intros _; now split | intros _; now eexists].
      * symmetry in H2. apply Nat.eqb_neq in H2.
        split; [intros [luck Hl]; discriminate | intros [_ Hn]; contradiction].
    + split; [intros [luck Hl]; discriminate | intros [_ Hn]; lia].
  - split; [intros [luck Hl]; discriminate | intros [Hc _]; discriminate].
Qed.

End LuckChecks.

(** ** The states sampled for the statistics of [learner] *)

Lemma stage_index_quot (states_size stage : Z) :
  1 <= states_size <= 2 ^ 31 -> 0 <= stage ->
  stage_index states_size stage = (states_size - 1) * stage / 6.
Proof.
  intros Hs Hst. unfold stage_index, truncate.
  rewrite size_t_of_int_small by lia.
  change (stage_count - 1) with 6.
  cbn [Qnum Qden Qdiv Qmult Qinv inject_Z].
  rewrite Z.quot_div_nonneg by nia.
  f_equal. lia.
Qed.

(** X24: for a trajectory with at least one state (and at most [2^31], so
    that the index fits an [int] and the products are exact in a [double]),
    the seven indexes at which [learner] samples a state never decrease with
    the stage, start at the first state, end at the last one, and so stay
    inside the trajectory. *)
Theorem stage_index_in_bounds (states_size stage stage' : Z) :
  1 <= states_size <= 2 ^ 31 ->
  0 <= stage <= stage' -> stage' <= stage_count - 1 ->
  0 <= stage_index states_size stage
  /\ stage_index states_size stage <= stage_index states_size stage'
  /\ stage_index states_size stage' <= states_size - 1
  /\ stage_index states_size 0 = 0
  /\ stage_index states_size (stage_count - 1) = states_size - 1.
Proof.
  intros Hs Hst Hst'. unfold stage_count in *.
  rewrite !stage_index_quot by lia.
  repeat split.
  - apply Z.div_pos; nia.
  - apply Z.div_le_mono; nia.
  - apply Z.div_le_upper_bound; nia.
  - rewrite Z.mul_0_r. reflexivity.
  - change (7 - 1) with 6. apply Z.div_mul. lia.
Qed.

Lemma stage_index_in_bounds_witness :
  0 <= stage_index 10 2
  /\ stage_index 10 2 <= stage_index 10 5
  /\ stage_index 10 5 <= 10 - 1
  /\ stage_index 10 0 = 0
  /\ stage_index 10 (stage_count - 1) = 10 - 1.
Proof.
  apply (stage_index_in_bounds 10 2 5).
  - lia.
  - lia.
  - unfold stage_count. lia.
Defined.

(** ** The evaluation schedule *)

(** What [Next] returns when [eval_num_] is [x], for [count] difficulties. *)
Definition scheduled (count x : Z) : Z * bool :=
  let next := size_t_of_int x mod (count * 2) in
  (Z.quot next 2, negb (Z.rem next 2 =? 0)).

Lemma Next_calls_scheduled (k : nat) :
  forall r,
    Next_calls k r
    = (map (fun i => scheduled (results_size r) (eval_num_ r + Z.of_nat i))
         (seq 0 k),
       mkEvalResults (results_size r) (eval_num_ r + Z.of_nat k)).
Proof.
  induction k as [|k IH]; intros r.
  - simpl. rewrite Z.add_0_r. now destruct r.
  - cbn [Next_calls]. unfold Next. rewrite IH. cbn [results_size eval_num_].
    f_equal.
    + cbn [seq map]. f_equal.
      * unfold scheduled. now rewrite Z.add_0_r.
      * rewrite <- seq_shift, map_map. apply map_ext. intros i.
        f_equal. lia.
    + f_equal. lia.
Qed.

Lemma scheduled_pair (count x : Z) :
  0 < count -> 0 <= x < 2 ^ 64 ->
  let next := x mod (count * 2) in
  scheduled count x = (next / 2, Z.odd next).
Proof.
  intros Hc Hx. cbv zeta. unfold scheduled.
  rewrite size_t_of_int_small by lia.
  assert (Hn : 0 <= x mod (count * 2) < count * 2) by (apply Z.mod_pos_bound; lia).
  rewrite Z.quot_div_nonneg, Z.rem_mod_nonneg by lia.
  f_equal. rewrite Zmod_odd. now destruct (Z.odd (x mod (count * 2))).
Qed.

Lemma mod_add_inj (m e i j : Z) :
  0 < m -> 0 <= i < m -> 0 <= j < m ->
  (e + i) mod m = (e + j) mod m -> i = j.
Proof.
  intros Hm Hi Hj H.
  pose proof (Z.div_mod (e + i) m ltac:(lia)) as Di.
  pose proof (Z.div_mod (e + j) m ltac:(lia)) as Dj.
  rewrite H in Di.
  set (qi := (e + i) / m) in *. set (qj := (e + j) / m) in *.
  assert (E : i - j = m * (qi - qj)) by lia.
  assert (Hq : qi - qj = 0) by nia.
  rewrite Hq in E. lia.
Qed.

Lemma half_odd_inj (a b : Z) :
  a / 2 = b / 2 -> Z.odd a = Z.odd b -> a = b.
Proof.
  intros H1 H2.
  rewrite (Z.div_mod a 2), (Z.div_mod b 2) by lia.
  rewrite !Zmod_odd, H1, H2. reflexivity.
Qed.

(** X23: with [count > 0] difficulties, [2 * count] calls of [Next] in a row
    schedule every difficulty below [count] with either side, each pair
    once; no call returns a difficulty outside [results_]. *)
Theorem Next_round_robin (r : EvalResults) :
  0 < results_size r -> 0 <= eval_num_ r ->
  eval_num_ r + 2 * results_size r <= 2 ^ 31 ->
  let outs := fst (Next_calls (Z.to_nat (2 * results_size r)) r) in
  (forall d first, In (d, first) outs -> 0 <= d < results_size r)
  /\ List.NoDup outs
  /\ (forall d first, 0 <= d < results_size r -> In (d, first) outs).
Proof.
  intros Hc He Hmax. cbv zeta. rewrite Next_calls_scheduled. cbn [fst].
  set (c := results_size r) in *. set (e := eval_num_ r) in *.
  assert (Hsched : forall i, In i (seq 0 (Z.to_nat (2 * c))) ->
            scheduled c (e + Z.of_nat i)
            = ((e + Z.of_nat i) mod (c * 2) / 2,
               Z.odd ((e + Z.of_nat i) mod (c * 2)))).
  { intros i Hi. apply in_seq in Hi. apply scheduled_pair; lia. }
  split; [|split].
  - intros d first Hin. apply in_map_iff in Hin.
    destruct Hin as (i & Ei & Hi). rewrite (Hsched i Hi) in Ei.
    injection Ei as <- _.
    pose proof (Z.mod_pos_bound (e + Z.of_nat i) (c * 2) ltac:(lia)) as Hn.
    split; [apply Z.div_pos; lia | apply Z.div_lt_upper_bound; lia].
  - apply NoDup_map_NoDup_ForallPairs; [|apply seq_NoDup].
    intros i j Hi Hj Eij. rewrite (Hsched i Hi), (Hsched j Hj) in Eij.
    injection Eij as E1 E2.
    apply in_seq in Hi, Hj.
    pose proof (half_odd_inj _ _ E1 E2) as E.
    apply mod_add_inj in E; lia.
  - intros d first Hd.
    set (t := 2 * d + (if first then 1 else 0)).
    assert (Ht : 0 <= t < c * 2) by (unfold t; destruct first; lia).
    set (i := (t - e) mod (c * 2)).
    assert (Hi : 0 <= i < c * 2) by (apply Z.mod_pos_bound; lia).
    apply in_map_iff. exists (Z.to_nat i).
    assert (Hin : In (Z.to_nat i) (seq 0 (Z.to_nat (2 * c))))
      by (apply in_seq; lia).
    split; [|exact Hin].
    rewrite (Hsched _ Hin), Z2Nat.id by lia.
    assert (Em : (e + i) mod (c * 2) = t).
    { unfold i. rewrite Zplus_mod_idemp_r.
      replace (e + (t - e)) with t by lia. apply Z.mod_small. lia. }
    rewrite Em. f_equal.
    + unfold t. destruct first.
      * rewrite Z.add_comm, Z.mul_comm, Z.div_add by lia. reflexivity.
      * rewrite Z.add_0_r, Z.mul_comm, Z.div_mul by lia. reflexivity.
    + unfold t. destruct first.
      * rewrite Z.add_comm, Z.odd_add_mul_2. reflexivity.
      * rewrite Z.add_0_r, Z.odd_mul. reflexivity.
Qed.

(** Three difficulties, after one evaluation was handed out. *)
Definition results_after_one : EvalResults := snd (Next (EvalResults_new 3)).

Lemma Next_round_robin_witness :
  (forall d first,
     In (d, first) (fst (Next_calls 6 results_after_one)) -> 0 <= d < 3)
  /\ List.NoDup (fst (Next_calls 6 results_after_one))
  /\ (forall d first,
        0 <= d < 3 -> In (d, first) (fst (Next_calls 6 results_after_one))).
Proof.
  apply (Next_round_robin results_after_one).
  - reflexivity.
  - discriminate.
  - discriminate.
Defined.
End ZiggyFacts.

(* ===================================================================== *)
(** * Facts about the backgammon rules engine                             *)
(* ===================================================================== *)

Module BackgammonFacts.
Import Backgammon.

Ltac unfold_consts :=
  unfold kNumCheckerActions, kNumSingleCheckerActions, kNumMovesPerCheckerSequence,
    kNumPoints, kNumDiceOutcomes, kBarPos, kScorePos, kXPlayerId, kOPlayerId,
    kChancePlayerId, kTerminalPlayerId, kNumCheckersPerPlayer, EncodedBarMove in *;
  change ((24 + 1) * 6) with 150 in *;
  change (150 + 1) with 151 in *;
  change (Z.to_nat (4 - 1)) with 3%nat in *;
  change (Z.to_nat 4) with 4%nat in *;
  change (Z.to_nat 24) with 24%nat in *.

(** ** The action encoding *)

(** A move as the move generator produces it: from a point or the bar, by a
    die. *)
Definition valid_move (m : CheckerMove) : Prop :=
  (0 <= pos m <= 23 \/ pos m = kBarPos) /\ 1 <= num m <= 6.

(** The move with its [hit] flag dropped, as the decoder returns it. *)
Definition clear_hit (m : CheckerMove) : CheckerMove :=
  mkCheckerMove (pos m) (num m) false.

Section Encoding.
Variable kPlayerCentricObs : bool.
Variable st : BackgammonState.

Let encode1 := SingleCheckerMoveToSpielMove kPlayerCentricObs st.
Let decode1 := SpielMoveToSingleCheckerMove kPlayerCentricObs st.
Let encode_loop := CheckerMovesToSpielMove_loop kPlayerCentricObs st.
Let decode_loop := fun fuel => SpielMoveToCheckerMoves_loop kPlayerCentricObs fuel st.

Lemma encode1_valid (m : CheckerMove) :
  valid_move m ->
  exists a, encode1 m = Returns a /\ 1 <= a <= 150
            /\ decode1 a = Returns (clear_hit m).
Proof.
  intros [Hp Hn]. unfold encode1, decode1, SingleCheckerMoveToSpielMove,
    SpielMoveToSingleCheckerMove, clear_hit.
  destruct m as [p n h]. simpl in *. unfold_consts.
  assert (E1 : (p <? 0) = false) by (apply Z.ltb_ge; lia).
  assert (E2 : (n <? 1) = false) by (apply Z.ltb_ge; lia).
  assert (E3 : (6 <? n) = false) by (apply Z.ltb_ge; lia).
  rewrite E1, E2, E3.
  set (flip := kPlayerCentricObs && negb (CurrentPlayer st =? 0)).
  destruct Hp as [Hp | Hp].
  - assert (E4 : (p =? 100) = false) by (apply Z.eqb_neq; lia). rewrite E4.
    destruct flip.
    + set (a := (23 - p) * 6 + n).
      assert (Ha : 1 <= a <= 144) by (unfold a; lia).
      assert (L1 : (a <=? 0) = false) by (apply Z.leb_gt; lia).
      assert (L2 : (150 <? a) = false) by (apply Z.ltb_ge; lia).
      rewrite L1, L2.
      exists a. split; [reflexivity|]. split; [lia|]. rewrite L1, L2.
      replace ((a - 1) / 6) with (23 - p)
        by (unfold a; apply (Z.div_unique _ _ _ (n - 1)); lia).
      replace ((a - 1) mod 6) with (n - 1)
        by (unfold a; apply (Z.mod_unique _ _ (23 - p)); lia).
      replace (23 - p =? 24) with false by (symmetry; apply Z.eqb_neq; lia).
      f_equal; f_equal; lia.
    + set (a := p * 6 + n).
      assert (Ha : 1 <= a <= 144) by (unfold a; lia).
      assert (L1 : (a <=? 0) = false) by (apply Z.leb_gt; lia).
      assert (L2 : (150 <? a) = false) by (apply Z.ltb_ge; lia).
      rewrite L1, L2.
      exists a. split; [reflexivity|]. split; [lia|]. rewrite L1, L2.
      replace ((a - 1) / 6) with p
        by (unfold a; apply (Z.div_unique _ _ _ (n - 1)); lia).
      replace ((a - 1) mod 6) with (n - 1)
        by (unfold a; apply (Z.mod_unique _ _ p); lia).
      replace (p =? 24) with false by (symmetry; apply Z.eqb_neq; lia).
      f_equal; f_equal; lia.
  - subst p. simpl (100 =? 100). cbv iota.
    set (a := 24 * 6 + n).
    assert (Ha : 145 <= a <= 150) by (unfold a; lia).
    assert (L1 : (a <=? 0) = false) by (apply Z.leb_gt; lia).
    assert (L2 : (150 <? a) = false) by (apply Z.ltb_ge; lia).
    rewrite L1, L2.
    exists a. split; [reflexivity|]. split; [lia|]. rewrite L1, L2.
    replace ((a - 1) / 6) with 24
      by (unfold a; apply (Z.div_unique _ _ _ (n - 1)); lia).
    replace ((a - 1) mod 6) with (n - 1)
      by (unfold a; apply (Z.mod_unique _ _ 24); lia).
    simpl (24 =? 24). cbv iota. f_equal; f_equal; lia.
Qed.

Lemma encode_loop_app (v : list CheckerMove) (m : CheckerMove) (acc : Z) :
  encode_loop (v ++ [m]) acc
  = (a <- encode_loop v acc ;; s <- encode1 m ;; Returns (a * 151 + s)).
Proof.
  revert acc. induction v as [|x v IH]; intros acc; simpl.
  - unfold encode_loop, encode1. simpl.
    destruct (SingleCheckerMoveToSpielMove kPlayerCentricObs st m); reflexivity.
  - unfold encode_loop in *. simpl.
    destruct (SingleCheckerMoveToSpielMove kPlayerCentricObs st x); simpl;
      [apply IH | reflexivity].
Qed.

(** Encoding a sequence of valid moves succeeds, the code has one base-151
    digit per move, and the decoding loop reads the moves back. *)
Lemma encode_decode_loop (v : list CheckerMove) :
  Forall valid_move v ->
  exists a, encode_loop v 0 = Returns a
            /\ 0 <= a < ipow 151 (length v)
            /\ 2 ^ Z.of_nat (length v) <= 2 * a + 1
            /\ forall fuel acc, (length v <= fuel)%nat ->
                 decode_loop fuel a acc = Returns (map clear_hit v ++ acc).
Proof.
  induction v as [|m v IH] using rev_ind; intros Hv.
  - exists 0. simpl. repeat split; try lia.
    intros fuel acc _. destruct fuel; reflexivity.
  - apply Forall_app in Hv. destruct Hv as [Hv Hm].
    apply Forall_inv in Hm.
    destruct (IH Hv) as (a & Ea & Ra & Pa & Da).
    destruct (encode1_valid m Hm) as (s & Es & Rs & Ds).
    exists (a * 151 + s). rewrite encode_loop_app, Ea. simpl. rewrite Es. simpl.
    rewrite length_app. simpl length.
    replace (length v + 1)%nat with (S (length v)) by lia.
    split; [reflexivity|]. split; [simpl ipow; lia|].
    split; [rewrite Nat2Z.inj_succ, Z.pow_succ_r by lia; lia|].
    intros fuel acc Hf. destruct fuel as [|fuel]; [lia|].
    unfold decode_loop. simpl. unfold_consts.
    replace (0 <? a * 151 + s) with true by (symmetry; apply Z.ltb_lt; lia).
    replace ((a * 151 + s) mod 151) with s
      by (apply (Z.mod_unique _ _ a); lia).
    replace ((a * 151 + s) / 151) with a
      by (apply (Z.div_unique _ _ _ s); lia).
    fold decode1. rewrite Ds. simpl.
    fold (decode_loop fuel a (clear_hit m :: acc)).
    rewrite Da by lia. rewrite map_app. simpl. now rewrite <- app_assoc.
Qed.

(** The action a sequence of one to four valid moves is encoded to is decoded
    to the moves with their [hit] flags reset. *)
Lemma SpielMoveToCheckerMoves_encoded (v : list CheckerMove) (a : Z) :
  Forall valid_move v -> v <> [] ->
  (Z.of_nat (length v) <= kNumMovesPerCheckerSequence) ->
  CheckerMovesToSpielMove kPlayerCentricObs st v = Returns a ->
  SpielMoveToCheckerMoves kPlayerCentricObs st a = Returns (map clear_hit v).
Proof.
  intros Hv Hne Hlen Ha.
  destruct (encode_decode_loop v Hv) as (a' & Ea & Ra & Pa & Da).
  assert (a' = a) by (unfold CheckerMovesToSpielMove in Ha; fold encode_loop in Ha;
                      congruence).
  subst a'.
  assert (Hl : (1 <= length v <= 4)%nat).
  { unfold kNumMovesPerCheckerSequence in Hlen. destruct v; [congruence|]. simpl in *. lia. }
  assert (Hpos : 1 <= a).
  { assert (2 ^ 1 <= 2 ^ Z.of_nat (length v)) by (apply Z.pow_le_mono_r; lia). lia. }
  assert (Hmax : a < ipow 151 4).
  { destruct Hl as [_ Hl4].
    assert (M : forall n k, (n <= k)%nat -> ipow 151 n <= ipow 151 k).
    { intros n k Hnk. induction Hnk; [lia|]. simpl ipow.
      assert (0 < ipow 151 n) by (clear; induction n; simpl; lia). lia. }
    specialize (M _ _ Hl4). lia. }
  unfold SpielMoveToCheckerMoves. unfold_consts.
  replace (a <=? 0) with false by (symmetry; apply Z.leb_gt; lia).
  replace (ipow 151 4 <? a) with false
    by (symmetry; apply Z.ltb_ge; lia).
  fold (decode_loop (S (Z.to_nat (Z.log2 a))) a []).
  rewrite Da.
  - simpl. rewrite app_nil_r, length_map.
    replace (4 <? Z.of_nat (length v)) with false by (symmetry; apply Z.ltb_ge; lia).
    reflexivity.
  - assert (Z.of_nat (length v) - 1 <= Z.log2 a).
    { apply Z.log2_le_pow2; [lia|].
      replace (Z.of_nat (length v)) with (Z.succ (Z.of_nat (length v) - 1)) in Pa by lia.
      rewrite Z.pow_succ_r in Pa by lia. lia. }
    lia.
Qed.


End Encoding.



(** ** Vectors *)

Lemma at_put_same (v : list Z) (i x : Z) :
  0 <= i < Z.of_nat (length v) -> at_ (put v i x) i = x.
Proof.
  intros H. unfold at_, put.
  replace (i <? 0) with false by (symmetry; apply Z.ltb_ge; lia).
  rewrite nth_lookup, list_lookup_insert_eq by lia. reflexivity.
Qed.

Lemma at_put_other (v : list Z) (i j x : Z) :
  i <> j -> at_ (put v i x) j = at_ v j.
Proof.
  intros H. unfold at_, put.
  destruct (i <? 0) eqn:Ei; [reflexivity|].
  destruct (j <? 0) eqn:Ej; [reflexivity|].
  apply Z.ltb_ge in Ei, Ej.
  rewrite !nth_lookup, list_lookup_insert_ne by lia. reflexivity.
Qed.

Lemma length_put (v : list Z) (i x : Z) : length (put v i x) = length v.
Proof. unfold put. destruct (i <? 0); [reflexivity | apply length_insert]. Qed.

Lemma put_put (v : list Z) (i x y : Z) : put (put v i x) i y = put v i y.
Proof.
  unfold put. destruct (i <? 0); [reflexivity | apply list_insert_insert_eq].
Qed.

Lemma put_at (v : list Z) (i : Z) : put v i (at_ v i) = v.
Proof.
  unfold put, at_. destruct (i <? 0); [reflexivity|].
  destruct (v !! Z.to_nat i) as [x|] eqn:E.
  - apply list_insert_id. rewrite nth_lookup, E. reflexivity.
  - apply list_insert_ge. now apply lookup_ge_None.
Qed.

Lemma put_same (v : list Z) (i x : Z) : x = at_ v i -> put v i x = v.
Proof. intros ->. apply put_at. Qed.

Lemma put_comm (v : list Z) (i j x y : Z) :
  i <> j -> put (put v i x) j y = put (put v j y) i x.
Proof.
  intros H. unfold put.
  destruct (i <? 0) eqn:Ei, (j <? 0) eqn:Ej; try reflexivity.
  apply Z.ltb_ge in Ei, Ej. apply list_insert_insert_ne. lia.
Qed.

Lemma row_put2_same (b : list (list Z)) (p i x : Z) :
  0 <= p < Z.of_nat (length b) -> row (put2 b p i x) p = put (row b p) i x.
Proof.
  intros H. unfold put2, row.
  replace (p <? 0) with false by (symmetry; apply Z.ltb_ge; lia).
  rewrite nth_lookup, list_lookup_insert_eq by lia. reflexivity.
Qed.

Lemma row_put2_other (b : list (list Z)) (p q i x : Z) :
  p <> q -> row (put2 b p i x) q = row b q.
Proof.
  intros H. unfold row, put2.
  destruct (p <? 0) eqn:Ep; [reflexivity|].
  destruct (q <? 0) eqn:Eq; [reflexivity|].
  apply Z.ltb_ge in Ep, Eq.
  rewrite !nth_lookup, list_lookup_insert_ne by lia. reflexivity.
Qed.

Lemma length_put2 (b : list (list Z)) (p i x : Z) :
  length (put2 b p i x) = length b.
Proof. unfold put2. destruct (p <? 0); [reflexivity | apply length_insert]. Qed.

Lemma length_row_put2 (b : list (list Z)) (p q i x : Z) :
  length (row (put2 b p i x) q) = length (row b q).
Proof.
  destruct (Z.eq_dec p q) as [->|Hne]; [|now rewrite row_put2_other].
  destruct (Z_lt_le_dec q 0) as [Hq|Hq].
  - unfold row. now replace (q <? 0) with true by (symmetry; apply Z.ltb_lt; lia).
  - destruct (Z_lt_le_dec q (Z.of_nat (length b))) as [Hq'|Hq'].
    + rewrite row_put2_same by lia. apply length_put.
    + unfold put2. replace (q <? 0) with false by (symmetry; apply Z.ltb_ge; lia).
      rewrite list_insert_ge by lia. reflexivity.
Qed.

Lemma at2_put2_same (b : list (list Z)) (p i x : Z) :
  0 <= p < Z.of_nat (length b) -> 0 <= i < Z.of_nat (length (row b p)) ->
  at2 (put2 b p i x) p i = x.
Proof.
  intros Hp Hi. unfold at2. rewrite row_put2_same by lia. now apply at_put_same.
Qed.

Lemma at2_put2_other (b : list (list Z)) (p q i j x : Z) :
  p <> q \/ i <> j -> at2 (put2 b p i x) q j = at2 b q j.
Proof.
  intros H. unfold at2.
  destruct (Z.eq_dec p q) as [->|Hne]; [|now rewrite row_put2_other].
  destruct H as [H|H]; [congruence|].
  destruct (Z_lt_le_dec q 0) as [Hq|Hq].
  - unfold put2. now replace (q <? 0) with true by (symmetry; apply Z.ltb_lt; lia).
  - destruct (Z_lt_le_dec q (Z.of_nat (length b))) as [Hq'|Hq'].
    + rewrite row_put2_same by lia. now apply at_put_other.
    + unfold put2. replace (q <? 0) with false by (symmetry; apply Z.ltb_ge; lia).
      rewrite list_insert_ge by lia. reflexivity.
Qed.

(** ** Sums over the points *)

Definition sum_list_Z (l : list Z) : Z := fold_left Z.add l 0.

Lemma fold_left_add_acc (l : list Z) (a : Z) :
  fold_left Z.add l a = a + fold_left Z.add l 0.
Proof.
  revert a. induction l as [|x l IH]; intros a; simpl; [lia|].
  rewrite (IH (a + x)), (IH (0 + x)). lia.
Qed.

Lemma sum_list_Z_cons (x : Z) (l : list Z) :
  sum_list_Z (x :: l) = x + sum_list_Z l.
Proof. unfold sum_list_Z. simpl. rewrite fold_left_add_acc. lia. Qed.

Lemma sum_map_ext (f g : Z -> Z) (l : list Z) :
  (forall i, In i l -> f i = g i) ->
  sum_list_Z (map f l) = sum_list_Z (map g l).
Proof.
  induction l as [|x l IH]; intros H; [reflexivity|].
  simpl map. rewrite !sum_list_Z_cons, IH, (H x); simpl; auto.
  intros i Hi. apply H. now right.
Qed.

Lemma sum_map_update (f g : Z -> Z) (k : Z) (l : list Z) :
  List.NoDup l -> In k l -> (forall i, i <> k -> g i = f i) ->
  sum_list_Z (map g l) = sum_list_Z (map f l) + g k - f k.
Proof.
  induction l as [|x l IH]; intros Hnd Hin Hext; [destruct Hin|].
  apply NoDup_cons_iff in Hnd. destruct Hnd as [Hx Hnd].
  simpl map. rewrite !sum_list_Z_cons.
  destruct (Z.eq_dec x k) as [->|Hne].
  - rewrite (sum_map_ext g f l); [lia|].
    intros i Hi. apply Hext. intros ->. contradiction.
  - destruct Hin as [Hin|Hin]; [congruence|].
    rewrite IH, (Hext x) by assumption. lia.
Qed.

Lemma In_zrange (lo i : Z) (n : nat) :
  In i (zrange lo n) <-> lo <= i < lo + Z.of_nat n.
Proof.
  unfold zrange. rewrite in_map_iff. split.
  - intros (k & <- & Hk). apply in_seq in Hk. lia.
  - intros H. exists (Z.to_nat (i - lo)). split; [lia|]. apply in_seq. lia.
Qed.

Lemma NoDup_zrange (lo : Z) (n : nat) : List.NoDup (zrange lo n).
Proof.
  unfold zrange. apply Finite.Injective_map_NoDup; [|apply List.seq_NoDup].
  intros a b H. lia.
Qed.

(** ** Pure forms of the move functions for the players 0 and 1 *)

Definition valid_player (p : Z) : Prop := p = 0 \/ p = 1.

(** Where a move of [player] ends: a point, or [kScorePos]. *)
Definition move_target (player : Z) (m : CheckerMove) : Z :=
  if pos m =? kBarPos then
    if player =? kXPlayerId then -1 + num m else 24 - num m
  else if player =? kXPlayerId then
    if 23 <? pos m + num m then kScorePos else pos m + num m
  else
    if pos m - num m <? 0 then kScorePos else pos m - num m.

Lemma PositionFrom_pure (player : Z) (m : CheckerMove) :
  valid_player player ->
  PositionFrom player (pos m) (num m) = Returns (move_target player m).
Proof.
  intros [-> | ->]; unfold PositionFrom, PositionFromBar, move_target;
    destruct (pos m =? kBarPos); reflexivity.
Qed.

Lemma PositionFromBar_pure (player : Z) (m : CheckerMove) :
  valid_player player -> pos m = kBarPos ->
  PositionFromBar player (num m) = Returns (move_target player m).
Proof.
  intros [-> | ->] E; unfold PositionFromBar, move_target; rewrite E; reflexivity.
Qed.

Definition apply_move (st : BackgammonState) (m : CheckerMove)
    : BackgammonState * bool :=
  if pos m <? 0 then (st, false)
  else
    let player := cur_player_ st in
    let next_pos := move_target player m in
    let st :=
      if pos m =? kBarPos
      then set_bar st (put (bar_ st) player (at_ (bar_ st) player - 1))
      else set_board st (put2 (board_ st) player (pos m)
                           (at2 (board_ st) player (pos m) - 1)) in
    let st := set_remaining_dice st
                (put (remaining_dice_ st) (num m - 1)
                   (at_ (remaining_dice_ st) (num m - 1) - 1)) in
    let st :=
      if next_pos =? kScorePos
      then set_scores st (put (scores_ st) player (at_ (scores_ st) player + 1))
      else set_board st (put2 (board_ st) player next_pos
                           (at2 (board_ st) player next_pos + 1)) in
    if hit m
       || (negb (next_pos =? kScorePos)
           && (at2 (board_ st) (Opponent player) next_pos =? 1))
    then
      let st := set_board st (put2 (board_ st) (Opponent player) next_pos
                                (at2 (board_ st) (Opponent player) next_pos - 1)) in
      let st := set_bar st (put (bar_ st) (Opponent player)
                              (at_ (bar_ st) (Opponent player) + 1)) in
      (st, true)
    else (st, false).

Definition undo_move (st : BackgammonState) (m : CheckerMove) : BackgammonState :=
  if pos m <? 0 then st
  else
    let player := cur_player_ st in
    let next_pos := move_target player m in
    let st :=
      if hit m then
        let st := set_bar st (put (bar_ st) (Opponent player)
                                (at_ (bar_ st) (Opponent player) - 1)) in
        set_board st (put2 (board_ st) (Opponent player) next_pos
                        (at2 (board_ st) (Opponent player) next_pos + 1))
      else st in
    let st :=
      if next_pos =? kScorePos
      then set_scores st (put (scores_ st) player (at_ (scores_ st) player - 1))
      else set_board st (put2 (board_ st) player next_pos
                           (at2 (board_ st) player next_pos - 1)) in
    let st := set_remaining_dice st
                (put (remaining_dice_ st) (num m - 1)
                   (at_ (remaining_dice_ st) (num m - 1) + 1)) in
    if pos m =? kBarPos
    then set_bar st (put (bar_ st) player (at_ (bar_ st) player + 1))
    else set_board st (put2 (board_ st) player (pos m)
                         (at2 (board_ st) player (pos m) + 1)).

Lemma ApplyCheckerMove_pure (st : BackgammonState) (m : CheckerMove) :
  valid_player (cur_player_ st) ->
  ApplyCheckerMove st m = Returns (apply_move st m).
Proof.
  intros Hp. unfold ApplyCheckerMove, apply_move.
  destruct (pos m <? 0); [reflexivity|].
  destruct (pos m =? kBarPos) eqn:E.
  - apply Z.eqb_eq in E. rewrite (PositionFromBar_pure _ _ Hp E). cbn [bind].
    destruct (move_target (cur_player_ st) m =? kScorePos); cbv zeta;
      match goal with
      | |- context [if ?c then _ else _] => destruct c
      end; reflexivity.
  - rewrite (PositionFrom_pure _ _ Hp). cbn [bind].
    destruct (move_target (cur_player_ st) m =? kScorePos); cbv zeta;
      match goal with
      | |- context [if ?c then _ else _] => destruct c
      end; reflexivity.
Qed.

Lemma UndoCheckerMove_pure (st : BackgammonState) (m : CheckerMove) :
  valid_player (cur_player_ st) ->
  UndoCheckerMove st m = Returns (undo_move st m).
Proof.
  intros Hp. unfold UndoCheckerMove, undo_move.
  destruct (pos m <? 0); [reflexivity|].
  destruct (pos m =? kBarPos) eqn:E.
  - apply Z.eqb_eq in E. rewrite (PositionFromBar_pure _ _ Hp E). reflexivity.
  - rewrite (PositionFrom_pure _ _ Hp). reflexivity.
Qed.

(** ** Checker counts *)

(** The vectors have the sizes the constructor gives them. *)
Definition wf_shape (st : BackgammonState) : Prop :=
  length (bar_ st) = 2%nat /\ length (scores_ st) = 2%nat
  /\ length (board_ st) = 2%nat
  /\ length (row (board_ st) 0) = 24%nat /\ length (row (board_ st) 1) = 24%nat.

Definition points_total (b : list (list Z)) (p : Z) : Z :=
  sum_list_Z (map (fun i => at2 b p i) (zrange 0 24)).

(** [bar(p) + off(p) + sum over the 24 points of board(p, point)]. *)
Definition total_checkers (st : BackgammonState) (p : Z) : Z :=
  at_ (bar_ st) p + at_ (scores_ st) p + points_total (board_ st) p.

Lemma points_total_put2 (b : list (list Z)) (p q k x : Z) :
  length b = 2%nat -> length (row b p) = 24%nat ->
  valid_player p -> 0 <= k <= 23 ->
  points_total (put2 b p k x) q
  = points_total b q + (if p =? q then x - at2 b p k else 0).
Proof.
  intros Hb Hr Hp Hk. unfold points_total.
  destruct (p =? q) eqn:E.
  - apply Z.eqb_eq in E. subst q.
    rewrite (sum_map_update (fun i => at2 b p i) _ k).
    + rewrite at2_put2_same by (destruct Hp; lia). lia.
    + apply NoDup_zrange.
    + apply In_zrange. lia.
    + intros i Hi. apply at2_put2_other. right. congruence.
  - apply Z.eqb_neq in E.
    rewrite (sum_map_ext _ (fun i => at2 b q i)); [lia|].
    intros i _. apply at2_put2_other. now left.
Qed.

(** A move whose [hit] flag is set only when it lands on a point. *)
Definition hit_on_board (player : Z) (m : CheckerMove) : Prop :=
  hit m = true -> move_target player m <> kScorePos.

Lemma move_target_range (player : Z) (m : CheckerMove) :
  valid_player player -> valid_move m ->
  move_target player m = kScorePos \/ 0 <= move_target player m <= 23.
Proof.
  intros [-> | ->] [Hp Hn]; unfold move_target; unfold_consts;
    destruct (pos m =? 100) eqn:E; simpl;
    try (apply Z.eqb_neq in E);
    repeat match goal with
           | |- context [if ?c then _ else _] => destruct c eqn:?
           end;
    rewrite ?Z.ltb_lt, ?Z.ltb_ge in *; lia.
Qed.

Ltac shape_solve :=
  repeat match goal with
         | |- _ /\ _ => split
         end;
  simpl;
  rewrite ?length_put, ?length_put2, ?length_row_put2; assumption.

Lemma apply_move_shape (st : BackgammonState) (m : CheckerMove) :
  wf_shape st -> wf_shape (fst (apply_move st m)).
Proof.
  intros (H1 & H2 & H3 & H4 & H5). unfold apply_move.
  destruct (pos m <? 0); [repeat split; assumption|].
  destruct (pos m =? kBarPos), (move_target (cur_player_ st) m =? kScorePos);
    cbv zeta;
    match goal with
    | |- context [if ?c then (_, true) else _] => destruct c
    end; unfold wf_shape; shape_solve.
Qed.

Lemma undo_move_shape (st : BackgammonState) (m : CheckerMove) :
  wf_shape st -> wf_shape (undo_move st m).
Proof.
  intros (H1 & H2 & H3 & H4 & H5). unfold undo_move.
  destruct (pos m <? 0); [repeat split; assumption|].
  destruct (pos m =? kBarPos), (move_target (cur_player_ st) m =? kScorePos),
    (hit m); unfold wf_shape; shape_solve.
Qed.

Lemma at_put (v : list Z) (i j x : Z) :
  0 <= i < Z.of_nat (length v) ->
  at_ (put v i x) j = if i =? j then x else at_ v j.
Proof.
  intros H. destruct (i =? j) eqn:E.
  - apply Z.eqb_eq in E. subst j. now apply at_put_same.
  - apply Z.eqb_neq in E. now apply at_put_other.
Qed.

Lemma length_row_valid (b : list (list Z)) (p : Z) :
  length (row b 0) = 24%nat -> length (row b 1) = 24%nat ->
  valid_player p -> length (row b p) = 24%nat.
Proof. intros H0 H1 [-> | ->]; assumption. Qed.

(** Side conditions on sizes, after any number of updates. *)
Ltac size_solve :=
  rewrite ?length_put, ?length_put2, ?length_row_put2;
  first [ assumption | lia | (unfold valid_player; lia) ].

Ltac count_rewrite :=
  repeat first
    [ rewrite points_total_put2 by size_solve
    | rewrite at_put by size_solve ].

Ltac players_cases Hp Hq :=
  destruct Hp as [Hp | Hp]; rewrite Hp in *;
  destruct Hq as [-> | ->]; unfold Opponent;
  change (1 - 0) with 1 in *; change (1 - 1) with 0 in *.

Lemma apply_move_total (st : BackgammonState) (m : CheckerMove) (q : Z) :
  wf_shape st -> valid_player (cur_player_ st) -> valid_move m ->
  hit_on_board (cur_player_ st) m -> valid_player q ->
  total_checkers (fst (apply_move st m)) q = total_checkers st q.
Proof.
  intros (H1 & H2 & H3 & H4 & H5) Hp Hm Hh Hq.
  pose proof (move_target_range _ _ Hp Hm) as Ht.
  unfold hit_on_board in Hh.
  unfold apply_move.
  destruct (pos m <? 0); [reflexivity|].
  destruct Hm as [Hpos Hnum].
  set (tgt := move_target (cur_player_ st) m) in *.
  destruct (tgt =? kScorePos) eqn:Es.
  - (* bearing off: no hit *)
    assert (Eh : hit m = false).
    { destruct (hit m); [|reflexivity]. apply Z.eqb_eq in Es. now destruct Hh. }
    rewrite Eh. simpl orb. cbv iota zeta.
    destruct (pos m =? kBarPos) eqn:Eb;
      [apply Z.eqb_eq in Eb | apply Z.eqb_neq in Eb];
      unfold total_checkers; simpl; players_cases Hp Hq;
      try assert (Hsrc : 0 <= pos m <= 23) by (unfold kBarPos in *; lia);
      count_rewrite; simpl; lia.
  - apply Z.eqb_neq in Es.
    assert (Htgt : 0 <= tgt <= 23) by lia.
    cbv zeta.
    destruct (pos m =? kBarPos) eqn:Eb;
      [apply Z.eqb_eq in Eb | apply Z.eqb_neq in Eb];
      match goal with
      | |- context [if ?c then (_, true) else _] => destruct c eqn:Eh
      end;
      unfold total_checkers; simpl; players_cases Hp Hq;
      try assert (Hsrc : 0 <= pos m <= 23) by (unfold kBarPos in *; lia);
      count_rewrite; simpl; lia.
Qed.



(** ** Reachable states *)

Section Reachable.
Variable kPlayerCentricObs : bool.


Definition turn_invariant (st : BackgammonState) : Prop :=
  (valid_player (cur_player_ st) \/ cur_player_ st = kChancePlayerId)
  /\ (dice_ st <> [] -> valid_player (cur_player_ st))
  /\ (cur_player_ st = kChancePlayerId -> IsTerminal st = false ->
      turns_ st <> -1 -> valid_player (prev_player_ st)).

Definition count_invariant (st : BackgammonState) : Prop :=
  wf_shape st
  /\ forall q, valid_player q ->
       total_checkers st q = NumCheckersPerPlayer (hyper_backgammon_ st).

Lemma decode_single_valid (st : BackgammonState) (a : Z) (m : CheckerMove) :
  SpielMoveToSingleCheckerMove kPlayerCentricObs st a = Returns m ->
  valid_move m /\ hit m = false.
Proof.
  unfold SpielMoveToSingleCheckerMove. unfold_consts.
  destruct (a <=? 0) eqn:E1; [discriminate|].
  destruct (150 <? a) eqn:E2; [discriminate|].
  apply Z.leb_gt in E1. apply Z.ltb_ge in E2.
  intros H. injection H as <-. unfold valid_move. simpl. unfold kBarPos.
  assert (0 <= (a - 1) / 6 <= 24).
  { split; [apply Z.div_pos; lia|].
    assert ((a - 1) / 6 < 25) by (apply Z.div_lt_upper_bound; lia). lia. }
  assert (0 <= (a - 1) mod 6 < 6) by (apply Z.mod_pos_bound; lia).
  split; [|reflexivity]. split; [|lia].
  destruct ((a - 1) / 6 =? 24) eqn:E3; [now right|].
  apply Z.eqb_neq in E3.
  destruct (kPlayerCentricObs && negb (CurrentPlayer st =? 0)); left; lia.
Qed.

Lemma decode_loop_valid (fuel : nat) (st : BackgammonState) (a : Z)
    (acc ms : list CheckerMove) :
  Forall (fun m => valid_move m /\ hit m = false) acc ->
  SpielMoveToCheckerMoves_loop kPlayerCentricObs fuel st a acc = Returns ms ->
  Forall (fun m => valid_move m /\ hit m = false) ms.
Proof.
  revert a acc. induction fuel as [|fuel IH]; intros a acc Hacc; simpl.
  - intros H. injection H as <-. exact Hacc.
  - destruct (0 <? a); [|intros H; injection H as <-; exact Hacc].
    destruct (SpielMoveToSingleCheckerMove kPlayerCentricObs st
                (a mod (kNumSingleCheckerActions + 1))) as [m|] eqn:E;
      [|discriminate].
    simpl. apply IH. constructor; [|exact Hacc].
    now apply decode_single_valid in E.
Qed.

Lemma SpielMoveToCheckerMoves_valid (st : BackgammonState) (a : Z)
    (ms : list CheckerMove) :
  SpielMoveToCheckerMoves kPlayerCentricObs st a = Returns ms ->
  Forall (fun m => valid_move m /\ hit m = false) ms.
Proof.
  unfold SpielMoveToCheckerMoves.
  destruct (a <=? 0); [discriminate|].
  destruct (kNumCheckerActions <? a); [discriminate|].
  destruct (SpielMoveToCheckerMoves_loop kPlayerCentricObs
              (S (Z.to_nat (Z.log2 a))) st a []) as [l|] eqn:E; [|discriminate].
  simpl. destruct (kNumMovesPerCheckerSequence <? Z.of_nat (length l));
    [discriminate|].
  intros H. injection H as <-.
  eapply decode_loop_valid; [|exact E]. constructor.
Qed.

(** One checker move changes neither whose turn it is nor the dice. *)
Lemma apply_move_frame (st : BackgammonState) (m : CheckerMove) :
  let st' := fst (apply_move st m) in
  cur_player_ st' = cur_player_ st /\ prev_player_ st' = prev_player_ st
  /\ turns_ st' = turns_ st /\ dice_ st' = dice_ st
  /\ hyper_backgammon_ st' = hyper_backgammon_ st.
Proof.
  unfold apply_move.
  destruct (pos m <? 0); [repeat split|].
  destruct (pos m =? kBarPos), (move_target (cur_player_ st) m =? kScorePos);
    cbv zeta;
    match goal with
    | |- context [if ?c then (_, true) else _] => destruct c
    end; repeat split.
Qed.





Lemma IsTerminal_scores (st st' : BackgammonState) :
  scores_ st' = scores_ st -> hyper_backgammon_ st' = hyper_backgammon_ st ->
  IsTerminal st' = IsTerminal st.
Proof. intros H1 H2. unfold IsTerminal. now rewrite H1, H2. Qed.



Lemma app_two_not_nil {A} (l : list A) (a b : A) : l ++ [a; b] <> [].
Proof. destruct l; discriminate. Qed.


End Reachable.

(** ** The initial state, and checker-count conservation *)

Lemma at_replicate_zero (n : nat) (i : Z) : at_ (replicate n 0) i = 0.
Proof.
  unfold at_. destruct (i <? 0); [reflexivity|].
  rewrite nth_lookup.
  destruct (replicate n 0 !! Z.to_nat i) eqn:E; [|reflexivity].
  apply lookup_replicate in E. simpl. tauto.
Qed.

Lemma points_total_zero (p : Z) :
  valid_player p -> points_total [replicate 24 0; replicate 24 0] p = 0.
Proof. intros [-> | ->]; reflexivity. Qed.

Lemma NewInitialState_invariant (scoring_type : ScoringType) (hyper : bool)
    (idx : Z) :
  0 <= idx ->
  count_invariant (NewInitialState scoring_type hyper idx)
  /\ turn_invariant (NewInitialState scoring_type hyper idx).
Proof.
  intros Hidx. split.
  - unfold NewInitialState, SetupInitialBoard. cbn [hyper_backgammon_].
    change (Z.to_nat kNumPoints) with 24%nat.
    destruct hyper.
    + split; [repeat split|].
      intros q [-> | ->]; vm_compute; reflexivity.
    + destruct (idx <? 24) eqn:E1; [|destruct (idx <? 25) eqn:E2].
      * apply Z.ltb_lt in E1. split.
        -- unfold wf_shape. simpl.
           rewrite ?length_put2, ?length_row_put2. repeat split.
        -- intros q Hq. unfold total_checkers. simpl. unfold_consts.
           assert (L0 : length (row [replicate 24 0; replicate 24 0] 0) = 24%nat)
             by reflexivity.
           assert (L1 : length (row [replicate 24 0; replicate 24 0] 1) = 24%nat)
             by reflexivity.
           assert (LB : length [replicate 24 0; replicate 24 0] = 2%nat)
             by reflexivity.
           assert (A0 : forall i, at2 [replicate 24 0; replicate 24 0] 1 i = 0)
             by (intros i; apply at_replicate_zero).
           assert (A1 : forall i, at2 [replicate 24 0; replicate 24 0] 0 i = 0)
             by (intros i; apply at_replicate_zero).
           destruct Hq as [-> | ->]; count_rewrite; simpl;
             rewrite ?at2_put2_other, ?A0, ?A1 by (left; lia);
             rewrite ?points_total_zero by (unfold valid_player; lia);
             change (at_ [0; 0] 0) with 0; change (at_ [0; 0] 1) with 0; lia.
      * apply Z.ltb_ge in E1. apply Z.ltb_lt in E2.
        split; [repeat split|]. intros q [-> | ->]; vm_compute; reflexivity.
      * split; [repeat split|]. intros q [-> | ->]; vm_compute; reflexivity.
  - assert (F : cur_player_ (NewInitialState scoring_type hyper idx) = kChancePlayerId
                /\ dice_ (NewInitialState scoring_type hyper idx) = []
                /\ turns_ (NewInitialState scoring_type hyper idx) = -1).
    { unfold NewInitialState, SetupInitialBoard. cbn [hyper_backgammon_].
      destruct hyper; [|destruct (idx <? 24); [|destruct (idx <? 25)]];
        repeat split. }
    destruct F as (F1 & F2 & F3). unfold turn_invariant.
    rewrite F1, F2, F3.
    split; [now right | split; [congruence | intros _ _ H; congruence]].
Qed.


Lemma CountTotalCheckers_eq (st : BackgammonState) (p : Z) :
  CountTotalCheckers st p
  = if existsb (fun c => c <? 0)
         (map (fun i => at2 (board_ st) p i) (zrange 0 24))
    then FatalError "SPIEL_CHECK_GE(board_[player][i], 0)"
    else if at_ (bar_ st) p <? 0
    then FatalError "SPIEL_CHECK_GE(bar_[player], 0)"
    else if at_ (scores_ st) p <? 0
    then FatalError "SPIEL_CHECK_GE(scores_[player], 0)"
    else Returns (points_total (board_ st) p + at_ (bar_ st) p
                  + at_ (scores_ st) p).
Proof. unfold CountTotalCheckers, points_total, sum_list_Z. reflexivity. Qed.

(** [CountTotalCheckers] returns [total_checkers] when every count is
    non-negative, and aborts otherwise. *)
Lemma CountTotalCheckers_total (st : BackgammonState) (p n : Z) :
  CountTotalCheckers st p = Returns n ->
  n = total_checkers st p
  /\ 0 <= at_ (bar_ st) p /\ 0 <= at_ (scores_ st) p
  /\ forall i, 0 <= i <= 23 -> 0 <= at2 (board_ st) p i.
Proof.
  rewrite CountTotalCheckers_eq.
  destruct (existsb (fun c => c <? 0)
              (map (fun i => at2 (board_ st) p i) (zrange 0 24))) eqn:E1;
    [discriminate|].
  destruct (at_ (bar_ st) p <? 0) eqn:E2; [discriminate|].
  destruct (at_ (scores_ st) p <? 0) eqn:E3; [discriminate|].
  intros H. injection H as <-.
  apply Z.ltb_ge in E2, E3.
  split; [unfold total_checkers; lia|].
  split; [exact E2|]. split; [exact E3|].
  intros i Hi.
  destruct (Z_lt_le_dec (at2 (board_ st) p i) 0) as [Hneg|]; [|assumption].
  exfalso.
  assert (E : existsb (fun c => c <? 0)
            (map (fun i => at2 (board_ st) p i) (zrange 0 24)) = true).
  { apply existsb_exists. exists (at2 (board_ st) p i). split.
    - apply in_map_iff. exists i. split; [reflexivity|]. apply In_zrange. lia.
    - now apply Z.ltb_lt. }
  rewrite E in E1. discriminate.
Qed.



(** ** Returns in the hyper variant *)

Lemma sum_list_Z_nonneg (l : list Z) :
  Forall (fun x => 0 <= x) l -> 0 <= sum_list_Z l.
Proof.
  induction 1 as [|x l Hx _ IH]; [unfold sum_list_Z; simpl; lia|].
  rewrite sum_list_Z_cons. lia.
Qed.

Lemma score_le_total (st : BackgammonState) (p n : Z) :
  CountTotalCheckers st p = Returns n -> 0 <= at_ (scores_ st) p <= n.
Proof.
  intros H. apply CountTotalCheckers_total in H.
  destruct H as (-> & Hb & Hs & Hpts). unfold total_checkers.
  assert (0 <= points_total (board_ st) p); [|lia].
  unfold points_total. apply sum_list_Z_nonneg.
  apply List.Forall_map, List.Forall_forall. intros i Hi.
  apply In_zrange in Hi. apply Hpts. lia.
Qed.

(** C10: in the hyper variant, a state whose checker counts pass the engine's
    own check (no negative count, three checkers a side) has returns
    [{0.0, 0.0}], also when it is terminal: [IsTerminal] holds as soon as a
    player has borne off three checkers, and [Returns] looks for 15. *)
Theorem Returns_hyper_backgammon (st : BackgammonState) :
  hyper_backgammon_ st = true ->
  CountTotalCheckers st kXPlayerId = Returns (NumCheckersPerPlayer true) ->
  CountTotalCheckers st kOPlayerId = Returns (NumCheckersPerPlayer true) ->
  Returns_ st = [0%Q; 0%Q]
  /\ (IsTerminal st = true <->
      at_ (scores_ st) kXPlayerId = 3 \/ at_ (scores_ st) kOPlayerId = 3).
Proof.
  intros Hh Hx Ho.
  apply score_le_total in Hx, Ho. simpl in Hx, Ho.
  split.
  - unfold Returns_.
    replace (at_ (scores_ st) kXPlayerId =? 15) with false
      by (symmetry; apply Z.eqb_neq; lia).
    replace (at_ (scores_ st) kOPlayerId =? 15) with false
      by (symmetry; apply Z.eqb_neq; lia).
    reflexivity.
  - unfold IsTerminal. rewrite Hh. simpl NumCheckersPerPlayer.
    rewrite orb_true_iff, !Z.eqb_eq. reflexivity.
Qed.

(** A terminal state of the hyper variant: X has borne off all three
    checkers, O has one on the bar and two on point 20. *)
Definition hyper_terminal_state : BackgammonState :=
  mkState kWinLossScoring true kXPlayerId kXPlayerId 7 4 3 false [2; 1]
    [0; 0; 0; 0; 0; 0] [0; 1] [3; 0]
    [replicate 24 0; put (replicate 24 0) 20 2] [].

Lemma Returns_hyper_backgammon_witness :
  IsTerminal hyper_terminal_state = true
  /\ Returns_ hyper_terminal_state = [0%Q; 0%Q].
Proof.
  destruct (Returns_hyper_backgammon hyper_terminal_state) as [R T].
  - reflexivity.
  - vm_compute. reflexivity.
  - vm_compute. reflexivity.
  - split; [|exact R]. apply T. left. reflexivity.
Defined.

(** ** The move generator, for the players 0 and 1 *)

Lemma In_set_insert {A} (lt : A -> A -> bool) (x y : A) (s : list A) :
  In y (set_insert lt x s) -> y = x \/ In y s.
Proof.
  induction s as [|z s IH]; simpl.
  - intros [<- | []]. now left.
  - destruct (lt x z); [simpl; intuition|].
    destruct (lt z x); simpl; [|intuition].
    intros [<- | H]; [now right; left|]. apply IH in H. intuition.
Qed.

Lemma set_insert_keeps {A} (lt : A -> A -> bool) (x y : A) (s : list A) :
  In y s -> In y (set_insert lt x s).
Proof.
  induction s as [|z s IH]; simpl; [tauto|].
  destruct (lt x z); [simpl; intuition|].
  destruct (lt z x); simpl; intuition.
Qed.

Lemma set_insert_not_nil {A} (lt : A -> A -> bool) (x : A) (s : list A) :
  set_insert lt x s <> [].
Proof. destruct s as [|z s]; simpl; [discriminate|]. destruct (lt x z), (lt z x); discriminate. Qed.

(** After an insertion the set holds the element or an equivalent one. *)
Lemma set_insert_equiv {A} (lt : A -> A -> bool) (x : A) (s : list A) :
  exists y, In y (set_insert lt x s)
            /\ (y = x \/ (lt x y = false /\ lt y x = false)).
Proof.
  induction s as [|z s IH]; simpl.
  - exists x. split; [now left | now left].
  - destruct (lt x z) eqn:E1; [exists x; split; [now left | now left]|].
    destruct (lt z x) eqn:E2.
    + destruct IH as (y & Hy & Hxy). exists y. split; [now right | exact Hxy].
    + exists z. split; [now left | right; now split].
Qed.

Lemma PositionFrom_target (player from die : Z) (h : bool) :
  valid_player player ->
  PositionFrom player from die
  = Returns (move_target player (mkCheckerMove from die h)).
Proof. intros Hp. exact (PositionFrom_pure player (mkCheckerMove from die h) Hp). Qed.

Lemma PositionFromBar_target (player die : Z) (h : bool) :
  valid_player player ->
  PositionFromBar player die
  = Returns (move_target player (mkCheckerMove kBarPos die h)).
Proof.
  intros Hp.
  exact (PositionFromBar_pure player (mkCheckerMove kBarPos die h) Hp eq_refl).
Qed.

Definition all_in_home (st : BackgammonState) (player : Z) : bool :=
  if 0 <? at_ (bar_ st) player then false
  else
    negb (existsb (fun i => 0 <? at2 (board_ st) player i)
            (zrange (if player =? kXPlayerId then 0 else 6) 18)).

Lemma AllInHome_pure (st : BackgammonState) (player : Z) :
  valid_player player -> AllInHome st player = Returns (all_in_home st player).
Proof.
  intros [-> | ->]; unfold AllInHome, all_in_home;
    destruct (0 <? at_ (bar_ st) _); reflexivity.
Qed.

(** The move the loop of [SingleCheckerMoves] finds at point [i], if any. *)
Definition point_move (st : BackgammonState) (player die : Z)
    (aih : bool) (i : Z) : option CheckerMove :=
  if 0 <? at2 (board_ st) player i then
    let to := move_target player (mkCheckerMove i die false) in
    if (to =? kScorePos) && aih then
      if ((player =? kXPlayerId) && (i + die =? 24))
         || ((player =? kOPlayerId) && (i - die =? -1))
      then Some (mkCheckerMove i die false)
      else if i =? FurthestCheckerInHome st player
      then Some (mkCheckerMove i die false)
      else None
    else if negb (to =? kScorePos) && (NumOppCheckers st player to <=? 1) then
      Some (mkCheckerMove i die (NumOppCheckers st player to =? 1))
    else None
  else None.

Fixpoint moves_loop (st : BackgammonState) (player die : Z)
    (bFirstOnly aih : bool) (points : list Z) (moves : list CheckerMove)
    : list CheckerMove :=
  match points with
  | [] => moves
  | i :: rest =>
      match point_move st player die aih i with
      | Some m =>
          let moves := set_insert CheckerMove_lt m moves in
          if bFirstOnly then moves
          else moves_loop st player die bFirstOnly aih rest moves
      | None => moves_loop st player die bFirstOnly aih rest moves
      end
  end.

Definition moves_for (st : BackgammonState) (die : Z) (bFirstOnly : bool)
    : list CheckerMove :=
  let player := cur_player_ st in
  if 0 <? at_ (bar_ st) player then
    let to := move_target player (mkCheckerMove kBarPos die false) in
    if NumOppCheckers st player to <=? 1
    then [mkCheckerMove kBarPos die (NumOppCheckers st player to =? 1)]
    else []
  else
    moves_loop st player die bFirstOnly (all_in_home st player) (zrange 0 24) [].

Lemma SingleCheckerMoves_loop_pure (st : BackgammonState) (player die : Z)
    (first aih : bool) (points : list Z) (moves : list CheckerMove) :
  valid_player player ->
  SingleCheckerMoves_loop st player die first aih points moves
  = Returns (moves_loop st player die first aih points moves).
Proof.
  intros Hp. revert moves.
  induction points as [|i rest IH]; intros moves; simpl; [reflexivity|].
  unfold point_move.
  destruct (0 <? at2 (board_ st) player i); [|apply IH].
  rewrite (PositionFrom_target player i die false Hp).
  cbn [bind]. cbv zeta.
  destruct ((move_target player (mkCheckerMove i die false) =? kScorePos) && aih).
  - destruct (((player =? kXPlayerId) && (i + die =? 24))
              || ((player =? kOPlayerId) && (i - die =? -1))).
    + destruct first; [reflexivity | apply IH].
    + destruct (i =? FurthestCheckerInHome st player); [|apply IH].
      destruct first; [reflexivity | apply IH].
  - destruct (negb (move_target player (mkCheckerMove i die false) =? kScorePos)
              && (NumOppCheckers st player
                    (move_target player (mkCheckerMove i die false)) <=? 1));
      [|apply IH].
    destruct first; [reflexivity | apply IH].
Qed.

Lemma SingleCheckerMoves_pure (st : BackgammonState) (die : Z) (first : bool) :
  valid_player (cur_player_ st) ->
  SingleCheckerMoves st die first = Returns (moves_for st die first).
Proof.
  intros Hp. unfold SingleCheckerMoves, moves_for.
  destruct (0 <? at_ (bar_ st) (cur_player_ st)).
  - rewrite (PositionFromBar_target (cur_player_ st) die false Hp).
    cbn [bind].
    destruct (NumOppCheckers st (cur_player_ st) _ <=? 1); reflexivity.
  - rewrite (AllInHome_pure st _ Hp). cbn [bind].
    change (Z.to_nat kNumPoints) with 24%nat.
    now apply SingleCheckerMoves_loop_pure.
Qed.

(** What every generated move satisfies: it uses the die, starts where the
    player has a checker (on the bar first), lands off the board or on a
    point the opponent does not hold, and carries the exact [hit] flag. *)
Definition legal_single (st : BackgammonState) (die : Z) (m : CheckerMove) : Prop :=
  let p := cur_player_ st in
  let tgt := move_target p m in
  num m = die
  /\ ((pos m = kBarPos /\ 0 < at_ (bar_ st) p)
      \/ (0 <= pos m <= 23 /\ 0 < at2 (board_ st) p (pos m)))
  /\ (tgt = kScorePos /\ hit m = false
      \/ tgt <> kScorePos /\ at2 (board_ st) (Opponent p) tgt <= 1
         /\ hit m = (at2 (board_ st) (Opponent p) tgt =? 1)).

Lemma point_move_legal (st : BackgammonState) (die : Z) (aih : bool)
    (i : Z) (m : CheckerMove) :
  0 <= i <= 23 ->
  point_move st (cur_player_ st) die aih i = Some m -> legal_single st die m.
Proof.
  intros Hi. unfold point_move, legal_single, NumOppCheckers.
  destruct (0 <? at2 (board_ st) (cur_player_ st) i) eqn:E0; [|discriminate].
  apply Z.ltb_lt in E0. cbv zeta.
  set (to := move_target (cur_player_ st) (mkCheckerMove i die false)).
  assert (Hto : forall h, move_target (cur_player_ st) (mkCheckerMove i die h) = to)
    by reflexivity.
  destruct ((to =? kScorePos) && aih) eqn:E1.
  - apply andb_true_iff in E1. destruct E1 as [E1 _]. apply Z.eqb_eq in E1.
    destruct (_ || _).
    + intros H. injection H as <-. simpl. rewrite Hto. intuition.
    + destruct (i =? _); [|discriminate].
      intros H. injection H as <-. simpl. rewrite Hto. intuition.
  - destruct (negb (to =? kScorePos)
              && (at2 (board_ st) (Opponent (cur_player_ st)) to <=? 1)) eqn:E2;
      [|discriminate].
    apply andb_true_iff in E2. destruct E2 as [E2 E3].
    apply negb_true_iff, Z.eqb_neq in E2. apply Z.leb_le in E3.
    intros H. injection H as <-. simpl. rewrite Hto. intuition.
Qed.

Lemma moves_loop_legal (st : BackgammonState) (die : Z) (first aih : bool)
    (points : list Z) (acc : list CheckerMove) (m : CheckerMove) :
  Forall (fun i => 0 <= i <= 23) points ->
  Forall (legal_single st die) acc ->
  In m (moves_loop st (cur_player_ st) die first aih points acc) ->
  legal_single st die m.
Proof.
  intros Hpts. revert acc.
  induction Hpts as [|i rest Hi _ IH]; intros acc Hacc; simpl.
  - intros H. eapply List.Forall_forall in Hacc; eassumption.
  - destruct (point_move st (cur_player_ st) die aih i) as [x|] eqn:E;
      [|now apply IH].
    apply point_move_legal in E; [|exact Hi].
    assert (Hacc' : Forall (legal_single st die)
                      (set_insert CheckerMove_lt x acc)).
    { apply List.Forall_forall. intros y Hy. apply In_set_insert in Hy.
      destruct Hy as [-> | Hy]; [exact E|].
      eapply List.Forall_forall in Hacc; eassumption. }
    destruct first; [|now apply IH].
    intros H. eapply List.Forall_forall in Hacc'; eassumption.
Qed.

Lemma Forall_zrange_points : Forall (fun i => 0 <= i <= 23) (zrange 0 24).
Proof. apply List.Forall_forall. intros i Hi. apply In_zrange in Hi. lia. Qed.

Lemma moves_for_legal (st : BackgammonState) (die : Z) (first : bool)
    (m : CheckerMove) :
  valid_player (cur_player_ st) -> 1 <= die <= 6 ->
  In m (moves_for st die first) -> legal_single st die m.
Proof.
  intros Hp Hd. unfold moves_for.
  destruct (0 <? at_ (bar_ st) (cur_player_ st)) eqn:E0.
  - apply Z.ltb_lt in E0. cbv zeta. unfold NumOppCheckers.
    set (to := move_target (cur_player_ st) (mkCheckerMove kBarPos die false)).
    destruct (at2 (board_ st) (Opponent (cur_player_ st)) to <=? 1) eqn:E1;
      [|intros []].
    apply Z.leb_le in E1. intros [<- | []].
    unfold legal_single. simpl.
    change (move_target (cur_player_ st)
              (mkCheckerMove kBarPos die
                 (at2 (board_ st) (Opponent (cur_player_ st)) to =? 1)))
      with to.
    split; [reflexivity|]. split; [now left|]. right.
    split; [|now split].
    unfold to, move_target. simpl. unfold kScorePos.
    destruct Hp as [-> | ->]; simpl; lia.
  - apply moves_loop_legal; [apply Forall_zrange_points | constructor].
Qed.

(** With or without [bFirstOnly], the same dice have a move. *)
Lemma moves_loop_nil_iff (st : BackgammonState) (player die : Z) (aih : bool)
    (points : list Z) (first : bool) (acc : list CheckerMove) :
  moves_loop st player die first aih points acc = [] <->
  acc = [] /\ Forall (fun i => point_move st player die aih i = None) points.
Proof.
  revert acc. induction points as [|i rest IH]; intros acc; simpl.
  - split; [intros ->; split; [reflexivity | constructor] | now intros [-> _]].
  - destruct (point_move st player die aih i) as [x|] eqn:E.
    + split.
      * intros H. exfalso. destruct first.
        -- now apply set_insert_not_nil in H.
        -- apply IH in H. destruct H as [H _]. now apply set_insert_not_nil in H.
      * intros [_ H]. apply Forall_cons in H. destruct H as [H _]. congruence.
    + rewrite IH. split; intros [H1 H2]; (split; [exact H1|]).
      * now constructor.
      * now apply Forall_cons in H2.
Qed.

Lemma moves_for_first_nil (st : BackgammonState) (die : Z) :
  moves_for st die true = [] <-> moves_for st die false = [].
Proof.
  unfold moves_for. destruct (0 <? at_ (bar_ st) (cur_player_ st)); [reflexivity|].
  rewrite !moves_loop_nil_iff. reflexivity.
Qed.

(** ** Undoing a generated move restores the state *)

Lemma put_oob (v : list Z) (i x : Z) :
  ~ (0 <= i < Z.of_nat (length v)) -> put v i x = v.
Proof.
  intros H. unfold put. destruct (i <? 0) eqn:E; [reflexivity|].
  apply Z.ltb_ge in E. apply list_insert_ge. lia.
Qed.

Lemma put_restore (v : list Z) (i d : Z) :
  put (put v i (at_ v i + d)) i (at_ (put v i (at_ v i + d)) i - d) = v.
Proof.
  destruct (Z_lt_le_dec i 0) as [H|H];
    [rewrite !put_oob by (rewrite ?length_put; lia); reflexivity|].
  destruct (Z_lt_le_dec i (Z.of_nat (length v))) as [H'|H'];
    [|rewrite !put_oob by (rewrite ?length_put; lia); reflexivity].
  rewrite at_put_same, put_put by lia. apply put_same. lia.
Qed.

Lemma put_dec_inc (v : list Z) (i : Z) :
  put (put v i (at_ v i - 1)) i (at_ (put v i (at_ v i - 1)) i + 1) = v.
Proof.
  pose proof (put_restore v i (-1)) as H.
  replace (at_ v i + -1) with (at_ v i - 1) in H by lia.
  replace (at_ (put v i (at_ v i - 1)) i - -1)
    with (at_ (put v i (at_ v i - 1)) i + 1) in H by lia.
  exact H.
Qed.

Lemma put_inc_dec (v : list Z) (i : Z) :
  put (put v i (at_ v i + 1)) i (at_ (put v i (at_ v i + 1)) i - 1) = v.
Proof. apply put_restore. Qed.

Lemma put2_row_id (b : list (list Z)) (p : Z) (r : list Z) :
  r = row b p -> (if p <? 0 then b else <[Z.to_nat p := r]> b) = b.
Proof.
  intros ->. destruct (p <? 0) eqn:E; [reflexivity|].
  unfold row. rewrite E.
  destruct (b !! Z.to_nat p) as [x|] eqn:E'.
  - apply list_insert_id. rewrite nth_lookup, E'. reflexivity.
  - apply list_insert_ge. now apply lookup_ge_None.
Qed.

Lemma put2_restore (b : list (list Z)) (p i d : Z) :
  put2 (put2 b p i (at2 b p i + d)) p i
    (at2 (put2 b p i (at2 b p i + d)) p i - d) = b.
Proof.
  destruct (Z_lt_le_dec p 0) as [H|H].
  { unfold put2. now replace (p <? 0) with true by (symmetry; apply Z.ltb_lt; lia). }
  destruct (Z_lt_le_dec p (Z.of_nat (length b))) as [H'|H'].
  - unfold at2. rewrite row_put2_same by lia.
    set (r := put (row b p) i (at_ (row b p) i + d)).
    assert (E : put2 b p i (at_ (row b p) i + d) = <[Z.to_nat p := r]> b).
    { unfold put2. now replace (p <? 0) with false by (symmetry; apply Z.ltb_ge; lia). }
    rewrite E. unfold put2.
    replace (p <? 0) with false by (symmetry; apply Z.ltb_ge; lia).
    assert (Er : row (<[Z.to_nat p := r]> b) p = r).
    { unfold row. replace (p <? 0) with false by (symmetry; apply Z.ltb_ge; lia).
      rewrite nth_lookup, list_lookup_insert_eq by lia. reflexivity. }
    rewrite Er, list_insert_insert_eq. unfold r. rewrite put_restore.
    pose proof (put2_row_id b p (row b p) eq_refl) as Hid.
    replace (p <? 0) with false in Hid by (symmetry; apply Z.ltb_ge; lia).
    exact Hid.
  - unfold put2. replace (p <? 0) with false by (symmetry; apply Z.ltb_ge; lia).
    rewrite !(list_insert_ge b) by lia. reflexivity.
Qed.

Lemma put2_dec_inc (b : list (list Z)) (p i : Z) :
  put2 (put2 b p i (at2 b p i - 1)) p i
    (at2 (put2 b p i (at2 b p i - 1)) p i + 1) = b.
Proof.
  pose proof (put2_restore b p i (-1)) as H.
  replace (at2 b p i + -1) with (at2 b p i - 1) in H by lia.
  replace (at2 (put2 b p i (at2 b p i - 1)) p i - -1)
    with (at2 (put2 b p i (at2 b p i - 1)) p i + 1) in H by lia.
  exact H.
Qed.

Lemma put2_inc_dec (b : list (list Z)) (p i : Z) :
  put2 (put2 b p i (at2 b p i + 1)) p i
    (at2 (put2 b p i (at2 b p i + 1)) p i - 1) = b.
Proof. apply put2_restore. Qed.

Lemma Opponent_valid (p : Z) :
  valid_player p -> valid_player (Opponent p) /\ Opponent p <> p.
Proof. intros [-> | ->]; unfold Opponent, valid_player; lia. Qed.

(** Whether [ApplyCheckerMove] hits is what the generator recorded. *)
Lemma apply_hit_condition (st : BackgammonState) (die : Z) (m : CheckerMove)
    (b : list (list Z)) :
  legal_single st die m ->
  at2 b (Opponent (cur_player_ st)) (move_target (cur_player_ st) m)
  = at2 (board_ st) (Opponent (cur_player_ st)) (move_target (cur_player_ st) m) ->
  hit m || (negb (move_target (cur_player_ st) m =? kScorePos)
            && (at2 b (Opponent (cur_player_ st))
                  (move_target (cur_player_ st) m) =? 1))
  = hit m.
Proof.
  intros (_ & _ & [[Ht Hh] | (Ht & _ & Hh)]) Hb.
  - rewrite Hh, Ht. reflexivity.
  - rewrite Hb, <- Hh. apply Z.eqb_neq in Ht. rewrite Ht. simpl.
    now destruct (hit m).
Qed.

Ltac state_cbn :=
  cbn [fst snd cur_player_ prev_player_ bar_ board_ scores_ remaining_dice_
       dice_ turns_ hyper_backgammon_ scoring_type_ x_turns_ o_turns_
       double_turn_ turn_history_info_
       set_bar set_board set_scores set_remaining_dice].

Lemma state_ext (s t : BackgammonState) :
  scoring_type_ s = scoring_type_ t ->
  hyper_backgammon_ s = hyper_backgammon_ t ->
  cur_player_ s = cur_player_ t ->
  prev_player_ s = prev_player_ t ->
  turns_ s = turns_ t ->
  x_turns_ s = x_turns_ t ->
  o_turns_ s = o_turns_ t ->
  double_turn_ s = double_turn_ t ->
  dice_ s = dice_ t ->
  remaining_dice_ s = remaining_dice_ t ->
  bar_ s = bar_ t ->
  scores_ s = scores_ t ->
  board_ s = board_ t ->
  turn_history_info_ s = turn_history_info_ t ->
  s = t.
Proof. destruct s, t; cbn; intros; subst; reflexivity. Qed.

Lemma undo_apply_move (st : BackgammonState) (die : Z) (m : CheckerMove) :
  valid_player (cur_player_ st) -> legal_single st die m ->
  undo_move (fst (apply_move st m)) m = st.
Proof.
  intros Hp Hl.
  destruct (Opponent_valid _ Hp) as [Hop Hne].
  pose proof Hl as (Hn & Hsrc & Htgt).
  assert (Hpos : (pos m <? 0) = false).
  { apply Z.ltb_ge. unfold kBarPos in Hsrc. lia. }
  pose proof (fun b => apply_hit_condition st die m b Hl) as Hc.
  unfold apply_move. rewrite Hpos. cbv zeta.
  set (cur := cur_player_ st) in *.
  set (tgt := move_target cur m) in *.
  destruct (pos m =? kBarPos) eqn:Eb; destruct (tgt =? kScorePos) eqn:Es;
    state_cbn;
    (rewrite Hc; [|rewrite ?at2_put2_other by (left; lia); reflexivity]);
    destruct (hit m) eqn:Eh; state_cbn;
    unfold undo_move; rewrite Hpos, Eh; cbv zeta; state_cbn; fold cur; fold tgt;
    rewrite Eb, Es; apply state_ext; state_cbn; try reflexivity.
  all: rewrite ?put_inc_dec, ?put2_dec_inc, ?put_dec_inc, ?put2_inc_dec,
            ?put_dec_inc, ?put2_dec_inc;
    try reflexivity.
Qed.


(** ** What the move generator reads *)

(** Two states with the same player to move and the same checkers on the
    points and on the bar. *)
Definition same_position (s t : BackgammonState) : Prop :=
  cur_player_ s = cur_player_ t /\ bar_ s = bar_ t /\ board_ s = board_ t.

Lemma same_position_refl (s : BackgammonState) : same_position s s.
Proof. now repeat split. Qed.

Lemma same_position_sym (s t : BackgammonState) :
  same_position s t -> same_position t s.
Proof. intros (H1 & H2 & H3). now repeat split. Qed.

Lemma point_move_ext (s t : BackgammonState) (player die : Z) (aih : bool)
    (i : Z) :
  board_ s = board_ t ->
  point_move s player die aih i = point_move t player die aih i.
Proof.
  intros H. unfold point_move, NumOppCheckers, FurthestCheckerInHome.
  now rewrite H.
Qed.

Lemma moves_loop_ext (s t : BackgammonState) (player die : Z)
    (first aih : bool) (points : list Z) (acc : list CheckerMove) :
  board_ s = board_ t ->
  moves_loop s player die first aih points acc
  = moves_loop t player die first aih points acc.
Proof.
  intros H. revert acc. induction points as [|i rest IH]; intros acc; simpl;
    [reflexivity|].
  rewrite (point_move_ext s t) by exact H.
  destruct (point_move t player die aih i); [destruct first|]; auto.
Qed.

Lemma moves_for_ext (s t : BackgammonState) (die : Z) (first : bool) :
  same_position s t -> moves_for s die first = moves_for t die first.
Proof.
  intros (Hc & Hb & Hbd). unfold moves_for, all_in_home, NumOppCheckers.
  rewrite Hc, Hb, Hbd. cbv zeta.
  destruct (0 <? at_ (bar_ t) (cur_player_ t)); [reflexivity|].
  now apply moves_loop_ext.
Qed.

Lemma apply_move_same (s t : BackgammonState) (m : CheckerMove) :
  same_position s t ->
  same_position (fst (apply_move s m)) (fst (apply_move t m)).
Proof.
  intros (Hc & Hb & Hbd). unfold apply_move.
  destruct (pos m <? 0); [now repeat split|].
  cbv zeta. rewrite <- Hc.
  destruct (pos m =? kBarPos), (move_target (cur_player_ s) m =? kScorePos);
    state_cbn; rewrite <- ?Hb, <- ?Hbd;
    match goal with
    | |- context [if ?c then (_, true) else _] => destruct c
    end; state_cbn; repeat split; state_cbn; rewrite <- ?Hb, <- ?Hbd;
    try reflexivity; try assumption.
Qed.

Lemma apply_move_cur_player (st : BackgammonState) (m : CheckerMove) :
  cur_player_ (fst (apply_move st m)) = cur_player_ st.
Proof. apply (apply_move_frame st m). Qed.

Lemma apply_move_dice (st : BackgammonState) (m : CheckerMove) :
  dice_ (fst (apply_move st m)) = dice_ st.
Proof. apply (apply_move_frame st m). Qed.

Lemma apply_move_hyper (st : BackgammonState) (m : CheckerMove) :
  hyper_backgammon_ (fst (apply_move st m)) = hyper_backgammon_ st.
Proof. apply (apply_move_frame st m). Qed.

Lemma apply_move_remaining (st : BackgammonState) (m : CheckerMove) :
  0 <= pos m ->
  remaining_dice_ (fst (apply_move st m))
  = put (remaining_dice_ st) (num m - 1)
      (at_ (remaining_dice_ st) (num m - 1) - 1).
Proof.
  intros H. unfold apply_move.
  replace (pos m <? 0) with false by (symmetry; apply Z.ltb_ge; lia).
  cbv zeta.
  destruct (pos m =? kBarPos), (move_target (cur_player_ st) m =? kScorePos);
    state_cbn;
    match goal with
    | |- context [if ?c then (_, true) else _] => destruct c
    end; reflexivity.
Qed.

(** ** The depth-first search of [NumMaxPlayableDies] *)

(** The value the loop over [moves_here] computes, [child] being the value of
    the recursive call. *)
Fixpoint max_playable_loop (child : BackgammonState -> Z) (rest_size : Z)
    (moves : list CheckerMove) (st : BackgammonState) (child_max : Z) : Z :=
  match moves with
  | [] => 1 + child_max
  | m :: moves' =>
      let c := child (fst (apply_move st m)) in
      if c =? rest_size then 1 + c
      else max_playable_loop child rest_size moves' st (Z.max child_max c)
  end.

Fixpoint max_playable (dice : list Z) (st : BackgammonState) : Z :=
  match dice with
  | [] => 0
  | die :: rest =>
      max_playable_loop (max_playable rest) (Z.of_nat (length rest))
        (moves_for st die false) st (-1)
  end.

Lemma NumMaxPlayableDies_loop_pure
    (child : BackgammonState -> result (Z * BackgammonState))
    (childp : BackgammonState -> Z) (rest_size die : Z)
    (st : BackgammonState) :
  valid_player (cur_player_ st) ->
  (forall s, valid_player (cur_player_ s) -> child s = Returns (childp s, s)) ->
  forall (moves : list CheckerMove) (child_max : Z),
    Forall (legal_single st die) moves ->
    NumMaxPlayableDies_loop child rest_size moves st child_max
    = Returns (max_playable_loop childp rest_size moves st child_max, st).
Proof.
  intros Hp Hchild moves.
  induction moves as [|m moves IH]; intros cm Hl; simpl; [reflexivity|].
  apply Forall_cons in Hl. destruct Hl as [Hm Hl].
  assert (Hp' : valid_player (cur_player_ (fst (apply_move st m))))
    by now rewrite apply_move_cur_player.
  rewrite (ApplyCheckerMove_pure st m Hp). cbn [bind].
  rewrite (Hchild _ Hp'). cbn [bind fst snd].
  rewrite (UndoCheckerMove_pure _ m Hp'). cbn [bind].
  rewrite (undo_apply_move st die m Hp Hm).
  destruct (childp (fst (apply_move st m)) =? rest_size); [reflexivity|].
  now apply IH.
Qed.

Lemma NumMaxPlayableDies_popped_pure (dice : list Z) :
  Forall (fun d => 1 <= d <= 6) dice ->
  forall st, valid_player (cur_player_ st) ->
    NumMaxPlayableDies_popped dice st = Returns (max_playable dice st, st).
Proof.
  induction 1 as [|die rest Hd _ IH]; intros st Hp; simpl; [reflexivity|].
  rewrite (SingleCheckerMoves_pure st die false Hp). cbn [bind].
  apply (NumMaxPlayableDies_loop_pure _ (max_playable rest) _ die); auto.
  apply List.Forall_forall. intros m Hm.
  now apply (moves_for_legal st die false).
Qed.

Lemma max_playable_loop_ext (child : BackgammonState -> Z) (rest_size : Z)
    (s t : BackgammonState) :
  same_position s t ->
  (forall s' t', same_position s' t' -> child s' = child t') ->
  forall moves cm,
    max_playable_loop child rest_size moves s cm
    = max_playable_loop child rest_size moves t cm.
Proof.
  intros Hst Hchild moves.
  induction moves as [|m moves IH]; intros cm; simpl; [reflexivity|].
  rewrite (Hchild _ _ (apply_move_same s t m Hst)).
  destruct (child (fst (apply_move t m)) =? rest_size); [reflexivity|].
  apply IH.
Qed.

Lemma max_playable_ext (dice : list Z) (s t : BackgammonState) :
  same_position s t -> max_playable dice s = max_playable dice t.
Proof.
  revert s t. induction dice as [|die rest IH]; intros s t Hst; simpl;
    [reflexivity|].
  rewrite (moves_for_ext s t die false Hst).
  apply max_playable_loop_ext; [exact Hst | exact IH].
Qed.

(** A way to play the dice one after the other, in this order. *)
Fixpoint play_path (st : BackgammonState) (dice : list Z) : Prop :=
  match dice with
  | [] => True
  | die :: rest =>
      exists m, In m (moves_for st die false)
                /\ play_path (fst (apply_move st m)) rest
  end.

Lemma play_path_ext (dice : list Z) (s t : BackgammonState) :
  same_position s t -> play_path s dice -> play_path t dice.
Proof.
  revert s t. induction dice as [|die rest IH]; intros s t Hst; simpl;
    [trivial|].
  intros (m & Hm & Hpath). exists m. split.
  - now rewrite <- (moves_for_ext s t die false Hst).
  - eapply IH; [|exact Hpath]. now apply apply_move_same.
Qed.

Lemma max_playable_loop_sound (child : BackgammonState -> Z)
    (rest : list Z) (st : BackgammonState) (all : list CheckerMove) :
  (forall s, 0 <= child s <= Z.of_nat (length rest)
             /\ play_path s (firstn (Z.to_nat (child s)) rest)) ->
  forall moves cm,
    incl moves all ->
    -1 <= cm <= Z.of_nat (length rest) ->
    (0 <= cm -> exists m, In m all
        /\ play_path (fst (apply_move st m)) (firstn (Z.to_nat cm) rest)) ->
    let r := max_playable_loop child (Z.of_nat (length rest)) moves st cm in
    0 <= r <= 1 + Z.of_nat (length rest)
    /\ (1 <= r -> exists m, In m all
          /\ play_path (fst (apply_move st m)) (firstn (Z.to_nat (r - 1)) rest)).
Proof.
  intros Hchild moves.
  induction moves as [|m moves IH]; intros cm Hincl Hcm Hpath; simpl.
  - split; [lia|]. intros Hr.
    replace (1 + cm - 1) with cm by lia. apply Hpath. lia.
  - destruct (Hchild (fst (apply_move st m))) as [Hc Hpc].
    assert (Hin : In m all) by (apply Hincl; now left).
    destruct (child (fst (apply_move st m)) =? Z.of_nat (length rest)) eqn:E.
    + split; [lia|]. intros _.
      replace (1 + child (fst (apply_move st m)) - 1)
        with (child (fst (apply_move st m))) by lia.
      exists m. now split.
    + apply IH.
      * intros x Hx. apply Hincl. now right.
      * lia.
      * intros _.
        destruct (Z.max_spec cm (child (fst (apply_move st m))))
          as [[Hlt ->] | [Hge ->]].
        -- exists m. now split.
        -- apply Hpath. lia.
Qed.

Lemma max_playable_sound (dice : list Z) (st : BackgammonState) :
  0 <= max_playable dice st <= Z.of_nat (length dice)
  /\ play_path st (firstn (Z.to_nat (max_playable dice st)) dice).
Proof.
  revert st. induction dice as [|die rest IH]; intros st.
  - simpl. split; [lia | trivial].
  - cbn [max_playable].
    pose proof (max_playable_loop_sound (max_playable rest) rest st
                  (moves_for st die false) IH (moves_for st die false) (-1)
                  (fun x H => H)) as H.
    cbv zeta in H.
    destruct H as [Hr Hpath]; [lia | lia |].
    set (r := max_playable_loop _ _ _ _ _) in *.
    split; [cbn [length]; lia|].
    destruct (Z.eq_dec r 0) as [-> | Hne]; [simpl; trivial|].
    replace (Z.to_nat r) with (S (Z.to_nat (r - 1))) by lia.
    cbn [firstn play_path]. apply Hpath. lia.
Qed.

(** ** The legal level *)

(** The dice of a roll: two values from 1 to 6. *)
Definition rolled (st : BackgammonState) (d0 d1 : Z) : Prop :=
  dice_ st = [d0; d1] /\ 1 <= d0 <= 6 /\ 1 <= d1 <= 6.

(** The level [DetermineLegalLevel] returns, in terms of [max_playable]. *)
Definition legal_level (st : BackgammonState) : LegalLevel :=
  let hi_die := Z.max (at_ (dice_ st) 0) (at_ (dice_ st) 1) in
  let lo_die := Z.min (at_ (dice_ st) 0) (at_ (dice_ st) 1) in
  let used :=
    if hi_die =? lo_die
    then (max_playable [hi_die; hi_die; hi_die; hi_die] st, true)
    else
      let n := max_playable [hi_die; lo_die] st in
      if n <? 2 then (Z.max n (max_playable [lo_die; hi_die] st), 0 <? n)
      else (n, 0 <? n) in
  if fst used =? 1 then (if snd used then kHighDie else kLowDie)
  else if fst used =? 2 then kTwoDice
  else if fst used =? 3 then kThreeDice
  else if fst used =? 4 then kFourDice
  else kNoDice.

Lemma DetermineLegalLevel_pure (st : BackgammonState) (d0 d1 : Z) :
  valid_player (cur_player_ st) -> rolled st d0 d1 ->
  DetermineLegalLevel st = Returns (legal_level st).
Proof.
  intros Hp (Hd & H0 & H1). unfold DetermineLegalLevel, legal_level.
  rewrite Hd. change (at_ [d0; d1] 0) with d0. change (at_ [d0; d1] 1) with d1.
  cbv zeta. unfold NumMaxPlayableDies. cbn [rev app].
  set (hi := Z.max d0 d1). set (lo := Z.min d0 d1).
  assert (Hhi : 1 <= hi <= 6) by (unfold hi; lia).
  assert (Hlo : 1 <= lo <= 6) by (unfold lo; lia).
  assert (F4 : Forall (fun d => 1 <= d <= 6) [hi; hi; hi; hi])
    by (repeat apply Forall_cons_2; auto).
  assert (F2 : Forall (fun d => 1 <= d <= 6) [hi; lo])
    by (repeat apply Forall_cons_2; auto).
  assert (F2' : Forall (fun d => 1 <= d <= 6) [lo; hi])
    by (repeat apply Forall_cons_2; auto).
  destruct (hi =? lo).
  - rewrite (NumMaxPlayableDies_popped_pure _ F4 st Hp). reflexivity.
  - rewrite (NumMaxPlayableDies_popped_pure _ F2 st Hp).
    cbn [bind fst snd].
    destruct (max_playable [hi; lo] st <? 2); [|reflexivity].
    rewrite (NumMaxPlayableDies_popped_pure _ F2' st Hp).
    reflexivity.
Qed.

Lemma legal_level_ext (s t : BackgammonState) :
  same_position s t -> dice_ s = dice_ t -> legal_level s = legal_level t.
Proof.
  intros Hst Hd. unfold legal_level. rewrite Hd.
  now rewrite !(max_playable_ext _ s t Hst).
Qed.

(** [remaining_dice_] as [InitRemainingDice] fills it for a level. *)
Definition initial_remaining (level : LegalLevel) (d0 d1 : Z) : list Z :=
  let hi_die := Z.max d0 d1 in
  let lo_die := Z.min d0 d1 in
  let zeros := replicate 6 0 in
  let incr (v : list Z) (i : Z) := put v i (at_ v i + 1) in
  match level with
  | kLowDie => incr zeros (lo_die - 1)
  | kHighDie => incr zeros (hi_die - 1)
  | kTwoDice => incr (incr zeros (lo_die - 1)) (hi_die - 1)
  | kThreeDice => put zeros (hi_die - 1) 3
  | kFourDice => put zeros (hi_die - 1) 4
  | kNoDice => zeros
  end.

Lemma InitRemainingDice_pure (st : BackgammonState) (d0 d1 : Z) :
  valid_player (cur_player_ st) -> rolled st d0 d1 ->
  InitRemainingDice st
  = Returns (set_remaining_dice st (initial_remaining (legal_level st) d0 d1)).
Proof.
  intros Hp Hr. pose proof Hr as (Hd & H0 & H1).
  unfold InitRemainingDice. rewrite Hd.
  change (at_ [d0; d1] 0) with d0. change (at_ [d0; d1] 1) with d1.
  cbv zeta.
  set (st0 := set_remaining_dice st (replicate (Z.to_nat kNumDiceOutcomes) 0)).
  assert (Hr0 : rolled st0 d0 d1) by exact Hr.
  assert (Hp0 : valid_player (cur_player_ st0)) by exact Hp.
  rewrite (DetermineLegalLevel_pure st0 d0 d1 Hp0 Hr0). cbn [bind].
  assert (E : legal_level st0 = legal_level st).
  { apply legal_level_ext; [repeat split | reflexivity]. }
  rewrite E. f_equal.
  destruct (legal_level st); reflexivity.
Qed.

(** ** [LegalSingleCheckerMoves] *)

(** The candidates the verification loop keeps: those after which the other
    die has a move. *)
Fixpoint verified (st : BackgammonState) (other_die : Z)
    (moves_here moves : list CheckerMove) : list CheckerMove :=
  match moves_here with
  | [] => moves
  | m :: rest =>
      verified st other_die rest
        (match moves_for (fst (apply_move st m)) other_die true with
         | [] => moves
         | _ => set_insert CheckerMove_lt m moves
         end)
  end.

Lemma LegalSingleCheckerMoves_verify_pure (st : BackgammonState)
    (die other_die : Z) (moves_here moves : list CheckerMove) :
  valid_player (cur_player_ st) ->
  Forall (legal_single st die) moves_here ->
  LegalSingleCheckerMoves_verify st other_die moves_here moves
  = Returns (st, verified st other_die moves_here moves).
Proof.
  intros Hp Hl. revert moves.
  induction Hl as [|m rest Hm _ IH]; intros moves; simpl; [reflexivity|].
  assert (Hp' : valid_player (cur_player_ (fst (apply_move st m))))
    by now rewrite apply_move_cur_player.
  rewrite (ApplyCheckerMove_pure st m Hp). cbn [bind].
  rewrite (SingleCheckerMoves_pure _ other_die true Hp'). cbn [bind].
  rewrite (UndoCheckerMove_pure _ m Hp'). cbn [bind].
  rewrite (undo_apply_move st die m Hp Hm).
  apply IH.
Qed.

Lemma verified_keeps (st : BackgammonState) (other_die : Z)
    (moves_here moves : list CheckerMove) (m : CheckerMove) :
  In m moves -> In m (verified st other_die moves_here moves).
Proof.
  revert moves. induction moves_here as [|x rest IH]; intros moves H; simpl;
    [exact H|].
  apply IH. destruct (moves_for _ other_die true); [exact H|].
  now apply set_insert_keeps.
Qed.

Lemma verified_In (st : BackgammonState) (other_die : Z)
    (moves_here moves : list CheckerMove) (m : CheckerMove) :
  In m (verified st other_die moves_here moves) ->
  In m moves
  \/ (In m moves_here
      /\ moves_for (fst (apply_move st m)) other_die true <> []).
Proof.
  revert moves. induction moves_here as [|x rest IH]; intros moves; simpl;
    [now left|].
  intros H. apply IH in H. destruct H as [H | [H1 H2]].
  - destruct (moves_for (fst (apply_move st x)) other_die true) eqn:E;
      [now left|].
    apply In_set_insert in H. destruct H as [-> | H]; [|now left].
    right. split; [now left | now rewrite E].
  - right. split; [now right | exact H2].
Qed.

Lemma verified_not_nil (st : BackgammonState) (other_die : Z)
    (moves_here moves : list CheckerMove) (m : CheckerMove) :
  In m moves_here ->
  moves_for (fst (apply_move st m)) other_die true <> [] ->
  verified st other_die moves_here moves <> [].
Proof.
  revert moves. induction moves_here as [|x rest IH]; intros moves; simpl;
    [tauto|].
  intros [-> | H] Hne.
  - destruct (moves_for (fst (apply_move st m)) other_die true) eqn:E;
      [congruence|].
    destruct (set_insert_equiv CheckerMove_lt m moves) as (y & Hy & _).
    intros Hnil.
    apply (verified_keeps st other_die rest) in Hy. rewrite Hnil in Hy.
    destruct Hy.
  - now apply IH.
Qed.

(** The moves [LegalSingleCheckerMoves] returns. *)
Definition legal_moves (st : BackgammonState) : list CheckerMove :=
  let d0 := at_ (dice_ st) 0 in
  let d1 := at_ (dice_ st) 1 in
  if negb (d0 =? d1)
     && (0 <? at_ (remaining_dice_ st) (d0 - 1))
     && (0 <? at_ (remaining_dice_ st) (d1 - 1))
  then
    verified st d0 (moves_for st d1 false)
      (verified st d1 (moves_for st d0 false) [])
  else
    match find (fun die => 0 <? at_ (remaining_dice_ st) (die - 1)) (dice_ st) with
    | Some die => moves_for st die false
    | None => []
    end.

Lemma LegalSingleCheckerMoves_pure (st : BackgammonState) (d0 d1 : Z) :
  valid_player (cur_player_ st) -> rolled st d0 d1 ->
  LegalSingleCheckerMoves st = Returns (legal_moves st).
Proof.
  intros Hp (Hd & H0 & H1). unfold LegalSingleCheckerMoves, legal_moves.
  rewrite Hd. change (at_ [d0; d1] 0) with d0. change (at_ [d0; d1] 1) with d1.
  cbv zeta.
  destruct (negb (d0 =? d1)) eqn:En; cbn [andb negb].
  2:{ destruct (find _ [d0; d1]); [now apply SingleCheckerMoves_pure | reflexivity]. }
  destruct (0 <? at_ (remaining_dice_ st) (d0 - 1)) eqn:E0; cbn [andb negb].
  2:{ destruct (find _ [d0; d1]); [now apply SingleCheckerMoves_pure | reflexivity]. }
  destruct (0 <? at_ (remaining_dice_ st) (d1 - 1)) eqn:E1; cbn [andb negb].
  2:{ destruct (find _ [d0; d1]); [now apply SingleCheckerMoves_pure | reflexivity]. }
  cbn [LegalSingleCheckerMoves_dice]. rewrite E0, E1, Hd.
  change (at_ [d0; d1] 0) with d0. change (at_ [d0; d1] 1) with d1.
  rewrite Z.eqb_refl.
  apply negb_true_iff in En. rewrite Z.eqb_sym in En. rewrite En.
  rewrite (SingleCheckerMoves_pure st d0 false Hp). cbn [bind].
  rewrite (LegalSingleCheckerMoves_verify_pure st d0 d1 _ _ Hp).
  2:{ apply List.Forall_forall. intros m Hm. now apply (moves_for_legal st d0 false). }
  cbn [bind fst snd].
  rewrite (SingleCheckerMoves_pure st d1 false Hp). cbn [bind].
  rewrite (LegalSingleCheckerMoves_verify_pure st d1 d0 _ _ Hp).
  2:{ apply List.Forall_forall. intros m Hm. now apply (moves_for_legal st d1 false). }
  reflexivity.
Qed.

(** ** Move sequences *)

Lemma CheckerMoveSequence_lt_equiv (x y : CheckerMoveSequence) :
  CheckerMoveSequence_lt x y = false -> CheckerMoveSequence_lt y x = false ->
  id_ x = id_ y.
Proof.
  unfold CheckerMoveSequence_lt, String.ltb. intros H1 H2.
  apply String.compare_eq_iff.
  rewrite String.compare_antisym in H2.
  destruct (String.compare (id_ x) (id_ y)); simpl in *;
    [reflexivity | discriminate | discriminate].
Qed.

(** The sequence [AddMove] makes of [seq] and a move. *)
Definition add_move (seq : CheckerMoveSequence) (m : CheckerMove)
    : CheckerMoveSequence :=
  let st := fst (apply_move (state_ seq) m) in
  mkCheckerMoveSequence (moves_ seq ++ [m]) st (PositionId st).

Lemma AddMove_pure (seq : CheckerMoveSequence) (m : CheckerMove) :
  valid_player (cur_player_ (state_ seq)) ->
  AddMove seq m = Returns (add_move seq m).
Proof.
  intros Hp. unfold AddMove. now rewrite (ApplyCheckerMove_pure _ m Hp).
Qed.

Definition insert_all (seq : CheckerMoveSequence) (moves : list CheckerMove)
    (seqs : list CheckerMoveSequence) : list CheckerMoveSequence :=
  fold_left (fun acc m => set_insert CheckerMoveSequence_lt (add_move seq m) acc)
    moves seqs.

Lemma insert_extensions_pure (seq : CheckerMoveSequence)
    (moves : list CheckerMove) (seqs : list CheckerMoveSequence) :
  valid_player (cur_player_ (state_ seq)) ->
  insert_extensions seq moves seqs = Returns (insert_all seq moves seqs).
Proof.
  intros Hp. revert seqs.
  induction moves as [|m rest IH]; intros seqs; simpl; [reflexivity|].
  rewrite (AddMove_pure seq m Hp). cbn [bind]. apply IH.
Qed.

Lemma insert_all_keeps (seq : CheckerMoveSequence) (moves : list CheckerMove)
    (seqs : list CheckerMoveSequence) (y : CheckerMoveSequence) :
  In y seqs -> In y (insert_all seq moves seqs).
Proof.
  revert seqs. induction moves as [|m rest IH]; intros seqs H; simpl;
    [exact H|].
  apply IH. now apply set_insert_keeps.
Qed.

Lemma insert_all_In (seq : CheckerMoveSequence) (moves : list CheckerMove)
    (seqs : list CheckerMoveSequence) (y : CheckerMoveSequence) :
  In y (insert_all seq moves seqs) ->
  In y seqs \/ exists m, In m moves /\ y = add_move seq m.
Proof.
  revert seqs. induction moves as [|m rest IH]; intros seqs; simpl;
    [now left|].
  intros H. apply IH in H. destruct H as [H | (x & Hx & ->)].
  - apply In_set_insert in H. destruct H as [-> | H]; [|now left].
    right. exists m. split; [now left | reflexivity].
  - right. exists x. split; [now right | reflexivity].
Qed.

Lemma insert_all_equiv (seq : CheckerMoveSequence) (moves : list CheckerMove)
    (seqs : list CheckerMoveSequence) (m : CheckerMove) :
  In m moves ->
  exists y, In y (insert_all seq moves seqs) /\ id_ y = id_ (add_move seq m).
Proof.
  revert seqs. induction moves as [|x rest IH]; intros seqs; simpl; [tauto|].
  intros [-> | H]; [|now apply IH].
  destruct (set_insert_equiv CheckerMoveSequence_lt (add_move seq m) seqs)
    as (y & Hy & Hxy).
  exists y. split; [now apply insert_all_keeps|].
  destruct Hxy as [-> | [H1 H2]]; [reflexivity|].
  symmetry. exact (CheckerMoveSequence_lt_equiv _ _ H1 H2).
Qed.

Definition extend_all (seqs new_seqs : list CheckerMoveSequence)
    : list CheckerMoveSequence :=
  fold_left (fun acc seq => insert_all seq (legal_moves (state_ seq)) acc)
    seqs new_seqs.

(** The sequences of one turn share the player and the dice. *)
Definition seq_ok (d0 d1 : Z) (seq : CheckerMoveSequence) : Prop :=
  valid_player (cur_player_ (state_ seq)) /\ rolled (state_ seq) d0 d1.

Lemma add_move_ok (d0 d1 : Z) (seq : CheckerMoveSequence) (m : CheckerMove) :
  seq_ok d0 d1 seq -> seq_ok d0 d1 (add_move seq m).
Proof.
  intros [Hp Hr]. unfold seq_ok, rolled, add_move. cbn [state_].
  now rewrite apply_move_cur_player, apply_move_dice.
Qed.

Lemma extend_sequences_pure (d0 d1 : Z)
    (seqs new_seqs : list CheckerMoveSequence) :
  Forall (seq_ok d0 d1) seqs ->
  extend_sequences seqs new_seqs = Returns (extend_all seqs new_seqs).
Proof.
  intros H. revert new_seqs.
  induction H as [|seq rest [Hp Hr] _ IH]; intros new_seqs; simpl;
    [reflexivity|].
  rewrite (LegalSingleCheckerMoves_pure _ d0 d1 Hp Hr). cbn [bind].
  rewrite (insert_extensions_pure _ _ _ Hp). cbn [bind].
  apply IH.
Qed.

Lemma extend_all_keeps (seqs new_seqs : list CheckerMoveSequence)
    (y : CheckerMoveSequence) :
  In y new_seqs -> In y (extend_all seqs new_seqs).
Proof.
  revert new_seqs. induction seqs as [|seq rest IH]; intros new_seqs H; simpl;
    [exact H|].
  apply IH. now apply insert_all_keeps.
Qed.

Lemma extend_all_In (seqs new_seqs : list CheckerMoveSequence)
    (y : CheckerMoveSequence) :
  In y (extend_all seqs new_seqs) ->
  In y new_seqs
  \/ exists seq m, In seq seqs /\ In m (legal_moves (state_ seq))
                   /\ y = add_move seq m.
Proof.
  revert new_seqs. induction seqs as [|seq rest IH]; intros new_seqs; simpl;
    [now left|].
  intros H. apply IH in H. destruct H as [H | (s & m & Hs & Hm & ->)].
  - apply insert_all_In in H. destruct H as [H | (m & Hm & ->)]; [now left|].
    right. exists seq, m. repeat split; [now left | exact Hm].
  - right. exists s, m. repeat split; [now right | exact Hm].
Qed.

Lemma extend_all_equiv (seqs new_seqs : list CheckerMoveSequence)
    (seq : CheckerMoveSequence) (m : CheckerMove) :
  In seq seqs -> In m (legal_moves (state_ seq)) ->
  exists y, In y (extend_all seqs new_seqs) /\ id_ y = id_ (add_move seq m).
Proof.
  revert new_seqs. induction seqs as [|x rest IH]; intros new_seqs; simpl;
    [tauto|].
  intros [-> | H] Hm; [|now apply IH].
  destruct (insert_all_equiv seq _ new_seqs m Hm) as (y & Hy & E).
  exists y. split; [now apply extend_all_keeps | exact E].
Qed.

(** The passes of the breadth-first loop. *)
Fixpoint passes_all (passes : nat) (seqs : list CheckerMoveSequence)
    : list CheckerMoveSequence :=
  match passes with
  | O => seqs
  | S passes' =>
      match extend_all seqs [] with
      | [] => seqs
      | new_seqs => passes_all passes' new_seqs
      end
  end.

Lemma extend_all_ok (d0 d1 : Z) (seqs : list CheckerMoveSequence) :
  Forall (seq_ok d0 d1) seqs -> Forall (seq_ok d0 d1) (extend_all seqs []).
Proof.
  intros H. apply List.Forall_forall. intros y Hy.
  apply extend_all_In in Hy. destruct Hy as [[] | (s & m & Hs & _ & ->)].
  apply add_move_ok. eapply List.Forall_forall in H; eassumption.
Qed.

Lemma LegalCheckerMoveSequences_passes_pure (d0 d1 : Z) (passes : nat)
    (seqs : list CheckerMoveSequence) :
  Forall (seq_ok d0 d1) seqs ->
  LegalCheckerMoveSequences_passes passes seqs
  = Returns (passes_all passes seqs).
Proof.
  revert seqs. induction passes as [|n IH]; intros seqs H; simpl;
    [reflexivity|].
  rewrite (extend_sequences_pure d0 d1 _ _ H). cbn [bind].
  pose proof (extend_all_ok d0 d1 seqs H) as H'.
  destruct (extend_all seqs []); [reflexivity|]. now apply IH.
Qed.

Definition legal_sequences (st : BackgammonState) : list CheckerMoveSequence :=
  match insert_all (CheckerMoveSequence_new st) (legal_moves st) [] with
  | [] => []
  | seqs => passes_all 3 seqs
  end.

Lemma LegalCheckerMoveSequences_pure (st : BackgammonState) (d0 d1 : Z) :
  valid_player (cur_player_ st) -> rolled st d0 d1 ->
  LegalCheckerMoveSequences st = Returns (legal_sequences st).
Proof.
  intros Hp Hr. unfold LegalCheckerMoveSequences, legal_sequences.
  rewrite (LegalSingleCheckerMoves_pure st d0 d1 Hp Hr). cbn [bind].
  rewrite insert_extensions_pure by exact Hp. cbn [bind].
  assert (H : Forall (seq_ok d0 d1)
                (insert_all (CheckerMoveSequence_new st) (legal_moves st) [])).
  { apply List.Forall_forall. intros y Hy. apply insert_all_In in Hy.
    destruct Hy as [[] | (m & _ & ->)]. apply add_move_ok. now split. }
  destruct (insert_all _ _ []); [reflexivity|].
  change (Z.to_nat (kNumMovesPerCheckerSequence - 1)) with 3%nat.
  now apply LegalCheckerMoveSequences_passes_pure with (d0 := d0) (d1 := d1).
Qed.

(** ** The layers of the breadth-first search *)

Lemma extend_all_nil (seqs : list CheckerMoveSequence) :
  (forall seq, In seq seqs -> legal_moves (state_ seq) = []) ->
  extend_all seqs [] = [].
Proof.
  intros H. destruct (extend_all seqs []) as [|y l] eqn:E; [reflexivity|].
  assert (Hy : In y (extend_all seqs [])) by (rewrite E; now left).
  apply extend_all_In in Hy. destruct Hy as [[] | (s & m & Hs & Hm & _)].
  rewrite (H s Hs) in Hm. destruct Hm.
Qed.

Section Layers.

(** [Inv k seq]: [seq] is a sequence of the search with [k] dice left to
    play; [Good k seq]: what one sequence of the layer is known to satisfy. *)
Variable Inv : nat -> CheckerMoveSequence -> Prop.
Variable Good : nat -> CheckerMoveSequence -> Prop.

Hypothesis Inv_end :
  forall seq, Inv 0 seq -> legal_moves (state_ seq) = [].
Hypothesis Inv_step :
  forall k seq m, Inv (S k) seq -> In m (legal_moves (state_ seq)) ->
                  Inv k (add_move seq m).
Hypothesis Good_step :
  forall k seqs, Forall (Inv (S k)) seqs ->
    (exists seq, In seq seqs /\ Good (S k) seq) ->
    exists y, In y (extend_all seqs []) /\ Good k y.

Lemma passes_all_layers (passes : nat) :
  forall (k : nat) (seqs : list CheckerMoveSequence),
    (k <= passes)%nat ->
    Forall (Inv k) seqs -> (exists seq, In seq seqs /\ Good k seq) ->
    Forall (Inv 0%nat) (passes_all passes seqs).
Proof.
  induction passes as [|n IH]; intros k seqs Hk Hinv Hgood.
  - assert (k = 0%nat) by lia. subst k. exact Hinv.
  - cbn [passes_all]. destruct k as [|k].
    + rewrite extend_all_nil; [exact Hinv|].
      intros seq Hs. apply Inv_end. eapply List.Forall_forall in Hinv; eassumption.
    + destruct (Good_step k seqs Hinv Hgood) as (y & Hy & Gy).
      assert (Hinv' : Forall (Inv k) (extend_all seqs [])).
      { apply List.Forall_forall. intros z Hz. apply extend_all_In in Hz.
        destruct Hz as [[] | (s & m & Hs & Hm & ->)].
        apply Inv_step; [|exact Hm].
        eapply List.Forall_forall in Hinv; eassumption. }
      destruct (extend_all seqs []) as [|z l] eqn:E; [destruct Hy|].
      apply (IH k); [lia | exact Hinv' | now exists y].
Qed.

End Layers.

Lemma legal_sequences_passes (st : BackgammonState) (y : CheckerMoveSequence) :
  In y (legal_sequences st) ->
  In y (passes_all 4 [CheckerMoveSequence_new st]).
Proof.
  unfold legal_sequences. cbn [passes_all extend_all fold_left].
  change (state_ (CheckerMoveSequence_new st)) with st.
  destruct (insert_all (CheckerMoveSequence_new st) (legal_moves st) []);
    [intros [] | trivial].
Qed.

(** ** The dice left to play *)

Lemma legal_single_valid (st : BackgammonState) (die : Z) (m : CheckerMove) :
  1 <= die <= 6 -> legal_single st die m -> valid_move m /\ num m = die.
Proof.
  intros Hd (Hn & Hsrc & _). unfold valid_move. rewrite Hn.
  repeat split; lia.
Qed.

Lemma apply_move_remaining_at (st : BackgammonState) (m : CheckerMove) (d : Z) :
  length (remaining_dice_ st) = 6%nat -> valid_move m ->
  at_ (remaining_dice_ (fst (apply_move st m))) (d - 1)
  = if num m =? d then at_ (remaining_dice_ st) (d - 1) - 1
    else at_ (remaining_dice_ st) (d - 1).
Proof.
  intros Hlen [Hpos Hnum].
  rewrite apply_move_remaining by (unfold kBarPos in Hpos; lia).
  rewrite at_put by (rewrite Hlen; lia).
  destruct (num m =? d) eqn:E.
  - apply Z.eqb_eq in E. subst d. now rewrite Z.eqb_refl.
  - apply Z.eqb_neq in E.
    replace (num m - 1 =? d - 1) with false by (symmetry; apply Z.eqb_neq; lia).
    reflexivity.
Qed.

Lemma apply_move_remaining_length (st : BackgammonState) (m : CheckerMove) :
  length (remaining_dice_ (fst (apply_move st m)))
  = length (remaining_dice_ st).
Proof.
  destruct (Z_lt_le_dec (pos m) 0) as [H | H].
  - unfold apply_move.
    now replace (pos m <? 0) with true by (symmetry; apply Z.ltb_lt; lia).
  - rewrite apply_move_remaining by exact H. apply length_put.
Qed.

(** With no die left, no move. *)
Lemma legal_moves_none (st : BackgammonState) (d0 d1 : Z) :
  rolled st d0 d1 ->
  at_ (remaining_dice_ st) (d0 - 1) <= 0 ->
  at_ (remaining_dice_ st) (d1 - 1) <= 0 ->
  legal_moves st = [].
Proof.
  intros (Hd & _) H0 H1. unfold legal_moves. rewrite Hd.
  change (at_ [d0; d1] 0) with d0. change (at_ [d0; d1] 1) with d1.
  cbv zeta. cbn [find].
  replace (0 <? at_ (remaining_dice_ st) (d0 - 1)) with false
    by (symmetry; apply Z.ltb_ge; lia).
  replace (0 <? at_ (remaining_dice_ st) (d1 - 1)) with false
    by (symmetry; apply Z.ltb_ge; lia).
  now rewrite andb_false_r.
Qed.

(** With one of two different dice left, its moves. *)
Lemma legal_moves_one (st : BackgammonState) (d0 d1 die other : Z) :
  rolled st d0 d1 ->
  (die = d0 /\ other = d1) \/ (die = d1 /\ other = d0) ->
  0 < at_ (remaining_dice_ st) (die - 1) ->
  at_ (remaining_dice_ st) (other - 1) <= 0 ->
  legal_moves st = moves_for st die false.
Proof.
  intros (Hd & _) Hdo Hdie Hother. unfold legal_moves. rewrite Hd.
  change (at_ [d0; d1] 0) with d0. change (at_ [d0; d1] 1) with d1.
  cbv zeta. cbn [find].
  destruct Hdo as [[-> ->] | [-> ->]].
  - replace (0 <? at_ (remaining_dice_ st) (d0 - 1)) with true
      by (symmetry; apply Z.ltb_lt; lia).
    replace (0 <? at_ (remaining_dice_ st) (d1 - 1)) with false
      by (symmetry; apply Z.ltb_ge; lia).
    now rewrite andb_false_r.
  - replace (0 <? at_ (remaining_dice_ st) (d1 - 1)) with true
      by (symmetry; apply Z.ltb_lt; lia).
    replace (0 <? at_ (remaining_dice_ st) (d0 - 1)) with false
      by (symmetry; apply Z.ltb_ge; lia).
    now rewrite andb_false_r.
Qed.

(** With a double, the moves of the die while it is left. *)
Lemma legal_moves_double (st : BackgammonState) (d : Z) :
  rolled st d d ->
  0 < at_ (remaining_dice_ st) (d - 1) ->
  legal_moves st = moves_for st d false.
Proof.
  intros (Hd & _) H. unfold legal_moves. rewrite Hd.
  change (at_ [d; d] 0) with d. change (at_ [d; d] 1) with d.
  cbv zeta. cbn [find]. rewrite Z.eqb_refl. cbn [negb andb].
  now replace (0 <? at_ (remaining_dice_ st) (d - 1)) with true
    by (symmetry; apply Z.ltb_lt; lia).
Qed.

(** Every move returned uses a die that is left, and leaves the other die,
    if it is still to play, with a move. *)
Lemma legal_moves_cases (st : BackgammonState) (d0 d1 : Z) (m : CheckerMove) :
  valid_player (cur_player_ st) -> rolled st d0 d1 -> d0 <> d1 ->
  In m (legal_moves st) ->
  exists die other,
    ((die = d0 /\ other = d1) \/ (die = d1 /\ other = d0))
    /\ 0 < at_ (remaining_dice_ st) (die - 1)
    /\ legal_single st die m
    /\ (0 < at_ (remaining_dice_ st) (other - 1) ->
        moves_for (fst (apply_move st m)) other false <> []).
Proof.
  intros Hp Hr Hne. pose proof Hr as (Hd & H0 & H1).
  assert (L0 : forall f, In m (moves_for st d0 f) -> legal_single st d0 m)
    by (intros f; apply moves_for_legal; assumption).
  assert (L1 : forall f, In m (moves_for st d1 f) -> legal_single st d1 m)
    by (intros f; apply moves_for_legal; assumption).
  destruct (Z_lt_le_dec 0 (at_ (remaining_dice_ st) (d0 - 1))) as [A | A];
    destruct (Z_lt_le_dec 0 (at_ (remaining_dice_ st) (d1 - 1))) as [B | B].
  - unfold legal_moves. rewrite Hd.
    change (at_ [d0; d1] 0) with d0. change (at_ [d0; d1] 1) with d1.
    cbv zeta.
    replace (d0 =? d1) with false by (symmetry; now apply Z.eqb_neq).
    replace (0 <? at_ (remaining_dice_ st) (d0 - 1)) with true
      by (symmetry; apply Z.ltb_lt; exact A).
    replace (0 <? at_ (remaining_dice_ st) (d1 - 1)) with true
      by (symmetry; apply Z.ltb_lt; exact B).
    cbn [negb andb]. intros H.
    apply verified_In in H. destruct H as [H | [H1' H2]].
    + apply verified_In in H. destruct H as [[] | [H1' H2]].
      exists d0, d1.
      split; [left; split; reflexivity|]. split; [exact A|].
      split; [exact (L0 _ H1')|].
      intros _ E. apply H2. apply moves_for_first_nil. exact E.
    + exists d1, d0.
      split; [right; split; reflexivity|]. split; [exact B|].
      split; [exact (L1 _ H1')|].
      intros _ E. apply H2. apply moves_for_first_nil. exact E.
  - rewrite (legal_moves_one st d0 d1 d0 d1 Hr (or_introl (conj eq_refl eq_refl)) A B).
    intros H. exists d0, d1.
    split; [left; split; reflexivity|]. split; [exact A|].
    split; [exact (L0 _ H)|]. intros C. exfalso. lia.
  - rewrite (legal_moves_one st d0 d1 d1 d0 Hr (or_intror (conj eq_refl eq_refl)) B A).
    intros H. exists d1, d0.
    split; [right; split; reflexivity|]. split; [exact B|].
    split; [exact (L1 _ H)|]. intros C. exfalso. lia.
  - rewrite (legal_moves_none st d0 d1 Hr A B). intros [].
Qed.

(** ** The search with two different dice *)

Section TwoDifferentDice.

Variables d0 d1 a0 b0 : Z.
Hypothesis Hd0 : 1 <= d0 <= 6.
Hypothesis Hd1 : 1 <= d1 <= 6.
Hypothesis Hne : d0 <> d1.
Hypothesis Ha0 : 0 <= a0 <= 1.
Hypothesis Hb0 : 0 <= b0 <= 1.

(** A sequence of the search with [k] dice left: [a0] and [b0] say which of
    the dice [d0] and [d1] the level allows; while a die is left the sequence
    can be continued. *)
Definition Inv_two (k : nat) (seq : CheckerMoveSequence) : Prop :=
  let rd := remaining_dice_ (state_ seq) in
  seq_ok d0 d1 seq
  /\ length rd = 6%nat
  /\ 0 <= at_ rd (d0 - 1) <= a0
  /\ 0 <= at_ rd (d1 - 1) <= b0
  /\ at_ rd (d0 - 1) + at_ rd (d1 - 1) = Z.of_nat k
  /\ Z.of_nat (length (moves_ seq)) + Z.of_nat k = a0 + b0
  /\ Forall (fun m => valid_move m
                      /\ (num m = d0 /\ 0 < a0 \/ num m = d1 /\ 0 < b0))
       (moves_ seq)
  /\ ((0 < k)%nat -> legal_moves (state_ seq) <> []).

Lemma Inv_two_end (seq : CheckerMoveSequence) :
  Inv_two 0 seq -> legal_moves (state_ seq) = [].
Proof.
  intros ([_ Hr] & _ & A & B & S & _). cbv zeta in *.
  apply (legal_moves_none _ d0 d1 Hr); lia.
Qed.

Lemma Inv_two_step (k : nat) (seq : CheckerMoveSequence) (m : CheckerMove) :
  Inv_two (S k) seq -> In m (legal_moves (state_ seq)) ->
  Inv_two k (add_move seq m).
Proof.
  intros (Hok & Hlen & A & B & S & L & F & _) Hm. cbv zeta in *.
  pose proof (add_move_ok d0 d1 seq m Hok) as Hok'.
  destruct Hok as [Hp Hr].
  destruct (legal_moves_cases _ d0 d1 m Hp Hr Hne Hm)
    as (die & other & Hdo & Hdie & Hl & Hother).
  assert (Hdr : 1 <= die <= 6) by (destruct Hdo as [[-> _] | [-> _]]; assumption).
  destruct (legal_single_valid _ die m Hdr Hl) as [Hv Hn].
  pose proof (apply_move_remaining_at (state_ seq) m d0 Hlen Hv) as R0.
  pose proof (apply_move_remaining_at (state_ seq) m d1 Hlen Hv) as R1.
  unfold Inv_two. cbv zeta.
  change (state_ (add_move seq m)) with (fst (apply_move (state_ seq) m)) in *.
  change (moves_ (add_move seq m)) with (moves_ seq ++ [m]).
  rewrite apply_move_remaining_length, length_app, R0, R1, Hn.
  cbn [length].
  destruct Hdo as [[-> ->] | [-> ->]].
  - rewrite Z.eqb_refl.
    replace (d0 =? d1) with false by (symmetry; now apply Z.eqb_neq).
    split; [exact Hok'|]. split; [exact Hlen|].
    split; [lia|]. split; [lia|]. split; [lia|]. split; [lia|].
    split.
    + apply Forall_app. split; [exact F|].
      constructor; [|constructor]. split; [exact Hv|]. left. split; [exact Hn | lia].
    + intros Hk. destruct Hok' as [Hp' Hr'].
      rewrite (legal_moves_one (fst (apply_move (state_ seq) m)) d0 d1 d1 d0 Hr' (or_intror (conj eq_refl eq_refl))).
      * apply Hother. lia.
      * rewrite R1, Hn.
        replace (d0 =? d1) with false by (symmetry; now apply Z.eqb_neq). lia.
      * rewrite R0, Hn, Z.eqb_refl. lia.
  - rewrite Z.eqb_refl.
    replace (d1 =? d0) with false by (symmetry; apply Z.eqb_neq; lia).
    split; [exact Hok'|]. split; [exact Hlen|].
    split; [lia|]. split; [lia|]. split; [lia|]. split; [lia|].
    split.
    + apply Forall_app. split; [exact F|].
      constructor; [|constructor]. split; [exact Hv|]. right. split; [exact Hn | lia].
    + intros Hk. destruct Hok' as [Hp' Hr'].
      rewrite (legal_moves_one (fst (apply_move (state_ seq) m)) d0 d1 d0 d1 Hr' (or_introl (conj eq_refl eq_refl))).
      * apply Hother. lia.
      * rewrite R0, Hn.
        replace (d1 =? d0) with false by (symmetry; apply Z.eqb_neq; lia). lia.
      * rewrite R1, Hn, Z.eqb_refl. lia.
Qed.

Lemma Inv_two_good (k : nat) (seqs : list CheckerMoveSequence) :
  Forall (Inv_two (S k)) seqs ->
  (exists seq, In seq seqs /\ True) ->
  exists y, In y (extend_all seqs []) /\ True.
Proof.
  intros Hinv (seq & Hs & _).
  eapply List.Forall_forall in Hinv; [|exact Hs].
  destruct Hinv as (_ & _ & _ & _ & _ & _ & _ & Hmoves).
  destruct (legal_moves (state_ seq)) as [|m l] eqn:E; [exfalso; apply Hmoves; [lia | reflexivity]|].
  destruct (extend_all_equiv seqs [] seq m Hs) as (y & Hy & _).
  - rewrite E. now left.
  - now exists y.
Qed.

Lemma passes_all_two (k : nat) (seq : CheckerMoveSequence) :
  (k <= 4)%nat -> Inv_two k seq ->
  Forall (Inv_two 0) (passes_all 4 [seq]).
Proof.
  intros Hk Hinv.
  apply (passes_all_layers Inv_two (fun _ _ => True)
           Inv_two_end Inv_two_step Inv_two_good 4 k); auto.
  exists seq. split; [now left | trivial].
Qed.

End TwoDifferentDice.

(** ** Positions the search goes through *)

Lemma at2_put2 (b : list (list Z)) (p q i j x : Z) :
  length b = 2%nat -> length (row b 0) = 24%nat -> length (row b 1) = 24%nat ->
  valid_player p -> 0 <= i <= 23 ->
  at2 (put2 b p i x) q j = if (p =? q) && (i =? j) then x else at2 b q j.
Proof.
  intros H2 Hr0 Hr1 Hp Hi.
  destruct (p =? q) eqn:Ep; cbn [andb].
  - apply Z.eqb_eq in Ep. subst q. destruct (i =? j) eqn:Ei.
    + apply Z.eqb_eq in Ei. subst j. apply at2_put2_same.
      * destruct Hp as [-> | ->]; lia.
      * rewrite (length_row_valid b p Hr0 Hr1 Hp). lia.
    + apply Z.eqb_neq in Ei. apply at2_put2_other. now right.
  - apply Z.eqb_neq in Ep. apply at2_put2_other. now left.
Qed.

(** The bar, the points and the scores after a generated move. *)
Lemma apply_move_fields (st : BackgammonState) (die : Z) (m : CheckerMove) :
  valid_player (cur_player_ st) -> legal_single st die m ->
  let p := cur_player_ st in
  let o := Opponent p in
  let tgt := move_target p m in
  let st' := fst (apply_move st m) in
  bar_ st'
  = (let b1 := if pos m =? kBarPos
               then put (bar_ st) p (at_ (bar_ st) p - 1) else bar_ st in
     if hit m then put b1 o (at_ b1 o + 1) else b1)
  /\ board_ st'
     = (let c1 := if pos m =? kBarPos then board_ st
                  else put2 (board_ st) p (pos m)
                         (at2 (board_ st) p (pos m) - 1) in
        let c2 := if tgt =? kScorePos then c1
                  else put2 c1 p tgt (at2 c1 p tgt + 1) in
        if hit m then put2 c2 o tgt (at2 c2 o tgt - 1) else c2)
  /\ scores_ st'
     = (if tgt =? kScorePos
        then put (scores_ st) p (at_ (scores_ st) p + 1) else scores_ st).
Proof.
  intros Hp Hl. pose proof Hl as (Hn & Hsrc & Htgt).
  destruct (Opponent_valid _ Hp) as [Hop Hne].
  assert (Hpos : (pos m <? 0) = false).
  { apply Z.ltb_ge. unfold kBarPos in Hsrc. lia. }
  pose proof (fun b => apply_hit_condition st die m b Hl) as Hc.
  cbv zeta. unfold apply_move. rewrite Hpos. cbv zeta.
  set (cur := cur_player_ st) in *.
  set (tgt := move_target cur m) in *.
  destruct (pos m =? kBarPos) eqn:Eb; destruct (tgt =? kScorePos) eqn:Es;
    state_cbn;
    (rewrite Hc; [|rewrite ?at2_put2_other by (left; lia); reflexivity]);
    destruct (hit m) eqn:Eh; state_cbn; repeat split.
Qed.

Ltac bool_consts :=
  change (0 =? 1) with false in *; change (1 =? 0) with false in *;
  change (0 =? 0) with true in *; change (1 =? 1) with true in *;
  cbn [andb] in *.

Ltac points_solve :=
  repeat (rewrite at2_put2 by size_solve); bool_consts;
  repeat match goal with
         | |- context [if ?c then _ else _] => destruct c eqn:?
         end;
  rewrite ?Z.eqb_eq, ?Z.eqb_neq in *;
  repeat match goal with
         | H : _ = ?x |- _ => is_var x; subst x
         end;
  try lia.

Ltac opp_norm :=
  unfold Opponent in *; change (1 - 0) with 1 in *; change (1 - 1) with 0 in *.

(** The checkers are counted by non-negative numbers, a player has at most
    15 of them, and no point holds checkers of both players. *)
Definition wf_pos (st : BackgammonState) : Prop :=
  wf_shape st
  /\ (forall p i, valid_player p -> 0 <= i <= 23 -> 0 <= at2 (board_ st) p i)
  /\ (forall p, valid_player p -> 0 <= at_ (bar_ st) p)
  /\ (forall p, valid_player p -> 0 <= at_ (scores_ st) p)
  /\ (forall p, valid_player p -> total_checkers st p <= 15)
  /\ (forall i, 0 <= i <= 23 ->
        at2 (board_ st) 0 i = 0 \/ at2 (board_ st) 1 i = 0).

Lemma legal_single_hit_on_board (st : BackgammonState) (die : Z)
    (m : CheckerMove) :
  legal_single st die m -> hit_on_board (cur_player_ st) m.
Proof.
  intros (_ & _ & [[_ H] | [H _]]) Hh; [congruence | exact H].
Qed.

Lemma apply_move_wf_pos (st : BackgammonState) (die : Z) (m : CheckerMove) :
  valid_player (cur_player_ st) -> 1 <= die <= 6 -> legal_single st die m ->
  wf_pos st -> wf_pos (fst (apply_move st m)).
Proof.
  intros Hp Hd Hl (Hs & Hb & Hbar & Hsc & Htot & Hsh).
  destruct (legal_single_valid st die m Hd Hl) as [Hv Hn].
  pose proof (move_target_range _ _ Hp Hv) as Hrange.
  pose proof (apply_move_fields st die m Hp Hl) as (Fbar & Fboard & Fsc).
  pose proof Hl as (_ & Hsrc & Htgt).
  pose proof Hs as (S1 & S2 & S3 & S4 & S5).
  cbv zeta in *.
  set (tgt := move_target (cur_player_ st) m) in *.
  assert (Ebar : (pos m =? kBarPos) = true -> pos m = kBarPos)
    by apply Z.eqb_eq.
  assert (Ebar' : (pos m =? kBarPos) = false -> pos m <> kBarPos)
    by apply Z.eqb_neq.
  assert (Esc : (tgt =? kScorePos) = true -> tgt = kScorePos)
    by apply Z.eqb_eq.
  assert (Esc' : (tgt =? kScorePos) = false -> tgt <> kScorePos)
    by apply Z.eqb_neq.
  assert (Hh : hit m = true -> at2 (board_ st) (Opponent (cur_player_ st)) tgt = 1).
  { intros Hh. destruct Htgt as [[_ H] | (_ & _ & H)]; [congruence|].
    rewrite Hh in H. symmetry in H. now apply Z.eqb_eq in H. }
  assert (Hh' : hit m = false -> tgt <> kScorePos ->
                at2 (board_ st) (Opponent (cur_player_ st)) tgt <= 0).
  { intros Hh' Hne. destruct Htgt as [[H _] | (_ & H1 & H)]; [congruence|].
    rewrite Hh' in H. symmetry in H. apply Z.eqb_neq in H. lia. }
  assert (Hneq : tgt <> pos m).
  { destruct Hv as [Hvp Hvn]. unfold tgt, move_target.
    unfold kBarPos, kScorePos, kXPlayerId in *.
    destruct (pos m =? 100) eqn:E1;
      [apply Z.eqb_eq in E1 | apply Z.eqb_neq in E1];
      destruct Hp as [-> | ->]; bool_consts;
      repeat match goal with
             | |- context [if ?c then _ else _] => destruct c
             end; lia. }
  split; [now apply apply_move_shape|].
  split; [|split; [|split; [|split]]].
  - intros q i Hq Hi. rewrite Fboard.
    pose proof (Hb q i Hq Hi) as B1.
    pose proof (Hb _ tgt Hp) as B2.
    destruct (pos m =? kBarPos) eqn:Eb; destruct (tgt =? kScorePos) eqn:Es;
      destruct (hit m) eqn:Eh;
      try specialize (Ebar eq_refl); try specialize (Ebar' eq_refl);
      try specialize (Esc eq_refl); try specialize (Esc' eq_refl);
      try specialize (Hh eq_refl); try specialize (Hh' eq_refl);
      unfold kBarPos, kScorePos in *;
      players_cases Hp Hq; opp_norm; points_solve.
  - intros q Hq. rewrite Fbar.
    pose proof (Hbar q Hq) as B1.
    destruct (pos m =? kBarPos) eqn:Eb; destruct (hit m) eqn:Eh;
      try specialize (Ebar eq_refl); try specialize (Ebar' eq_refl);
      unfold kBarPos, kScorePos in *;
      players_cases Hp Hq; opp_norm;
      repeat (rewrite at_put by size_solve);
      repeat match goal with
             | |- context [if ?c then _ else _] => destruct c eqn:?
             end;
      rewrite ?Z.eqb_eq, ?Z.eqb_neq in *;
      try lia.
  - intros q Hq. rewrite Fsc.
    pose proof (Hsc q Hq) as B1.
    destruct (tgt =? kScorePos) eqn:Es;
      players_cases Hp Hq; opp_norm;
      repeat (rewrite at_put by size_solve);
      repeat match goal with
             | |- context [if ?c then _ else _] => destruct c eqn:?
             end;
      rewrite ?Z.eqb_eq, ?Z.eqb_neq in *;
      try lia.
  - intros q Hq.
    rewrite (apply_move_total st m q Hs Hp Hv
               (legal_single_hit_on_board st die m Hl) Hq).
    now apply Htot.
  - intros i Hi. rewrite Fboard.
    pose proof (Hsh i Hi) as B1.
    pose proof (Hb 0 i (or_introl eq_refl) Hi) as B2.
    pose proof (Hb 1 i (or_intror eq_refl) Hi) as B3.
    destruct (pos m =? kBarPos) eqn:Eb; destruct (tgt =? kScorePos) eqn:Es;
      destruct (hit m) eqn:Eh;
      try specialize (Ebar eq_refl); try specialize (Ebar' eq_refl);
      try specialize (Esc eq_refl); try specialize (Esc' eq_refl);
      try specialize (Hh eq_refl); try specialize (Hh' eq_refl);
      unfold kBarPos, kScorePos in *;
      (destruct Hp as [Hp | Hp]; rewrite Hp in *; opp_norm);
      points_solve.
Qed.

(** ** [PositionId] tells the positions apart *)

Lemma char_of_int_inj (a b : Z) :
  0 <= a < 256 -> 0 <= b < 256 -> char_of_int a = char_of_int b -> a = b.
Proof.
  intros Ha Hb H. unfold char_of_int in H.
  rewrite !Z.mod_small in H by lia.
  apply (f_equal N_of_ascii) in H.
  rewrite !N_ascii_embedding in H by lia.
  lia.
Qed.

Lemma point_char_inj (xs os xt ot : Z) :
  0 <= xs <= 15 -> 0 <= os <= 15 -> 0 <= xt <= 15 -> 0 <= ot <= 15 ->
  xs = 0 \/ os = 0 -> xt = 0 \/ ot = 0 ->
  (if 0 <? xs then char_of_int (65 + xs - 1)
   else if 0 <? os then char_of_int (97 + os - 1) else char_of_int 45)
  = (if 0 <? xt then char_of_int (65 + xt - 1)
     else if 0 <? ot then char_of_int (97 + ot - 1) else char_of_int 45) ->
  xs = xt /\ os = ot.
Proof.
  intros H1 H2 H3 H4 H5 H6.
  destruct (0 <? xs) eqn:E1; destruct (0 <? os) eqn:E2;
    destruct (0 <? xt) eqn:E3; destruct (0 <? ot) eqn:E4;
    rewrite ?Z.ltb_lt, ?Z.ltb_ge in *;
    intros H; apply char_of_int_inj in H; lia.
Qed.

Lemma sum_map_member (f : Z -> Z) (l : list Z) (i : Z) :
  (forall x, In x l -> 0 <= f x) -> In i l -> f i <= sum_list_Z (map f l).
Proof.
  induction l as [|a l IH]; simpl; [tauto|].
  intros Hf Hi. rewrite sum_list_Z_cons.
  assert (H0 : 0 <= sum_list_Z (map f l)).
  { apply sum_list_Z_nonneg, List.Forall_map, List.Forall_forall. auto. }
  pose proof (Hf a (or_introl eq_refl)) as Ha.
  destruct Hi as [-> | Hi]; [lia|].
  assert (f i <= sum_list_Z (map f l)) by (apply IH; auto). lia.
Qed.

Lemma wf_pos_bounds (st : BackgammonState) (p i : Z) :
  wf_pos st -> valid_player p -> 0 <= i <= 23 ->
  0 <= at2 (board_ st) p i <= 15 /\ 0 <= at_ (bar_ st) p <= 15.
Proof.
  intros (_ & Hb & Hbar & Hsc & Htot & _) Hp Hi.
  pose proof (Hb p i Hp Hi). pose proof (Hbar p Hp). pose proof (Hsc p Hp).
  pose proof (Htot p Hp) as Ht. unfold total_checkers in Ht.
  assert (H2 : at2 (board_ st) p i <= points_total (board_ st) p).
  { unfold points_total.
    apply (sum_map_member (fun i => at2 (board_ st) p i)).
    - intros x Hx. apply In_zrange in Hx. apply Hb; [exact Hp | lia].
    - apply In_zrange. lia. }
  assert (H3 : 0 <= points_total (board_ st) p).
  { unfold points_total.
    apply sum_list_Z_nonneg, List.Forall_map, List.Forall_forall.
    intros x Hx. apply In_zrange in Hx. apply Hb; [exact Hp | lia]. }
  remember (points_total (board_ st) p) as total eqn:Etotal.
  clear Etotal Hb Hbar Hsc Htot. lia.
Qed.

Lemma list_eq_at (u v : list Z) (n : nat) :
  length u = n -> length v = n ->
  (forall i, 0 <= i < Z.of_nat n -> at_ u i = at_ v i) -> u = v.
Proof.
  intros Hu Hv H. apply (nth_ext u v 0 0); [congruence|].
  intros k Hk. specialize (H (Z.of_nat k)). unfold at_ in H.
  replace (Z.of_nat k <? 0) with false in H by (symmetry; apply Z.ltb_ge; lia).
  rewrite Nat2Z.id in H. apply H. lia.
Qed.

Lemma board_eq (b c : list (list Z)) :
  length b = 2%nat -> length c = 2%nat ->
  row b 0 = row c 0 -> row b 1 = row c 1 -> b = c.
Proof.
  destruct b as [|b0 [|b1 [|b2 b]]]; try discriminate.
  destruct c as [|c0 [|c1 [|c2 c]]]; try discriminate.
  unfold row. simpl. intros _ _ -> ->. reflexivity.
Qed.

Lemma PositionId_inj (s t : BackgammonState) :
  wf_pos s -> wf_pos t -> PositionId s = PositionId t ->
  bar_ s = bar_ t /\ board_ s = board_ t.
Proof.
  intros Hs Ht H.
  pose proof Hs as ((S1 & _ & S3 & S4 & S5) & _ & _ & _ & _ & Hsh).
  pose proof Ht as ((T1 & _ & T3 & T4 & T5) & _ & _ & _ & _ & Hth).
  unfold PositionId in H. cbv zeta in H.
  apply (f_equal list_ascii_of_string) in H.
  rewrite !list_ascii_of_string_of_list_ascii in H.
  apply app_inj_1 in H; [|now rewrite !length_map].
  destruct H as [Hpts Hbars].
  assert (Hpt : forall i, 0 <= i <= 23 ->
                  at2 (board_ s) 0 i = at2 (board_ t) 0 i
                  /\ at2 (board_ s) 1 i = at2 (board_ t) 1 i).
  { intros i Hi.
    assert (Hin : In i (zrange 0 24)) by (apply In_zrange; lia).
    pose proof (proj1 map_ext_in_iff Hpts i Hin) as E.
    cbv beta in E. unfold kXPlayerId, kOPlayerId in E.
    apply point_char_inj in E; auto;
      try (apply wf_pos_bounds; [assumption | unfold valid_player; lia | lia]). }
  injection Hbars as Hx Ho. unfold kXPlayerId, kOPlayerId in *.
  pose proof (wf_pos_bounds s 0 0 Hs (or_introl eq_refl) ltac:(lia)) as [_ Bs0].
  pose proof (wf_pos_bounds s 1 0 Hs (or_intror eq_refl) ltac:(lia)) as [_ Bs1].
  pose proof (wf_pos_bounds t 0 0 Ht (or_introl eq_refl) ltac:(lia)) as [_ Bt0].
  pose proof (wf_pos_bounds t 1 0 Ht (or_intror eq_refl) ltac:(lia)) as [_ Bt1].
  apply char_of_int_inj in Hx; [|lia|lia].
  apply char_of_int_inj in Ho; [|lia|lia].
  split.
  - apply (list_eq_at _ _ 2 S1 T1). intros i Hi.
    assert (i = 0 \/ i = 1) as [-> | ->] by lia; lia.
  - apply board_eq; try assumption.
    + apply (list_eq_at _ _ 24 S4 T4). intros i Hi.
      apply (Hpt i). lia.
    + apply (list_eq_at _ _ 24 S5 T5). intros i Hi.
      apply (Hpt i). lia.
Qed.

(** ** The search with a double *)

Section Doubles.

Variables d p : Z.
Variable c : nat.
Hypothesis Hd : 1 <= d <= 6.
Hypothesis Hp : valid_player p.

(** A sequence of the search with the die [d] left [k] times, of the [c]
    times the level allows. *)
Definition Inv_double (k : nat) (seq : CheckerMoveSequence) : Prop :=
  let rd := remaining_dice_ (state_ seq) in
  seq_ok d d seq
  /\ cur_player_ (state_ seq) = p
  /\ length rd = 6%nat
  /\ at_ rd (d - 1) = Z.of_nat k
  /\ (length (moves_ seq) + k = c)%nat
  /\ Forall (fun m => valid_move m /\ num m = d) (moves_ seq)
  /\ wf_pos (state_ seq).

(** The die can be played [k] times more. *)
Definition Good_double (k : nat) (seq : CheckerMoveSequence) : Prop :=
  play_path (state_ seq) (replicate k d).

Lemma Inv_double_end (seq : CheckerMoveSequence) :
  Inv_double 0 seq -> legal_moves (state_ seq) = [].
Proof.
  intros ([_ Hr] & _ & _ & A & _). cbv zeta in *.
  apply (legal_moves_none _ d d Hr); lia.
Qed.

Lemma Inv_double_step (k : nat) (seq : CheckerMoveSequence) (m : CheckerMove) :
  Inv_double (S k) seq -> In m (legal_moves (state_ seq)) ->
  Inv_double k (add_move seq m).
Proof.
  intros (Hok & Hcur & Hlen & A & L & F & W) Hm. cbv zeta in *.
  pose proof (add_move_ok d d seq m Hok) as Hok'.
  destruct Hok as [Hpl Hr].
  rewrite (legal_moves_double _ d Hr) in Hm by lia.
  apply (moves_for_legal _ d false m Hpl Hd) in Hm.
  destruct (legal_single_valid _ d m Hd Hm) as [Hv Hn].
  unfold Inv_double. cbv zeta.
  change (state_ (add_move seq m)) with (fst (apply_move (state_ seq) m)).
  change (moves_ (add_move seq m)) with (moves_ seq ++ [m]).
  rewrite apply_move_remaining_length, length_app,
    (apply_move_remaining_at _ m d Hlen Hv), Hn, Z.eqb_refl,
    apply_move_cur_player.
  cbn [length].
  split; [exact Hok'|]. split; [exact Hcur|]. split; [exact Hlen|].
  split; [lia|]. split; [lia|]. split.
  - apply Forall_app. split; [exact F|]. constructor; [|constructor]. now split.
  - now apply (apply_move_wf_pos _ d m).
Qed.

Lemma Inv_double_good (k : nat) (seqs : list CheckerMoveSequence) :
  Forall (Inv_double (S k)) seqs ->
  (exists seq, In seq seqs /\ Good_double (S k) seq) ->
  exists y, In y (extend_all seqs []) /\ Good_double k y.
Proof.
  intros Hinv (seq & Hs & m & Hm & Hpath).
  pose proof (proj1 (List.Forall_forall _ _) Hinv seq Hs) as Iseq.
  pose proof Iseq as ([Hpl Hr] & Hcur & _ & A & _).
  cbv zeta in A.
  rewrite <- (legal_moves_double _ d Hr) in Hm by lia.
  destruct (extend_all_equiv seqs [] seq m Hs Hm) as (y & Hy & Eid).
  exists y. split; [exact Hy|].
  pose proof (Inv_double_step k seq m Iseq Hm) as (_ & C1 & _ & _ & _ & _ & W1).
  apply extend_all_In in Hy. destruct Hy as [[] | (s' & m' & Hs' & Hm' & ->)].
  pose proof (proj1 (List.Forall_forall _ _) Hinv s' Hs') as Is'.
  pose proof (Inv_double_step k s' m' Is' Hm') as (_ & C2 & _ & _ & _ & _ & W2).
  cbn [id_ add_move] in Eid. cbv zeta in Eid. cbn [id_] in Eid.
  change (state_ (add_move seq m)) with (fst (apply_move (state_ seq) m)) in *.
  change (state_ (add_move s' m')) with (fst (apply_move (state_ s') m')) in *.
  destruct (PositionId_inj _ _ W2 W1 Eid) as [Ebar Eboard].
  unfold Good_double.
  change (state_ (add_move s' m')) with (fst (apply_move (state_ s') m')).
  apply (play_path_ext _ (fst (apply_move (state_ seq) m))); [|exact Hpath].
  split; [congruence|]. split; congruence.
Qed.

Lemma passes_all_double (k : nat) (seq : CheckerMoveSequence) :
  (k <= 4)%nat -> Inv_double k seq -> Good_double k seq ->
  Forall (Inv_double 0) (passes_all 4 [seq]).
Proof.
  intros Hk Hinv Hgood.
  apply (passes_all_layers Inv_double Good_double
           Inv_double_end Inv_double_step Inv_double_good 4 k); auto.
  exists seq. split; [now left | exact Hgood].
Qed.

End Doubles.

(** ** What the level says about the position *)

Lemma firstn_Z (n : Z) (k : nat) (l : list Z) :
  n = Z.of_nat k -> firstn (Z.to_nat n) l = firstn k l.
Proof. intros ->. now rewrite Nat2Z.id. Qed.

Lemma legal_level_paths (st : BackgammonState) (d0 d1 : Z) :
  rolled st d0 d1 ->
  let hi := Z.max d0 d1 in
  let lo := Z.min d0 d1 in
  match legal_level st with
  | kNoDice => True
  | kLowDie => hi <> lo /\ play_path st [lo]
  | kHighDie => play_path st [hi]
  | kTwoDice =>
      (hi = lo /\ play_path st [hi; hi])
      \/ (hi <> lo /\ (play_path st [hi; lo] \/ play_path st [lo; hi]))
  | kThreeDice => hi = lo /\ play_path st [hi; hi; hi]
  | kFourDice => hi = lo /\ play_path st [hi; hi; hi; hi]
  end.
Proof.
  intros (Hd & _ & _). cbv zeta. unfold legal_level. rewrite Hd.
  change (at_ [d0; d1] 0) with d0. change (at_ [d0; d1] 1) with d1.
  cbv zeta.
  set (hi := Z.max d0 d1). set (lo := Z.min d0 d1).
  destruct (hi =? lo) eqn:E.
  - apply Z.eqb_eq in E. cbn [fst snd].
    destruct (max_playable_sound [hi; hi; hi; hi] st) as [Hn Hpath].
    set (n := max_playable [hi; hi; hi; hi] st) in *. cbn [length] in Hn.
    destruct (n =? 1) eqn:E1;
      [apply Z.eqb_eq in E1; now rewrite (firstn_Z n 1 _ E1) in Hpath|].
    destruct (n =? 2) eqn:E2;
      [apply Z.eqb_eq in E2; rewrite (firstn_Z n 2 _ E2) in Hpath;
       left; now split|].
    destruct (n =? 3) eqn:E3;
      [apply Z.eqb_eq in E3; rewrite (firstn_Z n 3 _ E3) in Hpath; now split|].
    destruct (n =? 4) eqn:E4;
      [apply Z.eqb_eq in E4; rewrite (firstn_Z n 4 _ E4) in Hpath; now split|].
    trivial.
  - apply Z.eqb_neq in E.
    destruct (max_playable_sound [hi; lo] st) as [Hn1 Hpath1].
    destruct (max_playable_sound [lo; hi] st) as [Hn2 Hpath2].
    set (n1 := max_playable [hi; lo] st) in *.
    set (n2 := max_playable [lo; hi] st) in *.
    cbn [length] in Hn1, Hn2.
    destruct (n1 <? 2) eqn:L; cbn [fst snd].
    + apply Z.ltb_lt in L.
      destruct (Z.max n1 n2 =? 1) eqn:E1.
      * apply Z.eqb_eq in E1. destruct (0 <? n1) eqn:P.
        -- apply Z.ltb_lt in P.
           assert (En : n1 = Z.of_nat 1) by lia.
           now rewrite (firstn_Z n1 1 _ En) in Hpath1.
        -- apply Z.ltb_ge in P.
           assert (En : n2 = Z.of_nat 1) by lia.
           rewrite (firstn_Z n2 1 _ En) in Hpath2. now split.
      * apply Z.eqb_neq in E1.
        destruct (Z.max n1 n2 =? 2) eqn:E2.
        -- apply Z.eqb_eq in E2.
           assert (En : n2 = Z.of_nat 2) by lia.
           rewrite (firstn_Z n2 2 _ En) in Hpath2.
           right. split; [exact E | now right].
        -- apply Z.eqb_neq in E2.
           replace (Z.max n1 n2 =? 3) with false by (symmetry; apply Z.eqb_neq; lia).
           replace (Z.max n1 n2 =? 4) with false by (symmetry; apply Z.eqb_neq; lia).
           trivial.
    + apply Z.ltb_ge in L.
      assert (En : n1 = Z.of_nat 2) by lia.
      rewrite (firstn_Z n1 2 _ En) in Hpath1.
      replace (n1 =? 1) with false by (symmetry; apply Z.eqb_neq; lia).
      replace (n1 =? 2) with true by (symmetry; apply Z.eqb_eq; lia).
      right. split; [exact E | now left].
Qed.

Lemma initial_remaining_length (level : LegalLevel) (d0 d1 : Z) :
  length (initial_remaining level d0 d1) = 6%nat.
Proof.
  unfold initial_remaining. destruct level; cbv zeta;
    rewrite ?length_put; reflexivity.
Qed.

Lemma initial_remaining_at (level : LegalLevel) (d0 d1 d : Z) :
  1 <= d0 <= 6 -> 1 <= d1 <= 6 -> 1 <= d <= 6 ->
  let hi := Z.max d0 d1 in
  let lo := Z.min d0 d1 in
  at_ (initial_remaining level d0 d1) (d - 1)
  = match level with
    | kNoDice => 0
    | kLowDie => if d =? lo then 1 else 0
    | kHighDie => if d =? hi then 1 else 0
    | kTwoDice => (if d =? lo then 1 else 0) + (if d =? hi then 1 else 0)
    | kThreeDice => if d =? hi then 3 else 0
    | kFourDice => if d =? hi then 4 else 0
    end.
Proof.
  intros H0 H1 H. cbv zeta. unfold initial_remaining. cbv zeta.
  set (hi := Z.max d0 d1). set (lo := Z.min d0 d1).
  assert (Hhi : 1 <= hi <= 6) by (unfold hi; lia).
  assert (Hlo : 1 <= lo <= 6) by (unfold lo; lia).
  assert (L6 : length (replicate 6 0) = 6%nat) by reflexivity.
  destruct level;
    repeat (rewrite at_put by (rewrite ?length_put, L6; lia));
    rewrite ?at_replicate_zero;
    repeat match goal with
           | |- context [?a =? ?b] => destruct (Z.eqb_spec a b)
           end; lia.
Qed.

(** ** The sequences of [LegalCheckerMoveSequences] *)

Lemma play_path_first (st : BackgammonState) (x : Z) (rest : list Z) :
  play_path st (x :: rest) -> moves_for st x false <> [].
Proof. intros (m & Hm & _) E. rewrite E in Hm. destruct Hm. Qed.

Lemma legal_moves_two (st : BackgammonState) (d0 d1 x y : Z) :
  rolled st d0 d1 -> d0 <> d1 ->
  0 < at_ (remaining_dice_ st) (d0 - 1) ->
  0 < at_ (remaining_dice_ st) (d1 - 1) ->
  (x = d0 /\ y = d1) \/ (x = d1 /\ y = d0) ->
  play_path st [x; y] -> legal_moves st <> [].
Proof.
  intros (Hd & _) Hne A B Hxy (m & Hm & Hnext).
  apply play_path_first in Hnext.
  rewrite <- moves_for_first_nil in Hnext.
  unfold legal_moves. rewrite Hd.
  change (at_ [d0; d1] 0) with d0. change (at_ [d0; d1] 1) with d1.
  cbv zeta.
  replace (d0 =? d1) with false by (symmetry; now apply Z.eqb_neq).
  replace (0 <? at_ (remaining_dice_ st) (d0 - 1)) with true
    by (symmetry; apply Z.ltb_lt; exact A).
  replace (0 <? at_ (remaining_dice_ st) (d1 - 1)) with true
    by (symmetry; apply Z.ltb_lt; exact B).
  cbn [negb andb].
  destruct Hxy as [[-> ->] | [-> ->]].
  - intros E.
    assert (Hin : exists z, In z (verified st d1 (moves_for st d0 false) [])).
    { destruct (verified st d1 (moves_for st d0 false) []) as [|z l] eqn:E';
        [|exists z; now left].
      exfalso. now apply (verified_not_nil st d1 _ [] m Hm Hnext). }
    destruct Hin as (z & Hz).
    apply (verified_keeps st d0 (moves_for st d1 false)) in Hz.
    rewrite E in Hz. destruct Hz.
  - now apply (verified_not_nil st d0 _ _ m).
Qed.

(** A sequence as the level asks for: one move for each die to play, and for
    [kHighDie] the higher die. *)
Definition level_sequence (level : LegalLevel) (hi_die : Z)
    (seq : CheckerMoveSequence) : Prop :=
  length (moves_ seq) = LegalLevel_dice level
  /\ Forall valid_move (moves_ seq)
  /\ (level = kHighDie -> Forall (fun m => num m = hi_die) (moves_ seq)).

Lemma legal_sequences_double (st : BackgammonState) (d : Z)
    (y : CheckerMoveSequence) :
  valid_player (cur_player_ st) -> rolled st d d -> wf_pos st ->
  remaining_dice_ st = initial_remaining (legal_level st) d d ->
  In y (legal_sequences st) ->
  level_sequence (legal_level st) d y.
Proof.
  intros Hp Hr Hwf Hrd Hy. apply legal_sequences_passes in Hy.
  pose proof Hr as (Hd & Hd0 & _).
  pose proof (legal_level_paths st d d Hr) as Hpaths.
  pose proof (initial_remaining_at (legal_level st) d d d Hd0 Hd0 Hd0) as Hat.
  pose proof (initial_remaining_length (legal_level st) d d) as Hlen.
  cbv zeta in Hpaths, Hat. rewrite Z.max_id, Z.min_id in Hpaths, Hat.
  rewrite Z.eqb_refl in Hat. rewrite <- Hrd in Hat, Hlen.
  set (level := legal_level st) in *.
  set (c := LegalLevel_dice level).
  assert (Hc : at_ (remaining_dice_ st) (d - 1) = Z.of_nat c
               /\ play_path st (replicate c d) /\ (c <= 4)%nat).
  { unfold c. destruct level; cbn [LegalLevel_dice replicate].
    - split; [exact Hat|]. split; [exact I | lia].
    - destruct Hpaths as [Hpaths _]. congruence.
    - split; [exact Hat|]. split; [exact Hpaths | lia].
    - destruct Hpaths as [[_ Hpaths] | [Hpaths _]]; [|congruence].
      split; [exact Hat|]. split; [exact Hpaths | lia].
    - destruct Hpaths as [_ Hpaths].
      split; [exact Hat|]. split; [exact Hpaths | lia].
    - destruct Hpaths as [_ Hpaths].
      split; [exact Hat|]. split; [exact Hpaths | lia]. }
  destruct Hc as (Hc & Hpath & Hc4).
  assert (Hinv : Inv_double d (cur_player_ st) c c (CheckerMoveSequence_new st)).
  { unfold Inv_double. cbn [state_ moves_ CheckerMoveSequence_new length].
    split; [split; assumption|]. split; [reflexivity|]. split; [exact Hlen|].
    split; [exact Hc|]. split; [reflexivity|]. split; [constructor | exact Hwf]. }
  pose proof (passes_all_double d (cur_player_ st) c Hd0 c
                (CheckerMoveSequence_new st) Hc4 Hinv Hpath) as Hall.
  apply (proj1 (List.Forall_forall _ _) Hall) in Hy.
  destruct Hy as (_ & _ & _ & _ & L & F & _).
  unfold level_sequence. fold c. split; [lia|]. split.
  - eapply List.Forall_impl; [|exact F]. now intros m [H _].
  - intros _. eapply List.Forall_impl; [|exact F]. now intros m [_ H].
Qed.

Lemma legal_sequences_different (st : BackgammonState) (d0 d1 : Z)
    (y : CheckerMoveSequence) :
  valid_player (cur_player_ st) -> rolled st d0 d1 -> d0 <> d1 ->
  remaining_dice_ st = initial_remaining (legal_level st) d0 d1 ->
  In y (legal_sequences st) ->
  level_sequence (legal_level st) (Z.max d0 d1) y.
Proof.
  intros Hp Hr Hne Hrd Hy. apply legal_sequences_passes in Hy.
  pose proof Hr as (Hd & Hd0 & Hd1).
  pose proof (legal_level_paths st d0 d1 Hr) as Hpaths.
  pose proof (initial_remaining_at (legal_level st) d0 d1 d0 Hd0 Hd1 Hd0) as A0.
  pose proof (initial_remaining_at (legal_level st) d0 d1 d1 Hd0 Hd1 Hd1) as B0.
  pose proof (initial_remaining_length (legal_level st) d0 d1) as Hlen.
  cbv zeta in Hpaths, A0, B0. rewrite <- Hrd in A0, B0, Hlen.
  set (level := legal_level st) in *.
  set (hi := Z.max d0 d1) in *. set (lo := Z.min d0 d1) in *.
  set (a0 := at_ (remaining_dice_ st) (d0 - 1)) in *.
  set (b0 := at_ (remaining_dice_ st) (d1 - 1)) in *.
  assert (Hhl : (hi = d1 /\ lo = d0) \/ (hi = d0 /\ lo = d1))
    by (unfold hi, lo; lia).
  assert (Hone : forall die other,
             (die = d0 /\ other = d1) \/ (die = d1 /\ other = d0) ->
             0 < at_ (remaining_dice_ st) (die - 1) ->
             at_ (remaining_dice_ st) (other - 1) <= 0 ->
             play_path st [die] -> legal_moves st <> []).
  { intros die other Hdo H1 H2 Hpath.
    rewrite (legal_moves_one st d0 d1 die other Hr Hdo H1 H2).
    now apply play_path_first in Hpath. }
  assert (Hfacts :
            0 <= a0 <= 1 /\ 0 <= b0 <= 1
            /\ a0 + b0 = Z.of_nat (LegalLevel_dice level)
            /\ ((0 < LegalLevel_dice level)%nat -> legal_moves st <> [])
            /\ (level = kHighDie -> (0 < a0 -> d0 = hi) /\ (0 < b0 -> d1 = hi))).
  { destruct Hhl as [[Ehi Elo] | [Ehi Elo]]; rewrite Ehi, Elo in *;
      rewrite ?Z.eqb_refl in A0, B0;
      replace (d0 =? d1) with false in * by (symmetry; apply Z.eqb_neq; lia);
      replace (d1 =? d0) with false in * by (symmetry; apply Z.eqb_neq; lia);
      destruct level; cbn [LegalLevel_dice];
      try (apply proj1 in Hpaths; congruence);
      (split; [lia|]); (split; [lia|]); (split; [lia|]);
      (split; [|first [split; [intros; lia | intros; lia]
                      | (intros; discriminate)]]);
      intros Hk; try lia.
    all: try (apply proj2 in Hpaths).
    all: try (destruct Hpaths as [[Hpaths _] | [_ Hpaths]]; [lia|]).
    all: first
      [ eapply (Hone d0 d1); [left; split; reflexivity | fold a0; lia | fold b0; lia | exact Hpaths]
      | eapply (Hone d1 d0); [right; split; reflexivity | fold b0; lia | fold a0; lia | exact Hpaths]
      | destruct Hpaths as [Hpaths | Hpaths];
        (eapply (legal_moves_two st d0 d1);
         [exact Hr | exact Hne | fold a0; lia | fold b0; lia | | exact Hpaths]);
        [first [left; split; reflexivity | right; split; reflexivity]
        |first [left; split; reflexivity | right; split; reflexivity]] ]. }
  destruct Hfacts as (Ha0 & Hb0 & Hsum & Hmoves & Hhigh).
  assert (Hinv : Inv_two d0 d1 a0 b0 (LegalLevel_dice level)
                   (CheckerMoveSequence_new st)).
  { unfold Inv_two. cbn [state_ moves_ CheckerMoveSequence_new length].
    cbv zeta. fold a0 b0.
    split; [split; assumption|]. split; [exact Hlen|].
    split; [lia|]. split; [lia|]. split; [exact Hsum|]. split; [lia|].
    split; [constructor | exact Hmoves]. }
  assert (Hk : (LegalLevel_dice level <= 4)%nat) by (destruct level; simpl; lia).
  assert (Hall : Forall (Inv_two d0 d1 a0 b0 0)
                   (passes_all 4 [CheckerMoveSequence_new st]))
    by (apply (passes_all_two d0 d1 a0 b0) with (k := LegalLevel_dice level);
        assumption).
  apply (proj1 (List.Forall_forall _ _) Hall) in Hy.
  destruct Hy as (_ & _ & _ & _ & _ & L & F & _).
  unfold level_sequence. split; [lia|]. split.
  - eapply List.Forall_impl; [|exact F]. now intros m [H _].
  - intros El. destruct (Hhigh El) as [H0 H1].
    eapply List.Forall_impl; [|exact F]. cbv beta.
    intros m [_ [[Hn Hpos] | [Hn Hpos]]]; rewrite Hn; auto.
Qed.

(** ** The actions of [LegalActions] *)

Lemma CountTotalCheckers_returns (st : BackgammonState) (p : Z) :
  wf_pos st -> valid_player p ->
  CountTotalCheckers st p = Returns (total_checkers st p).
Proof.
  intros (_ & Hb & Hbar & Hsc & _) Hp. rewrite CountTotalCheckers_eq.
  destruct (existsb (fun c => c <? 0)
              (map (fun i => at2 (board_ st) p i) (zrange 0 24))) eqn:E.
  - exfalso. apply existsb_exists in E. destruct E as (c & Hc & Hneg).
    apply in_map_iff in Hc. destruct Hc as (i & <- & Hi).
    apply In_zrange in Hi. apply Z.ltb_lt in Hneg.
    specialize (Hb p i Hp). lia.
  - replace (at_ (bar_ st) p <? 0) with false
      by (symmetry; apply Z.ltb_ge; now apply Hbar).
    replace (at_ (scores_ st) p <? 0) with false
      by (symmetry; apply Z.ltb_ge; now apply Hsc).
    unfold total_checkers. f_equal.
    remember (points_total (board_ st) p) as total. lia.
Qed.

Lemma In_insert_sorted (a b : Z) (l : list Z) :
  In a (insert_sorted b l) -> a = b \/ In a l.
Proof.
  induction l as [|x l IH]; simpl.
  - intros [<- | []]. now left.
  - destruct (b <=? x); simpl; [intuition|].
    intros [<- | H]; [now right; left|]. apply IH in H. intuition.
Qed.

Lemma In_sort_actions (a : Z) (l : list Z) : In a (sort_actions l) -> In a l.
Proof.
  unfold sort_actions. induction l as [|x l IH]; simpl; [tauto|].
  intros H. apply In_insert_sorted in H. destruct H as [-> | H]; [now left|].
  right. now apply IH.
Qed.

Lemma IsChanceNode_player (st : BackgammonState) :
  valid_player (cur_player_ st) -> IsChanceNode st = false.
Proof.
  intros Hp. unfold IsChanceNode, CurrentPlayer.
  destruct (IsTerminal st); [reflexivity|].
  destruct Hp as [-> | ->]; reflexivity.
Qed.

Section LegalActionsFacts.

Variable kPlayerCentricObs : bool.

Lemma encode_sequences_spec (st : BackgammonState)
    (seqs : list CheckerMoveSequence) (legal_actions : list Z) :
  (forall y, In y seqs -> Forall valid_move (moves_ y)) ->
  exists actions,
    encode_sequences kPlayerCentricObs st seqs legal_actions = Returns actions
    /\ forall a, In a actions ->
         In a legal_actions
         \/ exists y, In y seqs /\ 0 < a
              /\ CheckerMovesToSpielMove kPlayerCentricObs st (moves_ y)
                 = Returns a.
Proof.
  revert legal_actions.
  induction seqs as [|seq rest IH]; intros acc Hv; simpl.
  - exists acc. split; [reflexivity | now left].
  - destruct (encode_decode_loop kPlayerCentricObs st (moves_ seq))
      as (a & Ea & _); [apply Hv; now left|].
    unfold CheckerMovesToSpielMove. rewrite Ea. cbn [bind].
    destruct (IH (if 0 <? a then acc ++ [a] else acc)) as (acts & Eacts & Hacts).
    { intros y Hy. apply Hv. now right. }
    exists acts. split; [exact Eacts|].
    intros x Hx. apply Hacts in Hx. destruct Hx as [Hx | (y & Hy & Hpos & Ey)].
    + destruct (0 <? a) eqn:Ha; [|now left].
      apply in_app_iff in Hx. destruct Hx as [Hx | [<- | []]]; [now left|].
      right. exists seq. split; [now left|]. split; [now apply Z.ltb_lt|].
      exact Ea.
    + right. exists y. split; [now right|]. now split.
Qed.

(** The actions of a state whose [remaining_dice_] are those of its level. *)
Lemma LegalActions_level (st : BackgammonState) (d0 d1 : Z) :
  valid_player (cur_player_ st) -> rolled st d0 d1 -> wf_pos st ->
  (forall p, valid_player p ->
     total_checkers st p = NumCheckersPerPlayer (hyper_backgammon_ st)) ->
  remaining_dice_ st = initial_remaining (legal_level st) d0 d1 ->
  exists actions,
    LegalActions kPlayerCentricObs st = Returns actions
    /\ forall a, In a actions -> a <> kEndTurnAction ->
         exists moves,
           SpielMoveToCheckerMoves kPlayerCentricObs st a = Returns moves
           /\ length moves = LegalLevel_dice (legal_level st)
           /\ (legal_level st = kHighDie ->
               Forall (fun m => num m = Z.max d0 d1) moves).
Proof.
  intros Hp Hr Hwf Htot Hrd. pose proof Hr as (Hd & Hd0 & Hd1).
  unfold LegalActions. rewrite (IsChanceNode_player st Hp).
  destruct (IsTerminal st); [exists []; split; [reflexivity | intros a []]|].
  rewrite Hd.
  rewrite (CountTotalCheckers_returns st kXPlayerId Hwf (or_introl eq_refl)).
  cbn [bind]. rewrite (Htot kXPlayerId (or_introl eq_refl)), Z.eqb_refl.
  cbn [negb].
  rewrite (CountTotalCheckers_returns st kOPlayerId Hwf (or_intror eq_refl)).
  cbn [bind]. rewrite (Htot kOPlayerId (or_intror eq_refl)), Z.eqb_refl.
  cbn [negb].
  change (kNumMovesPerCheckerSequence =? 1) with false. cbv iota.
  rewrite (LegalCheckerMoveSequences_pure st d0 d1 Hp Hr). cbn [bind].
  assert (Hseq : forall y, In y (legal_sequences st) ->
                   level_sequence (legal_level st) (Z.max d0 d1) y).
  { intros y Hy. destruct (Z.eq_dec d0 d1) as [E | E].
    - subst d1. rewrite Z.max_id. now apply legal_sequences_double.
    - now apply legal_sequences_different. }
  destruct (legal_sequences st) as [|s0 seqs] eqn:Es.
  { exists [kEndTurnAction]. split; [reflexivity|].
    intros a [<- | []] Hne. congruence. }
  destruct (encode_sequences_spec st (s0 :: seqs) [])
    as (acts & Eacts & Hacts).
  { intros y Hy. now apply Hseq. }
  rewrite Eacts. cbn [bind].
  exists (sort_actions acts). split; [reflexivity|].
  intros a Ha _. apply In_sort_actions, Hacts in Ha.
  destruct Ha as [[] | (y & Hy & Hpos & Ey)].
  destruct (Hseq y Hy) as (Hlen & Hv & Hhigh).
  exists (map clear_hit (moves_ y)). split; [|split].
  - apply SpielMoveToCheckerMoves_encoded; try assumption.
    + intros E. rewrite E in Ey. cbn in Ey. injection Ey as <-. lia.
    + rewrite Hlen. unfold kNumMovesPerCheckerSequence.
      destruct (legal_level st); simpl; lia.
  - now rewrite length_map.
  - intros El. apply List.Forall_map.
    eapply List.Forall_impl; [|exact (Hhigh El)]. now intros m Hm.
Qed.

End LegalActionsFacts.

(** ** After the roll *)

Lemma chance_outcome_range (action : Z) :
  1 <= action <= 21 ->
  1 <= at2 kChanceOutcomeValues (action - 1) 0 <= 6
  /\ 1 <= at2 kChanceOutcomeValues (action - 1) 1 <= 6.
Proof.
  intros H.
  assert (Hall : forallb
                   (fun a => (1 <=? at2 kChanceOutcomeValues (a - 1) 0)
                             && (at2 kChanceOutcomeValues (a - 1) 0 <=? 6)
                             && (1 <=? at2 kChanceOutcomeValues (a - 1) 1)
                             && (at2 kChanceOutcomeValues (a - 1) 1 <=? 6))
                   (zrange 1 21) = true) by (vm_compute; reflexivity).
  rewrite forallb_forall in Hall. specialize (Hall action).
  rewrite !andb_true_iff, !Z.leb_le in Hall.
  assert (Hin : In action (zrange 1 21)) by (apply In_zrange; lia).
  specialize (Hall Hin). lia.
Qed.

Lemma RollDice_pure (st : BackgammonState) (action : Z) :
  valid_player (cur_player_ st) -> dice_ st = [] -> 1 <= action <= 21 ->
  let d0 := at2 kChanceOutcomeValues (action - 1) 0 in
  let d1 := at2 kChanceOutcomeValues (action - 1) 1 in
  let rolled_st := set_dice st [d0; d1] in
  RollDice st action
  = Returns (set_remaining_dice rolled_st
               (initial_remaining (legal_level rolled_st) d0 d1)).
Proof.
  intros Hp Hd Ha. cbv zeta.
  destruct (chance_outcome_range action Ha) as [H0 H1].
  unfold RollDice. cbv zeta.
  set (d0 := at2 kChanceOutcomeValues (action - 1) 0) in *.
  set (d1 := at2 kChanceOutcomeValues (action - 1) 1) in *.
  assert (E : set_dice (set_dice st (dice_ st ++ [d0]))
                (dice_ (set_dice st (dice_ st ++ [d0])) ++ [d1])
              = set_dice st [d0; d1]).
  { destruct st. cbn in Hd. subst. reflexivity. }
  rewrite E.
  apply (InitRemainingDice_pure (set_dice st [d0; d1]) d0 d1); [exact Hp|].
  split; [reflexivity | now split].
Qed.

(** The checks of [wf_pos], as a computation. *)
Definition wf_posb (st : BackgammonState) : bool :=
  (length (bar_ st) =? 2)%nat && (length (scores_ st) =? 2)%nat
  && (length (board_ st) =? 2)%nat
  && (length (row (board_ st) 0) =? 24)%nat
  && (length (row (board_ st) 1) =? 24)%nat
  && forallb (fun i => (0 <=? at2 (board_ st) 0 i) && (0 <=? at2 (board_ st) 1 i)
                       && ((at2 (board_ st) 0 i =? 0) || (at2 (board_ st) 1 i =? 0)))
       (zrange 0 24)
  && (0 <=? at_ (bar_ st) 0) && (0 <=? at_ (bar_ st) 1)
  && (0 <=? at_ (scores_ st) 0) && (0 <=? at_ (scores_ st) 1)
  && (total_checkers st 0 <=? 15) && (total_checkers st 1 <=? 15).

Lemma wf_posb_sound (st : BackgammonState) : wf_posb st = true -> wf_pos st.
Proof.
  unfold wf_posb. rewrite !andb_true_iff, !Nat.eqb_eq, !Z.leb_le, forallb_forall.
  intros (((((((((((S1 & S2) & S3) & S4) & S5) & Hpts) & B0) & B1) & C0) & C1)
            & T0) & T1).
  assert (Hpt : forall i, 0 <= i <= 23 ->
                  0 <= at2 (board_ st) 0 i /\ 0 <= at2 (board_ st) 1 i
                  /\ (at2 (board_ st) 0 i = 0 \/ at2 (board_ st) 1 i = 0)).
  { intros i Hi. specialize (Hpts i).
    rewrite !andb_true_iff, orb_true_iff, !Z.leb_le, !Z.eqb_eq in Hpts.
    assert (Hin : In i (zrange 0 24)) by (apply In_zrange; lia).
    specialize (Hpts Hin). tauto. }
  split; [repeat split; assumption|].
  split; [intros p i [-> | ->] Hi; now apply Hpt|].
  split; [intros p [-> | ->]; assumption|].
  split; [intros p [-> | ->]; assumption|].
  split; [intros p [-> | ->]; assumption|].
  intros i Hi. now apply Hpt.
Qed.

Section RolledDice.

Variable kPlayerCentricObs : bool.

(** X1: when the dice have been rolled for a player, in a position where no
    point is shared and every checker is counted, [DetermineLegalLevel]
    returns a level and [LegalActions] returns actions, and every returned
    action other than [kEndTurnAction] decodes to exactly as many moves as
    the level has dice; at [kHighDie] that one move plays the higher die. *)
Theorem LegalActions_consume_legal_level (st0 st : BackgammonState)
    (action : Z) :
  valid_player (cur_player_ st0) -> wf_pos st0 ->
  (forall p, valid_player p ->
     total_checkers st0 p = NumCheckersPerPlayer (hyper_backgammon_ st0)) ->
  dice_ st0 = [] -> 1 <= action <= 21 ->
  RollDice st0 action = Returns st ->
  exists level actions,
    DetermineLegalLevel st = Returns level
    /\ LegalActions kPlayerCentricObs st = Returns actions
    /\ forall a, In a actions -> a <> kEndTurnAction ->
         exists moves,
           SpielMoveToCheckerMoves kPlayerCentricObs st a = Returns moves
           /\ length moves = LegalLevel_dice level
           /\ (level = kHighDie ->
               Forall (fun m => num m = Z.max (at_ (dice_ st) 0)
                                          (at_ (dice_ st) 1)) moves).
Proof.
  intros Hp Hwf Htot Hd Ha Hroll.
  rewrite (RollDice_pure st0 action Hp Hd Ha) in Hroll. cbv zeta in Hroll.
  destruct (chance_outcome_range action Ha) as [H0 H1].
  set (d0 := at2 kChanceOutcomeValues (action - 1) 0) in *.
  set (d1 := at2 kChanceOutcomeValues (action - 1) 1) in *.
  injection Hroll as <-.
  set (st1 := set_dice st0 [d0; d1]).
  set (st := set_remaining_dice st1 (initial_remaining (legal_level st1) d0 d1)).
  assert (Hp' : valid_player (cur_player_ st)) by exact Hp.
  assert (Hr : rolled st d0 d1) by (split; [reflexivity | now split]).
  assert (Hwf' : wf_pos st) by exact Hwf.
  assert (Htot' : forall p, valid_player p ->
            total_checkers st p = NumCheckersPerPlayer (hyper_backgammon_ st))
    by exact Htot.
  assert (El : legal_level st = legal_level st1)
    by (apply legal_level_ext; [repeat split | reflexivity]).
  assert (Hrd : remaining_dice_ st = initial_remaining (legal_level st) d0 d1)
    by (rewrite El; reflexivity).
  exists (legal_level st).
  destruct (LegalActions_level kPlayerCentricObs st d0 d1 Hp' Hr Hwf' Htot' Hrd)
    as (actions & Eacts & Hacts).
  exists actions. split; [exact (DetermineLegalLevel_pure st d0 d1 Hp' Hr)|].
  split; [exact Eacts|]. exact Hacts.
Qed.

End RolledDice.

Definition rolled_1_3_start : BackgammonState :=
  set_cur_player (NewInitialState kWinLossScoring false 100) kXPlayerId.

Lemma LegalActions_consume_legal_level_witness :
  exists st,
    RollDice rolled_1_3_start 2 = Returns st
    /\ exists level actions,
         DetermineLegalLevel st = Returns level
         /\ LegalActions true st = Returns actions
         /\ forall a, In a actions -> a <> kEndTurnAction ->
              exists moves,
                SpielMoveToCheckerMoves true st a = Returns moves
                /\ length moves = LegalLevel_dice level
                /\ (level = kHighDie ->
                    Forall (fun m => num m = Z.max (at_ (dice_ st) 0)
                                               (at_ (dice_ st) 1)) moves).
Proof.
  eexists. split; [vm_compute; reflexivity|].
  apply (LegalActions_consume_legal_level true rolled_1_3_start _ 2).
  - left. reflexivity.
  - apply wf_posb_sound. vm_compute. reflexivity.
  - intros p [-> | ->]; vm_compute; reflexivity.
  - reflexivity.
  - lia.
  - vm_compute. reflexivity.
Defined.

(** * Further facts about the move generator *)

Lemma apply_move_hit (st : BackgammonState) (die : Z) (m : CheckerMove) :
  valid_player (cur_player_ st) -> legal_single st die m ->
  snd (apply_move st m) = hit m.
Proof.
  intros Hp Hl. pose proof Hl as (Hn & Hsrc & Htgt).
  destruct (Opponent_valid _ Hp) as [Hop Hne].
  assert (Hpos : (pos m <? 0) = false).
  { apply Z.ltb_ge. unfold kBarPos in Hsrc. lia. }
  pose proof (fun b => apply_hit_condition st die m b Hl) as Hc.
  unfold apply_move. rewrite Hpos. cbv zeta.
  set (cur := cur_player_ st) in *.
  set (tgt := move_target cur m) in *.
  destruct (pos m =? kBarPos) eqn:Eb; destruct (tgt =? kScorePos) eqn:Es;
    state_cbn;
    (rewrite Hc; [|rewrite ?at2_put2_other by (left; lia); reflexivity]);
    destruct (hit m); reflexivity.
Qed.

(** The position of the standard opening, X to move. *)
Definition opening_position : BackgammonState :=
  set_cur_player (NewInitialState kWinLossScoring false 100) kXPlayerId.

(** X2: a move that [SingleCheckerMoves] generates is applied by
    [ApplyCheckerMove], which reports the move's own [hit] flag, and
    [UndoCheckerMove] then gives back the state the move was applied to. *)
Theorem ApplyCheckerMove_UndoCheckerMove (st : BackgammonState) (die : Z)
    (bFirstOnly : bool) (moves : list CheckerMove) (m : CheckerMove) :
  valid_player (cur_player_ st) -> 1 <= die <= 6 ->
  SingleCheckerMoves st die bFirstOnly = Returns moves -> In m moves ->
  exists st',
    ApplyCheckerMove st m = Returns (st', hit m)
    /\ UndoCheckerMove st' m = Returns st.
Proof.
  intros Hp Hd Hmoves Hm.
  rewrite (SingleCheckerMoves_pure st die bFirstOnly Hp) in Hmoves.
  injection Hmoves as <-.
  apply (moves_for_legal st die bFirstOnly m Hp Hd) in Hm.
  exists (fst (apply_move st m)). split.
  - rewrite (ApplyCheckerMove_pure st m Hp). f_equal.
    rewrite <- (apply_move_hit st die m Hp Hm). now destruct (apply_move st m).
  - rewrite UndoCheckerMove_pure by now rewrite apply_move_cur_player.
    now rewrite (undo_apply_move st die m Hp Hm).
Qed.

Lemma ApplyCheckerMove_UndoCheckerMove_witness :
  exists st',
    ApplyCheckerMove opening_position (mkCheckerMove 0 3 false)
    = Returns (st', false)
    /\ UndoCheckerMove st' (mkCheckerMove 0 3 false) = Returns opening_position.
Proof.
  eapply (ApplyCheckerMove_UndoCheckerMove opening_position 3 false
            _ (mkCheckerMove 0 3 false)).
  - left. reflexivity.
  - lia.
  - vm_compute. reflexivity.
  - vm_compute. tauto.
Defined.

Lemma moves_loop_In (st : BackgammonState) (player die : Z)
    (first aih : bool) (points : list Z) (acc : list CheckerMove)
    (m : CheckerMove) :
  In m (moves_loop st player die first aih points acc) ->
  In m acc \/ exists i, In i points /\ point_move st player die aih i = Some m.
Proof.
  revert acc. induction points as [|i rest IH]; intros acc; simpl; [now left|].
  destruct (point_move st player die aih i) as [x|] eqn:E.
  - assert (Hins : In m (set_insert CheckerMove_lt x acc) ->
                   In m acc \/ exists j, (i = j \/ In j rest)
                     /\ point_move st player die aih j = Some m).
    { intros H. apply In_set_insert in H. destruct H as [-> | H]; [|now left].
      right. exists i. split; [now left | exact E]. }
    destruct first; [exact Hins|].
    intros H. apply IH in H. destruct H as [H | (j & Hj & Ej)]; [now apply Hins|].
    right. exists j. split; [now right | exact Ej].
  - intros H. apply IH in H. destruct H as [H | (j & Hj & Ej)]; [now left|].
    right. exists j. split; [now right | exact Ej].
Qed.

Lemma point_move_spec (st : BackgammonState) (player die : Z) (aih : bool)
    (i : Z) (m : CheckerMove) :
  point_move st player die aih i = Some m ->
  let to := move_target player (mkCheckerMove i die false) in
  pos m = i /\ num m = die /\ 0 < at2 (board_ st) player i
  /\ (if to =? kScorePos then hit m = false /\ aih = true
      else NumOppCheckers st player to <= 1
           /\ hit m = (NumOppCheckers st player to =? 1)).
Proof.
  unfold point_move. cbv zeta.
  destruct (0 <? at2 (board_ st) player i) eqn:E0; [|discriminate].
  apply Z.ltb_lt in E0.
  set (to := move_target player (mkCheckerMove i die false)).
  destruct (to =? kScorePos) eqn:Es; cbn [andb negb].
  - destruct aih; [|discriminate].
    destruct (_ || _); [|destruct (i =? _); [|discriminate]];
      intros H; injection H as <-; cbn [pos num hit]; auto.
  - destruct (NumOppCheckers st player to <=? 1) eqn:E1; [|discriminate].
    apply Z.leb_le in E1.
    intros H. injection H as <-. cbn [pos num hit]. auto.
Qed.

(** X3: every move [SingleCheckerMoves] generates plays the die; it starts
    from the bar whenever the player has a checker there, and otherwise from
    a point where the player has one; it bears off only when [AllInHome]
    holds, and otherwise lands on a point where the opponent has at most one
    checker, the [hit] flag telling whether there is one. *)
Theorem SingleCheckerMoves_sound (st : BackgammonState) (die : Z)
    (bFirstOnly : bool) (moves : list CheckerMove) (m : CheckerMove) :
  valid_player (cur_player_ st) -> 1 <= die <= 6 ->
  SingleCheckerMoves st die bFirstOnly = Returns moves -> In m moves ->
  let player := cur_player_ st in
  num m = die
  /\ (if 0 <? at_ (bar_ st) player then pos m = kBarPos
      else 0 <= pos m <= 23 /\ 0 < at2 (board_ st) player (pos m))
  /\ exists to,
       PositionFrom player (pos m) die = Returns to
       /\ (if to =? kScorePos
           then hit m = false /\ AllInHome st player = Returns true
           else 0 <= to <= 23 /\ NumOppCheckers st player to <= 1
                /\ hit m = (NumOppCheckers st player to =? 1)).
Proof.
  intros Hp Hd Hmoves Hm. cbv zeta.
  rewrite (SingleCheckerMoves_pure st die bFirstOnly Hp) in Hmoves.
  injection Hmoves as <-.
  unfold moves_for in Hm.
  destruct (0 <? at_ (bar_ st) (cur_player_ st)) eqn:Ebar.
  - cbv zeta in Hm.
    set (to := move_target (cur_player_ st) (mkCheckerMove kBarPos die false)) in *.
    destruct (NumOppCheckers st (cur_player_ st) to <=? 1) eqn:E1;
      [|destruct Hm].
    apply Z.leb_le in E1. destruct Hm as [<- | []]. cbn [pos num hit].
    split; [reflexivity|]. split; [reflexivity|].
    exists to. split; [exact (PositionFrom_target _ kBarPos die false Hp)|].
    assert (Hto : 0 <= to <= 23).
    { unfold to, move_target. cbn [pos num]. unfold kBarPos, kXPlayerId.
      destruct Hp as [-> | ->]; simpl; lia. }
    replace (to =? kScorePos) with false
      by (symmetry; apply Z.eqb_neq; unfold kScorePos; lia).
    auto.
  - apply moves_loop_In in Hm. destruct Hm as [[] | (i & Hi & Hm)].
    apply In_zrange in Hi.
    apply point_move_spec in Hm. cbv zeta in Hm.
    destruct Hm as (Hpos & Hnum & Hsrc & Htgt). rewrite Hpos.
    split; [exact Hnum|]. split; [split; [lia | exact Hsrc]|].
    set (to := move_target (cur_player_ st) (mkCheckerMove i die false)) in *.
    exists to. split; [exact (PositionFrom_target _ i die false Hp)|].
    destruct (to =? kScorePos) eqn:Es.
    + destruct Htgt as [Hh Haih]. split; [exact Hh|].
      rewrite (AllInHome_pure st _ Hp). now f_equal.
    + destruct Htgt as [Hle Hh].
      assert (Hv : valid_move (mkCheckerMove i die false))
        by (split; cbn [pos num]; [left|]; lia).
      destruct (move_target_range _ _ Hp Hv) as [Hr | Hr].
      * apply Z.eqb_neq in Es. contradiction.
      * auto.
Qed.

Lemma SingleCheckerMoves_sound_witness :
  let m := mkCheckerMove 0 3 false in
  num m = 3
  /\ (if 0 <? at_ (bar_ opening_position) 0 then pos m = kBarPos
      else 0 <= pos m <= 23 /\ 0 < at2 (board_ opening_position) 0 (pos m))
  /\ exists to,
       PositionFrom 0 (pos m) 3 = Returns to
       /\ (if to =? kScorePos
           then hit m = false /\ AllInHome opening_position 0 = Returns true
           else 0 <= to <= 23 /\ NumOppCheckers opening_position 0 to <= 1
                /\ hit m = (NumOppCheckers opening_position 0 to =? 1)).
Proof.
  eapply (SingleCheckerMoves_sound opening_position 3 false _
            (mkCheckerMove 0 3 false)).
  - left. reflexivity.
  - lia.
  - vm_compute. reflexivity.
  - vm_compute. tauto.
Defined.

Lemma moves_loop_keeps (st : BackgammonState) (player die : Z) (aih : bool)
    (points : list Z) (acc : list CheckerMove) (m : CheckerMove) :
  In m acc -> In m (moves_loop st player die false aih points acc).
Proof.
  revert acc. induction points as [|i rest IH]; intros acc H; simpl; [exact H|].
  destruct (point_move st player die aih i); apply IH; [|exact H].
  now apply set_insert_keeps.
Qed.

Lemma moves_loop_first (st : BackgammonState) (player die : Z) (aih : bool)
    (points : list Z) :
  (length (moves_loop st player die true aih points []) <= 1)%nat
  /\ forall m, In m (moves_loop st player die true aih points []) ->
               In m (moves_loop st player die false aih points []).
Proof.
  induction points as [|i rest IH]; simpl; [split; [lia | tauto]|].
  destruct (point_move st player die aih i) as [x|]; [|exact IH].
  split; [simpl; lia|].
  intros m [<- | []]. apply moves_loop_keeps. now left.
Qed.

(** X4: with [bFirstOnly] set, [SingleCheckerMoves] returns at most one move,
    a move of the full enumeration, and returns none exactly when the full
    enumeration is empty. *)
Theorem SingleCheckerMoves_first_only (st : BackgammonState) (die : Z) :
  valid_player (cur_player_ st) ->
  exists first_moves all_moves,
    SingleCheckerMoves st die true = Returns first_moves
    /\ SingleCheckerMoves st die false = Returns all_moves
    /\ (length first_moves <= 1)%nat
    /\ (first_moves = [] <-> all_moves = [])
    /\ forall m, In m first_moves -> In m all_moves.
Proof.
  intros Hp. exists (moves_for st die true), (moves_for st die false).
  split; [now apply SingleCheckerMoves_pure|].
  split; [now apply SingleCheckerMoves_pure|].
  split; [|split; [apply moves_for_first_nil|]].
  - unfold moves_for. destruct (0 <? at_ (bar_ st) (cur_player_ st)).
    + cbv zeta. destruct (NumOppCheckers st _ _ <=? 1); simpl; lia.
    + apply moves_loop_first.
  - unfold moves_for. destruct (0 <? at_ (bar_ st) (cur_player_ st)); [tauto|].
    apply moves_loop_first.
Qed.

Lemma SingleCheckerMoves_first_only_witness :
  exists first_moves all_moves,
    SingleCheckerMoves opening_position 3 true = Returns first_moves
    /\ SingleCheckerMoves opening_position 3 false = Returns all_moves
    /\ (length first_moves <= 1)%nat
    /\ (first_moves = [] <-> all_moves = [])
    /\ forall m, In m first_moves -> In m all_moves.
Proof.
  apply (SingleCheckerMoves_first_only opening_position 3).
  left. reflexivity.
Defined.

(** * Further facts about the action encoding *)

Section EncodingFacts.

Variable kPlayerCentricObs : bool.
Variable st : BackgammonState.

Lemma SpielMoveToSingleCheckerMove_encoded (a : Z) (m : CheckerMove) :
  SpielMoveToSingleCheckerMove kPlayerCentricObs st a = Returns m ->
  1 <= a <= 150
  /\ SingleCheckerMoveToSpielMove kPlayerCentricObs st m = Returns a.
Proof.
  unfold SpielMoveToSingleCheckerMove, SingleCheckerMoveToSpielMove.
  unfold_consts.
  destruct (a <=? 0) eqn:E1; [discriminate|].
  destruct (150 <? a) eqn:E2; [discriminate|].
  apply Z.leb_gt in E1. apply Z.ltb_ge in E2.
  intros H. injection H as <-. cbn [pos num hit]. split; [lia|].
  assert (Hq : 0 <= (a - 1) / 6 <= 24).
  { split; [apply Z.div_pos; lia|].
    assert ((a - 1) / 6 < 25) by (apply Z.div_lt_upper_bound; lia). lia. }
  assert (Hr : 0 <= (a - 1) mod 6 < 6) by (apply Z.mod_pos_bound; lia).
  assert (Ha : a = (a - 1) / 6 * 6 + ((a - 1) mod 6 + 1)).
  { pose proof (Z.div_mod (a - 1) 6). lia. }
  set (q := (a - 1) / 6) in *. set (r := (a - 1) mod 6) in *.
  set (flip := kPlayerCentricObs && negb (CurrentPlayer st =? 0)).
  replace (r + 1 <? 1) with false by (symmetry; apply Z.ltb_ge; lia).
  replace (6 <? r + 1) with false by (symmetry; apply Z.ltb_ge; lia).
  destruct (q =? 24) eqn:E3.
  - apply Z.eqb_eq in E3. simpl (100 <? 0). simpl (100 =? 100). cbv iota.
    replace (24 * 6 + (r + 1) <=? 0) with false by (symmetry; apply Z.leb_gt; lia).
    replace (150 <? 24 * 6 + (r + 1)) with false by (symmetry; apply Z.ltb_ge; lia).
    f_equal. lia.
  - apply Z.eqb_neq in E3. destruct flip.
    + replace (23 - q <? 0) with false by (symmetry; apply Z.ltb_ge; lia).
      replace (23 - q =? 100) with false by (symmetry; apply Z.eqb_neq; lia).
      replace (23 - (23 - q)) with q by lia.
      replace (q * 6 + (r + 1) <=? 0) with false by (symmetry; apply Z.leb_gt; lia).
      replace (150 <? q * 6 + (r + 1)) with false by (symmetry; apply Z.ltb_ge; lia).
      f_equal. lia.
    + replace (q <? 0) with false by (symmetry; apply Z.ltb_ge; lia).
      replace (q =? 100) with false by (symmetry; apply Z.eqb_neq; lia).
      replace (q * 6 + (r + 1) <=? 0) with false by (symmetry; apply Z.leb_gt; lia).
      replace (150 <? q * 6 + (r + 1)) with false by (symmetry; apply Z.ltb_ge; lia).
      f_equal. lia.
Qed.

(** X5: [SpielMoveToSingleCheckerMove] returns a move exactly for the actions
    1 to 150 and aborts on every other one; the move it returns has [hit]
    unset, and [SingleCheckerMoveToSpielMove] maps it back to the action. *)
Theorem SpielMoveToSingleCheckerMove_inverse (a : Z) :
  if (1 <=? a) && (a <=? kNumSingleCheckerActions)
  then exists m,
         SpielMoveToSingleCheckerMove kPlayerCentricObs st a = Returns m
         /\ hit m = false
         /\ SingleCheckerMoveToSpielMove kPlayerCentricObs st m = Returns a
  else exists msg,
         SpielMoveToSingleCheckerMove kPlayerCentricObs st a = FatalError msg.
Proof.
  destruct ((1 <=? a) && (a <=? kNumSingleCheckerActions)) eqn:E.
  - apply andb_true_iff in E. destruct E as [E1 E2].
    apply Z.leb_le in E1, E2.
    destruct (SpielMoveToSingleCheckerMove kPlayerCentricObs st a) as [m|msg] eqn:D.
    + exists m. split; [reflexivity|].
      split; [now apply (decode_single_valid kPlayerCentricObs st a)|].
      now apply SpielMoveToSingleCheckerMove_encoded.
    + exfalso. unfold SpielMoveToSingleCheckerMove in D.
      replace (a <=? 0) with false in D by (symmetry; apply Z.leb_gt; lia).
      replace (kNumSingleCheckerActions <? a) with false in D
        by (symmetry; apply Z.ltb_ge; lia).
      discriminate.
  - apply andb_false_iff in E. unfold SpielMoveToSingleCheckerMove.
    destruct E as [E | E].
    + apply Z.leb_gt in E.
      replace (a <=? 0) with true by (symmetry; apply Z.leb_le; lia).
      now eexists.
    + apply Z.leb_gt in E. destruct (a <=? 0); [now eexists|].
      replace (kNumSingleCheckerActions <? a) with true
        by (symmetry; apply Z.ltb_lt; lia).
      now eexists.
Qed.

Lemma decode_loop_encoded (fuel : nat) :
  forall (a : Z) (acc ms : list CheckerMove),
    0 <= a < 2 ^ Z.of_nat fuel ->
    SpielMoveToCheckerMoves_loop kPlayerCentricObs fuel st a acc = Returns ms ->
    exists pre,
      ms = pre ++ acc
      /\ CheckerMovesToSpielMove_loop kPlayerCentricObs st pre 0 = Returns a
      /\ (a = 0 <-> pre = []).
Proof.
  induction fuel as [|fuel IH]; intros a acc ms Ha; simpl SpielMoveToCheckerMoves_loop.
  - intros H. injection H as <-. exists []. simpl in Ha.
    assert (a = 0) by lia. subst a. repeat split; reflexivity.
  - destruct (0 <? a) eqn:E.
    2:{ apply Z.ltb_ge in E. intros H. injection H as <-.
        assert (a = 0) by lia. subst a. exists []. repeat split; reflexivity. }
    apply Z.ltb_lt in E. unfold_consts.
    destruct (SpielMoveToSingleCheckerMove kPlayerCentricObs st (a mod 151))
      as [m|] eqn:D; [|discriminate].
    cbn [bind]. intros H.
    apply SpielMoveToSingleCheckerMove_encoded in D. destruct D as [Hd Em].
    assert (Hq : 0 <= a / 151 < 2 ^ Z.of_nat fuel).
    { split; [apply Z.div_pos; lia|].
      apply Z.div_lt_upper_bound; [lia|].
      rewrite Nat2Z.inj_succ, Z.pow_succ_r in Ha by lia. lia. }
    destruct (IH _ _ _ Hq H) as (pre & -> & Epre & _).
    exists (pre ++ [m]). split; [now rewrite <- app_assoc|].
    split.
    + rewrite (encode_loop_app kPlayerCentricObs st pre m 0).
      rewrite Epre. cbn [bind]. rewrite Em. cbn [bind]. f_equal.
      pose proof (Z.div_mod a 151). lia.
    + split; [lia|]. intros Hnil. now destruct pre.
Qed.

(** X6: whenever [SpielMoveToCheckerMoves] returns, it returns one to four
    moves with [hit] unset that [CheckerMovesToSpielMove] maps back to the
    action. *)
Theorem SpielMoveToCheckerMoves_inverse (a : Z) :
  match SpielMoveToCheckerMoves kPlayerCentricObs st a with
  | Returns moves =>
      (1 <= length moves <= 4)%nat
      /\ Forall (fun m => hit m = false) moves
      /\ CheckerMovesToSpielMove kPlayerCentricObs st moves = Returns a
  | FatalError _ => True
  end.
Proof.
  destruct (SpielMoveToCheckerMoves kPlayerCentricObs st a) as [ms|] eqn:D;
    [|trivial].
  pose proof (SpielMoveToCheckerMoves_valid kPlayerCentricObs st a ms D) as Hv.
  unfold SpielMoveToCheckerMoves in D.
  destruct (a <=? 0) eqn:E1; [discriminate|]. apply Z.leb_gt in E1.
  destruct (kNumCheckerActions <? a); [discriminate|].
  destruct (SpielMoveToCheckerMoves_loop kPlayerCentricObs
              (S (Z.to_nat (Z.log2 a))) st a []) as [l|] eqn:L; [|discriminate].
  cbn [bind] in D.
  destruct (kNumMovesPerCheckerSequence <? Z.of_nat (length l)) eqn:E3;
    [discriminate|].
  injection D as <-. apply Z.ltb_ge in E3. unfold kNumMovesPerCheckerSequence in E3.
  apply decode_loop_encoded in L.
  - destruct L as (pre & -> & Epre & Hnil). rewrite app_nil_r in *.
    split; [|split].
    + split; [|lia]. destruct pre; [|simpl; lia].
      assert (a = 0) by now apply Hnil. lia.
    + eapply List.Forall_impl; [|exact Hv]. now intros m [_ H].
    + exact Epre.
  - split; [lia|].
    rewrite Nat2Z.inj_succ, Z2Nat.id by apply Z.log2_nonneg.
    apply Z.log2_spec. lia.
Qed.

(** X7: an action whose last base-151 digit is zero, such as 151, is not
    decoded: [SpielMoveToCheckerMoves] aborts on it. *)
Theorem SpielMoveToCheckerMoves_zero_digit (a : Z) :
  0 < a -> a mod (kNumSingleCheckerActions + 1) = 0 ->
  exists msg, SpielMoveToCheckerMoves kPlayerCentricObs st a = FatalError msg.
Proof.
  intros Ha Hmod. unfold SpielMoveToCheckerMoves.
  replace (a <=? 0) with false by (symmetry; apply Z.leb_gt; lia).
  destruct (kNumCheckerActions <? a); [now eexists|].
  cbn [SpielMoveToCheckerMoves_loop].
  replace (0 <? a) with true by (symmetry; apply Z.ltb_lt; lia).
  rewrite Hmod. cbn [bind SpielMoveToSingleCheckerMove Z.leb Z.compare].
  now eexists.
Qed.

End EncodingFacts.

Lemma SpielMoveToCheckerMoves_zero_digit_witness :
  exists msg,
    SpielMoveToCheckerMoves true opening_position 151 = FatalError msg.
Proof.
  apply (SpielMoveToCheckerMoves_zero_digit true opening_position 151).
  - lia.
  - reflexivity.
Defined.

Section EncodingBounds.

Variable kPlayerCentricObs : bool.
Variable st : BackgammonState.

Lemma ipow_pos (n : nat) : 0 < ipow 151 n.
Proof. induction n; simpl; lia. Qed.

Lemma SingleCheckerMoveToSpielMove_checks (m : CheckerMove) (a : Z) :
  SingleCheckerMoveToSpielMove kPlayerCentricObs st m = Returns a ->
  0 <= pos m /\ 1 <= num m <= 6 /\ 1 <= a <= 150.
Proof.
  unfold SingleCheckerMoveToSpielMove. unfold_consts.
  destruct (pos m <? 0) eqn:E1; [discriminate|].
  destruct (num m <? 1) eqn:E2; [discriminate|].
  destruct (6 <? num m) eqn:E3; [discriminate|].
  cbv zeta.
  destruct (_ <=? 0) eqn:E4; [discriminate|].
  destruct (150 <? _) eqn:E5; [discriminate|].
  intros H. injection H as <-.
  apply Z.ltb_ge in E1, E2, E3, E5. apply Z.leb_gt in E4. lia.
Qed.

Lemma encode_loop_bounds (v : list CheckerMove) :
  forall acc a,
    0 <= acc ->
    CheckerMovesToSpielMove_loop kPlayerCentricObs st v acc = Returns a ->
    Forall (fun m => 0 <= pos m /\ 1 <= num m <= 6) v
    /\ acc * ipow 151 (length v) <= a < (acc + 1) * ipow 151 (length v).
Proof.
  induction v as [|m v IH]; intros acc a Hacc; simpl.
  - intros H. injection H as <-. split; [constructor | lia].
  - destruct (SingleCheckerMoveToSpielMove kPlayerCentricObs st m) as [s|] eqn:E;
      [|discriminate].
    cbn [bind]. unfold_consts. intros H.
    apply SingleCheckerMoveToSpielMove_checks in E.
    destruct E as (Hp & Hn & Hs).
    apply IH in H; [|lia]. destruct H as [Hv Hb].
    split; [constructor; [lia | exact Hv]|].
    pose proof (ipow_pos (length v)). nia.
Qed.

(** X8: when [CheckerMovesToSpielMove] returns, every move of the sequence
    passed the checks (no pass move, a die from 1 to 6), the action is 0 only
    for the empty sequence, and for at most four moves it lies below
    [kNumCheckerActions], apart from [kEndTurnAction] and [kRollAction]. *)
Theorem CheckerMovesToSpielMove_bounds (v : list CheckerMove) (a : Z) :
  CheckerMovesToSpielMove kPlayerCentricObs st v = Returns a ->
  Forall (fun m => 0 <= pos m /\ 1 <= num m <= 6) v
  /\ (a = 0 <-> v = [])
  /\ 0 <= a
  /\ ((length v <= 4)%nat ->
      a < kNumCheckerActions /\ a <> kEndTurnAction /\ a <> kRollAction).
Proof.
  unfold CheckerMovesToSpielMove. intros H.
  pose proof (encode_loop_bounds v 0 a ltac:(lia) H) as [Hv Hb].
  split; [exact Hv|].
  pose proof (ipow_pos (length v)) as Hpow.
  assert (Hnil : a = 0 <-> v = []).
  { destruct v as [|m v]; [simpl in H; injection H as <-; tauto|].
    split; [|discriminate]. intros ->. exfalso.
    simpl in H.
    destruct (SingleCheckerMoveToSpielMove kPlayerCentricObs st m) as [s|] eqn:E;
      [|discriminate].
    cbn [bind] in H. unfold_consts.
    apply SingleCheckerMoveToSpielMove_checks in E.
    apply encode_loop_bounds in H; [|lia]. destruct H as [_ Hb'].
    pose proof (ipow_pos (length v)). nia. }
  split; [exact Hnil|]. split; [lia|].
  intros Hlen.
  assert (Hmono : ipow 151 (length v) <= ipow 151 4).
  { assert (M : forall n k, (n <= k)%nat -> ipow 151 n <= ipow 151 k).
    { intros n k Hnk. induction Hnk; [lia|]. simpl ipow.
      pose proof (ipow_pos n). lia. }
    now apply M. }
  unfold kEndTurnAction, kRollAction. unfold_consts. lia.
Qed.

End EncodingBounds.

Lemma CheckerMovesToSpielMove_bounds_witness :
  Forall (fun m => 0 <= pos m /\ 1 <= num m <= 6)
    [mkCheckerMove 0 3 false; mkCheckerMove kBarPos 1 false]
  /\ (598 = 0 <-> [mkCheckerMove 0 3 false; mkCheckerMove kBarPos 1 false] = [])
  /\ 0 <= 598
  /\ ((length [mkCheckerMove 0 3 false; mkCheckerMove kBarPos 1 false] <= 4)%nat ->
      598 < kNumCheckerActions /\ 598 <> kEndTurnAction
      /\ 598 <> kRollAction).
Proof.
  apply (CheckerMovesToSpielMove_bounds true opening_position).
  vm_compute. reflexivity.
Defined.

(** * Further facts about the end of the game and the counts *)

(** X9: [Returns] is zero-sum: the two entries are [u] and [-u] for an
    integer [u], positive exactly when X has borne off 15 checkers, negative
    exactly when X has not and O has, and 0 otherwise; [|u|] is 1 under
    win-loss scoring, at most 2 with gammons and at most 3 with full
    scoring. *)
Theorem Returns_zero_sum (st : BackgammonState) :
  exists u : Z,
    Returns_ st = [inject_Z u; inject_Z (- u)]
    /\ (0 < u <-> at_ (scores_ st) kXPlayerId = 15)
    /\ (u < 0 <-> at_ (scores_ st) kXPlayerId <> 15
                  /\ at_ (scores_ st) kOPlayerId = 15)
    /\ -3 <= u <= 3
    /\ (scoring_type_ st = kWinLossScoring -> -1 <= u <= 1)
    /\ (scoring_type_ st = kEnableGammons -> -2 <= u <= 2).
Proof.
  unfold Returns_.
  destruct (at_ (scores_ st) kXPlayerId =? 15) eqn:Ex.
  - apply Z.eqb_eq in Ex. cbv zeta.
    set (u := match scoring_type_ st with
              | kWinLossScoring => 1
              | kEnableGammons => if IsGammoned st kOPlayerId then 2 else 1
              | kFullScoring =>
                  if IsBackgammoned st kOPlayerId then 3
                  else if IsGammoned st kOPlayerId then 2 else 1
              end).
    assert (Hu : 1 <= u <= 3
                 /\ (scoring_type_ st = kWinLossScoring -> u = 1)
                 /\ (scoring_type_ st = kEnableGammons -> u <= 2)).
    { unfold u. destruct (scoring_type_ st), (IsGammoned st kOPlayerId),
        (IsBackgammoned st kOPlayerId); repeat split; try lia; discriminate. }
    exists u. split; [reflexivity|]. destruct Hu as (H1 & H2 & H3).
    clearbody u. intuition lia.
  - apply Z.eqb_neq in Ex.
    destruct (at_ (scores_ st) kOPlayerId =? 15) eqn:Eo.
    + apply Z.eqb_eq in Eo. cbv zeta.
      set (u := match scoring_type_ st with
                | kWinLossScoring => 1
                | kEnableGammons => if IsGammoned st kXPlayerId then 2 else 1
                | kFullScoring =>
                    if IsBackgammoned st kXPlayerId then 3
                    else if IsGammoned st kXPlayerId then 2 else 1
                end).
      assert (Hu : 1 <= u <= 3
                   /\ (scoring_type_ st = kWinLossScoring -> u = 1)
                   /\ (scoring_type_ st = kEnableGammons -> u <= 2)).
      { unfold u. destruct (scoring_type_ st), (IsGammoned st kXPlayerId),
          (IsBackgammoned st kXPlayerId); repeat split; try lia; discriminate. }
      exists (- u). rewrite Z.opp_involutive. split; [reflexivity|].
      destruct Hu as (H1 & H2 & H3).
      clearbody u. intuition lia.
    + apply Z.eqb_neq in Eo. exists 0. split; [reflexivity|].
      intuition lia.
Qed.

(** X10: [CountTotalCheckers] returns [n] exactly when the player has no
    negative count on a point, on the bar or among the checkers borne off,
    and [n] is the sum of these counts; with a negative count it aborts. *)
Theorem CountTotalCheckers_spec (st : BackgammonState) (p n : Z) :
  CountTotalCheckers st p = Returns n <->
  (n = total_checkers st p
   /\ 0 <= at_ (bar_ st) p /\ 0 <= at_ (scores_ st) p
   /\ forall i, 0 <= i <= 23 -> 0 <= at2 (board_ st) p i).
Proof.
  split; [apply CountTotalCheckers_total|].
  intros (-> & Hbar & Hsc & Hb). rewrite CountTotalCheckers_eq.
  destruct (existsb (fun c => c <? 0)
              (map (fun i => at2 (board_ st) p i) (zrange 0 24))) eqn:E.
  - exfalso. apply existsb_exists in E. destruct E as (c & Hc & Hneg).
    apply in_map_iff in Hc. destruct Hc as (i & <- & Hi).
    apply In_zrange in Hi. apply Z.ltb_lt in Hneg.
    specialize (Hb i). lia.
  - replace (at_ (bar_ st) p <? 0) with false
      by (symmetry; now apply Z.ltb_ge).
    replace (at_ (scores_ st) p <? 0) with false
      by (symmetry; now apply Z.ltb_ge).
    unfold total_checkers. f_equal.
    remember (points_total (board_ st) p) as total. lia.
Qed.

(** X11: two positions with non-negative counts, at most 15 checkers a
    player and no point shared by both players have the same [PositionId]
    exactly when they have the same checkers on the bar and on the points:
    the id tells neither the player to move nor the checkers borne off. *)
Theorem PositionId_unique (s t : BackgammonState) :
  wf_pos s -> wf_pos t ->
  (PositionId s = PositionId t <-> bar_ s = bar_ t /\ board_ s = board_ t).
Proof.
  intros Hs Ht. split; [now apply PositionId_inj|].
  intros [Hbar Hboard]. unfold PositionId. now rewrite Hbar, Hboard.
Qed.

Lemma PositionId_unique_witness :
  PositionId opening_position
  = PositionId (set_cur_player opening_position kOPlayerId)
  <-> bar_ opening_position = bar_ (set_cur_player opening_position kOPlayerId)
      /\ board_ opening_position
         = board_ (set_cur_player opening_position kOPlayerId).
Proof.
  apply (PositionId_unique opening_position
           (set_cur_player opening_position kOPlayerId));
    apply wf_posb_sound; vm_compute; reflexivity.
Defined.

(** * Further facts about bearing off and the enumeration of the moves *)

(** X12: [FurthestCheckerInHome] returns -1 when the player has no checker
    in the home board, and otherwise the home point with a checker that is
    furthest from bearing off: no home point further away holds one. *)
Theorem FurthestCheckerInHome_spec (st : BackgammonState) (p : Z) :
  valid_player p ->
  let i := FurthestCheckerInHome st p in
  let lo := if p =? kXPlayerId then 18 else 0 in
  (i = -1 /\ forall j, lo <= j <= lo + 5 -> at2 (board_ st) p j <= 0)
  \/ (lo <= i <= lo + 5 /\ 0 < at2 (board_ st) p i
      /\ forall j, lo <= j <= lo + 5 ->
           (if p =? kXPlayerId then j < i else i < j) ->
           at2 (board_ st) p j <= 0).
Proof.
  intros Hp. cbv zeta. unfold FurthestCheckerInHome, kXPlayerId.
  destruct Hp as [-> | ->].
  - change (0 =? 0) with true. cbv iota.
    change (zrange 18 6) with [18; 19; 20; 21; 22; 23]. cbn [find].
    destruct (0 <? at2 (board_ st) 0 18) eqn:E18;
      [|destruct (0 <? at2 (board_ st) 0 19) eqn:E19;
        [|destruct (0 <? at2 (board_ st) 0 20) eqn:E20;
          [|destruct (0 <? at2 (board_ st) 0 21) eqn:E21;
            [|destruct (0 <? at2 (board_ st) 0 22) eqn:E22;
              [|destruct (0 <? at2 (board_ st) 0 23) eqn:E23]]]]];
      rewrite ?Z.ltb_lt, ?Z.ltb_ge in *;
      [right | right | right | right | right | right | left];
      (split; [lia|]); try (split; [assumption|]);
      intros j Hj;
      match goal with
      | |- _ < _ -> _ => intros Hlt
      | |- _ => idtac
      end;
      (assert (Hcases : j = 18 \/ j = 19 \/ j = 20 \/ j = 21 \/ j = 22 \/ j = 23)
         by lia);
      repeat (destruct Hcases as [-> | Hcases]); try subst j; lia.
  - change (1 =? 0) with false. cbv iota.
    change (map (fun k => 5 - k) (zrange 0 6)) with [5; 4; 3; 2; 1; 0].
    cbn [find].
    destruct (0 <? at2 (board_ st) 1 5) eqn:E5;
      [|destruct (0 <? at2 (board_ st) 1 4) eqn:E4;
        [|destruct (0 <? at2 (board_ st) 1 3) eqn:E3;
          [|destruct (0 <? at2 (board_ st) 1 2) eqn:E2;
            [|destruct (0 <? at2 (board_ st) 1 1) eqn:E1;
              [|destruct (0 <? at2 (board_ st) 1 0) eqn:E0]]]]];
      rewrite ?Z.ltb_lt, ?Z.ltb_ge in *;
      [right | right | right | right | right | right | left];
      (split; [lia|]); try (split; [assumption|]);
      intros j Hj;
      match goal with
      | |- _ < _ -> _ => intros Hlt
      | |- _ => idtac
      end;
      (assert (Hcases : j = 0 \/ j = 1 \/ j = 2 \/ j = 3 \/ j = 4 \/ j = 5)
         by lia);
      repeat (destruct Hcases as [-> | Hcases]); try subst j; lia.
Qed.

Lemma FurthestCheckerInHome_spec_witness :
  let st := opening_position in
  let i := FurthestCheckerInHome st 0 in
  let lo := if 0 =? kXPlayerId then 18 else 0 in
  (i = -1 /\ forall j, lo <= j <= lo + 5 -> at2 (board_ st) 0 j <= 0)
  \/ (lo <= i <= lo + 5 /\ 0 < at2 (board_ st) 0 i
      /\ forall j, lo <= j <= lo + 5 ->
           (if 0 =? kXPlayerId then j < i else i < j) ->
           at2 (board_ st) 0 j <= 0).
Proof.
  apply (FurthestCheckerInHome_spec opening_position 0). left. reflexivity.
Defined.

(** X13: [AllInHome] aborts for a player other than 0 and 1 who has no
    checker on the bar; for the players 0 and 1 it returns whether the player
    has no checker on the bar and none on the 18 points outside the home
    board. *)
Theorem AllInHome_spec (st : BackgammonState) (p : Z) :
  (valid_player p ->
   exists b, AllInHome st p = Returns b
     /\ (b = true <->
         at_ (bar_ st) p <= 0
         /\ forall j, (if p =? kXPlayerId then 0 <= j <= 17 else 6 <= j <= 23) ->
              at2 (board_ st) p j <= 0))
  /\ (~ valid_player p -> at_ (bar_ st) p <= 0 ->
      exists msg, AllInHome st p = FatalError msg).
Proof.
  split.
  - intros Hp. rewrite (AllInHome_pure st p Hp). eexists. split; [reflexivity|].
    unfold all_in_home.
    destruct (0 <? at_ (bar_ st) p) eqn:Eb.
    + apply Z.ltb_lt in Eb. split; [discriminate | intros [H _]; lia].
    + apply Z.ltb_ge in Eb. rewrite negb_true_iff.
      split.
      * intros H. split; [exact Eb|]. intros j Hj.
        destruct (Z_lt_le_dec 0 (at2 (board_ st) p j)) as [Hpos|]; [|assumption].
        exfalso.
        assert (E : existsb (fun i => 0 <? at2 (board_ st) p i)
                      (zrange (if p =? kXPlayerId then 0 else 6) 18) = true).
        { apply existsb_exists. exists j. split; [|now apply Z.ltb_lt].
          apply In_zrange. destruct (p =? kXPlayerId); lia. }
        congruence.
      * intros [_ H].
        destruct (existsb _ _) eqn:E; [|reflexivity].
        exfalso. apply existsb_exists in E. destruct E as (j & Hj & Hpos).
        apply In_zrange in Hj. apply Z.ltb_lt in Hpos.
        specialize (H j). destruct (p =? kXPlayerId); lia.
  - intros Hp Hb. unfold AllInHome.
    replace (0 <? at_ (bar_ st) p) with false by (symmetry; apply Z.ltb_ge; lia).
    destruct (p <? 0) eqn:E1; [now eexists|].
    destruct (1 <? p) eqn:E2; [now eexists|].
    exfalso. apply Hp. apply Z.ltb_ge in E1, E2. unfold valid_player. lia.
Qed.

Lemma CheckerMove_lt_equiv (x y : CheckerMove) :
  CheckerMove_lt x y = false -> CheckerMove_lt y x = false ->
  num x = num y -> pos x = pos y.
Proof.
  unfold CheckerMove_lt. rewrite !Z.ltb_ge. lia.
Qed.

Lemma moves_loop_complete (st : BackgammonState) (player die : Z) (aih : bool)
    (points : list Z) :
  forall (acc : list CheckerMove) (i : Z) (m : CheckerMove),
    (forall y, In y acc -> exists j, point_move st player die aih j = Some y) ->
    In i points -> point_move st player die aih i = Some m ->
    In m (moves_loop st player die false aih points acc).
Proof.
  induction points as [|j rest IH]; intros acc i m Hacc Hi Hm; [destruct Hi|].
  simpl.
  destruct (point_move st player die aih j) as [x|] eqn:Ej.
  - assert (Hacc' : forall y, In y (set_insert CheckerMove_lt x acc) ->
                      exists k, point_move st player die aih k = Some y).
    { intros y Hy. apply In_set_insert in Hy. destruct Hy as [-> | Hy];
        [now exists j | now apply Hacc]. }
    destruct Hi as [-> | Hi]; [|now apply (IH _ i)].
    assert (x = m) by congruence. subst x.
    apply moves_loop_keeps.
    destruct (set_insert_equiv CheckerMove_lt m acc) as (y & Hy & Hym).
    destruct Hym as [-> | [H1 H2]]; [exact Hy|].
    destruct (Hacc' y Hy) as (k & Ek).
    pose proof (point_move_spec _ _ _ _ _ _ Ek) as (Pk & Nk & _).
    pose proof (point_move_spec _ _ _ _ _ _ Hm) as (Pi & Ni & _).
    assert (pos m = pos y) by (apply CheckerMove_lt_equiv; congruence).
    assert (k = i) by congruence. subst k.
    assert (y = m) by congruence. now subst y.
  - destruct Hi as [-> | Hi]; [congruence|]. now apply (IH _ i).
Qed.

(** X14: for a player with no checker on the bar, the full enumeration of
    [SingleCheckerMoves] holds the move from point [i] with flag [h] exactly
    when the player has a checker on [i] and either the die takes it to a
    point with at most one opposing checker, [h] telling whether there is
    one, or the die takes it off the board, [h] is unset, all checkers are in
    the home board, and the die is the exact distance or [i] is the furthest
    checker in the home board. *)
Theorem SingleCheckerMoves_exact (st : BackgammonState) (die : Z)
    (moves : list CheckerMove) (i : Z) (h : bool) :
  valid_player (cur_player_ st) ->
  at_ (bar_ st) (cur_player_ st) <= 0 ->
  SingleCheckerMoves st die false = Returns moves ->
  let player := cur_player_ st in
  In (mkCheckerMove i die h) moves <->
  0 <= i <= 23 /\ 0 < at2 (board_ st) player i
  /\ exists to,
       PositionFrom player i die = Returns to
       /\ (if to =? kScorePos
           then h = false /\ AllInHome st player = Returns true
                /\ ((player = kXPlayerId /\ i + die = 24)
                    \/ (player = kOPlayerId /\ i - die = -1)
                    \/ i = FurthestCheckerInHome st player)
           else NumOppCheckers st player to <= 1
                /\ h = (NumOppCheckers st player to =? 1)).
Proof.
  intros Hp Hbar Hmoves. cbv zeta.
  rewrite (SingleCheckerMoves_pure st die false Hp) in Hmoves.
  injection Hmoves as <-. unfold moves_for.
  replace (0 <? at_ (bar_ st) (cur_player_ st)) with false
    by (symmetry; apply Z.ltb_ge; lia).
  set (p := cur_player_ st) in *.
  set (to := move_target p (mkCheckerMove i die false)).
  assert (Hto : PositionFrom p i die = Returns to)
    by exact (PositionFrom_target p i die false Hp).
  assert (Hchar : point_move st p die (all_in_home st p) i
                  = Some (mkCheckerMove i die h) <->
                  0 < at2 (board_ st) p i
                  /\ (if to =? kScorePos
                      then h = false /\ all_in_home st p = true
                           /\ ((p = kXPlayerId /\ i + die = 24)
                               \/ (p = kOPlayerId /\ i - die = -1)
                               \/ i = FurthestCheckerInHome st p)
                      else NumOppCheckers st p to <= 1
                           /\ h = (NumOppCheckers st p to =? 1))).
  { unfold point_move. cbv zeta. fold to.
    destruct (0 <? at2 (board_ st) p i) eqn:E0;
      [apply Z.ltb_lt in E0 | apply Z.ltb_ge in E0;
                              split; [discriminate | intros [H _]; lia]].
    destruct (to =? kScorePos) eqn:Es; cbn [andb negb].
    - destruct (all_in_home st p).
      + destruct (((p =? kXPlayerId) && (i + die =? 24))
                  || ((p =? kOPlayerId) && (i - die =? -1))) eqn:Ex.
        * split.
          -- intros H. injection H as <-. split; [exact E0|].
             split; [reflexivity|]. split; [reflexivity|].
             apply orb_true_iff in Ex.
             rewrite !andb_true_iff, !Z.eqb_eq in Ex. tauto.
          -- intros (_ & -> & _). reflexivity.
        * destruct (i =? FurthestCheckerInHome st p) eqn:Ef.
          -- apply Z.eqb_eq in Ef. split.
             ++ intros H. injection H as <-. auto 6.
             ++ intros (_ & -> & _). reflexivity.
          -- apply Z.eqb_neq in Ef. split; [discriminate|].
             intros (_ & _ & _ & Hc). exfalso.
             apply orb_false_iff in Ex.
             rewrite !andb_false_iff, !Z.eqb_neq in Ex. tauto.
      + split; [discriminate | intros (_ & _ & H & _); discriminate].
    - destruct (NumOppCheckers st p to <=? 1) eqn:E1.
      + apply Z.leb_le in E1. split.
        * intros H. injection H as <-. auto.
        * intros (_ & _ & ->). reflexivity.
      + apply Z.leb_gt in E1. split; [discriminate|]. intros (_ & H & _). lia. }
  split.
  - intros Hin. apply moves_loop_In in Hin.
    destruct Hin as [[] | (j & Hj & Ej)].
    pose proof (point_move_spec _ _ _ _ _ _ Ej) as (Pj & _).
    cbn [pos] in Pj. subst j. apply In_zrange in Hj.
    apply Hchar in Ej. destruct Ej as [H0 Hrest].
    split; [lia|]. split; [exact H0|]. exists to. split; [exact Hto|].
    destruct (to =? kScorePos); [|exact Hrest].
    destruct Hrest as (Hh & Haih & Hc).
    rewrite (AllInHome_pure st p Hp), Haih. auto.
  - intros (Hi & H0 & to' & Hto' & Hrest).
    assert (to' = to) by congruence. subst to'.
    apply (moves_loop_complete st p die _ _ [] i).
    + intros y [].
    + apply In_zrange. lia.
    + apply Hchar. split; [exact H0|].
      destruct (to =? kScorePos); [|exact Hrest].
      destruct Hrest as (Hh & Haih & Hc).
      rewrite (AllInHome_pure st p Hp) in Haih. injection Haih as Haih. auto.
Qed.

Lemma SingleCheckerMoves_exact_witness :
  In (mkCheckerMove 0 3 false)
    [mkCheckerMove 0 3 false; mkCheckerMove 11 3 false;
     mkCheckerMove 16 3 false; mkCheckerMove 18 3 false] <->
  0 <= 0 <= 23 /\ 0 < at2 (board_ opening_position) 0 0
  /\ exists to,
       PositionFrom 0 0 3 = Returns to
       /\ (if to =? kScorePos
           then false = false /\ AllInHome opening_position 0 = Returns true
                /\ ((0 = kXPlayerId /\ 0 + 3 = 24)
                    \/ (0 = kOPlayerId /\ 0 - 3 = -1)
                    \/ 0 = FurthestCheckerInHome opening_position 0)
           else NumOppCheckers opening_position 0 to <= 1
                /\ false = (NumOppCheckers opening_position 0 to =? 1)).
Proof.
  apply (SingleCheckerMoves_exact opening_position 3 _ 0 false).
  - left. reflexivity.
  - vm_compute. discriminate.
  - vm_compute. reflexivity.
Defined.

(** * Further facts about the legal level *)

Lemma max_playable_loop_upper (child : BackgammonState -> Z) (R : Z)
    (st : BackgammonState) (moves : list CheckerMove) :
  (forall s, child s <= R) ->
  forall cm, cm <= R ->
    cm + 1 <= max_playable_loop child R moves st cm
    /\ forall m, In m moves ->
         child (fst (apply_move st m)) + 1
         <= max_playable_loop child R moves st cm.
Proof.
  intros Hchild. induction moves as [|x moves IH]; intros cm Hcm; simpl.
  - split; [lia | tauto].
  - destruct (child (fst (apply_move st x)) =? R) eqn:E.
    + apply Z.eqb_eq in E. split; [lia|].
      intros m _. specialize (Hchild (fst (apply_move st m))). lia.
    + destruct (IH (Z.max cm (child (fst (apply_move st x)))))
        as [H1 H2]; [specialize (Hchild (fst (apply_move st x))); lia|].
      split; [lia|]. intros m [<- | Hm]; [lia | now apply H2].
Qed.

Lemma max_playable_complete (dice : list Z) :
  forall (st : BackgammonState) (k : nat),
    play_path st (firstn k dice) ->
    Z.of_nat (length (firstn k dice)) <= max_playable dice st.
Proof.
  induction dice as [|die rest IH]; intros st k Hpath.
  - rewrite firstn_nil. simpl. lia.
  - destruct k as [|k]; [simpl firstn; simpl length;
                         apply (max_playable_sound (die :: rest) st)|].
    cbn [firstn play_path length] in *. destruct Hpath as (m & Hm & Hpath).
    apply IH in Hpath. cbn [max_playable].
    destruct (max_playable_loop_upper (max_playable rest)
                (Z.of_nat (length rest)) st (moves_for st die false)
                (fun s => proj2 (proj1 (max_playable_sound rest s)))
                (-1) ltac:(lia)) as [_ H].
    specialize (H m Hm). lia.
Qed.

Lemma play_path_prefix (dice : list Z) :
  forall (st : BackgammonState) (n k : nat),
    (k <= n)%nat -> play_path st (firstn n dice) -> play_path st (firstn k dice).
Proof.
  induction dice as [|die rest IH]; intros st n k Hk.
  - now rewrite !firstn_nil.
  - destruct k as [|k]; [simpl; trivial|].
    destruct n as [|n]; [lia|]. cbn [firstn play_path].
    intros (m & Hm & Hpath). exists m. split; [exact Hm|].
    apply (IH _ n); [lia | exact Hpath].
Qed.

Lemma max_playable_iff (dice : list Z) (st : BackgammonState) (k : nat) :
  (k <= length dice)%nat ->
  (play_path st (firstn k dice) <-> Z.of_nat k <= max_playable dice st).
Proof.
  intros Hk. split.
  - intros H. apply max_playable_complete in H.
    rewrite length_firstn in H. lia.
  - intros H. destruct (max_playable_sound dice st) as [Hb Hpath].
    apply (play_path_prefix dice st (Z.to_nat (max_playable dice st)));
      [lia | exact Hpath].
Qed.

(** The dice [dice] can be played one after the other, each by a move of
    [SingleCheckerMoves] applied with [ApplyCheckerMove]. *)
Fixpoint playable (st : BackgammonState) (dice : list Z) : Prop :=
  match dice with
  | [] => True
  | die :: rest =>
      exists moves m st' h,
        SingleCheckerMoves st die false = Returns moves /\ In m moves
        /\ ApplyCheckerMove st m = Returns (st', h) /\ playable st' rest
  end.

Lemma playable_play_path (dice : list Z) :
  forall st, valid_player (cur_player_ st) ->
    (playable st dice <-> play_path st dice).
Proof.
  induction dice as [|die rest IH]; intros st Hp; simpl; [tauto|].
  rewrite (SingleCheckerMoves_pure st die false Hp). split.
  - intros (moves & m & st' & h & Emoves & Hm & Eapp & Hrest).
    injection Emoves as <-.
    rewrite (ApplyCheckerMove_pure st m Hp) in Eapp. injection Eapp as Eapp.
    exists m. split; [exact Hm|]. rewrite Eapp. cbn [fst].
    apply IH; [|exact Hrest].
    rewrite <- (apply_move_cur_player st m), Eapp in Hp. exact Hp.
  - intros (m & Hm & Hrest).
    exists (moves_for st die false), m, (fst (apply_move st m)),
      (snd (apply_move st m)).
    split; [reflexivity|]. split; [exact Hm|].
    split; [rewrite (ApplyCheckerMove_pure st m Hp); now destruct (apply_move st m)|].
    apply IH; [now rewrite apply_move_cur_player | exact Hrest].
Qed.

(** X15: [NumMaxPlayableDies] leaves the state it searches on as it found
    it and returns a number [n] of dice, at most the number given, such that
    the first [n] dice in the order they are popped can be played one after
    the other, and no longer run of them can. *)
Theorem NumMaxPlayableDies_maximum (st : BackgammonState) (dice : list Z) :
  valid_player (cur_player_ st) -> Forall (fun d => 1 <= d <= 6) dice ->
  exists n : nat,
    NumMaxPlayableDies st dice = Returns (Z.of_nat n, st)
    /\ (n <= length dice)%nat
    /\ playable st (firstn n (rev dice))
    /\ forall k, (k <= length dice)%nat ->
         playable st (firstn k (rev dice)) -> (k <= n)%nat.
Proof.
  intros Hp Hd. unfold NumMaxPlayableDies.
  assert (Hd' : Forall (fun d => 1 <= d <= 6) (rev dice))
    by (apply List.Forall_forall; intros d Hin; apply in_rev in Hin;
        eapply List.Forall_forall in Hd; eassumption).
  rewrite (NumMaxPlayableDies_popped_pure (rev dice) Hd' st Hp).
  destruct (max_playable_sound (rev dice) st) as [Hb Hpath].
  rewrite length_rev in Hb.
  exists (Z.to_nat (max_playable (rev dice) st)).
  rewrite Z2Nat.id by lia. split; [reflexivity|]. split; [lia|].
  split; [now apply playable_play_path|].
  intros k Hk Hplay. apply (playable_play_path _ st Hp) in Hplay.
  apply max_playable_iff in Hplay; [lia | now rewrite length_rev].
Qed.

Lemma NumMaxPlayableDies_maximum_witness :
  exists n : nat,
    NumMaxPlayableDies opening_position [1; 3]
    = Returns (Z.of_nat n, opening_position)
    /\ (n <= length [1; 3])%nat
    /\ playable opening_position (firstn n (rev [1; 3]))
    /\ forall k, (k <= length [1; 3])%nat ->
         playable opening_position (firstn k (rev [1; 3])) -> (k <= n)%nat.
Proof.
  apply (NumMaxPlayableDies_maximum opening_position [1; 3]).
  - left. reflexivity.
  - repeat constructor; lia.
Defined.

Lemma playable_iff (dice : list Z) (st : BackgammonState) (k : nat) :
  valid_player (cur_player_ st) -> (k <= length dice)%nat ->
  (playable st (firstn k dice) <-> Z.of_nat k <= max_playable dice st).
Proof.
  intros Hp Hk. rewrite (playable_play_path _ st Hp).
  now apply max_playable_iff.
Qed.

Ltac play_pos :=
  match goal with
  | Hx : _ <= _ -> playable ?s ?l |- playable ?s ?l => apply Hx; lia
  end.

Ltac play_neg H :=
  match goal with
  | Hx : playable ?s ?l -> _ <= _ |- _ =>
      match type of H with playable s l => apply Hx in H; lia end
  end.

Ltac level_solve :=
  cbv beta iota;
  repeat match goal with
         | P : _ <-> _ |- _ => destruct P
         end;
  repeat match goal with
         | |- _ /\ _ => split
         | |- ~ playable _ _ => let H := fresh in intro H; play_neg H
         | |- playable _ _ => play_pos
         | |- _ \/ _ => first [left; play_pos | right; play_pos]
         | |- _ = _ -> _ => intro; try lia
         | |- _ <> _ => lia
         | |- _ = _ => lia
         end.

(** X16: [DetermineLegalLevel] follows the rule of the game. It returns
    [kNoDice] only when neither die has a move; [kLowDie] only when the dice
    differ, the higher die has no move and the lower one cannot be followed
    by the higher; [kHighDie] when the higher die has a move and the two dice
    cannot be played one after the other in either order; [kTwoDice] when
    they can, and with a double not a third time; [kThreeDice] and
    [kFourDice] only with a double that can be played three times but not
    four, and four times. *)
Theorem DetermineLegalLevel_rule (st : BackgammonState) (d0 d1 : Z) :
  valid_player (cur_player_ st) ->
  dice_ st = [d0; d1] -> 1 <= d0 <= 6 -> 1 <= d1 <= 6 ->
  let hi := Z.max d0 d1 in
  let lo := Z.min d0 d1 in
  exists level,
    DetermineLegalLevel st = Returns level
    /\ match level with
       | kNoDice => ~ playable st [hi] /\ ~ playable st [lo]
       | kLowDie =>
           hi <> lo /\ ~ playable st [hi] /\ playable st [lo]
           /\ ~ playable st [lo; hi]
       | kHighDie =>
           playable st [hi] /\ ~ playable st [hi; lo]
           /\ ~ playable st [lo; hi]
       | kTwoDice =>
           (playable st [hi; lo] \/ playable st [lo; hi])
           /\ (hi = lo -> ~ playable st [hi; hi; hi])
       | kThreeDice =>
           hi = lo /\ playable st [hi; hi; hi]
           /\ ~ playable st [hi; hi; hi; hi]
       | kFourDice => hi = lo /\ playable st [hi; hi; hi; hi]
       end.
Proof.
  intros Hp Hd H0 H1. cbv zeta.
  assert (Hr : rolled st d0 d1) by (split; [exact Hd | now split]).
  exists (legal_level st). split; [exact (DetermineLegalLevel_pure st d0 d1 Hp Hr)|].
  unfold legal_level. rewrite Hd.
  change (at_ [d0; d1] 0) with d0. change (at_ [d0; d1] 1) with d1.
  cbv zeta.
  set (hi := Z.max d0 d1). set (lo := Z.min d0 d1).
  destruct (hi =? lo) eqn:E; cbn [fst snd].
  - apply Z.eqb_eq in E. rewrite <- E.
    pose proof (playable_iff [hi; hi; hi; hi] st 1 Hp ltac:(simpl; lia)) as P1.
    pose proof (playable_iff [hi; hi; hi; hi] st 2 Hp ltac:(simpl; lia)) as P2.
    pose proof (playable_iff [hi; hi; hi; hi] st 3 Hp ltac:(simpl; lia)) as P3.
    pose proof (playable_iff [hi; hi; hi; hi] st 4 Hp ltac:(simpl; lia)) as P4.
    cbn [firstn] in P1, P2, P3, P4.
    destruct (max_playable_sound [hi; hi; hi; hi] st) as [Hn _].
    cbn [length] in Hn.
    set (n := max_playable [hi; hi; hi; hi] st) in *.
    destruct (n =? 1) eqn:E1;
      [apply Z.eqb_eq in E1; level_solve | apply Z.eqb_neq in E1].
    destruct (n =? 2) eqn:E2;
      [apply Z.eqb_eq in E2; level_solve | apply Z.eqb_neq in E2].
    destruct (n =? 3) eqn:E3;
      [apply Z.eqb_eq in E3; level_solve | apply Z.eqb_neq in E3].
    destruct (n =? 4) eqn:E4;
      [apply Z.eqb_eq in E4; level_solve | apply Z.eqb_neq in E4].
    level_solve.
  - apply Z.eqb_neq in E.
    pose proof (playable_iff [hi; lo] st 1 Hp ltac:(simpl; lia)) as P1.
    pose proof (playable_iff [hi; lo] st 2 Hp ltac:(simpl; lia)) as P2.
    pose proof (playable_iff [lo; hi] st 1 Hp ltac:(simpl; lia)) as Q1.
    pose proof (playable_iff [lo; hi] st 2 Hp ltac:(simpl; lia)) as Q2.
    cbn [firstn] in P1, P2, Q1, Q2.
    destruct (max_playable_sound [hi; lo] st) as [Hn1 _].
    destruct (max_playable_sound [lo; hi] st) as [Hn2 _].
    cbn [length] in Hn1, Hn2.
    set (n1 := max_playable [hi; lo] st) in *.
    set (n2 := max_playable [lo; hi] st) in *.
    destruct (n1 <? 2) eqn:L; cbn [fst snd];
      [apply Z.ltb_lt in L | apply Z.ltb_ge in L].
    + destruct (Z.max n1 n2 =? 1) eqn:E1;
        [apply Z.eqb_eq in E1 | apply Z.eqb_neq in E1].
      * destruct (0 <? n1) eqn:Pn;
          [apply Z.ltb_lt in Pn | apply Z.ltb_ge in Pn]; level_solve.
      * destruct (Z.max n1 n2 =? 2) eqn:E2;
          [apply Z.eqb_eq in E2; level_solve | apply Z.eqb_neq in E2].
        replace (Z.max n1 n2 =? 3) with false by (symmetry; apply Z.eqb_neq; lia).
        replace (Z.max n1 n2 =? 4) with false by (symmetry; apply Z.eqb_neq; lia).
        level_solve.
    + replace (n1 =? 1) with false by (symmetry; apply Z.eqb_neq; lia).
      replace (n1 =? 2) with true by (symmetry; apply Z.eqb_eq; lia).
      level_solve.
Qed.

Definition rolled_1_3_position : BackgammonState :=
  set_dice opening_position [1; 3].

Lemma DetermineLegalLevel_rule_witness :
  exists level,
    DetermineLegalLevel rolled_1_3_position = Returns level
    /\ match level with
       | kNoDice =>
           ~ playable rolled_1_3_position [3]
           /\ ~ playable rolled_1_3_position [1]
       | kLowDie =>
           3 <> 1 /\ ~ playable rolled_1_3_position [3]
           /\ playable rolled_1_3_position [1]
           /\ ~ playable rolled_1_3_position [1; 3]
       | kHighDie =>
           playable rolled_1_3_position [3]
           /\ ~ playable rolled_1_3_position [3; 1]
           /\ ~ playable rolled_1_3_position [1; 3]
       | kTwoDice =>
           (playable rolled_1_3_position [3; 1]
            \/ playable rolled_1_3_position [1; 3])
           /\ (3 = 1 -> ~ playable rolled_1_3_position [3; 3; 3])
       | kThreeDice =>
           3 = 1 /\ playable rolled_1_3_position [3; 3; 3]
           /\ ~ playable rolled_1_3_position [3; 3; 3; 3]
       | kFourDice => 3 = 1 /\ playable rolled_1_3_position [3; 3; 3; 3]
       end.
Proof.
  apply (DetermineLegalLevel_rule rolled_1_3_position 1 3).
  - left. reflexivity.
  - reflexivity.
  - lia.
  - lia.
Defined.

(** * Further facts about the roll and the turn *)

Lemma initial_remaining_sum (level : LegalLevel) (d0 d1 : Z) :
  1 <= d0 <= 6 -> 1 <= d1 <= 6 ->
  (d0 = d1 -> level <> kLowDie) ->
  (d0 <> d1 -> level <> kThreeDice /\ level <> kFourDice) ->
  sum_list_Z (initial_remaining level d0 d1) = Z.of_nat (LegalLevel_dice level)
  /\ Forall (fun x => 0 <= x) (initial_remaining level d0 d1).
Proof.
  intros H0 H1 Hd Hn.
  assert (C0 : d0 = 1 \/ d0 = 2 \/ d0 = 3 \/ d0 = 4 \/ d0 = 5 \/ d0 = 6) by lia.
  assert (C1 : d1 = 1 \/ d1 = 2 \/ d1 = 3 \/ d1 = 4 \/ d1 = 5 \/ d1 = 6) by lia.
  clear H0 H1.
  destruct level;
    repeat (destruct C0 as [-> | C0]); try subst d0;
    repeat (destruct C1 as [-> | C1]); try subst d1;
    try (exfalso; now apply Hd);
    try (exfalso; destruct Hn as [Hn1 Hn2]; [discriminate | congruence]);
    (split; [vm_compute; reflexivity | repeat constructor; discriminate]).
Qed.

(** X17: [RollDice] on a state of a player with no dice appends the two dice
    of the chance outcome and fills [remaining_dice_] for the legal level of
    the position: six counts, none negative, that add up to the number of
    dice of the level, with every count away from the two dice at 0; the
    checkers and the player stay as they were. *)
Theorem RollDice_remaining_dice (st0 st : BackgammonState) (action : Z) :
  valid_player (cur_player_ st0) -> dice_ st0 = [] -> 1 <= action <= 21 ->
  RollDice st0 action = Returns st ->
  dice_ st = [at2 kChanceOutcomeValues (action - 1) 0;
              at2 kChanceOutcomeValues (action - 1) 1]
  /\ cur_player_ st = cur_player_ st0 /\ board_ st = board_ st0
  /\ bar_ st = bar_ st0 /\ scores_ st = scores_ st0
  /\ exists level,
       DetermineLegalLevel st = Returns level
       /\ length (remaining_dice_ st) = 6%nat
       /\ Forall (fun x => 0 <= x) (remaining_dice_ st)
       /\ sum_list_Z (remaining_dice_ st) = Z.of_nat (LegalLevel_dice level)
       /\ forall d, 1 <= d <= 6 -> ~ In d (dice_ st) ->
            at_ (remaining_dice_ st) (d - 1) = 0.
Proof.
  intros Hp Hd Ha Hroll.
  rewrite (RollDice_pure st0 action Hp Hd Ha) in Hroll. cbv zeta in Hroll.
  destruct (chance_outcome_range action Ha) as [H0 H1].
  set (d0 := at2 kChanceOutcomeValues (action - 1) 0) in *.
  set (d1 := at2 kChanceOutcomeValues (action - 1) 1) in *.
  injection Hroll as <-.
  set (st1 := set_dice st0 [d0; d1]).
  set (st := set_remaining_dice st1 (initial_remaining (legal_level st1) d0 d1)).
  assert (Hp' : valid_player (cur_player_ st)) by exact Hp.
  assert (Hr : rolled st d0 d1) by (split; [reflexivity | now split]).
  assert (El : legal_level st = legal_level st1)
    by (apply legal_level_ext; [repeat split | reflexivity]).
  split; [reflexivity|]. split; [reflexivity|]. split; [reflexivity|].
  split; [reflexivity|]. split; [reflexivity|].
  exists (legal_level st).
  split; [exact (DetermineLegalLevel_pure st d0 d1 Hp' Hr)|].
  change (remaining_dice_ st)
    with (initial_remaining (legal_level st1) d0 d1).
  rewrite <- El.
  pose proof (legal_level_paths st d0 d1 Hr) as Hpaths. cbv zeta in Hpaths.
  split; [apply initial_remaining_length|].
  assert (Hs : sum_list_Z (initial_remaining (legal_level st) d0 d1)
               = Z.of_nat (LegalLevel_dice (legal_level st))
               /\ Forall (fun x => 0 <= x)
                    (initial_remaining (legal_level st) d0 d1)).
  { apply initial_remaining_sum; try assumption.
    - intros -> El'. rewrite El' in Hpaths. rewrite Z.max_id, Z.min_id in Hpaths.
      now destruct Hpaths.
    - intros Hne. split; intros El'; rewrite El' in Hpaths;
        destruct Hpaths as [Hpaths _]; lia. }
  destruct Hs as [Hsum Hnn]. split; [exact Hnn|]. split; [exact Hsum|].
  intros d Hd' Hnin. change (dice_ st) with [d0; d1] in Hnin.
  rewrite (initial_remaining_at (legal_level st) d0 d1 d H0 H1 Hd').
  assert (d <> d0 /\ d <> d1) as [N0 N1]
    by (split; intros ->; apply Hnin; simpl; auto).
  replace (d =? Z.min d0 d1) with false by (symmetry; apply Z.eqb_neq; lia).
  replace (d =? Z.max d0 d1) with false by (symmetry; apply Z.eqb_neq; lia).
  now destruct (legal_level st).
Qed.

Lemma RollDice_remaining_dice_witness :
  exists st,
    RollDice opening_position 2 = Returns st
    /\ dice_ st = [at2 kChanceOutcomeValues (2 - 1) 0;
                   at2 kChanceOutcomeValues (2 - 1) 1]
    /\ cur_player_ st = cur_player_ opening_position
    /\ board_ st = board_ opening_position
    /\ bar_ st = bar_ opening_position /\ scores_ st = scores_ opening_position
    /\ exists level,
         DetermineLegalLevel st = Returns level
         /\ length (remaining_dice_ st) = 6%nat
         /\ Forall (fun x => 0 <= x) (remaining_dice_ st)
         /\ sum_list_Z (remaining_dice_ st) = Z.of_nat (LegalLevel_dice level)
         /\ forall d, 1 <= d <= 6 -> ~ In d (dice_ st) ->
              at_ (remaining_dice_ st) (d - 1) = 0.
Proof.
  eexists. split; [vm_compute; reflexivity|].
  apply (RollDice_remaining_dice opening_position _ 2).
  - left. reflexivity.
  - reflexivity.
  - lia.
  - vm_compute. reflexivity.
Defined.

Lemma kNumCheckerActions_value : kNumCheckerActions = 519885601.
Proof. vm_compute. reflexivity. Qed.

Lemma first_roll_outcomes (action : Z) :
  1 <= action <= 15 ->
  1 <= at2 kChanceOutcomeValues (action - 1) 0
  /\ at2 kChanceOutcomeValues (action - 1) 0
     < at2 kChanceOutcomeValues (action - 1) 1
  /\ at2 kChanceOutcomeValues (action - 1) 1 <= 6.
Proof.
  intros H.
  assert (Hall : forallb
                   (fun a => (1 <=? at2 kChanceOutcomeValues (a - 1) 0)
                             && (at2 kChanceOutcomeValues (a - 1) 0
                                 <? at2 kChanceOutcomeValues (a - 1) 1)
                             && (at2 kChanceOutcomeValues (a - 1) 1 <=? 6))
                   (zrange 1 15) = true) by (vm_compute; reflexivity).
  rewrite forallb_forall in Hall. specialize (Hall action).
  rewrite !andb_true_iff, !Z.leb_le, Z.ltb_lt in Hall.
  assert (Hin : In action (zrange 1 15)) by (apply In_zrange; lia).
  specialize (Hall Hin). lia.
Qed.

Ltac state_proj :=
  cbn [fst snd cur_player_ prev_player_ bar_ board_ scores_ remaining_dice_
       dice_ turns_ hyper_backgammon_ scoring_type_ x_turns_ o_turns_
       double_turn_ turn_history_info_
       set_bar set_board set_scores set_remaining_dice set_dice
       set_cur_player set_prev_player set_turns push_turn_history].

Section TurnFacts.

Variable kPlayerCentricObs : bool.

(** X18: at the chance node that opens the game, each of the 30 outcomes is
    applied: the outcomes 1 to 15 let X start and the outcomes 16 to 30 let
    O start, the turn counter goes to 0, the two dice differ (the opening
    roll is never a double), and no checker moves. *)
Theorem DoApplyAction_opening_roll (st : BackgammonState) (action : Z) :
  IsChanceNode st = true -> turns_ st = -1 -> dice_ st = [] ->
  1 <= action <= 30 ->
  exists st',
    DoApplyAction kPlayerCentricObs st action = Returns st'
    /\ cur_player_ st' = (if action <=? 15 then kXPlayerId else kOPlayerId)
    /\ prev_player_ st' = cur_player_ st'
    /\ turns_ st' = 0
    /\ (exists d0 d1, dice_ st' = [d0; d1] /\ 1 <= d0 /\ d0 < d1 /\ d1 <= 6)
    /\ board_ st' = board_ st /\ bar_ st' = bar_ st
    /\ scores_ st' = scores_ st.
Proof.
  intros Hc Ht Hd Ha. unfold DoApplyAction.
  replace (action <=? 0) with false by (symmetry; apply Z.leb_gt; lia).
  replace (kNumDistinctActions <? action) with false
    by (symmetry; apply Z.ltb_ge; unfold kNumDistinctActions;
        rewrite kNumCheckerActions_value; lia).
  rewrite Hc. cbv zeta. state_proj. rewrite Ht, Hd. change (-1 =? -1) with true.
  cbv iota.
  set (h := mkTurnHistoryInfo _ _ _ _ _ _ _ _).
  destruct (action <=? 15) eqn:E;
    [apply Z.leb_le in E | apply Z.leb_gt in E].
  - set (s := set_prev_player _ _).
    assert (Hp : valid_player (cur_player_ s)) by (left; reflexivity).
    assert (Hs : dice_ s = []) by exact Hd.
    rewrite (RollDice_pure s action Hp Hs ltac:(lia)). cbv zeta. cbn [bind].
    eexists. split; [reflexivity|]. state_proj.
    split; [reflexivity|]. split; [reflexivity|]. split; [reflexivity|].
    split; [|repeat split; reflexivity].
    destruct (first_roll_outcomes action ltac:(lia)) as (H1 & H2 & H3).
    eexists _, _. split; [reflexivity|]. auto.
  - set (s := set_prev_player _ _).
    assert (Hp : valid_player (cur_player_ s)) by (right; reflexivity).
    assert (Hs : dice_ s = []) by exact Hd.
    rewrite (RollDice_pure s (action - 15) Hp Hs ltac:(lia)). cbv zeta.
    cbn [bind].
    eexists. split; [reflexivity|]. state_proj.
    split; [reflexivity|]. split; [reflexivity|]. split; [reflexivity|].
    split; [|repeat split; reflexivity].
    destruct (first_roll_outcomes (action - 15) ltac:(lia)) as (H1 & H2 & H3).
    eexists _, _. split; [reflexivity|]. auto.
Qed.

End TurnFacts.

Lemma DoApplyAction_opening_roll_witness :
  exists st',
    DoApplyAction true (NewInitialState kWinLossScoring false 100) 17
    = Returns st'
    /\ cur_player_ st' = (if 17 <=? 15 then kXPlayerId else kOPlayerId)
    /\ prev_player_ st' = cur_player_ st'
    /\ turns_ st' = 0
    /\ (exists d0 d1, dice_ st' = [d0; d1] /\ 1 <= d0 /\ d0 < d1 /\ d1 <= 6)
    /\ board_ st' = board_ (NewInitialState kWinLossScoring false 100)
    /\ bar_ st' = bar_ (NewInitialState kWinLossScoring false 100)
    /\ scores_ st' = scores_ (NewInitialState kWinLossScoring false 100).
Proof.
  apply (DoApplyAction_opening_roll true
           (NewInitialState kWinLossScoring false 100) 17).
  - reflexivity.
  - reflexivity.
  - reflexivity.
  - lia.
Defined.

Section TurnCycle.

Variable kPlayerCentricObs : bool.

Lemma DoApplyAction_bounds (action : Z) :
  1 <= action <= kNumDistinctActions ->
  (action <=? 0) = false /\ (kNumDistinctActions <? action) = false.
Proof. intros H. split; [apply Z.leb_gt | apply Z.ltb_ge]; lia. Qed.

(** X19: from a state of a player with dice, not terminal, ending the turn
    hands the move to the opponent with no dice; the opponent's only legal
    action is then [kRollAction]; taking it leads to a chance node whose
    legal actions are the 21 rolls; and applying one of them gives the
    opponent that roll, one turn later, with every checker where it was. *)
Theorem DoApplyAction_turn_cycle (st : BackgammonState) (action : Z) :
  valid_player (cur_player_ st) -> dice_ st <> [] -> IsTerminal st = false ->
  turns_ st <> -2 -> 1 <= action <= 21 ->
  exists st1 st2 st3,
    DoApplyAction kPlayerCentricObs st kEndTurnAction = Returns st1
    /\ LegalActions kPlayerCentricObs st1 = Returns [kRollAction]
    /\ DoApplyAction kPlayerCentricObs st1 kRollAction = Returns st2
    /\ IsChanceNode st2 = true
    /\ LegalActions kPlayerCentricObs st2 = Returns (zrange 1 21)
    /\ DoApplyAction kPlayerCentricObs st2 action = Returns st3
    /\ cur_player_ st3 = Opponent (cur_player_ st)
    /\ dice_ st3 = [at2 kChanceOutcomeValues (action - 1) 0;
                    at2 kChanceOutcomeValues (action - 1) 1]
    /\ turns_ st3 = turns_ st + 1
    /\ board_ st3 = board_ st /\ bar_ st3 = bar_ st
    /\ scores_ st3 = scores_ st.
Proof.
  intros Hp Hd Hterm Hturns Ha.
  destruct (Opponent_valid _ Hp) as [Hop _].
  assert (HE : 1 <= kEndTurnAction <= kNumDistinctActions)
    by (unfold kEndTurnAction, kNumDistinctActions;
        rewrite kNumCheckerActions_value; lia).
  assert (HR : 1 <= kRollAction <= kNumDistinctActions)
    by (unfold kRollAction, kNumDistinctActions;
        rewrite kNumCheckerActions_value; lia).
  assert (HA : 1 <= action <= kNumDistinctActions)
    by (unfold kNumDistinctActions; rewrite kNumCheckerActions_value; lia).
  destruct (DoApplyAction_bounds _ HE) as [E1 E2].
  destruct (DoApplyAction_bounds _ HR) as [R1 R2].
  destruct (DoApplyAction_bounds _ HA) as [A1 A2].
  (* the end of the turn *)
  set (st1 :=
         set_dice
           (set_cur_player
              (set_turns st (turns_ st + 1)
                 (if cur_player_ st =? kXPlayerId then x_turns_ st + 1
                  else x_turns_ st)
                 (if cur_player_ st =? kXPlayerId then o_turns_ st
                  else if cur_player_ st =? kOPlayerId then o_turns_ st + 1
                       else o_turns_ st))
              (Opponent (cur_player_ st))) []).
  assert (S1 : DoApplyAction kPlayerCentricObs st kEndTurnAction = Returns st1).
  { unfold DoApplyAction. rewrite E1, E2, (IsChanceNode_player st Hp).
    destruct (dice_ st) as [|d ds]; [congruence|].
    rewrite Z.eqb_refl. reflexivity. }
  assert (T1 : IsTerminal st1 = false) by exact Hterm.
  assert (P1 : valid_player (cur_player_ st1)) by exact Hop.
  assert (L1 : LegalActions kPlayerCentricObs st1 = Returns [kRollAction]).
  { unfold LegalActions. rewrite (IsChanceNode_player st1 P1), T1. reflexivity. }
  (* the roll action *)
  set (st2 := set_cur_player (set_prev_player st1 (cur_player_ st1))
                kChancePlayerId).
  assert (S2 : DoApplyAction kPlayerCentricObs st1 kRollAction = Returns st2).
  { unfold DoApplyAction. rewrite R1, R2, (IsChanceNode_player st1 P1).
    change (dice_ st1) with (@nil Z). cbv iota. rewrite Z.eqb_refl. reflexivity. }
  assert (T2 : IsTerminal st2 = false) by exact Hterm.
  assert (C2 : IsChanceNode st2 = true).
  { unfold IsChanceNode, CurrentPlayer. rewrite T2. reflexivity. }
  assert (L2 : LegalActions kPlayerCentricObs st2 = Returns (zrange 1 21)).
  { unfold LegalActions, ChanceOutcomes. rewrite C2. cbn [negb bind].
    change (turns_ st2) with (turns_ st + 1).
    replace (turns_ st + 1 =? -1) with false
      by (symmetry; apply Z.eqb_neq; lia).
    f_equal. }
  (* the chance outcome *)
  set (st2' := set_cur_player
                 (push_turn_history st2
                    (mkTurnHistoryInfo kChancePlayerId (prev_player_ st2)
                       (dice_ st2) (remaining_dice_ st2) action
                       (double_turn_ st2) false false))
                 (Opponent (cur_player_ st))).
  assert (P2 : valid_player (cur_player_ st2')) by exact Hop.
  assert (D2 : dice_ st2' = []) by reflexivity.
  pose proof (RollDice_pure st2' action P2 D2 Ha) as S3. cbv zeta in S3.
  eexists st1, st2, _.
  split; [exact S1|]. split; [exact L1|]. split; [exact S2|].
  split; [exact C2|]. split; [exact L2|].
  split.
  { unfold DoApplyAction. rewrite A1, A2, C2. cbv zeta.
    match goal with
    | |- context [turns_ ?x =? -1] => change (turns_ x) with (turns_ st + 1)
    end.
    replace (turns_ st + 1 =? -1) with false
      by (symmetry; apply Z.eqb_neq; lia).
    exact S3. }
  state_proj. repeat split; reflexivity.
Qed.

End TurnCycle.

Lemma DoApplyAction_turn_cycle_witness :
  exists st1 st2 st3,
    DoApplyAction true rolled_1_3_position kEndTurnAction = Returns st1
    /\ LegalActions true st1 = Returns [kRollAction]
    /\ DoApplyAction true st1 kRollAction = Returns st2
    /\ IsChanceNode st2 = true
    /\ LegalActions true st2 = Returns (zrange 1 21)
    /\ DoApplyAction true st2 5 = Returns st3
    /\ cur_player_ st3 = Opponent (cur_player_ rolled_1_3_position)
    /\ dice_ st3 = [at2 kChanceOutcomeValues (5 - 1) 0;
                    at2 kChanceOutcomeValues (5 - 1) 1]
    /\ turns_ st3 = turns_ rolled_1_3_position + 1
    /\ board_ st3 = board_ rolled_1_3_position
    /\ bar_ st3 = bar_ rolled_1_3_position
    /\ scores_ st3 = scores_ rolled_1_3_position.
Proof.
  apply (DoApplyAction_turn_cycle true rolled_1_3_position 5).
  - left. reflexivity.
  - discriminate.
  - reflexivity.
  - discriminate.
  - lia.
Defined.

(** ** Playing the actions of [LegalActions] *)

(** The decoded move carries no hit flag: [ApplyCheckerMove] finds the hit
    again on the board. *)
Lemma apply_move_clear_hit (st : BackgammonState) (die : Z) (m : CheckerMove) :
  valid_player (cur_player_ st) -> legal_single st die m ->
  apply_move st (clear_hit m) = apply_move st m.
Proof.
  intros Hp Hl. pose proof Hl as (Hn & Hsrc & Htgt).
  destruct (Opponent_valid _ Hp) as [Hop Hne].
  assert (Hpos : (pos m <? 0) = false).
  { apply Z.ltb_ge. unfold kBarPos in Hsrc. lia. }
  pose proof (fun b => apply_hit_condition st die m b Hl) as Hc.
  assert (Hc' : forall b,
             at2 b (Opponent (cur_player_ st)) (move_target (cur_player_ st) m)
             = at2 (board_ st) (Opponent (cur_player_ st))
                 (move_target (cur_player_ st) m) ->
             negb (move_target (cur_player_ st) m =? kScorePos)
             && (at2 b (Opponent (cur_player_ st))
                   (move_target (cur_player_ st) m) =? 1) = hit m).
  { intros b Hb. cbv zeta in Htgt.
    destruct Htgt as [[Ht Hh] | (Ht & _ & Hh)].
    - rewrite Ht, Hh. reflexivity.
    - rewrite Hb, <- Hh. apply Z.eqb_neq in Ht. rewrite Ht. reflexivity. }
  unfold apply_move.
  change (pos (clear_hit m)) with (pos m).
  change (num (clear_hit m)) with (num m).
  change (hit (clear_hit m)) with false.
  change (move_target (cur_player_ st) (clear_hit m))
    with (move_target (cur_player_ st) m).
  rewrite Hpos. cbv zeta. cbn [orb].
  set (cur := cur_player_ st) in *.
  set (tgt := move_target cur m) in *.
  destruct (pos m =? kBarPos) eqn:Eb; destruct (tgt =? kScorePos) eqn:Es;
    state_cbn;
    (rewrite Hc; [|rewrite ?at2_put2_other by (left; lia); reflexivity]);
    (rewrite Hc'; [|rewrite ?at2_put2_other by (left; lia); reflexivity]);
    reflexivity.
Qed.

Lemma legal_moves_single (st : BackgammonState) (d0 d1 : Z) (m : CheckerMove) :
  valid_player (cur_player_ st) -> rolled st d0 d1 ->
  In m (legal_moves st) -> exists die, 1 <= die <= 6 /\ legal_single st die m.
Proof.
  intros Hp (Hd & H0 & H1). unfold legal_moves. rewrite Hd.
  change (at_ [d0; d1] 0) with d0. change (at_ [d0; d1] 1) with d1.
  cbv zeta.
  destruct (negb (d0 =? d1) && (0 <? at_ (remaining_dice_ st) (d0 - 1))
            && (0 <? at_ (remaining_dice_ st) (d1 - 1))).
  - intros H. apply verified_In in H. destruct H as [H | [H _]].
    + apply verified_In in H. destruct H as [[] | [H _]].
      exists d0. split; [exact H0|]. now apply (moves_for_legal st d0 false).
    + exists d1. split; [exact H1|]. now apply (moves_for_legal st d1 false).
  - cbn [find].
    destruct (0 <? at_ (remaining_dice_ st) (d0 - 1)).
    + intros H. exists d0. split; [exact H0|].
      now apply (moves_for_legal st d0 false).
    + destruct (0 <? at_ (remaining_dice_ st) (d1 - 1)); [|intros []].
      intros H. exists d1. split; [exact H1|].
      now apply (moves_for_legal st d1 false).
Qed.

(** What every step of the search keeps holds of all its sequences. *)
Lemma passes_all_closed (P : CheckerMoveSequence -> Prop) :
  (forall seq m, P seq -> In m (legal_moves (state_ seq)) ->
                 P (add_move seq m)) ->
  forall (passes : nat) (seqs : list CheckerMoveSequence),
    Forall P seqs -> Forall P (passes_all passes seqs).
Proof.
  intros Hstep. induction passes as [|n IH]; intros seqs H; [exact H|].
  cbn [passes_all].
  assert (H' : Forall P (extend_all seqs [])).
  { apply List.Forall_forall. intros z Hz. apply extend_all_In in Hz.
    destruct Hz as [[] | (s & m & Hs & Hm & ->)].
    apply Hstep; [|exact Hm]. eapply List.Forall_forall in H; eassumption. }
  destruct (extend_all seqs []) as [|z l]; [exact H|]. now apply IH.
Qed.

Lemma apply_checker_moves_app (l1 l2 : list CheckerMove) :
  forall (s : BackgammonState) (h : bool),
    apply_checker_moves s (l1 ++ l2) h
    = (r <- apply_checker_moves s l1 h ;;
       apply_checker_moves (fst r) l2 (snd r)).
Proof.
  induction l1 as [|m l1 IH]; intros s h; simpl; [reflexivity|].
  destruct (ApplyCheckerMove s m) as [applied | msg]; simpl; [apply IH | reflexivity].
Qed.

Section PlayedSequences.

Variable st : BackgammonState.
Variables d0 d1 : Z.

(** [seq] was reached from [st]: applying its moves, decoded from an action
    and so without their hit flags, to [st] gives the position it holds. *)
Definition played (seq : CheckerMoveSequence) : Prop :=
  seq_ok d0 d1 seq
  /\ cur_player_ (state_ seq) = cur_player_ st
  /\ hyper_backgammon_ (state_ seq) = hyper_backgammon_ st
  /\ wf_pos (state_ seq)
  /\ (forall p, valid_player p ->
        total_checkers (state_ seq) p = total_checkers st p)
  /\ exists h, apply_checker_moves st (map clear_hit (moves_ seq)) false
               = Returns (state_ seq, h).

Lemma played_new :
  valid_player (cur_player_ st) -> rolled st d0 d1 -> wf_pos st ->
  played (CheckerMoveSequence_new st).
Proof.
  intros Hp Hr Hwf. unfold played. cbn [CheckerMoveSequence_new state_ moves_ map].
  split; [now split|]. split; [reflexivity|]. split; [reflexivity|].
  split; [exact Hwf|]. split; [reflexivity|]. now exists false.
Qed.

Lemma played_step (seq : CheckerMoveSequence) (m : CheckerMove) :
  played seq -> In m (legal_moves (state_ seq)) -> played (add_move seq m).
Proof.
  intros (Hok & Hcur & Hhyp & Hwf & Htot & (h & Happ)) Hm.
  pose proof Hok as [Hp Hr].
  destruct (legal_moves_single _ d0 d1 m Hp Hr Hm) as (die & Hd & Hl).
  destruct (legal_single_valid _ die m Hd Hl) as [Hv _].
  unfold played. split; [now apply add_move_ok|].
  unfold add_move. cbn [state_ moves_].
  split; [now rewrite apply_move_cur_player|].
  split; [now rewrite apply_move_hyper|].
  split; [now apply (apply_move_wf_pos _ die)|].
  split.
  - intros p Hvp. rewrite <- (Htot p Hvp).
    apply apply_move_total; try assumption.
    + apply Hwf.
    + now apply (legal_single_hit_on_board _ die).
  - rewrite map_app, apply_checker_moves_app, Happ. cbn [bind fst snd map].
    cbn [apply_checker_moves].
    rewrite (ApplyCheckerMove_pure _ _ Hp). cbn [bind].
    rewrite (apply_move_clear_hit _ die m Hp Hl).
    now eexists.
Qed.

Lemma legal_sequences_played (y : CheckerMoveSequence) :
  valid_player (cur_player_ st) -> rolled st d0 d1 -> wf_pos st ->
  In y (legal_sequences st) -> played y.
Proof.
  intros Hp Hr Hwf Hy. apply legal_sequences_passes in Hy.
  assert (H : Forall played (passes_all 4 [CheckerMoveSequence_new st])).
  { apply (passes_all_closed played played_step).
    constructor; [now apply played_new | constructor]. }
  eapply List.Forall_forall in H; eassumption.
Qed.

End PlayedSequences.

(** Every sequence of [LegalCheckerMoveSequences] has played all the dice
    the level left to play. *)
Lemma legal_sequences_dice_played (st : BackgammonState) (d0 d1 : Z)
    (y : CheckerMoveSequence) :
  valid_player (cur_player_ st) -> rolled st d0 d1 -> wf_pos st ->
  remaining_dice_ st = initial_remaining (legal_level st) d0 d1 ->
  In y (legal_sequences st) ->
  at_ (remaining_dice_ (state_ y)) (d0 - 1) <= 0
  /\ at_ (remaining_dice_ (state_ y)) (d1 - 1) <= 0.
Proof.
  intros Hp Hr Hwf Hrd Hy. apply legal_sequences_passes in Hy.
  pose proof Hr as (Hd & Hd0 & Hd1).
  pose proof (legal_level_paths st d0 d1 Hr) as Hpaths.
  pose proof (initial_remaining_at (legal_level st) d0 d1 d0 Hd0 Hd1 Hd0) as A0.
  pose proof (initial_remaining_at (legal_level st) d0 d1 d1 Hd0 Hd1 Hd1) as B0.
  pose proof (initial_remaining_length (legal_level st) d0 d1) as Hlen.
  cbv zeta in Hpaths, A0, B0. rewrite <- Hrd in A0, B0, Hlen.
  destruct (Z.eq_dec d0 d1) as [E | Hne].
  - (* a double *)
    subst d1. clear B0. rename A0 into Hat.
    rewrite Z.max_id, Z.min_id in Hpaths, Hat.
    rewrite Z.eqb_refl in Hat.
    set (level := legal_level st) in *.
    set (c := LegalLevel_dice level).
    assert (Hc : at_ (remaining_dice_ st) (d0 - 1) = Z.of_nat c
                 /\ play_path st (replicate c d0) /\ (c <= 4)%nat).
    { unfold c. destruct level; cbn [LegalLevel_dice replicate].
      - split; [exact Hat|]. split; [exact I | lia].
      - destruct Hpaths as [Hpaths _]. congruence.
      - split; [exact Hat|]. split; [exact Hpaths | lia].
      - destruct Hpaths as [[_ Hpaths] | [Hpaths _]]; [|congruence].
        split; [exact Hat|]. split; [exact Hpaths | lia].
      - destruct Hpaths as [_ Hpaths].
        split; [exact Hat|]. split; [exact Hpaths | lia].
      - destruct Hpaths as [_ Hpaths].
        split; [exact Hat|]. split; [exact Hpaths | lia]. }
    destruct Hc as (Hc & Hpath & Hc4).
    assert (Hinv : Inv_double d0 (cur_player_ st) c c (CheckerMoveSequence_new st)).
    { unfold Inv_double. cbn [state_ moves_ CheckerMoveSequence_new length].
      split; [split; assumption|]. split; [reflexivity|]. split; [exact Hlen|].
      split; [exact Hc|]. split; [reflexivity|]. split; [constructor | exact Hwf]. }
    pose proof (passes_all_double d0 (cur_player_ st) c Hd0 c
                  (CheckerMoveSequence_new st) Hc4 Hinv Hpath) as Hall.
    apply (proj1 (List.Forall_forall _ _) Hall) in Hy.
    destruct Hy as (_ & _ & _ & A & _). cbv zeta in A. lia.
  - set (level := legal_level st) in *.
    set (hi := Z.max d0 d1) in *. set (lo := Z.min d0 d1) in *.
    set (a0 := at_ (remaining_dice_ st) (d0 - 1)) in *.
    set (b0 := at_ (remaining_dice_ st) (d1 - 1)) in *.
    assert (Hhl : (hi = d1 /\ lo = d0) \/ (hi = d0 /\ lo = d1))
      by (unfold hi, lo; lia).
    assert (Hone : forall die other,
               (die = d0 /\ other = d1) \/ (die = d1 /\ other = d0) ->
               0 < at_ (remaining_dice_ st) (die - 1) ->
               at_ (remaining_dice_ st) (other - 1) <= 0 ->
               play_path st [die] -> legal_moves st <> []).
    { intros die other Hdo H1 H2 Hpath.
      rewrite (legal_moves_one st d0 d1 die other Hr Hdo H1 H2).
      now apply play_path_first in Hpath. }
    assert (Hfacts :
              0 <= a0 <= 1 /\ 0 <= b0 <= 1
              /\ a0 + b0 = Z.of_nat (LegalLevel_dice level)
              /\ ((0 < LegalLevel_dice level)%nat -> legal_moves st <> [])).
    { destruct Hhl as [[Ehi Elo] | [Ehi Elo]]; rewrite Ehi, Elo in *;
        rewrite ?Z.eqb_refl in A0, B0;
        replace (d0 =? d1) with false in * by (symmetry; apply Z.eqb_neq; lia);
        replace (d1 =? d0) with false in * by (symmetry; apply Z.eqb_neq; lia);
        destruct level; cbn [LegalLevel_dice];
        try (apply proj1 in Hpaths; congruence);
        (split; [lia|]); (split; [lia|]); (split; [lia|]);
        intros Hk; try lia.
      all: try (apply proj2 in Hpaths).
      all: try (destruct Hpaths as [[Hpaths _] | [_ Hpaths]]; [lia|]).
      all: first
        [ eapply (Hone d0 d1); [left; split; reflexivity | fold a0; lia | fold b0; lia | exact Hpaths]
        | eapply (Hone d1 d0); [right; split; reflexivity | fold b0; lia | fold a0; lia | exact Hpaths]
        | destruct Hpaths as [Hpaths | Hpaths];
          (eapply (legal_moves_two st d0 d1);
           [exact Hr | exact Hne | fold a0; lia | fold b0; lia | | exact Hpaths]);
          [first [left; split; reflexivity | right; split; reflexivity]
          |first [left; split; reflexivity | right; split; reflexivity]] ]. }
    destruct Hfacts as (Ha0 & Hb0 & Hsum & Hmoves).
    assert (Hinv : Inv_two d0 d1 a0 b0 (LegalLevel_dice level)
                     (CheckerMoveSequence_new st)).
    { unfold Inv_two. cbn [state_ moves_ CheckerMoveSequence_new length].
      cbv zeta. fold a0 b0.
      split; [split; assumption|]. split; [exact Hlen|].
      split; [lia|]. split; [lia|]. split; [exact Hsum|]. split; [lia|].
      split; [constructor | exact Hmoves]. }
    assert (Hk : (LegalLevel_dice level <= 4)%nat) by (destruct level; simpl; lia).
    assert (Hall : Forall (Inv_two d0 d1 a0 b0 0)
                     (passes_all 4 [CheckerMoveSequence_new st]))
      by (apply (passes_all_two d0 d1 a0 b0) with (k := LegalLevel_dice level);
          assumption).
    apply (proj1 (List.Forall_forall _ _) Hall) in Hy.
    destruct Hy as (_ & _ & A & B & S & _). cbv zeta in A, B, S. lia.
Qed.

Section AppliedActions.

Variable kPlayerCentricObs : bool.

(** A checker-move action of a state whose [remaining_dice_] are those of
    its level is applied without error and plays all of them. *)
Lemma DoApplyAction_level_action (st : BackgammonState) (d0 d1 a : Z)
    (actions : list Z) :
  valid_player (cur_player_ st) -> rolled st d0 d1 -> wf_pos st ->
  (forall p, valid_player p ->
     total_checkers st p = NumCheckersPerPlayer (hyper_backgammon_ st)) ->
  remaining_dice_ st = initial_remaining (legal_level st) d0 d1 ->
  LegalActions kPlayerCentricObs st = Returns actions ->
  In a actions -> a <> kEndTurnAction ->
  exists st',
    DoApplyAction kPlayerCentricObs st a = Returns st'
    /\ cur_player_ st' = cur_player_ st /\ dice_ st' = dice_ st
    /\ (forall p, valid_player p -> total_checkers st' p = total_checkers st p)
    /\ LegalActions kPlayerCentricObs st'
       = Returns (if IsTerminal st' then [] else [kEndTurnAction])
    /\ wf_pos st' /\ hyper_backgammon_ st' = hyper_backgammon_ st
    /\ at_ (remaining_dice_ st') (d0 - 1) <= 0
    /\ at_ (remaining_dice_ st') (d1 - 1) <= 0.
Proof.
  intros Hp Hr Hwf Htot Hrd Hacts Ha Hne. pose proof Hr as (Hd & Hd0 & Hd1).
  (* the sequence behind the action *)
  assert (Hy : exists y, In y (legal_sequences st) /\ 0 < a
                 /\ CheckerMovesToSpielMove kPlayerCentricObs st (moves_ y)
                    = Returns a).
  { revert Hacts. unfold LegalActions. rewrite (IsChanceNode_player st Hp).
    destruct (IsTerminal st); [intros [= <-]; destruct Ha|].
    rewrite Hd.
    rewrite (CountTotalCheckers_returns st kXPlayerId Hwf (or_introl eq_refl)).
    cbn [bind]. rewrite (Htot kXPlayerId (or_introl eq_refl)), Z.eqb_refl.
    cbn [negb].
    rewrite (CountTotalCheckers_returns st kOPlayerId Hwf (or_intror eq_refl)).
    cbn [bind]. rewrite (Htot kOPlayerId (or_intror eq_refl)), Z.eqb_refl.
    cbn [negb].
    change (kNumMovesPerCheckerSequence =? 1) with false. cbv iota.
    rewrite (LegalCheckerMoveSequences_pure st d0 d1 Hp Hr). cbn [bind].
    destruct (legal_sequences st) as [|s0 seqs] eqn:Es.
    { intros [= <-]. destruct Ha as [<- | []]. congruence. }
    destruct (encode_sequences_spec kPlayerCentricObs st (s0 :: seqs) [])
      as (acts & Eacts & Hin).
    { intros y Hy.
      assert (Hl : level_sequence (legal_level st) (Z.max d0 d1) y).
      { rewrite <- Es in Hy. destruct (Z.eq_dec d0 d1) as [E | E].
        - subst d1. rewrite Z.max_id. now apply legal_sequences_double.
        - now apply legal_sequences_different. }
      apply Hl. }
    rewrite Eacts. cbn [bind]. intros [= <-].
    apply In_sort_actions, Hin in Ha. destruct Ha as [[] | Ha]. exact Ha. }
  destruct Hy as (y & Hy & Hpos & Ey).
  assert (Hl : level_sequence (legal_level st) (Z.max d0 d1) y).
  { destruct (Z.eq_dec d0 d1) as [E | E].
    - subst d1. rewrite Z.max_id. now apply legal_sequences_double.
    - now apply legal_sequences_different. }
  destruct Hl as (Hlen & Hv & _).
  assert (Edec : SpielMoveToCheckerMoves kPlayerCentricObs st a
                 = Returns (map clear_hit (moves_ y))).
  { apply SpielMoveToCheckerMoves_encoded; try assumption.
    - intros E. rewrite E in Ey. cbn in Ey. injection Ey as <-. lia.
    - rewrite Hlen. unfold kNumMovesPerCheckerSequence.
      destruct (legal_level st); simpl; lia. }
  assert (Hmax : a <= kNumCheckerActions).
  { pose proof Edec as E. unfold SpielMoveToCheckerMoves in E.
    destruct (a <=? 0); [discriminate|].
    destruct (kNumCheckerActions <? a) eqn:E'; [discriminate|].
    now apply Z.ltb_ge in E'. }
  destruct (legal_sequences_played st d0 d1 y Hp Hr Hwf Hy)
    as ([Hpy Hry] & Hcur & Hhyp & Hwfy & Htoty & (h & Happ)).
  destruct (legal_sequences_dice_played st d0 d1 y Hp Hr Hwf Hrd Hy)
    as [R0 R1].
  pose proof Hry as (Hdy & _).
  set (sy := state_ y) in *.
  set (st' := set_prev_player
                (push_turn_history sy
                   (mkTurnHistoryInfo (cur_player_ sy) (prev_player_ sy)
                      (dice_ sy) (remaining_dice_ sy) a (double_turn_ sy)
                      h false))
                (cur_player_ sy)).
  exists st'. split.
  { unfold DoApplyAction.
    replace (a <=? 0) with false by (symmetry; apply Z.leb_gt; lia).
    replace (kNumDistinctActions <? a) with false
      by (symmetry; apply Z.ltb_ge; unfold kNumDistinctActions; lia).
    rewrite (IsChanceNode_player st Hp), Hd.
    replace (a =? kEndTurnAction) with false
      by (symmetry; now apply Z.eqb_neq).
    rewrite Edec. cbn [bind]. rewrite Happ. reflexivity. }
  split; [exact Hcur|]. split; [now rewrite Hd|]. split; [exact Htoty|].
  assert (Hp' : valid_player (cur_player_ st')) by exact Hpy.
  assert (Hr' : rolled st' d0 d1) by exact Hry.
  assert (Hwf' : wf_pos st') by exact Hwfy.
  assert (Htot' : forall p, valid_player p ->
            total_checkers st' p = NumCheckersPerPlayer (hyper_backgammon_ st')).
  { intros p Hvp. change (total_checkers st' p) with (total_checkers sy p).
    change (hyper_backgammon_ st') with (hyper_backgammon_ sy).
    rewrite Hhyp, (Htoty p Hvp). now apply Htot. }
  assert (Hnone : legal_moves st' = [])
    by (apply (legal_moves_none st' d0 d1 Hr'); assumption).
  split; [|split; [exact Hwf' | split; [exact Hhyp | split; assumption]]].
  unfold LegalActions. rewrite (IsChanceNode_player st' Hp').
  destruct (IsTerminal st'); [reflexivity|].
  replace (dice_ st') with [d0; d1] by (symmetry; exact Hdy).
  rewrite (CountTotalCheckers_returns st' kXPlayerId Hwf' (or_introl eq_refl)).
  cbn [bind]. rewrite (Htot' kXPlayerId (or_introl eq_refl)), Z.eqb_refl.
  cbn [negb].
  rewrite (CountTotalCheckers_returns st' kOPlayerId Hwf' (or_intror eq_refl)).
  cbn [bind]. rewrite (Htot' kOPlayerId (or_intror eq_refl)), Z.eqb_refl.
  cbn [negb].
  change (kNumMovesPerCheckerSequence =? 1) with false. cbv iota.
  rewrite (LegalCheckerMoveSequences_pure st' d0 d1 Hp' Hr'). cbn [bind].
  unfold legal_sequences. rewrite Hnone. reflexivity.
Qed.

(** X20: after the dice are rolled for a player, every checker-move action
    that [LegalActions] offers is accepted by [DoApplyAction]: it returns a
    state of the same player with the same dice and as many checkers a side,
    in which every die to play has been played: [LegalActions] offers
    [kEndTurnAction] alone there, or nothing when the game is over. *)
Theorem DoApplyAction_legal_action (st0 st : BackgammonState) (roll a : Z)
    (actions : list Z) :
  valid_player (cur_player_ st0) -> wf_pos st0 ->
  (forall p, valid_player p ->
     total_checkers st0 p = NumCheckersPerPlayer (hyper_backgammon_ st0)) ->
  dice_ st0 = [] -> 1 <= roll <= 21 ->
  RollDice st0 roll = Returns st ->
  LegalActions kPlayerCentricObs st = Returns actions ->
  In a actions -> a <> kEndTurnAction ->
  exists st',
    DoApplyAction kPlayerCentricObs st a = Returns st'
    /\ cur_player_ st' = cur_player_ st /\ dice_ st' = dice_ st
    /\ (forall p, valid_player p -> total_checkers st' p = total_checkers st p)
    /\ LegalActions kPlayerCentricObs st'
       = Returns (if IsTerminal st' then [] else [kEndTurnAction]).
Proof.
  intros Hp Hwf Htot Hd Hroll Hrolled.
  rewrite (RollDice_pure st0 roll Hp Hd Hroll) in Hrolled. cbv zeta in Hrolled.
  destruct (chance_outcome_range roll Hroll) as [H0 H1].
  set (d0 := at2 kChanceOutcomeValues (roll - 1) 0) in *.
  set (d1 := at2 kChanceOutcomeValues (roll - 1) 1) in *.
  injection Hrolled as <-.
  set (st1 := set_dice st0 [d0; d1]).
  set (st := set_remaining_dice st1 (initial_remaining (legal_level st1) d0 d1)).
  assert (Hp' : valid_player (cur_player_ st)) by exact Hp.
  assert (Hr : rolled st d0 d1) by (split; [reflexivity | now split]).
  assert (Hwf' : wf_pos st) by exact Hwf.
  assert (Htot' : forall p, valid_player p ->
            total_checkers st p = NumCheckersPerPlayer (hyper_backgammon_ st))
    by exact Htot.
  assert (El : legal_level st = legal_level st1)
    by (apply legal_level_ext; [repeat split | reflexivity]).
  assert (Hrd : remaining_dice_ st = initial_remaining (legal_level st) d0 d1)
    by (rewrite El; reflexivity).
  intros Hacts Hin Hne.
  destruct (DoApplyAction_level_action st d0 d1 a actions Hp' Hr Hwf' Htot' Hrd
              Hacts Hin Hne) as (st' & H2 & H3 & H4 & H5 & H6 & _).
  exists st'. split; [exact H2|]. split; [exact H3|]. split; [exact H4|].
  split; [exact H5 | exact H6].
Qed.

End AppliedActions.

Lemma DoApplyAction_legal_action_witness :
  exists st actions,
    RollDice rolled_1_3_start 2 = Returns st
    /\ LegalActions true st = Returns actions
    /\ exists st',
         DoApplyAction true st (hd 0 actions) = Returns st'
         /\ cur_player_ st' = cur_player_ st /\ dice_ st' = dice_ st
         /\ (forall p, valid_player p ->
               total_checkers st' p = total_checkers st p)
         /\ LegalActions true st'
            = Returns (if IsTerminal st' then [] else [kEndTurnAction]).
Proof.
  eexists _, _. split; [vm_compute; reflexivity|].
  split; [vm_compute; reflexivity|].
  eapply (DoApplyAction_legal_action true rolled_1_3_start _ 2).
  - left. reflexivity.
  - apply wf_posb_sound. vm_compute. reflexivity.
  - intros p [-> | ->]; vm_compute; reflexivity.
  - reflexivity.
  - lia.
  - vm_compute. reflexivity.
  - vm_compute. reflexivity.
  - left. reflexivity.
  - vm_compute. discriminate.
Defined.

(** ** The set of sequences *)

Lemma ascii_compare_refl (a : ascii) : Ascii.compare a a = Eq.
Proof. unfold Ascii.compare. apply N.compare_refl. Qed.

Lemma string_compare_refl (s : string) : String.compare s s = Eq.
Proof.
  induction s as [|a s IH]; simpl; [reflexivity|].
  now rewrite ascii_compare_refl.
Qed.

Lemma string_compare_trans (x : string) :
  forall y z, String.compare x y = Lt -> String.compare y z = Lt ->
              String.compare x z = Lt.
Proof.
  induction x as [|a x IH]; intros [|b y] [|c z]; simpl; try discriminate;
    try reflexivity.
  destruct (Ascii.compare a b) eqn:Eab; try discriminate;
    destruct (Ascii.compare b c) eqn:Ebc; try discriminate; intros H1 H2.
  - apply Ascii.compare_eq_iff in Eab, Ebc. subst. rewrite ascii_compare_refl.
    now apply (IH y z).
  - apply Ascii.compare_eq_iff in Eab. subst. now rewrite Ebc.
  - apply Ascii.compare_eq_iff in Ebc. subst. now rewrite Eab.
  - unfold Ascii.compare in *. rewrite N.compare_lt_iff in *.
    replace (N_of_ascii a ?= N_of_ascii c)%N with Lt; [reflexivity|].
    symmetry. apply N.compare_lt_iff. lia.
Qed.

Lemma CheckerMoveSequence_lt_trans (x y z : CheckerMoveSequence) :
  CheckerMoveSequence_lt x y = true -> CheckerMoveSequence_lt y z = true ->
  CheckerMoveSequence_lt x z = true.
Proof.
  unfold CheckerMoveSequence_lt, String.ltb. intros H1 H2.
  destruct (String.compare (id_ x) (id_ y)) eqn:E1; try discriminate.
  destruct (String.compare (id_ y) (id_ z)) eqn:E2; try discriminate.
  now rewrite (string_compare_trans _ _ _ E1 E2).
Qed.

Section OrderedSet.

Context {A : Type}.
Variable lt : A -> A -> bool.
Hypothesis lt_trans : forall x y z, lt x y = true -> lt y z = true -> lt x z = true.

(** The elements of a [std::set], in strictly increasing order. *)
Fixpoint ordered (s : list A) : Prop :=
  match s with
  | [] => True
  | x :: s' => Forall (fun y => lt x y = true) s' /\ ordered s'
  end.

Lemma set_insert_ordered (x : A) (s : list A) :
  ordered s -> ordered (set_insert lt x s).
Proof.
  induction s as [|y s IH]; simpl.
  - intros _. split; [constructor | exact I].
  - intros [Hy Hs]. destruct (lt x y) eqn:E1.
    + split; [|split; assumption].
      constructor; [exact E1|].
      eapply List.Forall_impl; [|exact Hy]. intros z Hz.
      now apply (lt_trans x y z).
    + destruct (lt y x) eqn:E2; [|split; assumption].
      split; [|now apply IH].
      apply List.Forall_forall. intros z Hz. apply In_set_insert in Hz.
      destruct Hz as [-> | Hz]; [exact E2|].
      eapply List.Forall_forall in Hy; eassumption.
Qed.

Lemma ordered_lookup (s : list A) :
  ordered s ->
  forall (i j : nat) (y z : A),
    (i < j)%nat -> s !! i = Some y -> s !! j = Some z -> lt y z = true.
Proof.
  induction s as [|x s IH]; intros Hs i j y z Hij Hi Hj; [discriminate|].
  destruct Hs as [Hx Hs]. destruct j as [|j]; [lia|]. cbn in Hj.
  destruct i as [|i]; cbn in Hi.
  - injection Hi as <-. eapply List.Forall_forall in Hx; [exact Hx|].
    eapply list_elem_of_In, list_elem_of_lookup_2. exact Hj.
  - apply (IH Hs i j); [lia | assumption | assumption].
Qed.

End OrderedSet.

Lemma insert_all_ordered (seq : CheckerMoveSequence) (moves : list CheckerMove)
    (seqs : list CheckerMoveSequence) :
  ordered CheckerMoveSequence_lt seqs ->
  ordered CheckerMoveSequence_lt (insert_all seq moves seqs).
Proof.
  revert seqs. unfold insert_all.
  induction moves as [|m rest IH]; intros seqs H; simpl; [exact H|].
  apply IH. apply set_insert_ordered; [exact CheckerMoveSequence_lt_trans | exact H].
Qed.

Lemma extend_all_ordered (seqs new_seqs : list CheckerMoveSequence) :
  ordered CheckerMoveSequence_lt new_seqs ->
  ordered CheckerMoveSequence_lt (extend_all seqs new_seqs).
Proof.
  revert new_seqs. unfold extend_all.
  induction seqs as [|seq rest IH]; intros new_seqs H; simpl; [exact H|].
  apply IH. now apply insert_all_ordered.
Qed.

Lemma passes_all_ordered (passes : nat) :
  forall seqs, ordered CheckerMoveSequence_lt seqs ->
               ordered CheckerMoveSequence_lt (passes_all passes seqs).
Proof.
  induction passes as [|n IH]; intros seqs H; [exact H|].
  cbn [passes_all].
  pose proof (extend_all_ordered seqs [] I) as H'.
  destruct (extend_all seqs []) as [|z l]; [exact H|]. now apply IH.
Qed.

Lemma legal_sequences_ordered (st : BackgammonState) :
  ordered CheckerMoveSequence_lt (legal_sequences st).
Proof.
  unfold legal_sequences.
  pose proof (insert_all_ordered (CheckerMoveSequence_new st)
                (legal_moves st) [] I) as H.
  destruct (insert_all (CheckerMoveSequence_new st) (legal_moves st) [])
    as [|z l]; [exact I|].
  now apply passes_all_ordered.
Qed.

(** The id of a sequence of the search is that of its position. *)
Lemma legal_sequences_id (st : BackgammonState) (y : CheckerMoveSequence) :
  In y (legal_sequences st) -> id_ y = PositionId (state_ y).
Proof.
  unfold legal_sequences. intros Hy.
  assert (H : Forall (fun seq => id_ seq = PositionId (state_ seq))
                (insert_all (CheckerMoveSequence_new st) (legal_moves st) [])).
  { apply List.Forall_forall. intros z Hz. apply insert_all_In in Hz.
    destruct Hz as [[] | (m & _ & ->)]. reflexivity. }
  destruct (insert_all (CheckerMoveSequence_new st) (legal_moves st) [])
    as [|z l]; [destruct Hy|].
  eapply (passes_all_closed (fun seq => id_ seq = PositionId (state_ seq)))
    in H; [eapply List.Forall_forall in H; eassumption|].
  intros seq m _ _. reflexivity.
Qed.

Lemma PositionId_position (s t : BackgammonState) :
  board_ s = board_ t -> bar_ s = bar_ t -> PositionId s = PositionId t.
Proof. intros H1 H2. unfold PositionId. now rewrite H1, H2. Qed.

(** X21: the sequences [LegalCheckerMoveSequences] returns are held in the
    strictly increasing order of their position ids, so no two of them end
    in the same position (the same points and bar). *)
Theorem LegalCheckerMoveSequences_distinct (st : BackgammonState) (d0 d1 : Z)
    (seqs : list CheckerMoveSequence) (i j : nat) (y z : CheckerMoveSequence) :
  valid_player (cur_player_ st) ->
  dice_ st = [d0; d1] -> 1 <= d0 <= 6 -> 1 <= d1 <= 6 ->
  LegalCheckerMoveSequences st = Returns seqs ->
  (i < j)%nat -> seqs !! i = Some y -> seqs !! j = Some z ->
  String.ltb (PositionId (state_ y)) (PositionId (state_ z)) = true
  /\ ~ (board_ (state_ y) = board_ (state_ z)
        /\ bar_ (state_ y) = bar_ (state_ z)).
Proof.
  intros Hp Hd H0 H1 Hseqs Hij Hi Hj.
  assert (Hr : rolled st d0 d1) by (split; [exact Hd | now split]).
  rewrite (LegalCheckerMoveSequences_pure st d0 d1 Hp Hr) in Hseqs.
  injection Hseqs as <-.
  pose proof (ordered_lookup CheckerMoveSequence_lt _
                (legal_sequences_ordered st) i j y z Hij Hi Hj) as Hlt.
  unfold CheckerMoveSequence_lt in Hlt.
  rewrite (legal_sequences_id st y), (legal_sequences_id st z) in Hlt
    by (eapply list_elem_of_In, list_elem_of_lookup_2; eassumption).
  split; [exact Hlt|]. intros [Hb Hbar].
  rewrite (PositionId_position _ _ Hb Hbar) in Hlt.
  unfold String.ltb in Hlt. rewrite string_compare_refl in Hlt. discriminate.
Qed.

(** The opening position after X rolled 1 and 3. *)
Definition rolled_1_3_state : BackgammonState :=
  match RollDice rolled_1_3_start 2 with
  | Returns st => st
  | FatalError _ => rolled_1_3_start
  end.

Lemma LegalCheckerMoveSequences_distinct_witness :
  exists seqs y z,
    LegalCheckerMoveSequences rolled_1_3_state = Returns seqs
    /\ seqs !! 0%nat = Some y /\ seqs !! 1%nat = Some z
    /\ String.ltb (PositionId (state_ y)) (PositionId (state_ z)) = true
    /\ ~ (board_ (state_ y) = board_ (state_ z)
          /\ bar_ (state_ y) = bar_ (state_ z)).
Proof.
  eexists _, _, _. split; [vm_compute; reflexivity|].
  split; [reflexivity|]. split; [reflexivity|].
  eapply (LegalCheckerMoveSequences_distinct rolled_1_3_state _ _ _ 0 1).
  - left. reflexivity.
  - vm_compute. reflexivity.
  - lia.
  - lia.
  - vm_compute. reflexivity.
  - lia.
  - reflexivity.
  - reflexivity.
Defined.

(** * A game played by its legal actions *)

Lemma NewInitialState_wf_pos (scoring_type : ScoringType) (hyper : bool)
    (idx : Z) :
  0 <= idx -> wf_pos (NewInitialState scoring_type hyper idx).
Proof.
  intros Hidx. destruct hyper.
  - apply wf_posb_sound. destruct scoring_type; vm_compute; reflexivity.
  - destruct (Z_lt_le_dec idx 24) as [H | H].
    + assert (Hall : forallb
                       (fun i => wf_posb (NewInitialState scoring_type false i))
                       (zrange 0 24) = true)
        by (destruct scoring_type; vm_compute; reflexivity).
      rewrite forallb_forall in Hall. apply wf_posb_sound, Hall, In_zrange. lia.
    + destruct (Z_lt_le_dec idx 25) as [H' | H'].
      * assert (idx = 24) by lia. subst idx.
        apply wf_posb_sound. destruct scoring_type; vm_compute; reflexivity.
      * assert (E : NewInitialState scoring_type false idx
                    = NewInitialState scoring_type false 25).
        { unfold NewInitialState, SetupInitialBoard. cbn [hyper_backgammon_].
          replace (idx <? 24) with false by (symmetry; apply Z.ltb_ge; lia).
          replace (idx <? 25) with false by (symmetry; apply Z.ltb_ge; lia).
          reflexivity. }
        rewrite E. apply wf_posb_sound.
        destruct scoring_type; vm_compute; reflexivity.
Qed.

Lemma NewInitialState_fields (scoring_type : ScoringType) (hyper : bool)
    (idx : Z) :
  cur_player_ (NewInitialState scoring_type hyper idx) = kChancePlayerId
  /\ dice_ (NewInitialState scoring_type hyper idx) = []
  /\ turns_ (NewInitialState scoring_type hyper idx) = -1.
Proof.
  unfold NewInitialState, SetupInitialBoard. cbn [hyper_backgammon_].
  destruct hyper; [|destruct (idx <? 24); [|destruct (idx <? 25)]];
    repeat split.
Qed.

Section LegalPlay.

Variable kPlayerCentricObs : bool.

(** The states of a game in which every action applied was one that
    [LegalActions] offered. *)
Inductive legal_play : BackgammonState -> Prop :=
  | legal_play_initial (scoring_type : ScoringType) (hyper : bool) (idx : Z) :
      0 <= idx -> legal_play (NewInitialState scoring_type hyper idx)
  | legal_play_step (st st' : BackgammonState) (actions : list Z) (a : Z) :
      legal_play st ->
      LegalActions kPlayerCentricObs st = Returns actions -> In a actions ->
      DoApplyAction kPlayerCentricObs st a = Returns st' ->
      legal_play st'.

(** Every checker is counted, and no point is shared. *)
Definition counted (st : BackgammonState) : Prop :=
  wf_pos st
  /\ forall p, valid_player p ->
       total_checkers st p = NumCheckersPerPlayer (hyper_backgammon_ st).

(** Where a turn stands: the dice are about to be rolled; a player is to
    ask for the roll; the dice were just rolled; the dice were played. *)
Inductive phase (st : BackgammonState) : Prop :=
  | at_chance :
      cur_player_ st = kChancePlayerId -> dice_ st = [] ->
      turns_ st = -1 \/ valid_player (prev_player_ st) -> phase st
  | to_roll :
      valid_player (cur_player_ st) -> dice_ st = [] -> phase st
  | to_move (d0 d1 : Z) :
      valid_player (cur_player_ st) -> rolled st d0 d1 ->
      remaining_dice_ st = initial_remaining (legal_level st) d0 d1 ->
      phase st
  | has_moved (d0 d1 : Z) :
      valid_player (cur_player_ st) -> rolled st d0 d1 ->
      at_ (remaining_dice_ st) (d0 - 1) <= 0 ->
      at_ (remaining_dice_ st) (d1 - 1) <= 0 -> phase st.

Lemma action_in_range (a : Z) :
  1 <= a <= kNumDistinctActions ->
  (a <=? 0) = false /\ (kNumDistinctActions <? a) = false.
Proof. intros H. split; [apply Z.leb_gt | apply Z.ltb_ge]; lia. Qed.

Lemma kNumDistinctActions_value : kNumDistinctActions = 519885606.
Proof. vm_compute. reflexivity. Qed.

(** The roll of the dice for the player [st] names. *)
Lemma RollDice_to_move (st : BackgammonState) (a : Z) :
  valid_player (cur_player_ st) -> dice_ st = [] -> 1 <= a <= 21 ->
  counted st ->
  exists st', RollDice st a = Returns st' /\ counted st' /\ phase st'
              /\ turns_ st' = turns_ st /\ x_turns_ st' = x_turns_ st
              /\ o_turns_ st' = o_turns_ st.
Proof.
  intros Hp Hd Ha [Hwf Htot].
  rewrite (RollDice_pure st a Hp Hd Ha). cbv zeta.
  destruct (chance_outcome_range a Ha) as [H0 H1].
  set (d0 := at2 kChanceOutcomeValues (a - 1) 0) in *.
  set (d1 := at2 kChanceOutcomeValues (a - 1) 1) in *.
  set (st1 := set_dice st [d0; d1]).
  set (st' := set_remaining_dice st1 (initial_remaining (legal_level st1) d0 d1)).
  exists st'. split; [reflexivity|].
  split; [split; [exact Hwf | exact Htot]|].
  split; [|repeat split].
  apply (to_move st' d0 d1).
  - exact Hp.
  - split; [reflexivity | now split].
  - assert (El : legal_level st' = legal_level st1)
      by (apply legal_level_ext; [repeat split | reflexivity]).
    rewrite El. reflexivity.
Qed.

(** The phase is kept by what [set_turns] changes. *)
Lemma phase_to_move_turns (st : BackgammonState) (t x o : Z) :
  counted st /\ phase st -> valid_player (cur_player_ st) -> dice_ st <> [] ->
  counted (set_turns st t x o) /\ phase (set_turns st t x o).
Proof.
  intros [[Hwf Htot] Hph] Hp Hd.
  split; [split; [exact Hwf | exact Htot]|].
  destruct Hph as [Hc _ _ | _ Hd' | d0 d1 _ Hr Hrd | d0 d1 _ Hr R0 R1].
  - destruct Hp as [Hp | Hp]; rewrite Hp in Hc; discriminate.
  - contradiction.
  - apply (to_move _ d0 d1); [exact Hp | exact Hr|].
    assert (El : legal_level (set_turns st t x o) = legal_level st)
      by (apply legal_level_ext; [repeat split | reflexivity]).
    rewrite El. exact Hrd.
  - now apply (has_moved _ d0 d1).
Qed.

Lemma first_roll_actions :
  map fst kFirstRollChanceOutcomes = zrange 1 30.
Proof. vm_compute. reflexivity. Qed.

Lemma roll_actions : map fst kChanceOutcomes = zrange 1 21.
Proof. vm_compute. reflexivity. Qed.

(** From a state of the invariant, [LegalActions] returns, and every action
    it offers is applied and leads to a state of the invariant. *)
Lemma phase_actions (st : BackgammonState) :
  counted st -> phase st ->
  exists actions,
    LegalActions kPlayerCentricObs st = Returns actions
    /\ forall a, In a actions ->
         exists st', DoApplyAction kPlayerCentricObs st a = Returns st'
                     /\ counted st' /\ phase st'.
Proof.
  intros Hcnt Hph. pose proof Hcnt as [Hwf Htot].
  destruct Hph as [Hc Hd Hprev | Hp Hd | d0 d1 Hp Hr Hrd | d0 d1 Hp Hr R0 R1].
  - (* the dice are about to be rolled *)
    destruct (IsTerminal st) eqn:Et.
    { exists []. split; [|intros a []].
      unfold LegalActions, IsChanceNode, CurrentPlayer. rewrite Et. reflexivity. }
    assert (Hch : IsChanceNode st = true)
      by (unfold IsChanceNode, CurrentPlayer; rewrite Et, Hc; reflexivity).
    unfold LegalActions, ChanceOutcomes. rewrite Hch. cbn [negb bind].
    eexists. split; [reflexivity|]. intros a Ha.
    unfold DoApplyAction. cbv zeta. state_proj. rewrite Hch, Hd.
    destruct (turns_ st =? -1) eqn:Eturn.
    + rewrite first_roll_actions in Ha. apply In_zrange in Ha.
      destruct (action_in_range a) as [A1 A2];
        [rewrite kNumDistinctActions_value; lia|].
      rewrite A1, A2.
      set (h := mkTurnHistoryInfo _ _ _ _ _ _ _ _).
      destruct (a <=? 15) eqn:E;
        [apply Z.leb_le in E | apply Z.leb_gt in E].
      * set (s := set_prev_player _ _).
        assert (Hps : valid_player (cur_player_ s)) by (left; reflexivity).
        destruct (RollDice_to_move s a Hps Hd ltac:(lia))
          as (s' & Es & Hs' & Hph' & _); [split; [exact Hwf | exact Htot]|].
        rewrite Es. cbn [bind]. eexists. split; [reflexivity|].
        apply phase_to_move_turns; [now split | |].
        -- destruct Hph' as [? | ? | ? ? ? ? ? | ? ? ? ? ? ?]; try assumption.
           rewrite (RollDice_pure s a Hps Hd ltac:(lia)) in Es.
           injection Es as <-. exact Hps.
        -- rewrite (RollDice_pure s a Hps Hd ltac:(lia)) in Es.
           injection Es as <-. discriminate.
      * set (s := set_prev_player _ _).
        assert (Hps : valid_player (cur_player_ s)) by (right; reflexivity).
        destruct (RollDice_to_move s (a - 15) Hps Hd ltac:(lia))
          as (s' & Es & Hs' & Hph' & _); [split; [exact Hwf | exact Htot]|].
        rewrite Es. cbn [bind]. eexists. split; [reflexivity|].
        apply phase_to_move_turns; [now split | |].
        -- destruct Hph' as [? | ? | ? ? ? ? ? | ? ? ? ? ? ?]; try assumption.
           rewrite (RollDice_pure s (a - 15) Hps Hd ltac:(lia)) in Es.
           injection Es as <-. exact Hps.
        -- rewrite (RollDice_pure s (a - 15) Hps Hd ltac:(lia)) in Es.
           injection Es as <-. discriminate.
    + rewrite roll_actions in Ha. apply In_zrange in Ha.
      destruct (action_in_range a) as [A1 A2];
        [rewrite kNumDistinctActions_value; lia|].
      rewrite A1, A2.
      apply Z.eqb_neq in Eturn.
      destruct Hprev as [Hprev | Hprev]; [contradiction|].
      set (s := set_cur_player _ _).
      assert (Hps : valid_player (cur_player_ s)) by exact Hprev.
      destruct (RollDice_to_move s a Hps Hd ltac:(lia))
        as (s' & Es & Hs' & Hph' & _); [split; [exact Hwf | exact Htot]|].
      exists s'. split; [exact Es|]. now split.
  - (* a player is to ask for the roll *)
    unfold LegalActions. rewrite (IsChanceNode_player st Hp).
    destruct (IsTerminal st); [exists []; split; [reflexivity | intros a []]|].
    rewrite Hd. exists [kRollAction]. split; [reflexivity|].
    intros a [<- | []].
    unfold DoApplyAction.
    destruct (action_in_range kRollAction) as [A1 A2];
      [rewrite kNumDistinctActions_value; vm_compute; split; discriminate|].
    rewrite A1, A2, (IsChanceNode_player st Hp), Hd, Z.eqb_refl. cbn [negb].
    eexists. split; [reflexivity|].
    split; [split; [exact Hwf | exact Htot]|].
    apply at_chance; [reflexivity | exact Hd | right; exact Hp].
  - (* the dice were just rolled *)
    pose proof Hr as (Hd & _).
    destruct (LegalActions_level kPlayerCentricObs st d0 d1 Hp Hr Hwf Htot Hrd)
      as (actions & Eacts & _).
    exists actions. split; [exact Eacts|]. intros a Ha.
    destruct (Z.eq_dec a kEndTurnAction) as [-> | Hne].
    + unfold DoApplyAction.
      destruct (action_in_range kEndTurnAction) as [A1 A2];
        [rewrite kNumDistinctActions_value; vm_compute; split; discriminate|].
      rewrite A1, A2, (IsChanceNode_player st Hp), Hd, Z.eqb_refl.
      eexists. split; [reflexivity|].
      split; [split; [exact Hwf | exact Htot]|].
      apply to_roll; [|reflexivity].
      apply (Opponent_valid _ Hp).
    + destruct (DoApplyAction_level_action kPlayerCentricObs st d0 d1 a actions
                  Hp Hr Hwf Htot Hrd Eacts Ha Hne)
        as (st' & E1 & E2 & E3 & E4 & _ & W & Hh & R0 & R1).
      exists st'. split; [exact E1|]. split.
      * split; [exact W|]. intros p Hvp. rewrite Hh, (E4 p Hvp). now apply Htot.
      * apply (has_moved st' d0 d1); try assumption.
        -- now rewrite E2.
        -- destruct Hr as (D & H0 & H1). split; [now rewrite E3 | now split].
  - (* the dice were played *)
    pose proof Hr as (Hd & _).
    assert (Hnone : legal_moves st = [])
      by (apply (legal_moves_none st d0 d1 Hr); assumption).
    unfold LegalActions. rewrite (IsChanceNode_player st Hp).
    destruct (IsTerminal st); [exists []; split; [reflexivity | intros a []]|].
    rewrite Hd.
    rewrite (CountTotalCheckers_returns st kXPlayerId Hwf (or_introl eq_refl)).
    cbn [bind]. rewrite (Htot kXPlayerId (or_introl eq_refl)), Z.eqb_refl.
    cbn [negb].
    rewrite (CountTotalCheckers_returns st kOPlayerId Hwf (or_intror eq_refl)).
    cbn [bind]. rewrite (Htot kOPlayerId (or_intror eq_refl)), Z.eqb_refl.
    cbn [negb].
    change (kNumMovesPerCheckerSequence =? 1) with false. cbv iota.
    rewrite (LegalCheckerMoveSequences_pure st d0 d1 Hp Hr). cbn [bind].
    unfold legal_sequences. rewrite Hnone.
    exists [kEndTurnAction]. split; [reflexivity|].
    intros a [<- | []].
    unfold DoApplyAction.
    destruct (action_in_range kEndTurnAction) as [A1 A2];
      [rewrite kNumDistinctActions_value; vm_compute; split; discriminate|].
    rewrite A1, A2, (IsChanceNode_player st Hp), Hd, Z.eqb_refl.
    eexists. split; [reflexivity|].
    split; [split; [exact Hwf | exact Htot]|].
    apply to_roll; [|reflexivity].
    apply (Opponent_valid _ Hp).
Qed.

Lemma legal_play_phase (st : BackgammonState) :
  legal_play st -> counted st /\ phase st.
Proof.
  induction 1 as [sc hyper idx Hidx | st st' actions a _ [Hc Hph] Hacts Ha Hstep].
  - destruct (NewInitialState_fields sc hyper idx) as (F1 & F2 & F3).
    split.
    + split; [now apply NewInitialState_wf_pos|].
      apply (NewInitialState_invariant sc hyper idx Hidx).
    + apply at_chance; [exact F1 | exact F2 | now left].
  - destruct (phase_actions st Hc Hph) as (actions' & E & Hall).
    rewrite E in Hacts. injection Hacts as ->.
    destruct (Hall a Ha) as (st'' & E' & H'). rewrite E' in Hstep.
    injection Hstep as <-. exact H'.
Qed.

(** X25: in a game played by actions that [LegalActions] offered, from any
    initial state, no check of [LegalActions] or [DoApplyAction] fails:
    [LegalActions] returns, [DoApplyAction] applies each action it offers,
    every player keeps all checkers, and no point holds checkers of both
    players. *)
Theorem legal_play_never_aborts (st : BackgammonState) :
  legal_play st ->
  (exists actions,
     LegalActions kPlayerCentricObs st = Returns actions
     /\ forall a, In a actions ->
          exists st', DoApplyAction kPlayerCentricObs st a = Returns st')
  /\ (forall p, valid_player p ->
        CountTotalCheckers st p
        = Returns (NumCheckersPerPlayer (hyper_backgammon_ st)))
  /\ (forall i, 0 <= i <= 23 ->
        at2 (board_ st) kXPlayerId i = 0 \/ at2 (board_ st) kOPlayerId i = 0).
Proof.
  intros H. apply legal_play_phase in H. destruct H as [Hc Hph].
  destruct (phase_actions st Hc Hph) as (actions & E & Hall).
  destruct Hc as [Hwf Htot].
  split; [|split].
  - exists actions. split; [exact E|]. intros a Ha.
    destruct (Hall a Ha) as (st' & E' & _). now exists st'.
  - intros p Hp. rewrite (CountTotalCheckers_returns st p Hwf Hp).
    f_equal. now apply Htot.
  - apply Hwf.
Qed.

End LegalPlay.

(** The state after the opening roll 17 (O starts). *)
Definition opening_roll_17 : BackgammonState :=
  match DoApplyAction true (NewInitialState kWinLossScoring false 100) 17 with
  | Returns st => st
  | FatalError _ => NewInitialState kWinLossScoring false 100
  end.

Lemma legal_play_never_aborts_witness :
  legal_play true opening_roll_17
  /\ (exists actions,
        LegalActions true opening_roll_17 = Returns actions
        /\ forall a, In a actions ->
             exists st', DoApplyAction true opening_roll_17 a = Returns st')
  /\ (forall p, valid_player p ->
        CountTotalCheckers opening_roll_17 p
        = Returns (NumCheckersPerPlayer (hyper_backgammon_ opening_roll_17)))
  /\ (forall i, 0 <= i <= 23 ->
        at2 (board_ opening_roll_17) kXPlayerId i = 0
        \/ at2 (board_ opening_roll_17) kOPlayerId i = 0).
Proof.
  assert (H : legal_play true opening_roll_17).
  { apply (legal_play_step true (NewInitialState kWinLossScoring false 100)
             opening_roll_17 (zrange 1 30) 17).
    - apply legal_play_initial. lia.
    - vm_compute. reflexivity.
    - apply In_zrange. lia.
    - vm_compute. reflexivity. }
  split; [exact H|].
  apply (legal_play_never_aborts true opening_roll_17 H).
Defined.

(** * Where a move ends *)

(** X26: for every move [SingleCheckerMoves] generates, [IsHit] returns the
    move's [hit] flag: the generator and [IsHit] agree on which moves hit. *)
Theorem IsHit_SingleCheckerMoves (st : BackgammonState) (die : Z)
    (bFirstOnly : bool) (moves : list CheckerMove) (m : CheckerMove) :
  valid_player (cur_player_ st) -> 1 <= die <= 6 ->
  SingleCheckerMoves st die bFirstOnly = Returns moves -> In m moves ->
  IsHit st (cur_player_ st) (pos m) (num m) = Returns (hit m).
Proof.
  intros Hp Hd Hmoves Hm.
  rewrite (SingleCheckerMoves_pure st die bFirstOnly Hp) in Hmoves.
  injection Hmoves as <-.
  pose proof (moves_for_legal st die bFirstOnly m Hp Hd Hm) as Hl.
  destruct (legal_single_valid st die m Hd Hl) as [Hv _].
  pose proof (move_target_range _ _ Hp Hv) as Ht.
  destruct Hl as (_ & Hsrc & Htgt). cbv zeta in Htgt.
  unfold IsHit.
  replace (pos m =? kPassPos) with false
    by (symmetry; apply Z.eqb_neq; unfold kPassPos, kBarPos in *; lia).
  cbn [negb]. rewrite (PositionFrom_pure _ m Hp). cbn [bind].
  set (tgt := move_target (cur_player_ st) m) in *.
  destruct Htgt as [[Es Eh] | (Es & _ & Eh)].
  - rewrite Es, Eh. reflexivity.
  - replace (tgt =? kScorePos) with false by (symmetry; now apply Z.eqb_neq).
    cbn [negb]. unfold board.
    assert (Hr : 0 <= tgt <= 23) by (destruct Ht; [contradiction | assumption]).
    replace (tgt =? kBarPos) with false
      by (symmetry; apply Z.eqb_neq; unfold kBarPos; lia).
    replace (tgt <? 0) with false by (symmetry; apply Z.ltb_ge; lia).
    replace (kNumPoints <=? tgt) with false
      by (symmetry; apply Z.leb_gt; unfold kNumPoints; lia).
    cbn [bind]. now rewrite Eh.
Qed.

Lemma IsHit_SingleCheckerMoves_witness :
  IsHit opening_position (cur_player_ opening_position) 0 3 = Returns false.
Proof.
  apply (IsHit_SingleCheckerMoves opening_position 3 false
           [mkCheckerMove 0 3 false; mkCheckerMove 11 3 false;
            mkCheckerMove 16 3 false; mkCheckerMove 18 3 false]
           (mkCheckerMove 0 3 false)).
  - left. reflexivity.
  - lia.
  - vm_compute. reflexivity.
  - left. reflexivity.
Defined.

(** X27: [PositionFrom] and [GetToPos] agree. For the players 0 and 1, from
    a point or from the bar with at most 24 pips, [PositionFrom] returns
    [kScorePos] when the position [GetToPos] returns is off the board
    ([IsOff]), and that position otherwise; for any other player both
    abort. *)
Theorem PositionFrom_GetToPos (player from spaces : Z) :
  (valid_player player ->
   from <> kBarPos \/ 0 <= spaces <= 24 ->
   exists to,
     GetToPos player from spaces = Returns to
     /\ PositionFrom player from spaces
        = Returns (if IsOff player to then kScorePos else to))
  /\ (~ valid_player player ->
      (exists msg, GetToPos player from spaces = FatalError msg)
      /\ exists msg, PositionFrom player from spaces = FatalError msg).
Proof.
  split.
  - intros [-> | ->] Hfrom; unfold kBarPos in Hfrom;
      unfold GetToPos, PositionFrom, PositionFromBar, IsOff; unfold_consts; bool_consts; cbv iota; cbn [andb orb];
      eexists; (split; [reflexivity|]);
      destruct (from =? 100) eqn:E;
      [ apply Z.eqb_eq in E | apply Z.eqb_neq in E
      | apply Z.eqb_eq in E | apply Z.eqb_neq in E ];
      cbn [andb orb];
      repeat match goal with
             | |- context [if ?c then _ else _] => destruct c eqn:?
             end;
      rewrite ?Z.ltb_lt, ?Z.ltb_ge in *; try reflexivity; f_equal; lia.
  - intros Hn.
    assert (E0 : (player =? kXPlayerId) = false)
      by (apply Z.eqb_neq; intros ->; apply Hn; now left).
    assert (E1 : (player =? kOPlayerId) = false)
      by (apply Z.eqb_neq; intros ->; apply Hn; now right).
    unfold GetToPos, PositionFrom, PositionFromBar. rewrite E0, E1.
    split; [now eexists|]. destruct (from =? kBarPos); now eexists.
Qed.

Section LegalActionsEmpty.

Variable kPlayerCentricObs : bool.

Lemma LegalActions_terminal (st : BackgammonState) :
  IsTerminal st = true -> LegalActions kPlayerCentricObs st = Returns [].
Proof.
  intros Et. unfold LegalActions, IsChanceNode, CurrentPlayer.
  rewrite Et. reflexivity.
Qed.

Lemma insert_sorted_not_nil (a : Z) (l : list Z) : insert_sorted a l <> [].
Proof. destruct l as [|b l]; simpl; [|destruct (a <=? b)]; discriminate. Qed.

Lemma sort_actions_not_nil (l : list Z) : l <> [] -> sort_actions l <> [].
Proof.
  destruct l as [|a l]; [congruence|]. intros _. unfold sort_actions.
  simpl. apply insert_sorted_not_nil.
Qed.

Lemma legal_sequences_moves (st : BackgammonState) (y : CheckerMoveSequence) :
  In y (legal_sequences st) -> moves_ y <> [].
Proof.
  unfold legal_sequences. intros Hy.
  assert (H : Forall (fun seq => moves_ seq <> [])
                (insert_all (CheckerMoveSequence_new st) (legal_moves st) [])).
  { apply List.Forall_forall. intros z Hz. apply insert_all_In in Hz.
    destruct Hz as [[] | (m & _ & ->)]. cbn [add_move moves_].
    intros E. now apply app_eq_nil in E. }
  destruct (insert_all (CheckerMoveSequence_new st) (legal_moves st) [])
    as [|z l]; [destruct Hy|].
  eapply (passes_all_closed (fun seq => moves_ seq <> [])) in H;
    [eapply List.Forall_forall in H; eassumption|].
  intros seq m _ _. cbn [add_move moves_].
  intros E. now apply app_eq_nil in E.
Qed.

Lemma encode_sequences_length (st : BackgammonState)
    (seqs : list CheckerMoveSequence) :
  (forall y, In y seqs -> Forall valid_move (moves_ y) /\ moves_ y <> []) ->
  forall legal_actions,
  exists actions,
    encode_sequences kPlayerCentricObs st seqs legal_actions = Returns actions
    /\ length actions = (length legal_actions + length seqs)%nat.
Proof.
  induction seqs as [|seq rest IH]; intros Hv acc; simpl.
  - exists acc. split; [reflexivity | lia].
  - destruct (Hv seq (or_introl eq_refl)) as [Hval Hne].
    destruct (encode_decode_loop kPlayerCentricObs st (moves_ seq) Hval)
      as (a & Ea & _ & Pa & _).
    unfold CheckerMovesToSpielMove. rewrite Ea. cbn [bind].
    assert (Hpos : 0 < a).
    { destruct (moves_ seq) as [|m ms]; [congruence|].
      cbn [length] in Pa.
      assert (2 <= 2 ^ Z.of_nat (S (length ms))).
      { rewrite Nat2Z.inj_succ, Z.pow_succ_r by lia.
        pose proof (Z.pow_pos_nonneg 2 (Z.of_nat (length ms))). lia. }
      lia. }
    replace (0 <? a) with true by (symmetry; now apply Z.ltb_lt).
    destruct (IH (fun y Hy => Hv y (or_intror Hy)) (acc ++ [a]))
      as (acts & Eacts & Hlen).
    exists acts. split; [exact Eacts|].
    rewrite Hlen, length_app. simpl. lia.
Qed.

(** In the states of the invariant that are not terminal, [LegalActions]
    offers an action. *)
Lemma phase_actions_not_nil (st : BackgammonState) (actions : list Z) :
  counted st -> phase st -> IsTerminal st = false ->
  LegalActions kPlayerCentricObs st = Returns actions -> actions <> [].
Proof.
  intros [Hwf Htot] Hph Et.
  destruct Hph as [Hc Hd Hprev | Hp Hd | d0 d1 Hp Hr Hrd | d0 d1 Hp Hr R0 R1].
  - assert (Hch : IsChanceNode st = true)
      by (unfold IsChanceNode, CurrentPlayer; rewrite Et, Hc; reflexivity).
    unfold LegalActions, ChanceOutcomes. rewrite Hch. cbn [negb bind].
    intros [= <-]. destruct (turns_ st =? -1); discriminate.
  - unfold LegalActions. rewrite (IsChanceNode_player st Hp), Et, Hd.
    intros [= <-]. discriminate.
  - pose proof Hr as (Hd & _).
    unfold LegalActions. rewrite (IsChanceNode_player st Hp), Et, Hd.
    rewrite (CountTotalCheckers_returns st kXPlayerId Hwf (or_introl eq_refl)).
    cbn [bind]. rewrite (Htot kXPlayerId (or_introl eq_refl)), Z.eqb_refl.
    cbn [negb].
    rewrite (CountTotalCheckers_returns st kOPlayerId Hwf (or_intror eq_refl)).
    cbn [bind]. rewrite (Htot kOPlayerId (or_intror eq_refl)), Z.eqb_refl.
    cbn [negb].
    change (kNumMovesPerCheckerSequence =? 1) with false. cbv iota.
    rewrite (LegalCheckerMoveSequences_pure st d0 d1 Hp Hr). cbn [bind].
    destruct (legal_sequences st) as [|s0 seqs] eqn:Es.
    { intros [= <-]. discriminate. }
    destruct (encode_sequences_length st (s0 :: seqs)) with (legal_actions := @nil Z)
      as (acts & Eacts & Hlen).
    { intros y Hy. rewrite <- Es in Hy. split.
      - assert (Hl : level_sequence (legal_level st) (Z.max d0 d1) y).
        { destruct (Z.eq_dec d0 d1) as [E | E].
          - subst d1. rewrite Z.max_id. now apply legal_sequences_double.
          - now apply legal_sequences_different. }
        apply Hl.
      - now apply (legal_sequences_moves st). }
    rewrite Eacts. cbn [bind]. intros [= <-].
    apply sort_actions_not_nil. destruct acts; [discriminate | discriminate].
  - pose proof Hr as (Hd & _).
    assert (Hnone : legal_moves st = [])
      by (apply (legal_moves_none st d0 d1 Hr); assumption).
    unfold LegalActions. rewrite (IsChanceNode_player st Hp), Et, Hd.
    rewrite (CountTotalCheckers_returns st kXPlayerId Hwf (or_introl eq_refl)).
    cbn [bind]. rewrite (Htot kXPlayerId (or_introl eq_refl)), Z.eqb_refl.
    cbn [negb].
    rewrite (CountTotalCheckers_returns st kOPlayerId Hwf (or_intror eq_refl)).
    cbn [bind]. rewrite (Htot kOPlayerId (or_intror eq_refl)), Z.eqb_refl.
    cbn [negb].
    change (kNumMovesPerCheckerSequence =? 1) with false. cbv iota.
    rewrite (LegalCheckerMoveSequences_pure st d0 d1 Hp Hr). cbn [bind].
    unfold legal_sequences. rewrite Hnone. intros [= <-]. discriminate.
Qed.

(** X28: in a game played by actions that [LegalActions] offered,
    [LegalActions] returns no action exactly in the terminal states: a
    player who cannot move is offered [kEndTurnAction], never an empty
    list. *)
Theorem LegalActions_empty_iff_terminal (st : BackgammonState) :
  legal_play kPlayerCentricObs st ->
  exists actions,
    LegalActions kPlayerCentricObs st = Returns actions
    /\ (actions = [] <-> IsTerminal st = true).
Proof.
  intros H. apply legal_play_phase in H. destruct H as [Hc Hph].
  destruct (IsTerminal st) eqn:Et.
  - exists []. split; [now apply LegalActions_terminal | tauto].
  - destruct (phase_actions kPlayerCentricObs st Hc Hph) as (actions & E & _).
    exists actions. split; [exact E|]. split; [|discriminate].
    intros ->. exfalso.
    now apply (phase_actions_not_nil st [] Hc Hph Et E).
Qed.

End LegalActionsEmpty.

Lemma LegalActions_empty_iff_terminal_witness :
  exists actions,
    LegalActions true opening_roll_17 = Returns actions
    /\ (actions = [] <-> IsTerminal opening_roll_17 = true).
Proof.
  apply (LegalActions_empty_iff_terminal true opening_roll_17).
  apply (legal_play_step true (NewInitialState kWinLossScoring false 100)
           opening_roll_17 (zrange 1 30) 17).
  - apply legal_play_initial. lia.
  - vm_compute. reflexivity.
  - apply In_zrange. lia.
  - vm_compute. reflexivity.
Defined.
End BackgammonFacts.
